(** * mmriver-tiles-ts: a tiled Merkle Mountain Range log

    Shallow embedding of [src/algorithms.ts], [src/bytes.ts] and
    [src/tiles.ts] together with the SQLite storage provider, followed by the
    properties of the index algebra, of the proof machinery and of the tile
    log.

    Numbers.  The TypeScript code works on JavaScript [number]s.  Every value
    that the code builds from a non-negative index by [+], [-] and [*] is an
    integer; such values are modelled by [Z] (exact below 2^53).  The bit
    operators [<<], [>>], [|] and [&] first convert their operands with
    ToInt32 and that wrap-around is written out in module [JS].
    [Math.floor (Math.log2 x)] is only reached with positive integers and is
    modelled by [Z.log2].

    Loops.  Every [while] loop of the source takes a [fuel] argument; a loop
    that is still running when the fuel is spent yields [OutOfFuel].  The
    results below state that a small, explicit amount of fuel is enough. *)

From Stdlib Require Import ZArith List Lia Bool String.
From Stdlib.Strings Require Import Byte.
From stdpp Require Import base option gmap.
Import ListNotations.
Local Open Scope Z_scope.

(** ** Outcomes of a JavaScript computation *)

Inductive exn : Type :=
| TileFullError
| MMRIndexRangeError
| EmptyError
| ExistsError
| ChangedError
| RangeError
| TypeError
| Error (msg : string).

Inductive result (A : Type) : Type :=
| Ok (a : A)
| Throw (e : exn)
| OutOfFuel.
Arguments Ok {A} a.
Arguments Throw {A} e.
Arguments OutOfFuel {A}.

Definition rbind {A B} (r : result A) (k : A -> result B) : result B :=
  match r with
  | Ok a => k a
  | Throw e => Throw e
  | OutOfFuel => OutOfFuel
  end.

Declare Scope js_scope.
Delimit Scope js_scope with js.
Notation "'let*' x ':=' r 'in' k" := (rbind r (fun x => k))
  (at level 10, x pattern, r at level 100, k at level 200) : js_scope.
Local Open Scope js_scope.

(** A computation over a mutable object of type [S]: the object survives an
    exception, as a JavaScript object mutated before a [throw] does. *)
Definition M (S A : Type) : Type := S -> result A * S.

Definition mret {S A} (a : A) : M S A := fun s => (Ok a, s).
Definition mthrow {S A} (e : exn) : M S A := fun s => (Throw e, s).
Definition mbind {S A B} (m : M S A) (k : A -> M S B) : M S B :=
  fun s => match m s with
           | (Ok a, s') => k a s'
           | (Throw e, s') => (Throw e, s')
           | (OutOfFuel, s') => (OutOfFuel, s')
           end.
Definition mlift {S A} (r : result A) : M S A := fun s => (r, s).

Notation "'do*' x '<-' m ';' k" := (mbind m (fun x => k))
  (at level 10, x pattern, m at level 100, k at level 200) : js_scope.

(** ** JavaScript number primitives *)

Module JS.

  (** ToInt32 on an integer-valued number. *)
Definition to_int32 (x : Z) : Z := (x + 2 ^ 31) mod 2 ^ 32 - 2 ^ 31.

  (** ToUint32 on an integer-valued number. *)
Definition to_uint32 (x : Z) : Z := x mod 2 ^ 32.

  (** [a << n] *)
Definition shl (a n : Z) : Z := to_int32 (Z.shiftl (to_int32 a) (n mod 32)).

  (** [a >> n] *)
Definition sar (a n : Z) : Z := Z.shiftr (to_int32 a) (n mod 32).

  (** [a | b] *)
Definition bor (a b : Z) : Z := to_int32 (Z.lor (to_int32 a) (to_int32 b)).

  (** [a & b] *)
Definition band (a b : Z) : Z := to_int32 (Z.land (to_int32 a) (to_int32 b)).

  (** [Math.clz32 x] *)
Definition clz32 (x : Z) : Z :=
    let u := to_uint32 x in
    if u =? 0 then 32 else 31 - Z.log2 u.

  (** [Math.floor (Math.log2 x)] for an integer [x > 0]. *)
Definition log2_floor (x : Z) : Z := Z.log2 x.

Definition MAX_SAFE_INTEGER : Z := 2 ^ 53 - 1.

End JS.

(** ** Bytes ([src/bytes.ts]) *)

Abbreviation bytes := (list byte).

Definition byte_of_Z (z : Z) : byte :=
  match Byte.of_N (Z.to_N (z mod 256)) with
  | Some b => b
  | None => x00
  end.

Definition Z_of_byte (b : byte) : Z := Z.of_N (Byte.to_N b).

(** The big-endian bytes of [n mod 2^(8*k)]. *)
Fixpoint be_bytes (k : nat) (n : Z) : bytes :=
  match k with
  | O => []
  | S k' => be_bytes k' (n / 256) ++ [byte_of_Z n]
  end.

Fixpoint be_value (bs : bytes) (acc : Z) : Z :=
  match bs with
  | [] => acc
  | b :: bs' => be_value bs' (acc * 256 + Z_of_byte b)
  end.

Definition zeros (n : Z) : bytes := replicate (Z.to_nat n) x00.

Definition blen (b : bytes) : Z := Z.of_nat (length b).

Definition concat_bytes (inputs : list bytes) : bytes := concat inputs.

(** [TypedArray.prototype.subarray (start, end)] as the window it selects:
    offset and length inside the underlying buffer. *)
Definition subarray_window (len start end_ : Z) : Z * Z :=
  let rel := fun x => if x <? 0 then Z.max (len + x) 0 else Z.min x len in
  let s := rel start in
  let e := rel end_ in
  (s, Z.max (e - s) 0).

Definition slice (b : bytes) (off n : Z) : bytes :=
  firstn (Z.to_nat n) (skipn (Z.to_nat off) b).

Definition subarray (b : bytes) (start end_ : Z) : bytes :=
  let '(off, n) := subarray_window (blen b) start end_ in slice b off n.

(** [target.set (src, offset)]: a [RangeError] when [src] does not fit. *)
Definition buf_set (target src : bytes) (offset : Z) : result bytes :=
  if (offset <? 0) || (blen target <? offset + blen src) then Throw RangeError
  else Ok (firstn (Z.to_nat offset) target ++ src
           ++ skipn (Z.to_nat (offset + blen src)) target).

(** A [Uint8Array] that is a view: [byteLength] bytes at [byteOffset] of
    the [ArrayBuffer] whose bytes are [buffer].  [subarray] returns such a
    view, which shares the buffer of the array it is taken from.  The byte
    lists used elsewhere stand for arrays that span their own buffer
    ([whole]). *)
Record Uint8Array : Type := {
  buffer : bytes;
  byteOffset : Z;
  byteLength : Z
}.

Definition whole (b : bytes) : Uint8Array :=
  {| buffer := b; byteOffset := 0; byteLength := blen b |}.

(** The bytes seen through the view. *)
Definition view_bytes (v : Uint8Array) : bytes :=
  slice (buffer v) (byteOffset v) (byteLength v).

(** [v.subarray (start, end)]: a view on the same buffer. *)
Definition subarray_view (v : Uint8Array) (start end_ : Z) : Uint8Array :=
  {| buffer := buffer v;
     byteOffset := byteOffset v + fst (subarray_window (byteLength v) start end_);
     byteLength := snd (subarray_window (byteLength v) start end_) |}.

(** The view after a write into its buffer. *)
Definition with_buffer (v : Uint8Array) (b : bytes) : Uint8Array :=
  {| buffer := b; byteOffset := byteOffset v; byteLength := byteLength v |}.

Module Numbers.

  (** [toBE64 (n, size)] *)
Definition toBE64 (n : Z) (size : Z) : result bytes :=
    if size <? 8 then Throw (Error "size minumum is 8")
    else Ok (zeros (size - 8) ++ be_bytes 8 n).

  (** [setBE64 (n, at, buf)].  The [DataView] is made on [buf.buffer] with
      no offset, so [at] counts from the start of the buffer whatever
      [buf.byteOffset] is, and the bound is the length of the buffer. *)
Definition setBE64 (n at_ : Z) (buf : Uint8Array) : result Uint8Array :=
    let* b := buf_set (buffer buf) (be_bytes 8 n) at_ in
    Ok (with_buffer buf b).

  (** [fromBE64 (buf, offset, 8)].  The [DataView] is made on [buf.buffer]
      at [offset]: again [buf.byteOffset] is not used. *)
Definition fromBE64 (buf : Uint8Array) (offset : Z) : result Z :=
    if (offset <? 0) || (blen (buffer buf) <? offset + 8) then Throw RangeError
    else
      let value := be_value (slice (buffer buf) offset 8) 0 in
      if JS.MAX_SAFE_INTEGER <? value
      then Throw (Error "Number exceeds MAX_SAFE_INTEGER")
      else Ok value.

End Numbers.

(** ** The algorithms of the MMRIVER draft ([src/algorithms.ts]) *)

Definition Hasher : Type := bytes -> bytes.

Definition log2_floor (x : Z) : Z := JS.log2_floor x.

Definition bit_length (x : Z) : Z :=
  if x =? 0 then 0 else log2_floor x + 1.

Definition most_sig_bit (x : Z) : Z := JS.shl 1 (bit_length x - 1).

Definition all_ones (pos : Z) : bool :=
  let imsb := bit_length pos - 1 in
  let mask := JS.shl 1 (imsb + 1) - 1 in
  pos =? mask.

Fixpoint index_height_loop (fuel : nat) (pos : Z) : result Z :=
  match fuel with
  | O => OutOfFuel
  | S fuel' =>
      if negb (all_ones pos)
      then index_height_loop fuel' (pos - (most_sig_bit pos - 1))
      else Ok (bit_length pos - 1)
  end.

Definition index_height (fuel : nat) (i : Z) : result Z :=
  index_height_loop fuel (i + 1).

Fixpoint peaks_loop (fuel : nat) (peak s : Z) (acc : list Z) : result (list Z) :=
  match fuel with
  | O => OutOfFuel
  | S fuel' =>
      if negb (s =? 0) then
        let highest_size := JS.shl 1 (log2_floor (s + 1)) - 1 in
        let peak := peak + highest_size in
        peaks_loop fuel' peak (s - highest_size) (acc ++ [peak - 1])
      else Ok acc
  end.

Definition peaks (fuel : nat) (i : Z) : result (list Z) :=
  peaks_loop fuel 0 (i + 1) [].

Definition hash_pos_pair64 (hasher : Hasher) (pos : Z) (left right : bytes) : bytes :=
  hasher (concat_bytes [be_bytes 8 pos; left; right]).

Fixpoint bytes_equal (a b : bytes) : bool :=
  match a, b with
  | [], [] => true
  | x :: a', y :: b' => Byte.eqb x y && bytes_equal a' b'
  | _, _ => false
  end.

Fixpoint ones_loop (fuel : nat) (x count : Z) : result Z :=
  match fuel with
  | O => OutOfFuel
  | S fuel' =>
      if negb (x =? 0)
      then ones_loop fuel' (JS.sar x 1) (count + JS.band x 1)
      else Ok count
  end.

Definition ones (fuel : nat) (x : Z) : result Z := ones_loop fuel x 0.

Definition trailing_zeros64 (x : Z) : result Z :=
  if (x <? 0) || (2 ^ 32 - 1 <? x) then Throw RangeError
  else if x =? 0 then Ok 64
  else Ok (31 - JS.clz32 (JS.band x (- x))).

Fixpoint leaf_count_loop (fuel : nat) (s peaksize peakmap : Z) : result Z :=
  match fuel with
  | O => OutOfFuel
  | S fuel' =>
      if 0 <? peaksize then
        let peakmap := JS.shl peakmap 1 in
        let '(s, peakmap) :=
          if peaksize <=? s then (s - peaksize, JS.bor peakmap 1) else (s, peakmap) in
        leaf_count_loop fuel' s (JS.sar peaksize 1) peakmap
      else Ok peakmap
  end.

Definition leaf_count (fuel : nat) (i : Z) : result Z :=
  let s := i + 1 in
  leaf_count_loop fuel s (JS.shl 1 (bit_length s) - 1) 0.

Fixpoint mmr_index_loop (fuel : nat) (e sum : Z) : result Z :=
  match fuel with
  | O => OutOfFuel
  | S fuel' =>
      if 0 <? e then
        let h := bit_length e in
        let sum := sum + (JS.shl 1 h - 1) in
        let half := JS.shl 1 (h - 1) in
        mmr_index_loop fuel' (e - half) sum
      else Ok sum
  end.

Definition mmr_index (fuel : nat) (e : Z) : result Z := mmr_index_loop fuel e 0.

Fixpoint complete_mmr_loop (fuel : nat) (i h0 h1 : Z) : result Z :=
  match fuel with
  | O => OutOfFuel
  | S fuel' =>
      if h0 <? h1 then
        let i := i + 1 in
        let* h1' := index_height fuel (i + 1) in
        complete_mmr_loop fuel' i h1 h1'
      else Ok i
  end.

Definition complete_mmr (fuel : nat) (i : Z) : result Z :=
  let* h0 := index_height fuel i in
  let* h1 := index_height fuel (i + 1) in
  complete_mmr_loop fuel i h0 h1.

Fixpoint accumulator_root_loop (fuel : nat) (i s peaksize r : Z) : result Z :=
  match fuel with
  | O => OutOfFuel
  | S fuel' =>
      if 0 <? peaksize then
        if s <? r + peaksize then
          accumulator_root_loop fuel' i s (JS.sar peaksize 1) r
        else if i <? r + peaksize then Ok (r + peaksize - 1)
        else accumulator_root_loop fuel' i s (JS.sar peaksize 1) (r + peaksize)
      else Ok r
  end.

Definition accumulator_root (fuel : nat) (i c : Z) : result Z :=
  let s := c + 1 in
  accumulator_root_loop fuel i s (JS.shl 1 (bit_length s) - 1) 0.

(** One turn of the [while (true)] loop of [inclusion_proof_path]: the sibling
    of [i] and the parent that [i] advances to. *)
Definition path_step (fuel : nat) (i g : Z) : result (Z * Z) :=
  let siblingoffset := JS.shl 2 g in
  let* h := index_height fuel (i + 1) in
  if g <? h then Ok (i - siblingoffset + 1, i + 1)
  else Ok (i + siblingoffset - 1, i + siblingoffset).

Fixpoint inclusion_proof_path_loop (fuel : nat) (i c g : Z) (path : list Z)
  : result (list Z) :=
  match fuel with
  | O => OutOfFuel
  | S fuel' =>
      let* (isibling, i') := path_step fuel i g in
      if c <? isibling then Ok path
      else inclusion_proof_path_loop fuel' i' c (g + 1) (path ++ [isibling])
  end.

Definition inclusion_proof_path (fuel : nat) (i c : Z) : result (list Z) :=
  let* g := index_height fuel i in
  inclusion_proof_path_loop fuel i c g [].

(** The body of the [for ... of proof] loop of [included_root]. *)
Definition included_root_step (fuel : nat) (hasher : Hasher)
  (st : Z * Z * bytes) (sibling : bytes) : result (Z * Z * bytes) :=
  let '(i, g, root) := st in
  let* h := index_height fuel (i + 1) in
  if g <? h then
    let i := i + 1 in
    Ok (i, g + 1, hash_pos_pair64 hasher (i + 1) sibling root)
  else
    let i := i + JS.shl 2 g in
    Ok (i, g + 1, hash_pos_pair64 hasher (i + 1) root sibling).

Fixpoint included_root_loop (fuel : nat) (hasher : Hasher)
  (st : Z * Z * bytes) (proof : list bytes) : result bytes :=
  match proof with
  | [] => Ok (snd st)
  | sibling :: proof' =>
      let* st' := included_root_step fuel hasher st sibling in
      included_root_loop fuel hasher st' proof'
  end.

Definition included_root (fuel : nat) (hasher : Hasher) (i : Z) (value : bytes)
  (proof : list bytes) : result bytes :=
  let* g := index_height fuel i in
  included_root_loop fuel hasher (i, g, value) proof.

Fixpoint consistency_proof_paths_loop (fuel : nat) (frompeaks : list Z) (ito : Z)
  : result (list (list Z)) :=
  match frompeaks with
  | [] => Ok []
  | ipeak :: rest =>
      let* p := inclusion_proof_path fuel ipeak ito in
      let* ps := consistency_proof_paths_loop fuel rest ito in
      Ok (p :: ps)
  end.

Definition consistency_proof_paths (fuel : nat) (ifrom ito : Z) : result (list (list Z)) :=
  let* frompeaks := peaks fuel ifrom in
  consistency_proof_paths_loop fuel frompeaks ito.


Definition dedup_push (roots : list bytes) (root : bytes) : list bytes :=
  match rev roots with
  | last :: _ => if bytes_equal last root then roots else roots ++ [root]
  | [] => roots ++ [root]
  end.

Fixpoint consistent_roots_loop (fuel : nat) (hasher : Hasher)
  (frompeaks : list Z) (accumulatorfrom : list bytes) (proofs : list (list bytes))
  (roots : list bytes) : result (list bytes) :=
  match frompeaks, accumulatorfrom, proofs with
  | ipeak :: frompeaks', value :: acc', proof :: proofs' =>
      let* root := included_root fuel hasher ipeak value proof in
      consistent_roots_loop fuel hasher frompeaks' acc' proofs' (dedup_push roots root)
  | _, _, _ => Ok roots
  end.

Definition consistent_roots (fuel : nat) (hasher : Hasher) (ifrom : Z)
  (accumulatorfrom : list bytes) (proofs : list (list bytes)) : result (list bytes) :=
  let* frompeaks := peaks fuel ifrom in
  if negb (Nat.eqb (length frompeaks) (length accumulatorfrom))
  then Throw (Error "accumulator has invalid length for index ifrom")
  else if negb (Nat.eqb (length frompeaks) (length proofs))
  then Throw (Error "incorrect proof count for the provided accumulator")
  else consistent_roots_loop fuel hasher frompeaks accumulatorfrom proofs [].

(** *** The leaf adder interface ([src/interfaces.ts]) and [add_leaf_hash] *)

Class ILeafAdder (S : Type) : Type := {
  adder_append : bytes -> M S Z;
  adder_get : Z -> M S bytes
}.

Section AddLeafHash.
Context {S : Type} `{ILeafAdder S}.

Fixpoint add_leaf_hash_loop (fuel : nat) (hasher : Hasher) (i g : Z) : M S Z :=
    match fuel with
    | O => mlift OutOfFuel
    | Datatypes.S fuel' =>
        do* h <- mlift (index_height fuel i);
        if g <? h then
          do* vleft <- adder_get (i - JS.shl 2 g);
          do* vright <- adder_get (i - 1);
          do* i' <- adder_append (hash_pos_pair64 hasher (i + 1) vleft vright);
          add_leaf_hash_loop fuel' hasher i' (g + 1)
        else mret i
    end.

Definition add_leaf_hash (fuel : nat) (hasher : Hasher) (f : bytes) : M S Z :=
    do* i <- adder_append f;
    add_leaf_hash_loop fuel hasher i 0.

End AddLeafHash.

(** The array backed adder of the unit tests.  Reading past the end of a
    JavaScript array gives [undefined], which [concat_bytes] then rejects
    with a [TypeError] before anything is appended. *)
Module LeafAdder.

Abbreviation t := (list bytes).

Definition append (node : bytes) : M t Z :=
    fun nodes => let nodes' := nodes ++ [node] in (Ok (Z.of_nat (length nodes')), nodes').

Definition get (i : Z) : M t bytes :=
    fun nodes =>
      if i <? 0 then (Throw TypeError, nodes)
      else match nth_error nodes (Z.to_nat i) with
           | Some v => (Ok v, nodes)
           | None => (Throw TypeError, nodes)
           end.

#[global] Instance adder : ILeafAdder t := {| adder_append := append; adder_get := get |}.

End LeafAdder.

(** The log that [add_leaf_hash] builds from a list of leaves. *)
Fixpoint add_leaves (fuel : nat) (hasher : Hasher) (leaves : list bytes) : M LeafAdder.t unit :=
  match leaves with
  | [] => mret tt
  | f :: rest =>
      do* _ <- add_leaf_hash fuel hasher f;
      add_leaves fuel hasher rest
  end.


(** ** The storage provider ([src/storage/sqlite.ts])

    The table [records (id PRIMARY KEY, data, counter)] as a finite map from
    the tile id to the stored bytes and the update counter. *)
Module SQLite.

Abbreviation db := (gmap Z (bytes * Z)).

Definition insert (id : Z) (data : bytes) : M db unit :=
    fun d => match d !! id with
             | Some _ => (Throw ExistsError, d)
             | None => (Ok tt, <[id := (data, 0)]> d)
             end.

  (** [SELECT data FROM records WHERE id = ?]: the row read back has no
      [counter] column, the version returned is [undefined]. *)
Definition read (tileid : Z) : M db (bytes * option Z) :=
    fun d => match d !! tileid with
             | Some (data, _) => (Ok (data, None), d)
             | None => (Throw (Error "Tile not found"), d)
             end.

  (** The row with the largest id, if any. *)
Definition last_row (d : db) : option (Z * (bytes * Z)) :=
    map_fold (fun k v acc =>
                match acc with
                | Some (k', _) => if k' <? k then Some (k, v) else acc
                | None => Some (k, v)
                end) None d.

Definition read_head : M db (bytes * option Z) :=
    fun d => match last_row d with
             | Some (_, (data, counter)) => (Ok (data, Some counter), d)
             | None => (Throw EmptyError, d)
             end.

Definition replace (id : Z) (data : bytes) (counter : Z) : M db unit :=
    fun d => match d !! id with
             | Some (_, c) =>
                 if c =? counter then (Ok tt, <[id := (data, c + 1)]> d)
                 else (Throw ChangedError, d)
             | None => (Throw ChangedError, d)
             end.

End SQLite.

(** The [TileStorageProvider] class over the SQLite table. *)
Module TileStorageProvider.
Definition read_tile (tileid : Z) := SQLite.read tileid.
Definition read_head := SQLite.read_head.
Definition create_tile (tileid : Z) (data : bytes) := SQLite.insert tileid data.
Definition replace_tile (tileid version : Z) (data : bytes) := SQLite.replace tileid data version.
End TileStorageProvider.

(** ** Tiles ([src/tiles.ts]) *)

Record TileFormat : Type := {
  tileHeight : Z;
  fieldWidth : Z;
  peaksStart : Z;
  nodesStart : Z;
  leafCount : Z;
  maxPeaks : Z;
  maxTileDataSize : Z;
  hash_function : Hasher
}.

Record TileLogParameters : Type := {
  tile_height : Z;
  hash_size : Z;
  param_hash_function : option Hasher
}.

(** [Buffer.alloc (size)] *)
Definition alloc (size : Z) : result bytes :=
  if size <? 0 then Throw RangeError else Ok (zeros size).

Module Tiles.

Definition get_tileid (fuel : nat) (cfg : TileFormat) (i : Z) : result Z :=
    let* n := leaf_count fuel i in
    Ok (n / leafCount cfg).

  (** [field] is a view of [data]: both writes go into the buffer of
      [data], which is returned as it is after them. *)
Definition write_start_field (cfg : TileFormat) (data : bytes) (tileid : Z) : result bytes :=
    let field := subarray_view (whole data) 0 (fieldWidth cfg) in
    let* field := Numbers.setBE64 (tileHeight cfg) (fieldWidth cfg - 16) field in
    let* field := Numbers.setBE64 tileid (fieldWidth cfg - 8) field in
    Ok (buffer field).

Definition read_start_field (cfg : TileFormat) (data : bytes) : result (Z * Z) :=
    let field := subarray_view (whole data) 0 (fieldWidth cfg) in
    let* h := Numbers.fromBE64 field (fieldWidth cfg - 16) in
    let* tileid := Numbers.fromBE64 field (fieldWidth cfg - 8) in
    Ok (h, tileid).

Definition max_tile_size (fuel : nat) (fmt : TileFormat) (tileid : Z) : result Z :=
    let* i0 := mmr_index fuel (leafCount fmt * (tileid + 0)) in
    let* i1 := mmr_index fuel (leafCount fmt * (tileid + 1)) in
    Ok (nodesStart fmt + (i1 - i0) * fieldWidth fmt).

Definition format (params : TileLogParameters) : result TileFormat :=
    match param_hash_function params with
    | None => Throw (Error "Hash function required")
    | Some hasher =>
        let tileHeightIndex := tile_height params in
        let maxPeaks := 64 in
        if negb (hash_size params =? 32) then Throw (Error "Hash size must be 32 for now")
        else
          let fieldWidth := 32 in
          let peaksStart := 1 * fieldWidth in
          let nodesStart := peaksStart + maxPeaks * fieldWidth in
          let leafCount := JS.shl 1 tileHeightIndex in
          let maxTileDataSize :=
            nodesStart + JS.shl 1 tileHeightIndex * fieldWidth + maxPeaks * fieldWidth in
          Ok {| tileHeight := tileHeightIndex; fieldWidth := fieldWidth;
                peaksStart := peaksStart; nodesStart := nodesStart;
                leafCount := leafCount; maxPeaks := maxPeaks;
                maxTileDataSize := maxTileDataSize; hash_function := hasher |}
    end.

End Tiles.

Module Tile.

  (** [ancestorPeaks] maps a peak index to the window of [data] that
      [read_field] returned for it: the entries are views of the tile's own
      buffer, not copies. *)
Record t : Type := {
    cfg : TileFormat;
    id : Z;
    firstIndex : Z;
    lastLeafMMRIndex : Z;
    nextIndex : Z;
    ancestorPeaks : gmap Z (Z * Z);
    data : bytes
  }.

Definition with_data (tile : t) (d : bytes) : t :=
    {| cfg := cfg tile; id := id tile; firstIndex := firstIndex tile;
       lastLeafMMRIndex := lastLeafMMRIndex tile; nextIndex := nextIndex tile;
       ancestorPeaks := ancestorPeaks tile; data := d |}.

Definition with_nextIndex (tile : t) (n : Z) : t :=
    {| cfg := cfg tile; id := id tile; firstIndex := firstIndex tile;
       lastLeafMMRIndex := lastLeafMMRIndex tile; nextIndex := n;
       ancestorPeaks := ancestorPeaks tile; data := data tile |}.

Definition with_ancestorPeaks (tile : t) (m : gmap Z (Z * Z)) : t :=
    {| cfg := cfg tile; id := id tile; firstIndex := firstIndex tile;
       lastLeafMMRIndex := lastLeafMMRIndex tile; nextIndex := nextIndex tile;
       ancestorPeaks := m; data := data tile |}.

  (** The window that [read_field (i, offset)] selects. *)
Definition field_window (tile : t) (i offset : Z) : Z * Z :=
    let w := fieldWidth (cfg tile) in
    subarray_window (blen (data tile)) (offset + i * w) (offset + (i + 1) * w).

Definition view (tile : t) (win : Z * Z) : bytes :=
    slice (data tile) (fst win) (snd win).

Definition read_field (tile : t) (i offset : Z) : bytes :=
    view tile (field_window tile i offset).

Definition write_field (i : Z) (v : bytes) (offset : Z) : M t unit :=
    fun tile =>
      match buf_set (data tile) v (offset + i * fieldWidth (cfg tile)) with
      | Ok d => (Ok tt, with_data tile d)
      | Throw e => (Throw e, tile)
      | OutOfFuel => (OutOfFuel, tile)
      end.

Definition read_index (tile : t) (i : Z) : result bytes :=
    if i <? firstIndex tile then Throw (Error "Index out of bounds")
    else Ok (read_field tile (i - firstIndex tile) (nodesStart (cfg tile))).

Fixpoint read_ancestor_peaks_loop (fuel : nat) (tile : t) (ps : list Z) (i : Z)
    (acc : gmap Z (Z * Z)) : result (gmap Z (Z * Z)) :=
    match ps with
    | [] => Ok acc
    | p :: ps' =>
        let* g := index_height fuel p in
        if g <? tileHeight (cfg tile) - 1
        then read_ancestor_peaks_loop fuel tile ps' (i + 1) acc
        else read_ancestor_peaks_loop fuel tile ps' (i + 1)
               (<[p := field_window tile i (peaksStart (cfg tile))]> acc)
    end.

Definition read_ancestor_peaks_map (fuel : nat) (tile : t) : result (gmap Z (Z * Z)) :=
    if firstIndex tile =? 0 then Throw (Error "No ancestor peaks for the first tile")
    else
      let* ps := peaks fuel (firstIndex tile - 1) in
      read_ancestor_peaks_loop fuel tile ps 0 ∅.

Definition constructor (fuel : nat) (c : TileFormat) (d : bytes) (tileid : Z)
    (lastIndex : option Z) : result t :=
    let* first := mmr_index fuel (tileid * JS.shl 1 (tileHeight c)) in
    let next := match lastIndex with None => first | Some l => l + 1 end in
    let last := match lastIndex with None => first | Some l => l end in
    if last <? first then Throw (Error "lastIndex is before the current tile data")
    else
      let* lastLeaf := mmr_index fuel ((tileid + 1) * JS.shl 1 (tileHeight c) - 1) in
      let tile := {| cfg := c; id := tileid; firstIndex := first;
                     lastLeafMMRIndex := lastLeaf; nextIndex := next;
                     ancestorPeaks := ∅; data := d |} in
      if 0 <? first then
        let* m := read_ancestor_peaks_map fuel tile in
        Ok (with_ancestorPeaks tile m)
      else Ok tile.

Definition append (v : bytes) : M t Z :=
    fun tile =>
      (do* _ <- write_field (nextIndex tile - firstIndex tile) v (nodesStart (cfg tile));
       fun tile' =>
         let tile'' := with_nextIndex tile' (nextIndex tile' + 1) in
         (Ok (nextIndex tile''), tile'')) tile.

Definition get (tile : t) (i : Z) : result bytes :=
    if i <? firstIndex tile then
      match ancestorPeaks tile !! i with
      | Some win => Ok (view tile win)
      | None => Throw MMRIndexRangeError
      end
    else if nextIndex tile <=? i then Throw MMRIndexRangeError
    else read_index tile i.

#[global] Instance adder : ILeafAdder t :=
    {| adder_append := append; adder_get := fun i tile => (get tile i, tile) |}.

Definition append_leaf (fuel : nat) (v : bytes) : M t Z :=
    fun tile =>
      if lastLeafMMRIndex tile <? nextIndex tile then (Throw TileFullError, tile)
      else add_leaf_hash fuel (hash_function (cfg tile)) v tile.

Definition last_index (tile : t) : Z :=
    if nextIndex tile =? firstIndex tile then firstIndex tile else nextIndex tile - 1.

Definition node_count (tile : t) : Z :=
    if nextIndex tile =? firstIndex tile then 0 else nextIndex tile - firstIndex tile.

  (** [next_peak_stack]: the returned buffer is a view of the first
      [peakCount - popCount + 1] peak slots of this tile, and the last node is
      written through that view into the tile's own buffer. *)
Definition next_peak_stack (fuel : nat) : M t bytes :=
    fun tile =>
      let c := cfg tile in
      match (let* peakCount := ones fuel (id tile) in
             let* popCount := trailing_zeros64 (id tile + 1) in
             let '(off, n) :=
               subarray_window (blen (data tile)) (peaksStart c)
                 (peaksStart c + (peakCount - popCount) * fieldWidth c + fieldWidth c) in
             let* lastNode := read_index tile (last_index tile) in
             let at_ := (peakCount - popCount) * fieldWidth c in
             if (at_ <? 0) || (n <? at_ + blen lastNode) then Throw RangeError
             else
               let* d := buf_set (data tile) lastNode (off + at_) in
               Ok (off, n, d)) with
      | Ok (off, n, d) => (Ok (slice d off n), with_data tile d)
      | Throw e => (Throw e, tile)
      | OutOfFuel => (OutOfFuel, tile)
      end.

  (** [Tile.create (cfg, parent)]; the state is the parent object. *)
Definition create (fuel : nat) (c : TileFormat) : M (option t) t :=
    fun parent =>
      let tileid := match parent with Some p => id p + 1 | None => 0 end in
      match (let* size := Tiles.max_tile_size fuel c tileid in
             let* d := alloc size in
             Tiles.write_start_field c d tileid) with
      | Ok d =>
          match parent with
          | None => (constructor fuel c d 0 None, None)
          | Some p =>
              match next_peak_stack fuel p with
              | (Ok stack, p') =>
                  (let* d' := buf_set d stack (peaksStart c) in
                   constructor fuel c d' tileid None, Some p')
              | (Throw e, p') => (Throw e, Some p')
              | (OutOfFuel, p') => (OutOfFuel, Some p')
              end
          end
      | Throw e => (Throw e, parent)
      | OutOfFuel => (OutOfFuel, parent)
      end.

  (** [Tile.load (cfg, storeData)].  The division of the stored node bytes by
      the field width is exact for every image that [TileStore.commit]
      writes. *)
Definition load (fuel : nat) (c : TileFormat) (storeData : bytes) : result t :=
    let* (tileHeight_, tileid) := Tiles.read_start_field c storeData in
    let* size := Tiles.max_tile_size fuel c tileid in
    let* d := alloc size in
    let* d := buf_set d storeData 0 in
    if negb (tileHeight c =? tileHeight_) then Throw (Error "Tile height mismatch")
    else
      let* first := mmr_index fuel (tileid * JS.shl 1 (tileHeight c)) in
      let lastIndex := first + (blen storeData - nodesStart c) / fieldWidth c - 1 in
      constructor fuel c d tileid (Some lastIndex).

End Tile.

Module TileStore.

Definition create (fuel : nat) (cfg : TileFormat) (parent : option Tile.t) : result Tile.t :=
    fst (Tile.create fuel cfg parent).

Definition head (fuel : nat) (cfg : TileFormat) : M SQLite.db (Tile.t * option Z) :=
    fun d =>
      match TileStorageProvider.read_head d with
      | (Ok (bs, version), d') =>
          (let* tile := Tile.load fuel cfg bs in Ok (tile, version), d')
      | (Throw EmptyError, d') =>
          (let* tile := create fuel cfg None in Ok (tile, None), d')
      | (Throw e, d') => (Throw e, d')
      | (OutOfFuel, d') => (OutOfFuel, d')
      end.

Definition get (fuel : nat) (cfg : TileFormat) (tileid : Z) : M SQLite.db (Tile.t * option Z) :=
    do* (bs, version) <- TileStorageProvider.read_tile tileid;
    mlift (let* tile := Tile.load fuel cfg bs in Ok (tile, version)).

Definition commit (cfg : TileFormat) (tile : Tile.t) (version : option Z) : M SQLite.db unit :=
    let nodes := Tile.node_count tile in
    if nodes =? 0 then mret tt
    else
      let bs := subarray (Tile.data tile) 0 (nodesStart cfg + nodes * fieldWidth cfg) in
      match version with
      | None => TileStorageProvider.create_tile (Tile.id tile) bs
      | Some v => TileStorageProvider.replace_tile (Tile.id tile) v bs
      end.

End TileStore.

Module TileLog.

Record t : Type := {
    store : SQLite.db;
    got : option Tile.t
  }.

Definition with_store (log : t) (d : SQLite.db) : t := {| store := d; got := got log |}.

  (** Run a store operation on the log's store. *)
Definition on_store {A} (m : M SQLite.db A) : M t A :=
    fun log => let '(r, d) := m (store log) in (r, with_store log d).

  (** The body of the [for (const leaf of leaves)] loop of [append]. *)
Definition append_one (fuel : nat) (cfg : TileFormat) (leaf : bytes)
    (adder : Tile.t) (version : option Z)
    : M SQLite.db (Z * Tile.t * option Z) :=
    match Tile.append_leaf fuel leaf adder with
    | (Ok i, adder') => mret (i, adder', version)
    | (Throw TileFullError, adder') =>
        do* _ <- TileStore.commit cfg adder' version;
        do* adder2 <- mlift (TileStore.create fuel cfg (Some adder'));
        mlift (let '(r, adder3) := Tile.append_leaf fuel leaf adder2 in
               let* i := r in Ok (i, adder3, None))
    | (Throw e, _) => mthrow e
    | (OutOfFuel, _) => mlift OutOfFuel
    end.

Fixpoint append_loop (fuel : nat) (cfg : TileFormat) (leaves : list bytes)
    (adder : Tile.t) (version : option Z) (indices : list Z)
    : M SQLite.db (list Z * Tile.t * option Z) :=
    match leaves with
    | [] => mret (indices, adder, version)
    | leaf :: rest =>
        do* (i, adder', version') <- append_one fuel cfg leaf adder version;
        append_loop fuel cfg rest adder' version' (indices ++ [i])
    end.

Definition append (fuel : nat) (cfg : TileFormat) (leaves : list bytes) : M t (list Z) :=
    on_store
      (do* (adder, version) <- TileStore.head fuel cfg;
       do* (indices, adder', version') <- append_loop fuel cfg leaves adder version [];
       do* _ <- TileStore.commit cfg adder' version';
       mret indices).

Definition get_tile (fuel : nat) (cfg : TileFormat) (tileid : Z) : M t Tile.t :=
    on_store (do* (tile, _) <- TileStore.get fuel cfg tileid; mret tile).

  (** Fetch the tile that [Tiles.get_tileid] names, remember it and read [i]. *)
Definition fetch_and_get (fuel : nat) (cfg : TileFormat) (i : Z) : M t bytes :=
    do* tileid <- mlift (Tiles.get_tileid fuel cfg i);
    do* tile <- get_tile fuel cfg tileid;
    fun log => (Tile.get tile i, {| store := store log; got := Some tile |}).

Definition get (fuel : nat) (cfg : TileFormat) (i : Z) : M t bytes :=
    fun log =>
      match got log with
      | None => fetch_and_get fuel cfg i log
      | Some tile =>
          match Tile.get tile i with
          | Throw MMRIndexRangeError => fetch_and_get fuel cfg i log
          | r => (r, log)
          end
      end.

End TileLog.


(** ** The earlier [Tile.create] ([src/tiles.ts], before the header was
    written for every tile)

    The tile of that revision records [lastIndex] instead of [nextIndex];
    everything [create] reaches is modelled here. *)
Module LegacyTile.

Record t : Type := {
    cfg : TileFormat;
    id : Z;
    firstIndex : Z;
    lastIndex : Z;
    ancestorPeaks : gmap Z (Z * Z);
    data : bytes
  }.

Definition with_data (tile : t) (d : bytes) : t :=
    {| cfg := cfg tile; id := id tile; firstIndex := firstIndex tile;
       lastIndex := lastIndex tile; ancestorPeaks := ancestorPeaks tile; data := d |}.

Definition field_window (tile : t) (i offset : Z) : Z * Z :=
    let w := fieldWidth (cfg tile) in
    subarray_window (blen (data tile)) (offset + i * w) (offset + (i + 1) * w).

Definition read_field (tile : t) (i offset : Z) : bytes :=
    let win := field_window tile i offset in slice (data tile) (fst win) (snd win).

Definition read_index (tile : t) (i : Z) : result bytes :=
    if i <? firstIndex tile then Throw (Error "Index out of bounds")
    else Ok (read_field tile (i - firstIndex tile) (nodesStart (cfg tile))).

Fixpoint read_ancestor_peaks_loop (fuel : nat) (tile : t) (ps : list Z) (i : Z)
    (acc : gmap Z (Z * Z)) : result (gmap Z (Z * Z)) :=
    match ps with
    | [] => Ok acc
    | p :: ps' =>
        let* g := index_height fuel p in
        if g <? tileHeight (cfg tile) - 1
        then read_ancestor_peaks_loop fuel tile ps' (i + 1) acc
        else read_ancestor_peaks_loop fuel tile ps' (i + 1)
               (<[p := field_window tile i (peaksStart (cfg tile))]> acc)
    end.

Definition read_ancestor_peaks_map (fuel : nat) (tile : t) : result (gmap Z (Z * Z)) :=
    if firstIndex tile =? 0 then Throw (Error "No ancestor peaks for the first tile")
    else
      let* ps := peaks fuel (firstIndex tile - 1) in
      read_ancestor_peaks_loop fuel tile ps 0 ∅.

Definition constructor (fuel : nat) (c : TileFormat) (d : bytes) (tileid : Z)
    (lastIndex_ : option Z) : result t :=
    let* first := mmr_index fuel (tileid * JS.shl 1 (tileHeight c)) in
    let last := match lastIndex_ with None => first | Some l => l end in
    if last <? first then Throw (Error "lastIndex is before the current tile data")
    else
      let tile := {| cfg := c; id := tileid; firstIndex := first; lastIndex := last;
                     ancestorPeaks := ∅; data := d |} in
      if 0 <? first then
        let* m := read_ancestor_peaks_map fuel tile in
        Ok {| cfg := c; id := tileid; firstIndex := first; lastIndex := last;
              ancestorPeaks := m; data := d |}
      else Ok tile.

Definition last_index (tile : t) : Z := lastIndex tile.

Definition next_peak_stack (fuel : nat) : M t bytes :=
    fun tile =>
      let c := cfg tile in
      match (let* peakCount := ones fuel (id tile) in
             let* popCount := trailing_zeros64 (id tile + 1) in
             let '(off, n) :=
               subarray_window (blen (data tile)) (peaksStart c)
                 (peaksStart c + (peakCount - popCount) * fieldWidth c + fieldWidth c) in
             let* lastNode := read_index tile (last_index tile) in
             let at_ := (peakCount - popCount) * fieldWidth c in
             if (at_ <? 0) || (n <? at_ + blen lastNode) then Throw RangeError
             else
               let* d := buf_set (data tile) lastNode (off + at_) in
               Ok (off, n, d)) with
      | Ok (off, n, d) => (Ok (slice d off n), with_data tile d)
      | Throw e => (Throw e, tile)
      | OutOfFuel => (OutOfFuel, tile)
      end.

  (** [Tile.create (cfg, parent)]: the start field is written only after the
      [if (!parent) return ...]. *)
Definition create (fuel : nat) (c : TileFormat) : M (option t) t :=
    fun parent =>
      let tileid := match parent with Some p => id p + 1 | None => 0 end in
      match (let* size := Tiles.max_tile_size fuel c tileid in alloc size) with
      | Ok d =>
          match parent with
          | None => (constructor fuel c d 0 None, None)
          | Some p =>
              match Tiles.write_start_field c d tileid with
              | Ok d1 =>
                  match next_peak_stack fuel p with
                  | (Ok stack, p') =>
                      (let* d' := buf_set d1 stack (peaksStart c) in
                       constructor fuel c d' tileid None, Some p')
                  | (Throw e, p') => (Throw e, Some p')
                  | (OutOfFuel, p') => (OutOfFuel, Some p')
                  end
              | Throw e => (Throw e, parent)
              | OutOfFuel => (OutOfFuel, parent)
              end
          end
      | Throw e => (Throw e, parent)
      | OutOfFuel => (OutOfFuel, parent)
      end.

End LegacyTile.

(** ** Known answers of the unit tests (the 39 node test tree) *)

Example kat39_index_height :
  map (fun i => index_height 64 (Z.of_nat i)) (seq 0 39)
  = map Ok [0;0;1;0;0;1;2;0;0;1;0;0;1;2;3;0;0;1;0;0;1;2;0;0;1;0;0;1;2;3;4;0;0;1;0;0;1;2;0].
Proof. vm_compute. reflexivity. Qed.

Example kat39_peaks :
  (peaks 64 10, peaks 64 25, peaks 64 38) = (Ok [6;9;10], Ok [14;21;24;25], Ok [30;37;38]).
Proof. vm_compute. reflexivity. Qed.

Example kat39_mmr_index_complete_mmr :
  (mmr_index 64 20, complete_mmr 64 1, complete_mmr 64 11) = (Ok 38, Ok 2, Ok 14).
Proof. vm_compute. reflexivity. Qed.

Example trailing_zeros64_unit_test :
  (trailing_zeros64 (-1), trailing_zeros64 (2 ^ 33), trailing_zeros64 0,
   map trailing_zeros64 [1; 2; 3; 4; 8; 16])
  = (Throw RangeError, Throw RangeError, Ok 64, map Ok [0; 1; 0; 2; 3; 4]).
Proof. vm_compute. reflexivity. Qed.

Example path_of_2_in_15 :
  (inclusion_proof_path 64 2 15, accumulator_root 64 2 15) = (Ok [5; 13], Ok 14).
Proof. vm_compute. reflexivity. Qed.

(** ** Test fixtures: a tile height 1 log over a toy hash *)

(** A stand-in for the hash: the first 32 bytes of the input, zero padded. *)
Definition prefix_hash : Hasher := fun b => firstn 32 (b ++ zeros 32).

Definition test_params (h : Z) : TileLogParameters :=
  {| tile_height := h; hash_size := 32; param_hash_function := Some prefix_hash |}.

Definition test_cfg (h : Z) : TileFormat :=
  {| tileHeight := h; fieldWidth := 32; peaksStart := 32; nodesStart := 2080;
     leafCount := JS.shl 1 h; maxPeaks := 64;
     maxTileDataSize := 2080 + JS.shl 1 h * 32 + 2048; hash_function := prefix_hash |}.

Example test_cfg_format h : Tiles.format (test_params h) = Ok (test_cfg h).
Proof. reflexivity. Qed.

(** [Numbers.toBE64 (n, 32)], the leaf values the tile log tests append. *)
Definition num_field (n : Z) : bytes := zeros 24 ++ be_bytes 8 n.

Definition empty_log : TileLog.t := {| TileLog.store := ∅; TileLog.got := None |}.

(** ** Facts about buffers *)

Lemma blen_nonneg b : 0 <= blen b.
Proof. unfold blen. lia. Qed.

Lemma slice_lookup (b : bytes) off n (i : nat) :
  slice b off n !! i
  = if decide (i < Z.to_nat n)%nat then b !! (Z.to_nat off + i)%nat else None.
Proof.
  unfold slice. case_decide.
  - rewrite lookup_take_lt by lia. apply lookup_drop.
  - apply lookup_take_ge. lia.
Qed.

Lemma buf_set_Ok target src offset t' :
  buf_set target src offset = Ok t' ->
  0 <= offset /\ offset + blen src <= blen target
  /\ t' = take (Z.to_nat offset) target ++ src ++ drop (Z.to_nat (offset + blen src)) target.
Proof.
  unfold buf_set. destruct (offset <? 0) eqn:E1; simpl; [discriminate|].
  destruct (blen target <? offset + blen src) eqn:E2; [discriminate|].
  intros [= <-]. apply Z.ltb_ge in E1, E2. auto.
Qed.

Lemma buf_set_fits target src offset :
  0 <= offset -> offset + blen src <= blen target ->
  buf_set target src offset
  = Ok (take (Z.to_nat offset) target ++ src ++ drop (Z.to_nat (offset + blen src)) target).
Proof.
  intros H1 H2. unfold buf_set.
  apply Z.ltb_ge in H1, H2. rewrite H1, H2. reflexivity.
Qed.

Lemma buf_set_lookup target src offset t' (i : nat) :
  buf_set target src offset = Ok t' ->
  t' !! i = if decide (Z.to_nat offset <= i < Z.to_nat offset + length src)%nat
            then src !! (i - Z.to_nat offset)%nat else target !! i.
Proof.
  intros H. apply buf_set_Ok in H as (H0 & H1 & ->). unfold blen in *.
  assert (Hl : length (take (Z.to_nat offset) target) = Z.to_nat offset)
    by (rewrite length_take; lia).
  case_decide as Hd.
  - rewrite lookup_app_r by lia. rewrite Hl. rewrite lookup_app_l by lia. reflexivity.
  - destruct (decide (i < Z.to_nat offset)%nat).
    + rewrite lookup_app_l by lia. apply lookup_take_lt. lia.
    + rewrite lookup_app_r by lia. rewrite lookup_app_r by lia.
      rewrite lookup_drop. f_equal. lia.
Qed.

Lemma buf_set_length target src offset t' :
  buf_set target src offset = Ok t' -> blen t' = blen target.
Proof.
  intros H. apply buf_set_Ok in H as (H0 & H1 & ->). unfold blen in *.
  rewrite !length_app, length_take, length_drop. lia.
Qed.

Lemma slice_buf_set_eq target src offset t' :
  buf_set target src offset = Ok t' -> slice t' offset (blen src) = src.
Proof.
  intros H. apply list_eq. intros i.
  rewrite slice_lookup, (buf_set_lookup _ _ _ _ _ H).
  apply buf_set_Ok in H as (H0 & H1 & _). unfold blen in *.
  case_decide.
  - rewrite decide_True by lia. f_equal. lia.
  - symmetry. apply lookup_ge_None_2. lia.
Qed.

Lemma slice_buf_set_ne target src offset t' off n :
  buf_set target src offset = Ok t' ->
  0 <= off -> off + n <= offset \/ offset + blen src <= off ->
  slice t' off n = slice target off n.
Proof.
  intros H Hoff Hd. apply list_eq. intros i.
  rewrite !slice_lookup, (buf_set_lookup _ _ _ _ _ H).
  apply buf_set_Ok in H as (H0 & H1 & _). unfold blen in *.
  case_decide; [|reflexivity].
  rewrite decide_False by lia. reflexivity.
Qed.

Lemma slice_zeros m off n :
  0 <= off -> 0 <= n -> off + n <= m -> slice (zeros m) off n = zeros n.
Proof.
  intros. apply list_eq. intros i. rewrite slice_lookup. unfold zeros.
  case_decide.
  - rewrite !lookup_replicate_2 by lia. reflexivity.
  - symmetry. apply lookup_ge_None_2. rewrite length_replicate. lia.
Qed.

Lemma blen_zeros n : 0 <= n -> blen (zeros n) = n.
Proof. intros. unfold blen, zeros. rewrite length_replicate. lia. Qed.

Lemma length_be_bytes k n : length (be_bytes k n) = k.
Proof.
  revert n. induction k as [|k IH]; intros n; simpl; [reflexivity|].
  rewrite length_app, IH. simpl. lia.
Qed.

Lemma blen_be_bytes k n : blen (be_bytes k n) = Z.of_nat k.
Proof. unfold blen. rewrite length_be_bytes. reflexivity. Qed.

(** ** The 32-bit operators on small operands *)

Lemma to_int32_small x : - 2 ^ 31 <= x < 2 ^ 31 -> JS.to_int32 x = x.
Proof.
  intros H. unfold JS.to_int32. rewrite Z.mod_small; lia.
Qed.

Lemma pow2_le_mono a b : 0 <= a <= b -> 2 ^ a <= 2 ^ b.
Proof. intros. apply Z.pow_le_mono_r; lia. Qed.

Lemma pow2_lt_mono a b : 0 <= a < b -> 2 ^ a < 2 ^ b.
Proof. intros. apply Z.pow_lt_mono_r; lia. Qed.

Lemma pow2_pos a : 0 <= a -> 0 < 2 ^ a.
Proof. intros. apply Z.pow_pos_nonneg; lia. Qed.

Lemma pow2_succ a : 0 <= a -> 2 ^ (a + 1) = 2 * 2 ^ a.
Proof. intros. rewrite Z.pow_add_r by lia. lia. Qed.

Lemma shl_1 k : 0 <= k <= 30 -> JS.shl 1 k = 2 ^ k.
Proof.
  intros H. unfold JS.shl. rewrite (to_int32_small 1) by lia.
  rewrite Z.mod_small by lia. rewrite Z.shiftl_1_l.
  apply to_int32_small. pose proof (pow2_pos k). pose proof (pow2_le_mono k 30). lia.
Qed.

Lemma shl_2 g : 0 <= g <= 29 -> JS.shl 2 g = 2 ^ (g + 1).
Proof.
  intros H. unfold JS.shl. rewrite (to_int32_small 2) by lia.
  rewrite Z.mod_small by lia. rewrite Z.shiftl_mul_pow2 by lia.
  rewrite pow2_succ by lia.
  pose proof (pow2_pos g). pose proof (pow2_le_mono g 29).
  rewrite to_int32_small; lia.
Qed.

Lemma shl_by_1 x : 0 <= x < 2 ^ 30 -> JS.shl x 1 = 2 * x.
Proof.
  intros H. unfold JS.shl. rewrite (to_int32_small x) by lia.
  change (1 mod 32) with 1. rewrite Z.shiftl_mul_pow2 by lia.
  rewrite to_int32_small; lia.
Qed.

Lemma sar_by_1 x : 0 <= x < 2 ^ 31 -> JS.sar x 1 = x / 2.
Proof.
  intros H. unfold JS.sar. rewrite to_int32_small by lia.
  change (1 mod 32) with 1. rewrite Z.shiftr_div_pow2 by lia. reflexivity.
Qed.

Lemma band_1 x : 0 <= x < 2 ^ 31 -> JS.band x 1 = x mod 2.
Proof.
  intros H. unfold JS.band. rewrite (to_int32_small x), (to_int32_small 1) by lia.
  change 1 with (Z.ones 1). rewrite Z.land_ones by lia. change (2 ^ 1) with 2.
  pose proof (Z.mod_pos_bound x 2). rewrite to_int32_small; lia.
Qed.

Lemma bor_1_even x : 0 <= x < 2 ^ 31 - 1 -> x mod 2 = 0 -> JS.bor x 1 = x + 1.
Proof.
  intros H Hev. unfold JS.bor. rewrite (to_int32_small x), (to_int32_small 1) by lia.
  assert (Hl : Z.land x 1 = 0).
  { change 1 with (Z.ones 1). rewrite Z.land_ones by lia. exact Hev. }
  rewrite <- (Z.lxor_lor _ _ Hl), <- (Z.add_nocarry_lxor _ _ Hl).
  apply to_int32_small. lia.
Qed.

(** ** The replay step of [included_root] (claim C7) *)

(** C7, counterexample.  Node 0 is a left child (the node after it is not
    higher) and the replay step hashes the prefix [be64 3], the position of
    the parent it advances to, not [be64 (0 + 2)]; node 1 is a right child and
    its step hashes [be64 3], not [be64 (1 + 1)]. *)
Lemma included_root_step_prefix_counterexample :
  let hasher : Hasher := fun b => b in
  index_height 64 (0 + 1) = Ok 0
  /\ included_root_step 64 hasher (0, 0, [x01]) [x02] = Ok (2, 1, be_bytes 8 3 ++ [x01; x02])
  /\ be_bytes 8 3 ++ [x01; x02] <> hasher (concat_bytes [be_bytes 8 (0 + 2); [x01]; [x02]])
  /\ index_height 64 (1 + 1) = Ok 1
  /\ included_root_step 64 hasher (1, 0, [x02]) [x01] = Ok (2, 1, be_bytes 8 3 ++ [x01; x02])
  /\ be_bytes 8 3 ++ [x01; x02] <> hasher (concat_bytes [be_bytes 8 (1 + 1); [x01]; [x02]]).
Proof.
  vm_compute. repeat split; try reflexivity; intros H; discriminate H.
Qed.

(** C7, amended.  With [h] the height of the node after [i]: a right child
    ([g < h]) advances to [i + 1] and hashes [be64 (i + 2) || sibling || root];
    a left child advances to [i + 2^(g+1)] and hashes
    [be64 (i + 2^(g+1) + 1) || root || sibling].  In both cases the prefix is
    the position of the parent, and [i] and [g] move exactly as in
    [inclusion_proof_path]. *)
Theorem included_root_step_spec fuel hasher i g root sibling h :
  index_height fuel (i + 1) = Ok h ->
  0 <= g <= 29 ->
  included_root_step fuel hasher (i, g, root) sibling
  = Ok (if g <? h
        then (i + 1, g + 1, hasher (be_bytes 8 (i + 2) ++ sibling ++ root))
        else (i + 2 ^ (g + 1), g + 1,
              hasher (be_bytes 8 (i + 2 ^ (g + 1) + 1) ++ root ++ sibling)))
  /\ path_step fuel i g
     = Ok (if g <? h then (i - 2 ^ (g + 1) + 1, i + 1)
           else (i + 2 ^ (g + 1) - 1, i + 2 ^ (g + 1))).
Proof.
  intros Hh Hg. unfold included_root_step, path_step, hash_pos_pair64, concat_bytes.
  rewrite Hh. simpl. rewrite shl_2 by lia. rewrite !app_nil_r.
  replace (i + 1 + 1) with (i + 2) by lia.
  destruct (g <? h); split; reflexivity.
Qed.

Lemma included_root_step_spec_witness :
  included_root_step 64 prefix_hash (3, 0, num_field 3) (num_field 4)
  = Ok (5, 1, prefix_hash (be_bytes 8 6 ++ num_field 3 ++ num_field 4))
  /\ path_step 64 3 0 = Ok (4, 5).
Proof.
  apply (included_root_step_spec 64 prefix_hash 3 0 (num_field 3) (num_field 4) 0).
  - vm_compute. reflexivity.
  - lia.
Defined.

(** [included_root] is the fold of the step over the proof. *)
Lemma included_root_cons fuel hasher i g value sibling proof :
  index_height fuel i = Ok g ->
  included_root fuel hasher i value (sibling :: proof)
  = let* st := included_root_step fuel hasher (i, g, value) sibling in
    included_root_loop fuel hasher st proof.
Proof. intros H. unfold included_root. rewrite H. reflexivity. Qed.

(** ** The tile header written by [Tile.create] (claim C9) *)

Arguments be_bytes : simpl never.

Lemma format_layout params c :
  Tiles.format params = Ok c ->
  fieldWidth c = 32 /\ peaksStart c = 32 /\ nodesStart c = 2080
  /\ maxPeaks c = 64 /\ tileHeight c = tile_height params
  /\ leafCount c = JS.shl 1 (tileHeight c).
Proof.
  unfold Tiles.format. destruct (param_hash_function params); [|discriminate].
  destruct (hash_size params =? 32); simpl; [|discriminate].
  intros [= <-]. simpl. repeat split; reflexivity.
Qed.

(** The two writes of [write_start_field], on the bytes of [data]. *)
Lemma write_start_field_eq c d tileid :
  Tiles.write_start_field c d tileid
  = (let* d1 := buf_set d (be_bytes 8 (tileHeight c)) (fieldWidth c - 16) in
     buf_set d1 (be_bytes 8 tileid) (fieldWidth c - 8)).
Proof.
  unfold Tiles.write_start_field, Numbers.setBE64. cbn [buffer subarray_view whole].
  destruct (buf_set d _ _) as [d1| |]; cbn [rbind with_buffer buffer]; [|reflexivity..].
  destruct (buf_set d1 _ _); reflexivity.
Qed.

Lemma write_start_field_spec c d tileid d' :
  fieldWidth c = 32 ->
  Tiles.write_start_field c d tileid = Ok d' ->
  blen d' = blen d
  /\ slice d' 16 8 = be_bytes 8 (tileHeight c)
  /\ slice d' 24 8 = be_bytes 8 tileid
  /\ forall off n, 32 <= off -> slice d' off n = slice d off n.
Proof.
  intros HW. rewrite write_start_field_eq. rewrite HW.
  destruct (buf_set d (be_bytes 8 (tileHeight c)) (32 - 16)) as [d1| |] eqn:E1;
    cbn [rbind]; try discriminate.
  intros E2.
  pose proof (blen_be_bytes 8 (tileHeight c)) as L1.
  pose proof (blen_be_bytes 8 tileid) as L2.
  repeat split.
  - rewrite (buf_set_length _ _ _ _ E2). apply (buf_set_length _ _ _ _ E1).
  - rewrite (slice_buf_set_ne _ _ _ _ 16 8 E2) by lia.
    change 8 with (Z.of_nat 8) at 1. rewrite <- L1.
    apply (slice_buf_set_eq _ _ _ _ E1).
  - change 8 with (Z.of_nat 8) at 1. rewrite <- L2.
    apply (slice_buf_set_eq _ _ _ _ E2).
  - intros off n Hoff.
    rewrite (slice_buf_set_ne _ _ _ _ off n E2).
    + apply (slice_buf_set_ne _ _ _ _ off n E1); lia.
    + lia.
    + lia.
Qed.

Lemma constructor_spec fuel c d tileid lastIndex t :
  Tile.constructor fuel c d tileid lastIndex = Ok t ->
  exists first lastLeaf,
    mmr_index fuel (tileid * JS.shl 1 (tileHeight c)) = Ok first
    /\ mmr_index fuel ((tileid + 1) * JS.shl 1 (tileHeight c) - 1) = Ok lastLeaf
    /\ Tile.cfg t = c /\ Tile.id t = tileid /\ Tile.data t = d
    /\ Tile.firstIndex t = first /\ Tile.lastLeafMMRIndex t = lastLeaf
    /\ Tile.nextIndex t = match lastIndex with None => first | Some l => l + 1 end
    /\ first <= match lastIndex with None => first | Some l => l end
    /\ (first <= 0 -> Tile.ancestorPeaks t = ∅).
Proof.
  unfold Tile.constructor.
  destruct (mmr_index fuel (tileid * JS.shl 1 (tileHeight c))) as [first| |];
    cbn [rbind]; try discriminate.
  destruct (_ <? first) eqn:Hlast; [discriminate|]. apply Z.ltb_ge in Hlast.
  destruct (mmr_index fuel ((tileid + 1) * JS.shl 1 (tileHeight c) - 1)) as [lastLeaf| |];
    cbn [rbind]; try discriminate.
  destruct (0 <? first) eqn:Hpos.
  - destruct (Tile.read_ancestor_peaks_map fuel _) as [m| |]; cbn [rbind]; try discriminate.
    intros [= <-]. exists first, lastLeaf. cbn. apply Z.ltb_lt in Hpos.
    repeat split; try reflexivity; try lia.
  - intros [= <-]. exists first, lastLeaf. cbn. repeat split; reflexivity || lia.
Qed.


(** C9, the earlier revision of [Tile.create] at a failing input: for the
    first tile of a tile height 1 log the function returns before the start
    field is written, and the 8 bytes at offset [W - 16] are zero instead of
    the big-endian tile height. *)
Lemma legacy_create_first_tile_header_unwritten :
  exists t,
    fst (LegacyTile.create 64 (test_cfg 1) None) = Ok t
    /\ LegacyTile.id t = 0
    /\ slice (LegacyTile.data t) (fieldWidth (test_cfg 1) - 16) 8 = zeros 8
    /\ be_bytes 8 (tileHeight (test_cfg 1)) <> zeros 8.
Proof.
  eexists. split; [vm_compute; reflexivity|].
  vm_compute. repeat split; intros H; discriminate H.
Qed.

(** ** [TileLog.get] at the end of a full head tile (claim C4) *)

(** The log after [append ([leaf0, leaf1])] with tile height 1: one full
    tile holding the nodes 0, 1 and 2. *)
Definition two_leaf_log : TileLog.t :=
  snd (TileLog.append 64 (test_cfg 1) [num_field 0; num_field 1] empty_log).

(** C4 at a failing input.  Node 2 has been appended and is stored in tile 0,
    but [get_tileid] sends the lookup to tile [leaf_count 2 / 2 = 1], which
    does not exist; with tile 0 in the cache the same call succeeds. *)
Lemma get_last_node_of_full_head_tile_fails :
  fst (TileLog.append 64 (test_cfg 1) [num_field 0; num_field 1] empty_log) = Ok [1; 3]
  /\ Tiles.get_tileid 64 (test_cfg 1) 2 = Ok 1
  /\ fst (TileLog.get 64 (test_cfg 1) 2 two_leaf_log) = Throw (Error "Tile not found")
  /\ exists tile0 v,
       fst (TileLog.get_tile 64 (test_cfg 1) 0 two_leaf_log) = Ok tile0
       /\ Tile.get tile0 2 = Ok v
       /\ fst (TileLog.get 64 (test_cfg 1) 2
                 {| TileLog.store := TileLog.store two_leaf_log; TileLog.got := Some tile0 |})
          = Ok v.
Proof.
  split; [vm_compute; reflexivity|].
  split; [vm_compute; reflexivity|].
  split; [vm_compute; reflexivity|].
  eexists. eexists.
  split; [vm_compute; reflexivity|].
  split; vm_compute; reflexivity.
Qed.

(** * The index algebra over unbounded integers

    The same algorithms as the specification words them, with exact integer
    arithmetic ([2 ^ k], [Z.log2]) in place of the 32-bit operators.  They are
    the reference the TypeScript functions are compared with, and the
    functions the structure of the MMR is proved about. *)
Module Ideal.

(** Subtract [most_significant_bit pos - 1] until [pos] is a run of ones. *)
Fixpoint height_loop (n : nat) (pos : Z) : Z :=
  match n with
  | O => 0
  | S n' =>
      let k := Z.log2 pos in
      if pos =? 2 ^ (k + 1) - 1 then k
      else height_loop n' (pos - (2 ^ k - 1))
  end.

Definition index_height (i : Z) : Z :=
  height_loop (S (Z.to_nat (Z.log2 (i + 1)))) (i + 1).

(** For each set bit of [e] from the top add [2^h - 1], [h] the bit length. *)
Fixpoint mmr_index_loop (n : nat) (e : Z) : Z :=
  match n with
  | O => 0
  | S n' =>
      if 0 <? e then
        let k := Z.log2 e in
        (2 ^ (k + 1) - 1) + mmr_index_loop n' (e - 2 ^ k)
      else 0
  end.

Definition mmr_index (e : Z) : Z :=
  mmr_index_loop (S (Z.to_nat (Z.log2 e))) e.

(** Try the tree sizes [2^k - 1], ..., 3, 1 in turn, each once. *)
Fixpoint leaf_count_loop (k : nat) (s peakmap : Z) : Z :=
  match k with
  | O => peakmap
  | S k' =>
      let size := 2 ^ Z.of_nat k - 1 in
      if size <=? s then leaf_count_loop k' (s - size) (2 * peakmap + 1)
      else leaf_count_loop k' s (2 * peakmap)
  end.

Definition leaf_count (i : Z) : Z :=
  leaf_count_loop (Z.to_nat (Z.log2 (i + 1) + 1)) (i + 1) 0.

(** Greedily extract the largest perfect tree from the remaining size. *)
Fixpoint peaks_loop (n : nat) (peak s : Z) : list Z :=
  match n with
  | O => []
  | S n' =>
      if s =? 0 then []
      else
        let size := 2 ^ Z.log2 (s + 1) - 1 in
        (peak + size - 1) :: peaks_loop n' (peak + size) (s - size)
  end.

Definition peaks (i : Z) : list Z :=
  peaks_loop (S (S (Z.to_nat (Z.log2 (i + 2))))) 0 (i + 1).

(** The number of one bits. *)
Fixpoint ones_loop (n : nat) (x : Z) : Z :=
  match n with
  | O => 0
  | S n' => if x =? 0 then 0 else x mod 2 + ones_loop n' (x / 2)
  end.

Definition ones (x : Z) : Z := ones_loop (S (Z.to_nat (Z.log2 x))) x.

(** The number of zero bits below the lowest one bit. *)
Fixpoint trailing_zeros_loop (n : nat) (x : Z) : Z :=
  match n with
  | O => 0
  | S n' => if x mod 2 =? 0 then 1 + trailing_zeros_loop n' (x / 2) else 0
  end.

Definition trailing_zeros (x : Z) : Z :=
  trailing_zeros_loop (Z.to_nat (Z.log2 x)) x.

End Ideal.

Example ideal_kat39 :
  map (fun i => Ideal.index_height (Z.of_nat i)) (seq 0 39)
  = [0;0;1;0;0;1;2;0;0;1;0;0;1;2;3;0;0;1;0;0;1;2;0;0;1;0;0;1;2;3;4;0;0;1;0;0;1;2;0]
  /\ (Ideal.peaks 10, Ideal.peaks 25, Ideal.peaks 38) = ([6;9;10], [14;21;24;25], [30;37;38])
  /\ Ideal.mmr_index 20 = 38
  /\ map Ideal.leaf_count [0; 2; 3; 6; 7; 9; 10; 14; 38] = [1; 2; 3; 4; 5; 6; 7; 8; 21]
  /\ map Ideal.ones [0; 1; 2; 3; 7; 8; 255] = [0; 1; 1; 2; 3; 1; 8]
  /\ map Ideal.trailing_zeros [1; 2; 3; 4; 8; 12; 16] = [0; 1; 0; 2; 3; 2; 4].
Proof. vm_compute. repeat split; reflexivity. Qed.

(** ** Height of a node: the defining equations *)

Lemma log2_bounds pos : 1 <= pos -> 2 ^ Z.log2 pos <= pos < 2 ^ (Z.log2 pos + 1).
Proof. intros H. pose proof (Z.log2_spec pos). rewrite <- Z.add_1_r in *. lia. Qed.

Lemma log2_between k x : 0 <= k -> 2 ^ k <= x < 2 ^ (k + 1) -> Z.log2 x = k.
Proof. intros Hk H. apply Z.log2_unique; [lia|]. rewrite <- Z.add_1_r. exact H. Qed.

Lemma log2_lt_of_lt_pow2 x k : 1 <= x -> x < 2 ^ k -> Z.log2 x < k.
Proof. intros. apply Z.log2_lt_pow2; lia. Qed.

Lemma height_loop_fuel n m pos :
  1 <= pos -> (Z.to_nat (Z.log2 pos) < n)%nat -> (Z.to_nat (Z.log2 pos) < m)%nat ->
  Ideal.height_loop n pos = Ideal.height_loop m pos.
Proof.
  revert m pos. induction n as [|n IH]; intros m pos Hpos Hn Hm; [lia|].
  destruct m as [|m]; [lia|]. cbn [Ideal.height_loop].
  pose proof (Z.log2_nonneg pos) as Hk. pose proof (log2_bounds pos Hpos) as Hb.
  set (k := Z.log2 pos) in *. rewrite pow2_succ in * by lia.
  destruct (pos =? 2 * 2 ^ k - 1) eqn:E; [reflexivity|]. apply Z.eqb_neq in E.
  pose proof (log2_lt_of_lt_pow2 (pos - (2 ^ k - 1)) k).
  pose proof (Z.log2_nonneg (pos - (2 ^ k - 1))).
  apply IH; lia.
Qed.

Lemma index_height_ones g : 0 <= g -> Ideal.index_height (2 ^ (g + 1) - 2) = g.
Proof.
  intros Hg. unfold Ideal.index_height. cbn [Ideal.height_loop].
  replace (2 ^ (g + 1) - 2 + 1) with (2 ^ (g + 1) - 1) by lia.
  assert (Hl : Z.log2 (2 ^ (g + 1) - 1) = g).
  { apply log2_between; [lia|]. rewrite pow2_succ by lia. pose proof (pow2_pos g). lia. }
  rewrite Hl, Z.eqb_refl. reflexivity.
Qed.

Lemma index_height_shift k i :
  1 <= k -> 2 ^ k - 1 <= i <= 2 ^ (k + 1) - 3 ->
  Ideal.index_height i = Ideal.index_height (i - (2 ^ k - 1)).
Proof.
  intros Hk Hi. unfold Ideal.index_height at 1. cbn [Ideal.height_loop].
  assert (Hl : Z.log2 (i + 1) = k) by (apply log2_between; lia).
  rewrite Hl. pose proof (pow2_pos k).
  destruct (i + 1 =? 2 ^ (k + 1) - 1) eqn:E; [apply Z.eqb_eq in E; lia|].
  replace (i + 1 - (2 ^ k - 1)) with (i - (2 ^ k - 1) + 1) by lia.
  unfold Ideal.index_height.
  rewrite pow2_succ in Hi by lia.
  pose proof (log2_lt_of_lt_pow2 (i - (2 ^ k - 1) + 1) k).
  pose proof (Z.log2_nonneg (i - (2 ^ k - 1) + 1)).
  apply height_loop_fuel; lia.
Qed.

Lemma index_height_0 : Ideal.index_height 0 = 0.
Proof. reflexivity. Qed.

(** ** [index_height] computes the height below 2^31 - 2 *)

Lemma bit_length_spec x : 1 <= x -> bit_length x = Z.log2 x + 1.
Proof.
  intros H. unfold bit_length, log2_floor, JS.log2_floor.
  destruct (x =? 0) eqn:E; [apply Z.eqb_eq in E; lia|reflexivity].
Qed.

Lemma log2_lt_31 x : 1 <= x < 2 ^ 31 -> 0 <= Z.log2 x <= 30.
Proof.
  intros H. pose proof (Z.log2_nonneg x).
  pose proof (log2_lt_of_lt_pow2 x 31). lia.
Qed.

Lemma most_sig_bit_spec x : 1 <= x < 2 ^ 31 -> most_sig_bit x = 2 ^ Z.log2 x.
Proof.
  intros H. unfold most_sig_bit. rewrite bit_length_spec by lia.
  pose proof (log2_lt_31 x H).
  replace (Z.log2 x + 1 - 1) with (Z.log2 x) by lia. apply shl_1. lia.
Qed.

Lemma all_ones_spec pos :
  1 <= pos < 2 ^ 31 - 1 -> all_ones pos = (pos =? 2 ^ (Z.log2 pos + 1) - 1).
Proof.
  intros H. unfold all_ones. rewrite bit_length_spec by lia.
  assert (Hk : 0 <= Z.log2 pos <= 30) by (apply log2_lt_31; lia).
  replace (Z.log2 pos + 1 - 1 + 1) with (Z.log2 pos + 1) by lia.
  destruct (Z.eq_dec (Z.log2 pos) 30) as [E|E].
  - rewrite E. change (JS.shl 1 (30 + 1)) with (- 2 ^ 31).
    destruct (pos =? - 2 ^ 31 - 1) eqn:E1; [apply Z.eqb_eq in E1; lia|].
    destruct (pos =? 2 ^ (30 + 1) - 1) eqn:E2; [apply Z.eqb_eq in E2; lia|].
    reflexivity.
  - rewrite shl_1 by lia. reflexivity.
Qed.

Lemma index_height_loop_spec fuel pos :
  1 <= pos < 2 ^ 31 - 1 -> (Z.to_nat (Z.log2 pos) < fuel)%nat ->
  index_height_loop fuel pos = Ok (Ideal.height_loop fuel pos).
Proof.
  revert pos. induction fuel as [|fuel IH]; intros pos Hpos Hf; [lia|].
  cbn [index_height_loop Ideal.height_loop].
  rewrite all_ones_spec by lia.
  assert (Hp1 : 1 <= pos) by lia.
  pose proof (Z.log2_nonneg pos) as Hk. pose proof (log2_bounds pos Hp1) as Hb.
  destruct (pos =? 2 ^ (Z.log2 pos + 1) - 1) eqn:E; cbn [negb].
  - rewrite bit_length_spec by lia. f_equal. lia.
  - apply Z.eqb_neq in E. rewrite most_sig_bit_spec by lia.
    rewrite pow2_succ in * by lia.
    pose proof (log2_lt_of_lt_pow2 (pos - (2 ^ Z.log2 pos - 1)) (Z.log2 pos)).
    pose proof (Z.log2_nonneg (pos - (2 ^ Z.log2 pos - 1))).
    apply IH; lia.
Qed.

Lemma index_height_exact fuel i :
  0 <= i -> i + 1 < 2 ^ 31 - 1 -> (32 <= fuel)%nat ->
  index_height fuel i = Ok (Ideal.index_height i).
Proof.
  intros Hi Hb Hf. unfold index_height, Ideal.index_height.
  assert (0 <= Z.log2 (i + 1) <= 30) by (apply log2_lt_31; lia).
  rewrite index_height_loop_spec by lia. f_equal.
  apply height_loop_fuel; lia.
Qed.

(** ** The node index of a leaf *)

Lemma mmr_index_loop_fuel n m e :
  (e <= 0 \/ (Z.to_nat (Z.log2 e) < n)%nat /\ (Z.to_nat (Z.log2 e) < m)%nat) ->
  Ideal.mmr_index_loop n e = Ideal.mmr_index_loop m e.
Proof.
  revert m e. induction n as [|n IH]; intros m e H.
  - destruct H as [H|H]; [|lia]. destruct m; cbn; [reflexivity|].
    destruct (0 <? e) eqn:E; [apply Z.ltb_lt in E; lia|reflexivity].
  - destruct m as [|m].
    + destruct H as [H|H]; [|lia]. cbn.
      destruct (0 <? e) eqn:E; [apply Z.ltb_lt in E; lia|reflexivity].
    + cbn [Ideal.mmr_index_loop].
      destruct (0 <? e) eqn:E; [|reflexivity]. apply Z.ltb_lt in E.
      f_equal. destruct H as [H|[Hn Hm]]; [lia|].
      pose proof (Z.log2_nonneg e) as Hk. pose proof (log2_bounds e ltac:(lia)) as Hb.
      rewrite pow2_succ in Hb by lia.
      destruct (Z.eq_dec (e - 2 ^ Z.log2 e) 0) as [E0|E0].
      * apply IH. left. lia.
      * pose proof (log2_lt_of_lt_pow2 (e - 2 ^ Z.log2 e) (Z.log2 e)).
        pose proof (Z.log2_nonneg (e - 2 ^ Z.log2 e)).
        apply IH. right. lia.
Qed.

Lemma mmr_index_nonpos e : e <= 0 -> Ideal.mmr_index e = 0.
Proof.
  intros H. unfold Ideal.mmr_index. cbn [Ideal.mmr_index_loop].
  destruct (0 <? e) eqn:E; [apply Z.ltb_lt in E; lia|reflexivity].
Qed.

Lemma mmr_index_eq e :
  1 <= e ->
  Ideal.mmr_index e = 2 ^ (Z.log2 e + 1) - 1 + Ideal.mmr_index (e - 2 ^ Z.log2 e).
Proof.
  intros H. unfold Ideal.mmr_index at 1. cbn [Ideal.mmr_index_loop].
  destruct (0 <? e) eqn:E; [|apply Z.ltb_ge in E; lia].
  f_equal. unfold Ideal.mmr_index.
  pose proof (Z.log2_nonneg e) as Hk. pose proof (log2_bounds e H) as Hb.
  rewrite pow2_succ in Hb by lia.
  destruct (Z.eq_dec (e - 2 ^ Z.log2 e) 0) as [E0|E0].
  - apply mmr_index_loop_fuel. left. lia.
  - pose proof (log2_lt_of_lt_pow2 (e - 2 ^ Z.log2 e) (Z.log2 e)).
    pose proof (Z.log2_nonneg (e - 2 ^ Z.log2 e)).
    apply mmr_index_loop_fuel. right. lia.
Qed.

(** Strong induction on a non-negative integer. *)
Lemma Z_strong_ind (P : Z -> Prop) :
  (forall x, 0 <= x -> (forall y, 0 <= y < x -> P y) -> P x) ->
  forall x, 0 <= x -> P x.
Proof.
  intros Hstep x Hx.
  assert (H : forall n : nat, forall y, 0 <= y < Z.of_nat n -> P y).
  { induction n as [|n IH]; intros y Hy; [lia|].
    apply Hstep; [lia|]. intros z Hz. apply IH. lia. }
  apply (H (S (Z.to_nat x))). lia.
Qed.

Lemma mmr_index_bounds e :
  0 <= e -> e <= Ideal.mmr_index e /\ (1 <= e -> Ideal.mmr_index e <= 2 * e - 1).
Proof.
  revert e. apply Z_strong_ind. intros e He IH.
  destruct (Z.eq_dec e 0) as [->|Hne]; [rewrite mmr_index_nonpos; lia|].
  rewrite mmr_index_eq by lia.
  pose proof (Z.log2_nonneg e) as Hk. pose proof (log2_bounds e ltac:(lia)) as Hb.
  rewrite pow2_succ in * by lia.
  destruct (IH (e - 2 ^ Z.log2 e) ltac:(lia)) as [H1 H2].
  destruct (Z.eq_dec (e - 2 ^ Z.log2 e) 0) as [E0|E0].
  - rewrite E0 in *. rewrite mmr_index_nonpos in * by lia. lia.
  - specialize (H2 ltac:(lia)). lia.
Qed.

Lemma mmr_index_nonneg e : 0 <= Ideal.mmr_index e.
Proof.
  destruct (Z_le_gt_dec e 0) as [H|H]; [rewrite mmr_index_nonpos; lia|].
  pose proof (mmr_index_bounds e). lia.
Qed.

Lemma mmr_index_lt a b : 0 <= a < b -> Ideal.mmr_index a < Ideal.mmr_index b.
Proof.
  intros [Ha Hab]. assert (Hb : 0 <= b) by lia. revert a Ha Hab.
  pattern b. revert b Hb. apply Z_strong_ind.
  intros b Hb IH a Ha Hab.
  destruct (Z.eq_dec a 0) as [->|Hne].
  { pose proof (mmr_index_bounds b ltac:(lia)). rewrite mmr_index_nonpos; lia. }
  pose proof (Z.log2_nonneg a) as Hka. pose proof (log2_bounds a ltac:(lia)) as Hba.
  pose proof (Z.log2_nonneg b) as Hkb. pose proof (log2_bounds b ltac:(lia)) as Hbb.
  pose proof (Z.log2_le_mono a b ltac:(lia)) as Hmono.
  rewrite (mmr_index_eq b) by lia.
  destruct (Z.eq_dec (Z.log2 a) (Z.log2 b)) as [E|E].
  - rewrite (mmr_index_eq a) by lia. rewrite E in *.
    rewrite pow2_succ in * by lia. pose proof (pow2_pos (Z.log2 b) Hkb).
    specialize (IH (b - 2 ^ Z.log2 b) ltac:(lia) (a - 2 ^ Z.log2 b) ltac:(lia) ltac:(lia)).
    lia.
  - pose proof (mmr_index_bounds a ltac:(lia)) as [_ H2]. specialize (H2 ltac:(lia)).
    pose proof (mmr_index_nonneg (b - 2 ^ Z.log2 b)).
    pose proof (pow2_le_mono (Z.log2 a + 1) (Z.log2 b) ltac:(lia)).
    rewrite !pow2_succ in * by lia. lia.
Qed.

Lemma mmr_index_le a b : 0 <= a <= b -> Ideal.mmr_index a <= Ideal.mmr_index b.
Proof.
  intros H. destruct (Z.eq_dec a b) as [->|]; [lia|].
  pose proof (mmr_index_lt a b). lia.
Qed.

(** ** [mmr_index] computes the node index below 2^30 *)

Lemma bit_length_0 : bit_length 0 = 0.
Proof. reflexivity. Qed.

Lemma mmr_index_loop_spec fuel e sum :
  0 <= e < 2 ^ 30 -> (Z.to_nat (bit_length e) < fuel)%nat ->
  mmr_index_loop fuel e sum = Ok (sum + Ideal.mmr_index e).
Proof.
  revert e sum. induction fuel as [|fuel IH]; intros e sum He Hf; [lia|].
  cbn [mmr_index_loop].
  destruct (0 <? e) eqn:E.
  - apply Z.ltb_lt in E. rewrite bit_length_spec in * by lia.
    assert (Hk : 0 <= Z.log2 e < 30).
    { pose proof (Z.log2_nonneg e). pose proof (log2_lt_of_lt_pow2 e 30). lia. }
    pose proof (log2_bounds e ltac:(lia)) as Hb.
    replace (Z.log2 e + 1 - 1) with (Z.log2 e) by lia.
    rewrite !shl_1 by lia. rewrite mmr_index_eq by lia.
    rewrite pow2_succ in * by lia.
    destruct (Z.eq_dec (e - 2 ^ Z.log2 e) 0) as [E0|E0].
    + rewrite E0. rewrite IH by (rewrite ?bit_length_0; lia).
      f_equal. lia.
    + pose proof (log2_lt_of_lt_pow2 (e - 2 ^ Z.log2 e) (Z.log2 e)).
      pose proof (Z.log2_nonneg (e - 2 ^ Z.log2 e)).
      rewrite IH by (rewrite ?bit_length_spec by lia; lia). f_equal. lia.
  - apply Z.ltb_ge in E. rewrite mmr_index_nonpos by lia. f_equal. lia.
Qed.

Lemma bit_length_le_30 x : 0 <= x < 2 ^ 30 -> 0 <= bit_length x <= 30.
Proof.
  intros H. destruct (Z.eq_dec x 0) as [->|]; [rewrite bit_length_0; lia|].
  rewrite bit_length_spec by lia.
  pose proof (Z.log2_nonneg x). pose proof (log2_lt_of_lt_pow2 x 30). lia.
Qed.

Lemma mmr_index_exact fuel e :
  0 <= e < 2 ^ 30 -> (32 <= fuel)%nat ->
  mmr_index fuel e = Ok (Ideal.mmr_index e).
Proof.
  intros He Hf. unfold mmr_index. pose proof (bit_length_le_30 e He).
  rewrite mmr_index_loop_spec by lia. reflexivity.
Qed.

(** ** [leaf_count] computes the greedy peak map below 2^30 *)

Lemma pow2_half k : 1 <= k -> (2 ^ k - 1) / 2 = 2 ^ (k - 1) - 1.
Proof.
  intros Hk. replace k with (k - 1 + 1) at 1 by lia. rewrite pow2_succ by lia.
  pose proof (pow2_pos (k - 1)).
  symmetry. apply (Z.div_unique _ _ _ 1); lia.
Qed.

Lemma leaf_count_loop_spec (k : nat) fuel s pm :
  (k < fuel)%nat -> (k <= 30)%nat -> 0 <= pm < 2 ^ (30 - Z.of_nat k) ->
  leaf_count_loop fuel s (2 ^ Z.of_nat k - 1) pm = Ok (Ideal.leaf_count_loop k s pm).
Proof.
  revert fuel s pm. induction k as [|k IH]; intros fuel s pm Hf Hk Hpm.
  - destruct fuel; [lia|]. reflexivity.
  - destruct fuel as [|fuel]; [lia|].
    cbn [leaf_count_loop Ideal.leaf_count_loop].
    pose proof (pow2_pos (Z.of_nat k) ltac:(lia)) as Hp.
    pose proof (pow2_le_mono (30 - Z.of_nat (S k)) 29 ltac:(lia)) as Hle.
    pose proof (pow2_le_mono (Z.of_nat k) 29 ltac:(lia)) as Hle2.
    assert (Hs : 2 ^ (30 - Z.of_nat k) = 2 * 2 ^ (30 - Z.of_nat (S k))).
    { rewrite <- pow2_succ by lia. f_equal. lia. }
    replace (Z.of_nat (S k)) with (Z.of_nat k + 1) in * by lia.
    rewrite (pow2_succ (Z.of_nat k)) in * by lia.
    change (2 ^ 29) with 536870912 in *.
    destruct (0 <? 2 * 2 ^ Z.of_nat k - 1) eqn:E; [|apply Z.ltb_ge in E; lia].
    rewrite shl_by_1 by lia.
    rewrite sar_by_1 by lia.
    replace ((2 * 2 ^ Z.of_nat k - 1) / 2) with (2 ^ Z.of_nat k - 1).
    2:{ apply (Z.div_unique _ _ _ 1); lia. }
    destruct (2 * 2 ^ Z.of_nat k - 1 <=? s) eqn:Es.
    + rewrite bor_1_even.
      * apply IH; lia.
      * lia.
      * rewrite Z.mul_comm. apply Z.mod_mul. lia.
    + apply IH; lia.
Qed.

Lemma leaf_count_exact fuel i :
  0 <= i -> i + 1 < 2 ^ 30 -> (32 <= fuel)%nat ->
  leaf_count fuel i = Ok (Ideal.leaf_count i).
Proof.
  intros Hi Hb Hf. unfold leaf_count, Ideal.leaf_count.
  rewrite bit_length_spec by lia.
  assert (Hk : 0 <= Z.log2 (i + 1) < 30).
  { pose proof (Z.log2_nonneg (i + 1)). pose proof (log2_lt_of_lt_pow2 (i + 1) 30). lia. }
  rewrite shl_1 by lia.
  replace (Z.log2 (i + 1) + 1) with (Z.of_nat (Z.to_nat (Z.log2 (i + 1) + 1))) at 1 by lia.
  pose proof (pow2_pos (30 - Z.of_nat (Z.to_nat (Z.log2 (i + 1) + 1)))).
  apply leaf_count_loop_spec; lia.
Qed.

(** ** [leaf_count] after [mmr_index] (claim C8) *)

(** The leaf count that the peaks of [MMR (mmr_index e)] stand for: the odd
    number among [e] and [e + 1]. *)
Definition leaves_under_peaks (e : Z) : Z := if Z.even e then e + 1 else e.

Lemma leaves_under_peaks_add e k :
  1 <= k -> leaves_under_peaks (e - 2 ^ k) + 2 ^ k = leaves_under_peaks e.
Proof.
  intros Hk. unfold leaves_under_peaks.
  replace (Z.even (e - 2 ^ k)) with (Z.even e).
  - destruct (Z.even e); lia.
  - rewrite Z.even_sub. rewrite Z.even_pow by lia. cbn.
    destruct (Z.even e); reflexivity.
Qed.

Lemma leaf_count_loop_mmr_index (k : nat) e pm :
  (1 <= k)%nat -> 0 <= e < 2 ^ Z.of_nat k ->
  Ideal.leaf_count_loop k (Ideal.mmr_index e + 1) pm
  = pm * 2 ^ Z.of_nat k + leaves_under_peaks e.
Proof.
  revert e pm. induction k as [|k IH]; intros e pm Hk He; [lia|].
  cbn [Ideal.leaf_count_loop].
  replace (Z.of_nat (S k)) with (Z.of_nat k + 1) in * by lia.
  rewrite pow2_succ in * by lia.
  pose proof (pow2_pos (Z.of_nat k) ltac:(lia)) as Hp.
  destruct k as [|k].
  - (* sizes: 1 only; e is 0 or 1 *)
    change (2 ^ Z.of_nat 0) with 1 in *. cbn [Ideal.leaf_count_loop].
    assert (He' : e = 0 \/ e = 1) by lia.
    destruct He' as [-> | ->];
      [change (Ideal.mmr_index 0) with 0 | change (Ideal.mmr_index 1) with 1];
      cbn; change (2 * 1 - 1 <=? 0 + 1) with true; change (2 * 1 - 1 <=? 1 + 1) with true;
      lia.
  - destruct (Z_lt_ge_dec e (2 ^ Z.of_nat (S k))) as [Hlt|Hge].
    + (* the top bit is clear: the tree does not fit *)
      assert (Hm : Ideal.mmr_index e + 1 < 2 * 2 ^ Z.of_nat (S k) - 1).
      { destruct (Z.eq_dec e 0) as [->|].
        - rewrite mmr_index_nonpos by lia.
          replace (Z.of_nat (S k)) with (Z.of_nat k + 1) by lia.
          rewrite pow2_succ by lia. pose proof (pow2_pos (Z.of_nat k)). lia.
        - pose proof (mmr_index_bounds e ltac:(lia)) as [_ H2].
          specialize (H2 ltac:(lia)). lia. }
      destruct (_ <=? _) eqn:E; [apply Z.leb_le in E; lia|].
      rewrite IH by lia. lia.
    + (* the top bit is set: the tree is taken *)
      assert (Hl : Z.log2 e = Z.of_nat (S k)).
      { apply log2_between; [lia|]. rewrite pow2_succ by lia. lia. }
      rewrite (mmr_index_eq e) by lia. rewrite Hl.
      rewrite pow2_succ by lia.
      pose proof (mmr_index_nonneg (e - 2 ^ Z.of_nat (S k))).
      destruct (_ <=? _) eqn:E; [|apply Z.leb_gt in E; lia].
      replace (2 * 2 ^ Z.of_nat (S k) - 1 + Ideal.mmr_index (e - 2 ^ Z.of_nat (S k)) + 1
               - (2 * 2 ^ Z.of_nat (S k) - 1))
        with (Ideal.mmr_index (e - 2 ^ Z.of_nat (S k)) + 1) by lia.
      rewrite IH by lia.
      rewrite <- (leaves_under_peaks_add e (Z.of_nat (S k))) by lia. lia.
Qed.

Lemma ideal_leaf_count_mmr_index e :
  0 <= e -> Ideal.leaf_count (Ideal.mmr_index e) = leaves_under_peaks e.
Proof.
  intros He. unfold Ideal.leaf_count.
  pose proof (mmr_index_bounds e He) as [Hle _].
  pose proof (Z.log2_nonneg (Ideal.mmr_index e + 1)) as Hk.
  pose proof (log2_bounds (Ideal.mmr_index e + 1) ltac:(lia)) as Hb.
  rewrite leaf_count_loop_mmr_index.
  - lia.
  - lia.
  - rewrite Z2Nat.id by lia. lia.
Qed.

(** C8, counterexample: leaf 1 sits at node 1, and [leaf_count 1] is 1, not
    2. *)
Lemma leaf_count_mmr_index_counterexample :
  (let* i := mmr_index 64 1 in leaf_count 64 i) = Ok 1
  /\ (1 : Z) <> 1 + 1.
Proof. split; [vm_compute; reflexivity|lia]. Qed.

(** C8, amended: [leaf_count (mmr_index e)] is [e + 1] for an even leaf index
    [e] and [e] for an odd one (leaf indices below 2^29, where the 32-bit
    shifts are exact). *)
Theorem leaf_count_mmr_index fuel e :
  0 <= e < 2 ^ 29 -> (32 <= fuel)%nat ->
  (let* i := mmr_index fuel e in leaf_count fuel i)
  = Ok (if Z.even e then e + 1 else e).
Proof.
  intros He Hf. rewrite mmr_index_exact by lia. cbn [rbind].
  pose proof (mmr_index_bounds e ltac:(lia)) as [H1 H2].
  rewrite leaf_count_exact; try lia.
  - rewrite ideal_leaf_count_mmr_index by lia. reflexivity.
  - destruct (Z.eq_dec e 0) as [->|]; [rewrite mmr_index_nonpos; lia|].
    specialize (H2 ltac:(lia)). lia.
Qed.

Lemma leaf_count_mmr_index_witness :
  (let* i := mmr_index 64 20 in leaf_count 64 i) = Ok 21
  /\ (let* i := mmr_index 64 7 in leaf_count 64 i) = Ok 7.
Proof.
  split.
  - apply (leaf_count_mmr_index 64 20); lia.
  - apply (leaf_count_mmr_index 64 7); lia.
Defined.

(** ** [ones] counts the one bits below 2^31 *)

Lemma log2_half x : 2 <= x -> Z.log2 (x / 2) = Z.log2 x - 1 /\ 1 <= Z.log2 x.
Proof.
  intros Hx. replace (x / 2) with (Z.shiftr x 1)
    by (rewrite Z.shiftr_div_pow2 by lia; reflexivity).
  rewrite Z.log2_shiftr by lia.
  assert (1 <= Z.log2 x) by (apply Z.log2_le_pow2; [lia|cbn; lia]). lia.
Qed.

Lemma half_nonzero x : 0 <= x -> x / 2 <> 0 -> 2 <= x.
Proof.
  intros Hx Hd. destruct (Z_lt_ge_dec x 2) as [H|H]; [|lia].
  exfalso. apply Hd. apply Z.div_small. lia.
Qed.

Lemma bit_length_half x : 1 <= x -> bit_length (x / 2) = bit_length x - 1.
Proof.
  intros Hx. rewrite (bit_length_spec x) by lia.
  destruct (Z.eq_dec (x / 2) 0) as [E0|E0].
  - rewrite E0, bit_length_0.
    assert (x = 1).
    { destruct (Z_lt_ge_dec x 2); [lia|]. 
      pose proof (Z.div_le_lower_bound x 2 1 ltac:(lia) ltac:(lia)). lia. }
    subst x. reflexivity.
  - pose proof (half_nonzero x ltac:(lia) E0) as H2.
    assert (0 <= x / 2) by (apply Z.div_pos; lia).
    rewrite bit_length_spec by lia. destruct (log2_half x H2). lia.
Qed.

Lemma ones_loop_spec fuel x count :
  0 <= x < 2 ^ 31 -> (Z.to_nat (bit_length x) < fuel)%nat ->
  ones_loop fuel x count = Ok (count + Ideal.ones_loop fuel x).
Proof.
  revert x count. induction fuel as [|fuel IH]; intros x count Hx Hf; [lia|].
  cbn [ones_loop Ideal.ones_loop].
  destruct (x =? 0) eqn:E; cbn [negb].
  - f_equal. lia.
  - apply Z.eqb_neq in E. rewrite band_1, sar_by_1 by lia.
    rewrite bit_length_spec in Hf by lia.
    pose proof (Z.log2_nonneg x). pose proof (log2_bounds x ltac:(lia)) as Hb.
    assert (Hd : 0 <= x / 2 < 2 ^ 31).
    { pose proof (Z.div_pos x 2). pose proof (Z.div_le_upper_bound x 2 (2 ^ 31)). 
      split; [lia|]. apply Z.div_lt_upper_bound; lia. }
    assert (Hf' : (Z.to_nat (bit_length (x / 2)) < fuel)%nat).
    { rewrite bit_length_half by lia. rewrite bit_length_spec by lia. lia. }
    rewrite IH by assumption. f_equal. lia.
Qed.

Lemma ideal_ones_loop_fuel n m x :
  0 <= x -> (Z.to_nat (bit_length x) <= n)%nat -> (Z.to_nat (bit_length x) <= m)%nat ->
  Ideal.ones_loop n x = Ideal.ones_loop m x.
Proof.
  revert m x. induction n as [|n IH]; intros m x Hx Hn Hm.
  - assert (x = 0) as ->.
    { destruct (Z.eq_dec x 0); [assumption|]. rewrite bit_length_spec in Hn by lia.
      pose proof (Z.log2_nonneg x). lia. }
    destruct m; reflexivity.
  - destruct m as [|m].
    + assert (x = 0) as ->.
      { destruct (Z.eq_dec x 0); [assumption|]. rewrite bit_length_spec in Hm by lia.
        pose proof (Z.log2_nonneg x). lia. }
      reflexivity.
    + cbn [Ideal.ones_loop]. destruct (x =? 0) eqn:E; [reflexivity|].
      apply Z.eqb_neq in E. f_equal.
      rewrite bit_length_spec in Hn, Hm by lia.
      pose proof (Z.log2_nonneg x).
      assert (0 <= x / 2) by (apply Z.div_pos; lia).
      assert (Hbl : bit_length (x / 2) <= Z.log2 x).
      { rewrite bit_length_half by lia. rewrite bit_length_spec by lia. lia. }
      apply IH; lia.
Qed.

Lemma ones_exact fuel x :
  0 <= x < 2 ^ 31 -> (33 <= fuel)%nat -> ones fuel x = Ok (Ideal.ones x).
Proof.
  intros Hx Hf. unfold ones, Ideal.ones.
  assert (Hbl : 0 <= bit_length x <= 31).
  { destruct (Z.eq_dec x 0) as [->|]; [rewrite bit_length_0; lia|].
    rewrite bit_length_spec by lia. pose proof (log2_lt_31 x). lia. }
  rewrite ones_loop_spec by lia. f_equal. rewrite Z.add_0_l.
  apply ideal_ones_loop_fuel; try lia.
  destruct (Z.eq_dec x 0) as [->|]; [rewrite bit_length_0; lia|].
  rewrite bit_length_spec by lia. pose proof (Z.log2_nonneg x). lia.
Qed.

(** ** [trailing_zeros64] below 2^32 *)

Lemma trailing_zeros_loop_fuel n m x :
  1 <= x -> (Z.to_nat (Z.log2 x) <= n)%nat -> (Z.to_nat (Z.log2 x) <= m)%nat ->
  Ideal.trailing_zeros_loop n x = Ideal.trailing_zeros_loop m x.
Proof.
  revert m x. induction n as [|n IH]; intros m x Hx Hn Hm.
  - assert (x = 1) as ->.
    { pose proof (log2_bounds x Hx). pose proof (Z.log2_nonneg x).
      replace (Z.log2 x) with 0 in * by lia. cbn in *. lia. }
    destruct m; reflexivity.
  - destruct m as [|m].
    + assert (x = 1) as ->.
      { pose proof (log2_bounds x Hx). pose proof (Z.log2_nonneg x).
        replace (Z.log2 x) with 0 in * by lia. cbn in *. lia. }
      reflexivity.
    + cbn [Ideal.trailing_zeros_loop].
      destruct (x mod 2 =? 0) eqn:E; [|reflexivity]. apply Z.eqb_eq in E.
      f_equal. pose proof (Z.div_mod x 2 ltac:(lia)).
      pose proof (Z.log2_nonneg x).
      destruct (log2_half x ltac:(lia)) as [Hl Hge].
      apply IH; lia.
Qed.

Lemma trailing_zeros_even x :
  1 <= x -> x mod 2 = 0 -> Ideal.trailing_zeros x = 1 + Ideal.trailing_zeros (x / 2).
Proof.
  intros Hx He. unfold Ideal.trailing_zeros.
  pose proof (Z.div_mod x 2 ltac:(lia)). pose proof (Z.log2_nonneg x).
  destruct (log2_half x ltac:(lia)) as [Hl Hge].
  replace (Z.to_nat (Z.log2 x)) with (S (Z.to_nat (Z.log2 (x / 2)))) by lia.
  cbn [Ideal.trailing_zeros_loop]. rewrite He. reflexivity.
Qed.

Lemma trailing_zeros_odd x :
  1 <= x -> x mod 2 = 1 -> Ideal.trailing_zeros x = 0.
Proof.
  intros Hx Ho. unfold Ideal.trailing_zeros.
  destruct (Z.to_nat (Z.log2 x)); cbn [Ideal.trailing_zeros_loop]; [reflexivity|].
  rewrite Ho. reflexivity.
Qed.

Lemma trailing_zeros_nonneg x : 1 <= x -> 0 <= Ideal.trailing_zeros x.
Proof.
  intros Hx. assert (Hx0 : 0 <= x) by lia. revert Hx.
  pattern x. apply Z_strong_ind with (x := x); [|exact Hx0].
  clear x Hx0. intros x _ IH Hx.
  pose proof (Z.mod_pos_bound x 2 ltac:(lia)).
  destruct (Z.eq_dec (x mod 2) 0) as [E|E].
  - rewrite trailing_zeros_even by lia.
    pose proof (Z.div_mod x 2 ltac:(lia)).
    specialize (IH (x / 2) ltac:(lia) ltac:(lia)). lia.
  - rewrite trailing_zeros_odd by lia. lia.
Qed.

Lemma land_double a b : Z.land (2 * a) (2 * b) = 2 * Z.land a b.
Proof.
  apply Z.bits_inj'. intros n Hn. rewrite Z.land_spec.
  destruct (Z.eq_dec n 0) as [->|Hne].
  - rewrite !Z.testbit_even_0. reflexivity.
  - replace n with (Z.succ (n - 1)) by lia.
    rewrite !Z.testbit_even_succ by lia. symmetry. apply Z.land_spec.
Qed.

Lemma land_odd a b : Z.land (2 * a + 1) (2 * b + 1) = 2 * Z.land a b + 1.
Proof.
  apply Z.bits_inj'. intros n Hn. rewrite Z.land_spec.
  destruct (Z.eq_dec n 0) as [->|Hne].
  - rewrite !Z.testbit_odd_0. reflexivity.
  - replace n with (Z.succ (n - 1)) by lia.
    rewrite !Z.testbit_odd_succ by lia. symmetry. apply Z.land_spec.
Qed.

Lemma land_complement n m : 0 <= n -> 0 <= m < 2 ^ n -> Z.land m (2 ^ n - 1 - m) = 0.
Proof.
  intros Hn Hm.
  assert (E : 2 ^ n - 1 - m = Z.land (Z.lnot m) (Z.ones n)).
  { rewrite Z.land_ones by lia. unfold Z.lnot.
    apply (Z.mod_unique _ _ (-1)); [left|unfold Z.pred]; lia. }
  rewrite E, Z.land_assoc, Z.land_lnot_diag. apply Z.land_0_l.
Qed.

(** The lowest one bit of [x], as [x & -x] finds it in [n] bit arithmetic. *)
Lemma land_neg_lowest_bit (n : nat) x :
  1 <= x < 2 ^ Z.of_nat n ->
  Z.land x (2 ^ Z.of_nat n - x) = 2 ^ Ideal.trailing_zeros x.
Proof.
  revert x. induction n as [|n IH]; intros x Hx; [cbn in Hx; lia|].
  replace (Z.of_nat (S n)) with (Z.of_nat n + 1) in * by lia.
  rewrite pow2_succ in * by lia.
  pose proof (Z.div_mod x 2 ltac:(lia)) as Hdm.
  pose proof (Z.mod_pos_bound x 2 ltac:(lia)) as Hmb.
  pose proof (pow2_pos (Z.of_nat n) ltac:(lia)) as Hp.
  destruct (Z.eq_dec (x mod 2) 0) as [E|E].
  - rewrite trailing_zeros_even by lia.
    pose proof (trailing_zeros_nonneg (x / 2) ltac:(lia)).
    rewrite Z.add_comm, pow2_succ by lia.
    rewrite <- IH by lia.
    replace (2 * 2 ^ Z.of_nat n - x) with (2 * (2 ^ Z.of_nat n - x / 2)) by lia.
    rewrite <- land_double. f_equal. lia.
  - rewrite trailing_zeros_odd by lia. change (2 ^ 0) with 1.
    replace (2 * 2 ^ Z.of_nat n - x) with (2 * (2 ^ Z.of_nat n - 1 - x / 2) + 1) by lia.
    replace x with (2 * (x / 2) + 1) at 1 by lia.
    rewrite land_odd, land_complement by lia. reflexivity.
Qed.

Lemma to_int32_mod x : JS.to_int32 x mod 2 ^ 32 = x mod 2 ^ 32.
Proof.
  unfold JS.to_int32.
  rewrite Zminus_mod, Z.mod_mod by lia. rewrite <- Zminus_mod.
  f_equal. lia.
Qed.

Lemma land_mod a b n :
  0 <= n -> Z.land a b mod 2 ^ n = Z.land (a mod 2 ^ n) (b mod 2 ^ n).
Proof.
  intros Hn. rewrite <- !Z.land_ones by lia.
  apply Z.bits_inj'. intros k Hk. rewrite !Z.land_spec.
  destruct (Z.testbit a k), (Z.testbit b k), (Z.testbit (Z.ones n) k); reflexivity.
Qed.

Lemma trailing_zeros_le_log2 x : 1 <= x -> 2 ^ Ideal.trailing_zeros x <= x.
Proof.
  intros Hx0. assert (Hx1 : 0 <= x) by lia. revert Hx0. pattern x. apply Z_strong_ind with (x := x).
  - clear x Hx1. intros x _ IH Hx.
    pose proof (Z.div_mod x 2 ltac:(lia)) as Hdm.
    pose proof (Z.mod_pos_bound x 2 ltac:(lia)) as Hmb.
    destruct (Z.eq_dec (x mod 2) 0) as [E|E].
    + rewrite trailing_zeros_even by lia.
      pose proof (trailing_zeros_nonneg (x / 2) ltac:(lia)).
      rewrite Z.add_comm, pow2_succ by lia.
      specialize (IH (x / 2) ltac:(lia) ltac:(lia)). lia.
    + rewrite trailing_zeros_odd by lia. cbn. lia.
  - lia.
Qed.

Lemma trailing_zeros64_exact x :
  1 <= x <= 2 ^ 32 - 1 -> trailing_zeros64 x = Ok (Ideal.trailing_zeros x).
Proof.
  intros Hx. unfold trailing_zeros64.
  destruct (x <? 0) eqn:E1; [apply Z.ltb_lt in E1; lia|].
  destruct (2 ^ 32 - 1 <? x) eqn:E2; [apply Z.ltb_lt in E2; lia|].
  destruct (x =? 0) eqn:E3; [apply Z.eqb_eq in E3; lia|].
  cbn [orb]. f_equal. unfold JS.clz32, JS.to_uint32, JS.band.
  rewrite to_int32_mod, (land_mod _ _ 32), !to_int32_mod by lia.
  rewrite (Z.mod_small x) by lia.
  replace (- x mod 2 ^ 32) with (2 ^ 32 - x)
    by (apply (Z.mod_unique _ _ (-1)); [left|]; lia).
  rewrite (land_neg_lowest_bit 32) by (cbn; lia).
  pose proof (trailing_zeros_nonneg x ltac:(lia)) as Hnn.
  pose proof (pow2_pos (Ideal.trailing_zeros x) Hnn).
  destruct (2 ^ Ideal.trailing_zeros x =? 0) eqn:E4; [apply Z.eqb_eq in E4; lia|].
  rewrite Z.log2_pow2 by lia. lia.
Qed.

(** ** [peaks] extracts the greedy peaks below 2^31 - 1 *)

(** The number of turns the greedy loop still needs. *)
Definition peaks_measure (s : Z) : nat :=
  if s =? 0 then 0%nat
  else if s + 1 =? 2 ^ Z.log2 (s + 1) then 1%nat
       else S (Z.to_nat (Z.log2 (s + 1))).

Lemma peaks_measure_step s :
  1 <= s ->
  0 <= s - (2 ^ Z.log2 (s + 1) - 1) < s
  /\ (peaks_measure (s - (2 ^ Z.log2 (s + 1) - 1)) < peaks_measure s)%nat.
Proof.
  intros Hs. pose proof (Z.log2_nonneg (s + 1)) as Hk.
  pose proof (log2_bounds (s + 1) ltac:(lia)) as Hb.
  assert (Hk1 : 1 <= Z.log2 (s + 1)) by (apply Z.log2_le_pow2; [lia|cbn; lia]).
  set (k := Z.log2 (s + 1)) in *.
  assert (Hp : 2 <= 2 ^ k).
  { change 2 with (2 ^ 1) at 1. apply pow2_le_mono. lia. }
  rewrite pow2_succ in Hb by lia.
  split; [lia|].
  unfold peaks_measure at 2. fold k.
  destruct (s =? 0) eqn:E0; [apply Z.eqb_eq in E0; lia|].
  unfold peaks_measure.
  destruct (s + 1 =? 2 ^ k) eqn:E1.
  - apply Z.eqb_eq in E1. replace (s - (2 ^ k - 1)) with 0 by lia. cbn. lia.
  - apply Z.eqb_neq in E1.
    set (s' := s - (2 ^ k - 1)).
    destruct (s' =? 0) eqn:E2; [lia|]. apply Z.eqb_neq in E2.
    assert (Hs' : 1 <= s' /\ s' + 1 <= 2 ^ k) by (unfold s'; lia).
    destruct (s' + 1 =? 2 ^ Z.log2 (s' + 1)) eqn:E3; [lia|]. apply Z.eqb_neq in E3.
    pose proof (Z.log2_nonneg (s' + 1)).
    enough (Z.log2 (s' + 1) < k) by lia.
    destruct (Z.eq_dec (s' + 1) (2 ^ k)) as [E4|E4].
    + exfalso. apply E3. rewrite E4. rewrite Z.log2_pow2; lia.
    + apply log2_lt_of_lt_pow2; lia.
Qed.

Lemma peaks_measure_bound s :
  0 <= s -> (peaks_measure s <= S (Z.to_nat (Z.log2 (s + 1))))%nat.
Proof.
  intros Hs. unfold peaks_measure.
  destruct (s =? 0); [lia|]. destruct (_ =? _); lia.
Qed.

Lemma ideal_peaks_loop_fuel n m peak s :
  0 <= s -> (peaks_measure s <= n)%nat -> (peaks_measure s <= m)%nat ->
  Ideal.peaks_loop n peak s = Ideal.peaks_loop m peak s.
Proof.
  revert m peak s. induction n as [|n IH]; intros m peak s Hs Hn Hm.
  - assert (s = 0) as ->.
    { unfold peaks_measure in Hn. destruct (s =? 0) eqn:E; [apply Z.eqb_eq in E; lia|].
      destruct (s + 1 =? _) in Hn; lia. }
    destruct m; reflexivity.
  - destruct m as [|m].
    + assert (s = 0) as ->.
      { unfold peaks_measure in Hm. destruct (s =? 0) eqn:E; [apply Z.eqb_eq in E; lia|].
        destruct (s + 1 =? _) in Hm; lia. }
      reflexivity.
    + cbn [Ideal.peaks_loop]. destruct (s =? 0) eqn:E; [reflexivity|].
      apply Z.eqb_neq in E. f_equal.
      destruct (peaks_measure_step s ltac:(lia)) as [H1 H2].
      apply IH; lia.
Qed.

Lemma peaks_loop_spec fuel peak s acc :
  0 <= s -> s + 1 < 2 ^ 31 -> (peaks_measure s < fuel)%nat ->
  peaks_loop fuel peak s acc = Ok (acc ++ Ideal.peaks_loop fuel peak s).
Proof.
  revert peak s acc. induction fuel as [|fuel IH]; intros peak s acc Hs Hb Hf; [lia|].
  cbn [peaks_loop Ideal.peaks_loop].
  destruct (s =? 0) eqn:E; cbn [negb].
  - rewrite app_nil_r. reflexivity.
  - apply Z.eqb_neq in E.
    unfold log2_floor, JS.log2_floor.
    assert (Hk : 0 <= Z.log2 (s + 1) <= 30) by (apply log2_lt_31; lia).
    rewrite shl_1 by lia.
    destruct (peaks_measure_step s ltac:(lia)) as [H1 H2].
    rewrite IH by lia. rewrite <- app_assoc. reflexivity.
Qed.

Lemma peaks_exact fuel i :
  0 <= i -> i + 2 < 2 ^ 31 -> (33 <= fuel)%nat ->
  peaks fuel i = Ok (Ideal.peaks i).
Proof.
  intros Hi Hb Hf. unfold peaks, Ideal.peaks.
  pose proof (peaks_measure_bound (i + 1) ltac:(lia)) as Hm.
  replace (i + 1 + 1) with (i + 2) in Hm by lia.
  assert (Hk : 0 <= Z.log2 (i + 2) <= 30) by (apply log2_lt_31; lia).
  rewrite peaks_loop_spec by lia. cbn [app]. f_equal.
  apply ideal_peaks_loop_fuel; lia.
Qed.

(** ** The integer range of the index algebra (claim C10) *)

(** C10 at a failing input.  The index algebra truncates silently from
    [2^30] on, far below the [2^53 - 1] that the comments of the source
    name.  At [i = 2^30 - 1] the shift [1 << 31] in [leaf_count] wraps to a
    negative number, the loop never runs and the result is 0, where the
    exact count is [2^29 + 1]; [mmr_index (2^30)] adds [(1 << 31) - 1] and
    returns a negative index, where the exact one is [2^31 - 1].  No error
    is raised, and both inputs are safe integers. *)
Lemma index_algebra_truncates_at_2_30 :
  leaf_count 64 (2 ^ 30 - 1) = Ok 0
  /\ Ideal.leaf_count (2 ^ 30 - 1) = 2 ^ 29 + 1
  /\ mmr_index 64 (2 ^ 30) = Ok (- 2 ^ 31 - 1)
  /\ Ideal.mmr_index (2 ^ 30) = 2 ^ 31 - 1
  /\ 2 ^ 30 <= JS.MAX_SAFE_INTEGER.
Proof. vm_compute. repeat split; try reflexivity; discriminate. Qed.

(** Where the index algebra is exact: for indices below [2^30 - 1] its
    functions return what the same algorithms compute over unbounded
    integers; [trailing_zeros64] answers 64 at 0 and raises [RangeError]
    above [2^32 - 1]. *)
Theorem index_algebra_exact fuel i :
  0 <= i -> i + 1 < 2 ^ 30 -> (33 <= fuel)%nat ->
  index_height fuel i = Ok (Ideal.index_height i)
  /\ peaks fuel i = Ok (Ideal.peaks i)
  /\ leaf_count fuel i = Ok (Ideal.leaf_count i)
  /\ mmr_index fuel i = Ok (Ideal.mmr_index i)
  /\ ones fuel i = Ok (Ideal.ones i)
  /\ (1 <= i -> trailing_zeros64 i = Ok (Ideal.trailing_zeros i))
  /\ trailing_zeros64 0 = Ok 64
  /\ (forall x, 2 ^ 32 - 1 < x -> trailing_zeros64 x = Throw RangeError).
Proof.
  intros Hi Hb Hf. repeat split.
  - apply index_height_exact; lia.
  - apply peaks_exact; lia.
  - apply leaf_count_exact; lia.
  - apply mmr_index_exact; lia.
  - apply ones_exact; lia.
  - intros H1. apply trailing_zeros64_exact. lia.
  - intros x Hx. unfold trailing_zeros64.
    destruct (x <? 0) eqn:E1; [reflexivity|].
    destruct (2 ^ 32 - 1 <? x) eqn:E2; [reflexivity|]. apply Z.ltb_ge in E2. lia.
Qed.

Lemma index_algebra_exact_witness :
  index_height 64 38 = Ok (Ideal.index_height 38)
  /\ peaks 64 38 = Ok (Ideal.peaks 38)
  /\ leaf_count 64 38 = Ok (Ideal.leaf_count 38)
  /\ mmr_index 64 38 = Ok (Ideal.mmr_index 38)
  /\ ones 64 38 = Ok (Ideal.ones 38)
  /\ (1 <= 38 -> trailing_zeros64 38 = Ok (Ideal.trailing_zeros 38))
  /\ trailing_zeros64 0 = Ok 64
  /\ (forall x, 2 ^ 32 - 1 < x -> trailing_zeros64 x = Throw RangeError).
Proof. apply (index_algebra_exact 64 38); lia. Defined.

(** * Tiles: what the operations preserve *)

(** A configuration as [Tiles.format] builds it, with a tile height for
    which [1 << tile_height] is exact. *)
Definition cfg_ok (c : TileFormat) : Prop :=
  fieldWidth c = 32 /\ peaksStart c = 32 /\ nodesStart c = 2080 /\ maxPeaks c = 64
  /\ 0 <= tileHeight c <= 29 /\ leafCount c = 2 ^ tileHeight c.

Lemma format_cfg_ok params c :
  Tiles.format params = Ok c -> 0 <= tile_height params <= 29 -> cfg_ok c.
Proof.
  intros Hf Hh. apply format_layout in Hf as (HW & HP & HN & HM & HH & HL).
  unfold cfg_ok. rewrite HL, HH, shl_1 by lia. repeat split; assumption || lia.
Qed.

(** Tile ids whose leaves all lie below 2^30. *)
Definition id_in_range (c : TileFormat) (tileid : Z) : Prop :=
  0 <= tileid /\ (tileid + 1) * 2 ^ tileHeight c < 2 ^ 30.

(** The first node index of tile [tileid]. *)
Definition tile_first (c : TileFormat) (tileid : Z) : Z :=
  Ideal.mmr_index (tileid * 2 ^ tileHeight c).

Lemma tile_first_mono c a b :
  0 <= tileHeight c -> 0 <= a <= b -> tile_first c a <= tile_first c b.
Proof.
  intros Hh Hab. unfold tile_first. pose proof (pow2_pos (tileHeight c) Hh).
  apply mmr_index_le. nia.
Qed.

Lemma tile_first_lt c a b :
  0 <= tileHeight c -> 0 <= a < b -> tile_first c a < tile_first c b.
Proof.
  intros Hh Hab. unfold tile_first. pose proof (pow2_pos (tileHeight c) Hh).
  apply mmr_index_lt. nia.
Qed.

Lemma max_tile_size_exact fuel c tileid :
  cfg_ok c -> id_in_range c tileid -> (33 <= fuel)%nat ->
  Tiles.max_tile_size fuel c tileid
  = Ok (2080 + (tile_first c (tileid + 1) - tile_first c tileid) * 32).
Proof.
  intros (HW & HP & HN & HM & HH & HL) [Hid Hr] Hf. unfold Tiles.max_tile_size, tile_first.
  rewrite HL, HW, HN. pose proof (pow2_pos (tileHeight c) ltac:(lia)).
  rewrite !mmr_index_exact by nia. cbn [rbind].
  replace (2 ^ tileHeight c * (tileid + 0)) with (tileid * 2 ^ tileHeight c) by lia.
  replace (2 ^ tileHeight c * (tileid + 1)) with ((tileid + 1) * 2 ^ tileHeight c) by lia.
  reflexivity.
Qed.

Lemma constructor_exact fuel c d tileid lastIndex t :
  cfg_ok c -> id_in_range c tileid -> (33 <= fuel)%nat ->
  Tile.constructor fuel c d tileid lastIndex = Ok t ->
  Tile.cfg t = c /\ Tile.id t = tileid /\ Tile.data t = d
  /\ Tile.firstIndex t = tile_first c tileid
  /\ Tile.lastLeafMMRIndex t = Ideal.mmr_index ((tileid + 1) * 2 ^ tileHeight c - 1)
  /\ Tile.nextIndex t = match lastIndex with
                        | None => tile_first c tileid
                        | Some l => l + 1
                        end
  /\ tile_first c tileid <= Tile.nextIndex t
  /\ (lastIndex <> None -> tile_first c tileid < Tile.nextIndex t).
Proof.
  intros (HW & HP & HN & HM & HH & HL) [Hid Hr] Hf Hc.
  apply constructor_spec in Hc
    as (first & lastLeaf & H1 & H2 & Hcfg & Hi & Hd & Hfi & Hll & Hn & Hle & _).
  pose proof (pow2_pos (tileHeight c) ltac:(lia)).
  rewrite shl_1 in H1, H2 by lia.
  rewrite mmr_index_exact in H1, H2 by nia.
  injection H1 as <-. injection H2 as <-. unfold tile_first.
  repeat split; try assumption.
  - rewrite Hn. destruct lastIndex; lia.
  - intros Hne. rewrite Hn. destruct lastIndex; [lia|congruence].
Qed.

(** The parts of a tile that appending never changes. *)
Definition same_frame (t t' : Tile.t) : Prop :=
  Tile.cfg t' = Tile.cfg t /\ Tile.id t' = Tile.id t
  /\ Tile.firstIndex t' = Tile.firstIndex t
  /\ Tile.lastLeafMMRIndex t' = Tile.lastLeafMMRIndex t
  /\ Tile.ancestorPeaks t' = Tile.ancestorPeaks t
  /\ blen (Tile.data t') = blen (Tile.data t)
  /\ Tile.nextIndex t <= Tile.nextIndex t'.

Lemma same_frame_refl t : same_frame t t.
Proof. unfold same_frame. repeat split; lia. Qed.

Lemma same_frame_trans t1 t2 t3 : same_frame t1 t2 -> same_frame t2 t3 -> same_frame t1 t3.
Proof. unfold same_frame. intros H1 H2. intuition (try congruence; try lia). Qed.

Lemma append_spec v t :
  (fst (Tile.append v t) = Ok (Tile.nextIndex t + 1)
   /\ buf_set (Tile.data t) v
        (nodesStart (Tile.cfg t)
         + (Tile.nextIndex t - Tile.firstIndex t) * fieldWidth (Tile.cfg t))
      = Ok (Tile.data (snd (Tile.append v t)))
   /\ Tile.nextIndex (snd (Tile.append v t)) = Tile.nextIndex t + 1
   /\ same_frame t (snd (Tile.append v t)))
  \/ (fst (Tile.append v t) = Throw RangeError /\ snd (Tile.append v t) = t).
Proof.
  unfold Tile.append, Tile.write_field, mbind.
  destruct (buf_set _ _ _) as [d| |] eqn:E.
  - left. cbn. pose proof (buf_set_length _ _ _ _ E).
    unfold same_frame. cbn. repeat split; try reflexivity; try assumption; lia.
  - right. unfold buf_set in E.
    destruct (_ || _); [|discriminate]. injection E as <-. split; reflexivity.
  - unfold buf_set in E. destruct (_ || _); discriminate.
Qed.

(** A property of tiles that every [append] of an admissible value keeps is
    kept by [add_leaf_hash] and by [append_leaf], whatever their outcome. *)
Section Preservation.
Variable Q : bytes -> Prop.
Variable P : Tile.t -> Prop.
Hypothesis P_append :
  forall t v, Q v -> P t -> P (snd (Tile.append v t)).

Lemma add_leaf_hash_loop_preserves fuel hasher i g t :
  (forall b, Q (hasher b)) -> P t ->
  P (snd (add_leaf_hash_loop fuel hasher i g t)).
Proof.
  intros Hh. revert i g t. induction fuel as [|fuel IH]; intros i g t Ht; [exact Ht|].
  cbn [add_leaf_hash_loop]. unfold mbind, mlift, mret.
  destruct (index_height (S fuel) i) as [h| |]; try exact Ht.
  destruct (g <? h); [|exact Ht].
  cbn [adder_get Tile.adder].
  destruct (Tile.get t (i - JS.shl 2 g)) as [vl| |]; try exact Ht.
  destruct (Tile.get t (i - 1)) as [vr| |]; try exact Ht.
  cbn [adder_append Tile.adder].
  pose proof (P_append t (hash_pos_pair64 hasher (i + 1) vl vr) (Hh _) Ht) as Ht'.
  destruct (Tile.append (hash_pos_pair64 hasher (i + 1) vl vr) t) as [[i'| |] t'];
    cbn [snd] in Ht'; try exact Ht'.
  apply IH. exact Ht'.
Qed.

Lemma add_leaf_hash_preserves fuel hasher f t :
  (forall b, Q (hasher b)) -> Q f -> P t ->
  P (snd (add_leaf_hash fuel hasher f t)).
Proof.
  intros Hh Hf Ht. unfold add_leaf_hash, mbind. cbn [adder_append Tile.adder].
  pose proof (P_append t f Hf Ht) as Ht'.
  destruct (Tile.append f t) as [[i| |] t']; cbn [snd] in Ht'; try exact Ht'.
  apply add_leaf_hash_loop_preserves; assumption.
Qed.

Lemma append_leaf_preserves fuel v t :
  (forall b, Q (hash_function (Tile.cfg t) b)) -> Q v -> P t ->
  P (snd (Tile.append_leaf fuel v t)).
Proof.
  intros Hh Hv Ht. unfold Tile.append_leaf.
  destruct (_ <? _); [exact Ht|]. apply add_leaf_hash_preserves; assumption.
Qed.

End Preservation.

Lemma append_same_frame t0 t v :
  same_frame t0 t -> same_frame t0 (snd (Tile.append v t)).
Proof.
  intros H. destruct (append_spec v t) as [(_ & _ & _ & Hf)|[_ ->]]; [|exact H].
  eapply same_frame_trans; eassumption.
Qed.

Lemma append_leaf_same_frame fuel v t :
  same_frame t (snd (Tile.append_leaf fuel v t)).
Proof.
  apply (append_leaf_preserves (fun _ => True) (same_frame t)); try exact I.
  - intros t1 v1 _. apply append_same_frame.
  - intros b. exact I.
  - apply same_frame_refl.
Qed.

(** ** The range of [nextIndex] (claim C5) *)

(** The tile states the operations can produce: a tile is created (first or
    after a parent), loaded from stored bytes holding a whole number of
    fields, or extended by [append_leaf] or [append] with a field-wide
    value.  The parent seen after [create] is a state as well, since
    [next_peak_stack] writes into it. *)
Inductive reachable (fuel : nat) (c : TileFormat) : Tile.t -> Prop :=
| reach_create_first t :
    fst (Tile.create fuel c None) = Ok t -> reachable fuel c t
| reach_create_next p t :
    reachable fuel c p -> id_in_range c (Tile.id p + 1) ->
    fst (Tile.create fuel c (Some p)) = Ok t -> reachable fuel c t
| reach_parent p p' :
    reachable fuel c p ->
    snd (Tile.create fuel c (Some p)) = Some p' -> reachable fuel c p'
| reach_load storeData t :
    Tile.load fuel c storeData = Ok t -> id_in_range c (Tile.id t) ->
    reachable fuel c t
| reach_append_leaf t v :
    reachable fuel c t -> blen v = 32 ->
    reachable fuel c (snd (Tile.append_leaf fuel v t))
| reach_append t v :
    reachable fuel c t -> blen v = 32 ->
    reachable fuel c (snd (Tile.append v t)).

(** What holds of every reachable tile. *)
Definition tile_inv (c : TileFormat) (t : Tile.t) : Prop :=
  Tile.cfg t = c /\ id_in_range c (Tile.id t)
  /\ Tile.firstIndex t = tile_first c (Tile.id t)
  /\ blen (Tile.data t)
     = 2080 + (tile_first c (Tile.id t + 1) - tile_first c (Tile.id t)) * 32
  /\ Tile.firstIndex t <= Tile.nextIndex t <= tile_first c (Tile.id t + 1).

Lemma tile_inv_append c t v :
  cfg_ok c -> blen v = 32 -> tile_inv c t -> tile_inv c (snd (Tile.append v t)).
Proof.
  intros (HW & HP & HN & HM & HH & HL) Hv (Hc & Hr & Hfi & Hlen & Hn).
  unfold id_in_range in *.
  destruct (append_spec v t) as [(_ & Hset & Hnext & Hfr)|[_ ->]].
  - destruct Hfr as (F1 & F2 & F3 & F4 & F5 & F6 & F7).
    apply buf_set_Ok in Hset as (_ & Hfit & _).
    rewrite Hc, HN, HW in Hfit.
    unfold tile_inv. rewrite F1, F2, F3, F6, Hnext.
    repeat split; try assumption; lia.
  - unfold tile_inv. repeat split; try assumption; lia.
Qed.

Ltac inv_bind H :=
  repeat match type of H with
         | rbind ?r _ = Ok _ =>
             let E := fresh "E" in
             destruct r eqn:E; cbn [rbind] in H; try discriminate H
         end.

Lemma write_start_field_length c d tileid d' :
  Tiles.write_start_field c d tileid = Ok d' -> blen d' = blen d.
Proof.
  rewrite write_start_field_eq. intros H. inv_bind H.
  rewrite (buf_set_length _ _ _ _ H). eapply buf_set_length; eassumption.
Qed.

Lemma alloc_length size d : alloc size = Ok d -> 0 <= size /\ blen d = size.
Proof.
  unfold alloc. destruct (size <? 0) eqn:E; [discriminate|].
  intros [= <-]. apply Z.ltb_ge in E. split; [lia|]. apply blen_zeros. lia.
Qed.

Lemma next_peak_stack_frame fuel p :
  same_frame p (snd (Tile.next_peak_stack fuel p))
  /\ Tile.nextIndex (snd (Tile.next_peak_stack fuel p)) = Tile.nextIndex p.
Proof.
  unfold Tile.next_peak_stack.
  destruct (ones fuel (Tile.id p)) as [pc| |]; cbn [rbind snd];
    try (split; [apply same_frame_refl|reflexivity]).
  destruct (trailing_zeros64 (Tile.id p + 1)) as [pop| |]; cbn [rbind snd];
    try (split; [apply same_frame_refl|reflexivity]).
  destruct (subarray_window _ _ _) as [off n].
  destruct (Tile.read_index p (Tile.last_index p)) as [ln| |]; cbn [rbind snd];
    try (split; [apply same_frame_refl|reflexivity]).
  destruct (_ || _); cbn [snd]; try (split; [apply same_frame_refl|reflexivity]).
  destruct (buf_set _ _ _) as [d| |] eqn:E; cbn [rbind snd];
    try (split; [apply same_frame_refl|reflexivity]).
  pose proof (buf_set_length _ _ _ _ E).
  unfold same_frame. cbn. repeat split; try assumption; lia.
Qed.

Lemma create_inv fuel c parent t :
  cfg_ok c -> (33 <= fuel)%nat ->
  id_in_range c (match parent with Some p => Tile.id p + 1 | None => 0 end) ->
  fst (Tile.create fuel c parent) = Ok t ->
  tile_inv c t /\ Tile.nextIndex t = Tile.firstIndex t
  /\ Tile.id t = match parent with Some p => Tile.id p + 1 | None => 0 end.
Proof.
  intros Hc Hf Hr. unfold Tile.create.
  set (tileid := match parent with Some p => Tile.id p + 1 | None => 0 end) in *.
  rewrite (max_tile_size_exact fuel c tileid Hc Hr Hf). cbn [rbind].
  destruct (alloc _) as [d0| |] eqn:Ea; cbn [rbind fst]; try discriminate.
  apply alloc_length in Ea as [Hsz Hl0].
  destruct (Tiles.write_start_field c d0 tileid) as [d| |] eqn:Eh;
    cbn [fst]; try discriminate.
  apply write_start_field_length in Eh.
  assert (Hmono : tile_first c tileid <= tile_first c (tileid + 1)).
  { destruct Hc as (_ & _ & _ & _ & HH & _). destruct Hr.
    apply tile_first_mono; lia. }
  destruct parent as [p|].
  - destruct (Tile.next_peak_stack fuel p) as [[stack| |] p']; cbn [fst];
      try discriminate.
    destruct (buf_set d stack (peaksStart c)) as [d'| |] eqn:Es; cbn [rbind];
      try discriminate.
    apply buf_set_length in Es. intros Hk.
    destruct (constructor_exact _ _ _ _ _ _ Hc Hr Hf Hk)
      as (K1 & K2 & K3 & K4 & K5 & K6 & K7 & _).
    unfold tile_inv. rewrite K1, K2, K3, K4, K6. fold tileid.
    unfold id_in_range in *.
    repeat split; try assumption; try lia; try congruence.
  - cbn [fst]. intros Hk.
    destruct (constructor_exact _ _ _ _ _ _ Hc Hr Hf Hk)
      as (K1 & K2 & K3 & K4 & K5 & K6 & K7 & _).
    unfold tile_inv. rewrite K1, K2, K3, K4, K6.
    unfold id_in_range in *.
    repeat split; try assumption; try lia; try congruence.
Qed.

Lemma first_tile_in_range c : cfg_ok c -> id_in_range c 0.
Proof.
  intros (_ & _ & _ & _ & HH & _). unfold id_in_range.
  pose proof (pow2_le_mono (tileHeight c) 29 ltac:(lia)).
  change (2 ^ 30) with (2 * 2 ^ 29). pose proof (pow2_pos 29). lia.
Qed.

Lemma load_inv fuel c storeData t :
  cfg_ok c -> (33 <= fuel)%nat -> id_in_range c (Tile.id t) ->
  Tile.load fuel c storeData = Ok t ->
  tile_inv c t /\ Tile.firstIndex t < Tile.nextIndex t
  /\ Tile.nextIndex t
     = Tile.firstIndex t + (blen storeData - 2080) / 32.
Proof.
  intros Hc Hf Hr. unfold Tile.load. intros H.
  destruct (Tiles.read_start_field c storeData) as [[h tileid]| |] eqn:Er;
    cbn [rbind] in H; try discriminate H.
  inv_bind H.
  destruct (negb _); [discriminate|]. inv_bind H.
  pose proof H as Hk. apply constructor_spec in Hk
    as (_ & _ & _ & _ & _ & Hi & _). rewrite Hi in Hr.
  rewrite (max_tile_size_exact fuel c tileid Hc Hr Hf) in E. injection E as <-.
  apply alloc_length in E0 as [Hsz Hl0].
  pose proof (buf_set_length _ _ _ _ E1) as Hl1.
  apply buf_set_Ok in E1 as (_ & Hfit & _).
  destruct (constructor_exact _ _ _ _ _ _ Hc Hr Hf H)
    as (K1 & K2 & K3 & K4 & K5 & K6 & K7 & K8).
  specialize (K8 ltac:(discriminate)).
  destruct Hc as (HW & HP & HN & HM & HH & HL).
  pose proof (pow2_pos (tileHeight c) ltac:(lia)). destruct Hr as [Hr0 Hr1].
  rewrite shl_1 in E2 by lia. rewrite mmr_index_exact in E2 by nia.
  injection E2 as <-. fold (tile_first c tileid) in *.
  rewrite HN, HW in K6.
  assert (Hdiv : (blen storeData - 2080) / 32
                 <= tile_first c (tileid + 1) - tile_first c tileid).
  { rewrite <- (Z.div_mul (tile_first c (tileid + 1) - tile_first c tileid) 32) by lia.
    apply Z.div_le_mono; lia. }
  unfold tile_inv, id_in_range. rewrite K1, K2, K3, K4, K6 in *.
  repeat split; try assumption; try lia.
Qed.

Lemma reachable_inv fuel c t :
  cfg_ok c -> (33 <= fuel)%nat -> (forall b, blen (hash_function c b) = 32) ->
  reachable fuel c t -> tile_inv c t.
Proof.
  intros Hc Hf Hh Hr. induction Hr.
  - eapply create_inv; try eassumption. apply first_tile_in_range; assumption.
  - eapply (create_inv fuel c (Some p)); eassumption.
  - revert H. unfold Tile.create.
    destruct (rbind _ _) as [d| |]; cbn [snd].
    + pose proof (next_peak_stack_frame fuel p) as [Hfr Hn].
      destruct (Tile.next_peak_stack fuel p) as [[stack| |] p1]; cbn [snd] in *;
        intros [= <-];
        destruct IHHr as (I1 & I2 & I3 & I4 & I5);
        destruct Hfr as (F1 & F2 & F3 & F4 & F5 & F6 & F7);
        unfold tile_inv, id_in_range in *; rewrite F1, F2, F3, F6, Hn;
        repeat split; assumption || lia.
    + intros [= <-]. exact IHHr.
    + intros [= <-]. exact IHHr.
  - eapply load_inv; eassumption.
  - apply (append_leaf_preserves (fun v => blen v = 32) (tile_inv c)); try assumption.
    + intros t1 v1 Hv1. apply tile_inv_append; assumption.
    + destruct IHHr as (-> & _). exact Hh.
  - apply tile_inv_append; assumption.
Qed.

(** C5, counterexample: the first tile of a tile height 1 log after its two
    leaves holds the nodes 0, 1 and 2; [nextIndex] is 3 while
    [lastLeafMMRIndex + 1] is 2. *)
Lemma nextIndex_exceeds_last_leaf_counterexample :
  exists t0 t2,
    fst (Tile.create 64 (test_cfg 1) None) = Ok t0
    /\ t2 = snd (Tile.append_leaf 64 (num_field 1)
                   (snd (Tile.append_leaf 64 (num_field 0) t0)))
    /\ Tile.nextIndex t2 = 3 /\ Tile.lastLeafMMRIndex t2 = 1
    /\ ~ (Tile.firstIndex t2 <= Tile.nextIndex t2 <= Tile.lastLeafMMRIndex t2 + 1).
Proof.
  eexists. eexists. split; [vm_compute; reflexivity|].
  split; [reflexivity|].
  split; [vm_compute; reflexivity|]. split; [vm_compute; reflexivity|].
  vm_compute. intros [_ H]. apply H. reflexivity.
Qed.

(** C5, amended: in every reachable tile state [nextIndex] lies between
    [firstIndex] and the first index of the next tile,
    [mmr_index ((id + 1) * 2^tile_height)], which is past
    [lastLeafMMRIndex + 1] by the interior nodes the last leaf completes; and
    the tile is empty exactly when [nextIndex = firstIndex]. *)
Theorem nextIndex_within_tile fuel c t :
  cfg_ok c -> (33 <= fuel)%nat -> (forall b, blen (hash_function c b) = 32) ->
  reachable fuel c t ->
  exists next_first,
    mmr_index fuel (leafCount c * (Tile.id t + 1)) = Ok next_first
    /\ Tile.firstIndex t <= Tile.nextIndex t <= next_first
    /\ (Tile.node_count t = 0 <-> Tile.nextIndex t = Tile.firstIndex t).
Proof.
  intros Hc Hf Hh Hr.
  destruct (reachable_inv fuel c t Hc Hf Hh Hr) as (I1 & [I2 I2'] & I3 & I4 & I5).
  exists (tile_first c (Tile.id t + 1)).
  destruct Hc as (HW & HP & HN & HM & HH & HL).
  pose proof (pow2_pos (tileHeight c) ltac:(lia)).
  split; [|split; [exact I5|]].
  - rewrite HL. rewrite mmr_index_exact by nia. unfold tile_first.
    do 2 f_equal. lia.
  - unfold Tile.node_count.
    destruct (Tile.nextIndex t =? Tile.firstIndex t) eqn:E.
    + apply Z.eqb_eq in E. tauto.
    + apply Z.eqb_neq in E. split; intros; lia.
Qed.

Lemma prefix_hash_length b : blen (prefix_hash b) = 32.
Proof.
  unfold prefix_hash, blen, zeros. rewrite length_take, length_app, length_replicate. lia.
Qed.

Lemma test_cfg_ok h : 0 <= h <= 29 -> cfg_ok (test_cfg h).
Proof.
  intros Hh. unfold cfg_ok, test_cfg. cbn. rewrite shl_1 by lia.
  repeat split; lia.
Qed.

Lemma nextIndex_within_tile_witness :
  exists t0,
    fst (Tile.create 64 (test_cfg 1) None) = Ok t0
    /\ let t := snd (Tile.append_leaf 64 (num_field 0) t0) in
       exists next_first,
         mmr_index 64 (leafCount (test_cfg 1) * (Tile.id t + 1)) = Ok next_first
         /\ Tile.firstIndex t <= Tile.nextIndex t <= next_first
         /\ (Tile.node_count t = 0 <-> Tile.nextIndex t = Tile.firstIndex t).
Proof.
  eexists. split; [vm_compute; reflexivity|].
  apply (nextIndex_within_tile 64 (test_cfg 1)).
  - apply test_cfg_ok. lia.
  - lia.
  - apply prefix_hash_length.
  - apply reach_append_leaf; [|reflexivity].
    apply reach_create_first. vm_compute. reflexivity.
Defined.

(** ** [TileFull] never leaves [TileLog.append] (claim C6) *)

Definition no_tile_full {A} (r : result A) : Prop := r <> Throw TileFullError.

Lemma ntf_ok {A} (a : A) : no_tile_full (Ok a).
Proof. discriminate. Qed.

Lemma ntf_fuel {A} : no_tile_full (@OutOfFuel A).
Proof. discriminate. Qed.

Lemma ntf_bind {A B} (r : result A) (k : A -> result B) :
  no_tile_full r -> (forall a, no_tile_full (k a)) -> no_tile_full (rbind r k).
Proof.
  unfold no_tile_full. intros Hr Hk. destruct r as [a|e|]; cbn; [apply Hk| |discriminate].
  intros [= ->]. apply Hr. reflexivity.
Qed.

Lemma ntf_throw {A B} (e : exn) :
  no_tile_full (@Throw A e) -> no_tile_full (@Throw B e).
Proof. unfold no_tile_full. intros H [= ->]. apply H. reflexivity. Qed.

Ltac ntf_done :=
  solve [ assumption | apply ntf_ok | apply ntf_fuel
        | eapply ntf_throw; eassumption | discriminate ].

Lemma ntf_index_height_loop fuel pos : no_tile_full (index_height_loop fuel pos).
Proof.
  revert pos. induction fuel as [|fuel IH]; intros pos; cbn; [discriminate|].
  destruct (negb _); [apply IH|discriminate].
Qed.

Lemma ntf_index_height fuel i : no_tile_full (index_height fuel i).
Proof. apply ntf_index_height_loop. Qed.

Lemma ntf_mmr_index fuel e : no_tile_full (mmr_index fuel e).
Proof.
  unfold mmr_index. generalize 0. revert e.
  induction fuel as [|fuel IH]; intros e sum; cbn; [discriminate|].
  destruct (0 <? e); [apply IH|discriminate].
Qed.

Lemma ntf_peaks fuel i : no_tile_full (peaks fuel i).
Proof.
  unfold peaks. generalize (@nil Z). generalize 0. generalize (i + 1).
  induction fuel as [|fuel IH]; intros s peak acc; cbn; [discriminate|].
  destruct (negb _); [apply IH|discriminate].
Qed.

Lemma ntf_ones fuel x : no_tile_full (ones fuel x).
Proof.
  unfold ones. generalize 0. revert x.
  induction fuel as [|fuel IH]; intros x count; cbn; [discriminate|].
  destruct (negb _); [apply IH|discriminate].
Qed.

Lemma ntf_trailing_zeros64 x : no_tile_full (trailing_zeros64 x).
Proof.
  unfold trailing_zeros64. destruct (_ || _); [discriminate|].
  destruct (x =? 0); discriminate.
Qed.

Lemma ntf_buf_set target src offset : no_tile_full (buf_set target src offset).
Proof. unfold buf_set. destruct (_ || _); discriminate. Qed.

Lemma ntf_alloc size : no_tile_full (alloc size).
Proof. unfold alloc. destruct (_ <? _); discriminate. Qed.

Lemma ntf_fromBE64 buf offset : no_tile_full (Numbers.fromBE64 buf offset).
Proof.
  unfold Numbers.fromBE64. destruct (_ || _); [discriminate|].
  destruct (_ <? _); discriminate.
Qed.

Lemma ntf_max_tile_size fuel c tileid : no_tile_full (Tiles.max_tile_size fuel c tileid).
Proof.
  unfold Tiles.max_tile_size.
  apply ntf_bind; [apply ntf_mmr_index|intros i0].
  apply ntf_bind; [apply ntf_mmr_index|intros i1]. apply ntf_ok.
Qed.

Lemma ntf_write_start_field c d tileid : no_tile_full (Tiles.write_start_field c d tileid).
Proof.
  rewrite write_start_field_eq.
  apply ntf_bind; [apply ntf_buf_set|intros d1]. apply ntf_buf_set.
Qed.

Lemma ntf_read_start_field c d : no_tile_full (Tiles.read_start_field c d).
Proof.
  unfold Tiles.read_start_field.
  apply ntf_bind; [apply ntf_fromBE64|intros h].
  apply ntf_bind; [apply ntf_fromBE64|intros i]. apply ntf_ok.
Qed.

Lemma ntf_read_index t i : no_tile_full (Tile.read_index t i).
Proof. unfold Tile.read_index. destruct (_ <? _); discriminate. Qed.

Lemma ntf_read_ancestor_peaks_map fuel t : no_tile_full (Tile.read_ancestor_peaks_map fuel t).
Proof.
  unfold Tile.read_ancestor_peaks_map. destruct (_ =? 0); [discriminate|].
  apply ntf_bind; [apply ntf_peaks|intros ps].
  generalize (∅ : gmap Z (Z * Z)). generalize 0.
  induction ps as [|p ps IH]; intros i acc; cbn [Tile.read_ancestor_peaks_loop];
    [apply ntf_ok|].
  apply ntf_bind; [apply ntf_index_height|intros g].
  destruct (_ <? _); apply IH.
Qed.

Lemma ntf_constructor fuel c d tileid lastIndex :
  no_tile_full (Tile.constructor fuel c d tileid lastIndex).
Proof.
  unfold Tile.constructor.
  apply ntf_bind; [apply ntf_mmr_index|intros first].
  destruct (_ <? first); [discriminate|].
  apply ntf_bind; [apply ntf_mmr_index|intros lastLeaf].
  destruct (0 <? first); [|apply ntf_ok].
  apply ntf_bind; [apply ntf_read_ancestor_peaks_map|intros m]. apply ntf_ok.
Qed.

Lemma ntf_get t i : no_tile_full (Tile.get t i).
Proof.
  unfold Tile.get. destruct (i <? _).
  - destruct (_ !! _); discriminate.
  - destruct (_ <=? _); [discriminate|apply ntf_read_index].
Qed.

Lemma ntf_append v t : no_tile_full (fst (Tile.append v t)).
Proof.
  destruct (append_spec v t) as [(-> & _)|[-> _]]; discriminate.
Qed.

Lemma ntf_add_leaf_hash_loop fuel hasher i g (t : Tile.t) :
  no_tile_full (fst (add_leaf_hash_loop fuel hasher i g t)).
Proof.
  revert i g t. induction fuel as [|fuel IH]; intros i g t; [discriminate|].
  cbn [add_leaf_hash_loop]. unfold mbind, mlift, mret.
  pose proof (ntf_index_height (S fuel) i) as Hh.
  destruct (index_height (S fuel) i) as [h|e|]; cbn [fst]; try ntf_done.
  destruct (g <? h); [|discriminate].
  cbn [adder_get adder_append Tile.adder].
  pose proof (ntf_get t (i - JS.shl 2 g)) as Hl.
  destruct (Tile.get t (i - JS.shl 2 g)) as [vl|e|]; cbn [fst]; try ntf_done.
  pose proof (ntf_get t (i - 1)) as Hr.
  destruct (Tile.get t (i - 1)) as [vr|e|]; cbn [fst]; try ntf_done.
  pose proof (ntf_append (hash_pos_pair64 hasher (i + 1) vl vr) t) as Ha.
  destruct (Tile.append _ t) as [[i'|e|] t']; cbn [fst] in *; try ntf_done.
  1: apply IH. all: ntf_done.
Qed.

Lemma ntf_add_leaf_hash fuel hasher f (t : Tile.t) :
  no_tile_full (fst (add_leaf_hash fuel hasher f t)).
Proof.
  unfold add_leaf_hash, mbind. cbn [adder_append Tile.adder].
  pose proof (ntf_append f t) as Ha.
  destruct (Tile.append f t) as [[i|e|] t']; cbn [fst] in *; try ntf_done.
  apply ntf_add_leaf_hash_loop.
Qed.

(** [append_leaf] raises [TileFull] exactly when [nextIndex > lastLeafMMRIndex],
    and then leaves the tile as it was. *)
Lemma append_leaf_TileFull_iff fuel v t :
  fst (Tile.append_leaf fuel v t) = Throw TileFullError
  <-> Tile.lastLeafMMRIndex t < Tile.nextIndex t.
Proof.
  unfold Tile.append_leaf.
  destruct (Tile.lastLeafMMRIndex t <? Tile.nextIndex t) eqn:E.
  - apply Z.ltb_lt in E. cbn. tauto.
  - apply Z.ltb_ge in E. split; [|lia].
    intros H. exfalso. exact (ntf_add_leaf_hash _ _ _ _ H).
Qed.

Lemma append_leaf_TileFull_state fuel v t :
  fst (Tile.append_leaf fuel v t) = Throw TileFullError ->
  snd (Tile.append_leaf fuel v t) = t.
Proof.
  unfold Tile.append_leaf. destruct (_ <? _); [reflexivity|].
  intros H. exfalso. exact (ntf_add_leaf_hash _ _ _ _ H).
Qed.

Lemma ntf_next_peak_stack fuel p : no_tile_full (fst (Tile.next_peak_stack fuel p)).
Proof.
  unfold Tile.next_peak_stack.
  pose proof (ntf_ones fuel (Tile.id p)) as H1.
  destruct (ones fuel (Tile.id p)) as [pc|e|]; cbn [rbind fst]; try ntf_done.
  pose proof (ntf_trailing_zeros64 (Tile.id p + 1)) as H2.
  destruct (trailing_zeros64 (Tile.id p + 1)) as [pop|e|]; cbn [rbind fst]; try ntf_done.
  destruct (subarray_window _ _ _) as [off n].
  pose proof (ntf_read_index p (Tile.last_index p)) as H3.
  destruct (Tile.read_index p (Tile.last_index p)) as [ln|e|]; cbn [rbind fst];
    try ntf_done.
  destruct (_ || _); cbn [fst]; [discriminate|].
  pose proof (ntf_buf_set (Tile.data p) ln (off + (pc - pop) * fieldWidth (Tile.cfg p))) as H4.
  destruct (buf_set _ _ _) as [d|e|]; cbn [rbind fst]; ntf_done.
Qed.

Lemma ntf_create fuel c parent : no_tile_full (fst (Tile.create fuel c parent)).
Proof.
  unfold Tile.create.
  set (tileid := match parent with Some p => Tile.id p + 1 | None => 0 end).
  assert (H0 : no_tile_full
                 (let* size := Tiles.max_tile_size fuel c tileid in
                  let* d := alloc size in Tiles.write_start_field c d tileid)).
  { apply ntf_bind; [apply ntf_max_tile_size|intros size].
    apply ntf_bind; [apply ntf_alloc|intros d]. apply ntf_write_start_field. }
  destruct (rbind _ _) as [d|e|]; cbn [fst]; try ntf_done.
  destruct parent as [p|]; cbn [fst]; [|apply ntf_constructor].
  pose proof (ntf_next_peak_stack fuel p) as H1.
  destruct (Tile.next_peak_stack fuel p) as [[stack|e|] p']; cbn [fst] in *;
    try ntf_done.
  apply ntf_bind; [apply ntf_buf_set|intros d']. apply ntf_constructor.
Qed.

Lemma ntf_load fuel c storeData : no_tile_full (Tile.load fuel c storeData).
Proof.
  unfold Tile.load.
  apply ntf_bind; [apply ntf_read_start_field|intros [h tileid]].
  apply ntf_bind; [apply ntf_max_tile_size|intros size].
  apply ntf_bind; [apply ntf_alloc|intros d].
  apply ntf_bind; [apply ntf_buf_set|intros d'].
  destruct (negb _); [discriminate|].
  apply ntf_bind; [apply ntf_mmr_index|intros first]. apply ntf_constructor.
Qed.

Lemma ntf_head fuel c d : no_tile_full (fst (TileStore.head fuel c d)).
Proof.
  unfold TileStore.head, TileStorageProvider.read_head, SQLite.read_head.
  destruct (SQLite.last_row d) as [[k [bs counter]]|]; cbn [fst].
  - apply ntf_bind; [apply ntf_load|intros t]. apply ntf_ok.
  - apply ntf_bind; [apply ntf_create|intros t]. apply ntf_ok.
Qed.

Lemma ntf_commit c t version d : no_tile_full (fst (TileStore.commit c t version d)).
Proof.
  unfold TileStore.commit. destruct (_ =? 0); [discriminate|].
  destruct version as [v|];
    unfold TileStorageProvider.replace_tile, TileStorageProvider.create_tile,
      SQLite.replace, SQLite.insert.
  - destruct (d !! Tile.id t) as [[bs k]|]; [|discriminate].
    destruct (k =? v); discriminate.
  - destruct (d !! Tile.id t); discriminate.
Qed.

(** A tile fresh from [create] is empty and not full. *)
Lemma create_fresh fuel c parent t :
  cfg_ok c -> (33 <= fuel)%nat ->
  id_in_range c (match parent with Some p => Tile.id p + 1 | None => 0 end) ->
  fst (Tile.create fuel c parent) = Ok t ->
  Tile.nextIndex t = Tile.firstIndex t
  /\ Tile.firstIndex t <= Tile.lastLeafMMRIndex t.
Proof.
  intros Hc Hf Hr Hk.
  destruct (create_inv fuel c parent t Hc Hf Hr Hk) as ((_ & _ & Hfi & _) & Hn & Hid).
  split; [exact Hn|].
  revert Hk. unfold Tile.create.
  set (tileid := match parent with Some p => Tile.id p + 1 | None => 0 end) in *.
  destruct (rbind _ _) as [d| |]; cbn [fst]; try discriminate.
  assert (Hll : forall d', Tile.constructor fuel c d' tileid None = Ok t ->
                           Tile.firstIndex t <= Tile.lastLeafMMRIndex t).
  { intros d' Hk. destruct (constructor_exact _ _ _ _ _ _ Hc Hr Hf Hk)
      as (_ & _ & _ & K4 & K5 & _).
    rewrite K4, K5. unfold tile_first.
    destruct Hc as (_ & _ & _ & _ & HH & _). destruct Hr as [Hr0 Hr1].
    pose proof (pow2_pos (tileHeight c) ltac:(lia)).
    apply mmr_index_le. nia. }
  destruct parent as [p|]; cbn [fst].
  - destruct (Tile.next_peak_stack fuel p) as [[stack| |] p']; cbn [fst];
      try discriminate.
    destruct (buf_set d stack (peaksStart c)) as [d'| |]; cbn [rbind];
      try discriminate.
    apply Hll.
  - apply Hll.
Qed.

(** One leaf of the batch: [TileFull] is caught, the successor tile takes
    the leaf, and the tile id moves on by at most one. *)
Lemma append_one_no_tile_full fuel c leaf adder version d :
  cfg_ok c -> (33 <= fuel)%nat -> id_in_range c (Tile.id adder + 1) ->
  no_tile_full (fst (TileLog.append_one fuel c leaf adder version d))
  /\ forall i adder' version' d',
       TileLog.append_one fuel c leaf adder version d = (Ok (i, adder', version'), d') ->
       Tile.id adder <= Tile.id adder' <= Tile.id adder + 1.
Proof.
  intros Hc Hf Hr. unfold TileLog.append_one.
  pose proof (append_leaf_same_frame fuel leaf adder) as Hfr.
  pose proof (append_leaf_TileFull_state fuel leaf adder) as Hst.
  destruct (Tile.append_leaf fuel leaf adder) as [[i|e|] adder1]; cbn [fst snd] in *.
  - split; [apply ntf_ok|]. unfold mret. intros i0 a0 v0 d0 [= <- <- <- <-].
    destruct Hfr as (_ & -> & _). lia.
  - destruct e; try (split; [unfold mthrow; cbn; discriminate
                            |unfold mthrow; intros; discriminate]).
    specialize (Hst eq_refl). subst adder1.
    unfold mbind, mlift, mret.
    pose proof (ntf_commit c adder version d) as Hcm.
    destruct (TileStore.commit c adder version d) as [[[]|e|] d1]; cbn [fst] in *;
      try (split; [ntf_done|intros; discriminate]).
    unfold TileStore.create.
    pose proof (ntf_create fuel c (Some adder)) as Hcr.
    pose proof (create_fresh fuel c (Some adder)) as Hfresh.
    pose proof (create_inv fuel c (Some adder)) as Hinv.
    destruct (fst (Tile.create fuel c (Some adder))) as [adder2|e|]; cbn [fst] in *;
      try (split; [ntf_done|intros; discriminate]).
    destruct (Hfresh adder2 Hc Hf Hr eq_refl) as [Hn Hle].
    destruct (Hinv adder2 Hc Hf Hr eq_refl) as (_ & _ & Hid).
    pose proof (append_leaf_TileFull_iff fuel leaf adder2) as Hiff.
    pose proof (append_leaf_same_frame fuel leaf adder2) as Hfr2.
    destruct (Tile.append_leaf fuel leaf adder2) as [[i|e|] adder3]; cbn [fst snd] in *.
    + split; [apply ntf_ok|]. intros i0 a0 v0 d0 [= <- <- <- <-].
      destruct Hfr2 as (_ & -> & _). lia.
    + split; [|intros; discriminate].
      intros [= ->]. destruct Hiff as [Hiff _]. specialize (Hiff eq_refl). lia.
    + split; [discriminate|intros; discriminate].
  - split; [discriminate|intros; discriminate].
Qed.

Lemma append_loop_no_tile_full fuel c leaves adder version indices d :
  cfg_ok c -> (33 <= fuel)%nat ->
  0 <= Tile.id adder ->
  (Tile.id adder + Z.of_nat (length leaves) + 1) * 2 ^ tileHeight c < 2 ^ 30 ->
  no_tile_full (fst (TileLog.append_loop fuel c leaves adder version indices d)).
Proof.
  intros Hc Hf. revert adder version indices d.
  induction leaves as [|leaf rest IH]; intros adder version indices d Hid Hr.
  - apply ntf_ok.
  - cbn [TileLog.append_loop]. unfold mbind.
    assert (Hr1 : id_in_range c (Tile.id adder + 1)).
    { destruct Hc as (_ & _ & _ & _ & HH & _).
      pose proof (pow2_pos (tileHeight c) ltac:(lia)).
      unfold id_in_range. cbn [length] in Hr. split; [lia|nia]. }
    destruct (append_one_no_tile_full fuel c leaf adder version d Hc Hf Hr1) as [Hntf Hids].
    destruct (TileLog.append_one fuel c leaf adder version d)
      as [[[[i adder'] version']|e|] d1]; cbn [fst] in *; try ntf_done.
    specialize (Hids i adder' version' d1 eq_refl).
    apply IH; [lia|].
    destruct Hc as (_ & _ & _ & _ & HH & _).
    pose proof (pow2_pos (tileHeight c) ltac:(lia)).
    cbn [length] in Hr. nia.
Qed.

(** C6.  [append_leaf] raises [TileFull] exactly when
    [nextIndex > lastLeafMMRIndex]; a tile fresh from [create] has
    [nextIndex = firstIndex <= lastLeafMMRIndex]; and [TileLog.append] never
    ends in [TileFull], for every batch whose tiles stay below 2^30 leaves. *)
Theorem append_never_raises_TileFull fuel params c leaves log :
  Tiles.format params = Ok c -> 0 <= tile_height params <= 29 -> (33 <= fuel)%nat ->
  (forall adder version d',
     TileStore.head fuel c (TileLog.store log) = (Ok (adder, version), d') ->
     0 <= Tile.id adder
     /\ (Tile.id adder + Z.of_nat (length leaves) + 1) * 2 ^ tileHeight c < 2 ^ 30) ->
  fst (TileLog.append fuel c leaves log) <> Throw TileFullError
  /\ (forall v t,
        fst (Tile.append_leaf fuel v t) = Throw TileFullError
        <-> Tile.lastLeafMMRIndex t < Tile.nextIndex t)
  /\ (forall parent t,
        id_in_range c (Tile.id parent + 1) ->
        TileStore.create fuel c (Some parent) = Ok t ->
        Tile.nextIndex t = Tile.firstIndex t
        /\ Tile.firstIndex t <= Tile.lastLeafMMRIndex t
        /\ fst (Tile.append_leaf fuel (num_field 0) t) <> Throw TileFullError).
Proof.
  intros Hfmt Hh Hf Hhead. pose proof (format_cfg_ok params c Hfmt Hh) as Hc.
  split; [|split].
  - unfold TileLog.append, TileLog.on_store, mbind, mret.
    pose proof (ntf_head fuel c (TileLog.store log)) as Hnh.
    destruct (TileStore.head fuel c (TileLog.store log))
      as [[[adder version]|e|] d1] eqn:Ehead; cbn [fst] in *; try ntf_done.
    destruct (Hhead adder version d1 eq_refl) as [Hid Hr].
    pose proof (append_loop_no_tile_full fuel c leaves adder version [] d1 Hc Hf Hid Hr)
      as Hloop.
    destruct (TileLog.append_loop fuel c leaves adder version [] d1)
      as [[[[indices adder'] version']|e|] d2]; cbn [fst] in *; try ntf_done.
    pose proof (ntf_commit c adder' version' d2) as Hcm.
    destruct (TileStore.commit c adder' version' d2) as [[[]|e|] d3]; cbn [fst] in *;
      ntf_done.
  - intros v t. apply append_leaf_TileFull_iff.
  - intros parent t Hr Hk. unfold TileStore.create in Hk.
    destruct (create_fresh fuel c (Some parent) t Hc Hf Hr Hk) as [Hn Hle].
    split; [exact Hn|split; [exact Hle|]].
    intros H. apply append_leaf_TileFull_iff in H. lia.
Qed.

(** The head of the empty store is the freshly created tile 0. *)
Lemma empty_log_head_id adder version d' :
  TileStore.head 64 (test_cfg 1) (TileLog.store empty_log) = (Ok (adder, version), d') ->
  Tile.id adder = 0.
Proof.
  intros H.
  assert (E : match fst (TileStore.head 64 (test_cfg 1) (TileLog.store empty_log)) with
              | Ok (a, _) => Tile.id a
              | _ => 0
              end = 0) by (vm_compute; reflexivity).
  rewrite H in E. exact E.
Qed.

(** The five tile log of the tests, built in one batch. *)
Lemma append_never_raises_TileFull_witness :
  fst (TileLog.append 64 (test_cfg 1) (map num_field [0; 1; 2; 3; 4; 5; 6; 7; 8; 9])
         empty_log) <> Throw TileFullError
  /\ (forall v t,
        fst (Tile.append_leaf 64 v t) = Throw TileFullError
        <-> Tile.lastLeafMMRIndex t < Tile.nextIndex t)
  /\ (forall parent t,
        id_in_range (test_cfg 1) (Tile.id parent + 1) ->
        TileStore.create 64 (test_cfg 1) (Some parent) = Ok t ->
        Tile.nextIndex t = Tile.firstIndex t
        /\ Tile.firstIndex t <= Tile.lastLeafMMRIndex t
        /\ fst (Tile.append_leaf 64 (num_field 0) t) <> Throw TileFullError).
Proof.
  apply (append_never_raises_TileFull 64 (test_params 1)).
  - reflexivity.
  - cbn. lia.
  - lia.
  - intros adder version d' H. rewrite (empty_log_head_id _ _ _ H).
    vm_compute. split; [discriminate|reflexivity].
Defined.


(** * Inclusion proofs *)

(** ** Perfect trees in the flat node range

    Node indices are laid out in post order.  The perfect tree of height [g]
    whose first leaf is [b] occupies [b .. b + 2^(g+1) - 2] and its root is
    the last of them. *)
Definition tree_root (b g : Z) : Z := b + 2 ^ (g + 1) - 2.

(** [within B N b g]: the tree [(b, g)] is reached from [(B, N)] by going to
    the left or to the right subtree some number of times. *)
Inductive within (B N : Z) : Z -> Z -> Prop :=
| within_refl : within B N B N
| within_left b g : 0 <= g -> within B N b (g + 1) -> within B N b g
| within_right b g :
    0 <= g -> within B N b (g + 1) -> within B N (b + 2 ^ (g + 1) - 1) g.

(** The trees of the range are those within a tree that starts at node 0. *)
Definition mtree (b g : Z) : Prop := exists N, 0 <= N /\ within 0 N b g.

Lemma tree_root_left b g : 0 <= g -> tree_root b (g + 1) = tree_root b g + 2 ^ (g + 1).
Proof. intros. unfold tree_root. rewrite (pow2_succ (g + 1)) by lia. lia. Qed.

Lemma tree_root_right b g :
  0 <= g -> tree_root b (g + 1) = tree_root (b + 2 ^ (g + 1) - 1) g + 1.
Proof. intros. unfold tree_root. rewrite (pow2_succ (g + 1)) by lia. lia. Qed.

Lemma within_bounds B N b g :
  0 <= N -> within B N b g ->
  0 <= g <= N /\ B <= b /\ tree_root b g <= tree_root B N.
Proof.
  intros HN Hw. induction Hw as [|b g Hg Hw IH|b g Hg Hw IH].
  - lia.
  - rewrite tree_root_left in IH by lia. pose proof (pow2_pos (g + 1)). lia.
  - rewrite tree_root_right in IH by lia. pose proof (pow2_pos (g + 1)). lia.
Qed.

Lemma within_trans B N b g b' g' :
  within B N b g -> within b g b' g' -> within B N b' g'.
Proof.
  intros H1 H2. induction H2; [assumption|constructor; assumption..].
Qed.

Lemma mtree_within b g b' g' : mtree b g -> within b g b' g' -> mtree b' g'.
Proof. intros (N & HN & Hw) H. exists N. split; [lia|]. eapply within_trans; eassumption. Qed.

Lemma mtree_left b g : 0 <= g -> mtree b (g + 1) -> mtree b g.
Proof.
  intros Hg Ht. eapply mtree_within; [exact Ht|].
  apply within_left; [assumption|apply within_refl].
Qed.

Lemma mtree_right b g : 0 <= g -> mtree b (g + 1) -> mtree (b + 2 ^ (g + 1) - 1) g.
Proof.
  intros Hg Ht. eapply mtree_within; [exact Ht|].
  apply within_right; [assumption|apply within_refl].
Qed.

Lemma mtree_base g : 0 <= g -> mtree 0 g.
Proof. intros. exists g. split; [lia|constructor]. Qed.

Lemma mtree_bounds b g : mtree b g -> 0 <= g /\ 0 <= b.
Proof. intros (N & HN & Hw). pose proof (within_bounds _ _ _ _ HN Hw). lia. Qed.

(** Heights inside a tree of the range do not depend on where the tree
    starts. *)
Lemma mtree_aligned b g q :
  mtree b g -> 0 <= q <= 2 ^ (g + 1) - 2 ->
  Ideal.index_height (b + q) = Ideal.index_height q.
Proof.
  intros (N & HN & Hw). revert q.
  induction Hw as [|b g Hg Hw IH|b g Hg Hw IH]; intros q Hq.
  - reflexivity.
  - apply IH. rewrite (pow2_succ (g + 1)) by lia. pose proof (pow2_pos (g + 1)). lia.
  - replace (b + 2 ^ (g + 1) - 1 + q) with (b + (2 ^ (g + 1) - 1 + q)) by lia.
    rewrite IH by (rewrite (pow2_succ (g + 1)) by lia; lia).
    rewrite (index_height_shift (g + 1)) by (rewrite ?(pow2_succ (g + 1)) by lia; lia).
    f_equal. lia.
Qed.

Lemma mtree_root_height b g : mtree b g -> Ideal.index_height (tree_root b g) = g.
Proof.
  intros Ht. destruct (mtree_bounds _ _ Ht) as [Hg Hb]. unfold tree_root.
  replace (b + 2 ^ (g + 1) - 2) with (b + (2 ^ (g + 1) - 2)) by lia.
  rewrite (mtree_aligned b g) by (try assumption; pose proof (pow2_pos g);
    rewrite pow2_succ by lia; lia).
  apply index_height_ones. assumption.
Qed.

Lemma index_height_first_leaf k : 1 <= k -> Ideal.index_height (2 ^ k - 1) = 0.
Proof.
  intros Hk. rewrite (index_height_shift k).
  - replace (2 ^ k - 1 - (2 ^ k - 1)) with 0 by lia. apply index_height_0.
  - assumption.
  - rewrite pow2_succ by lia. pose proof (pow2_le_mono 1 k). change (2 ^ 1) with 2 in *. lia.
Qed.

(** The node after the root of a left subtree is the first leaf of the right
    subtree; the node after the root of a right subtree is the parent. *)
Lemma left_root_succ b g :
  0 <= g -> mtree b (g + 1) -> Ideal.index_height (tree_root b g + 1) = 0.
Proof.
  intros Hg Ht. unfold tree_root.
  replace (b + 2 ^ (g + 1) - 2 + 1) with (b + (2 ^ (g + 1) - 1)) by lia.
  rewrite (mtree_aligned b (g + 1)).
  - apply index_height_first_leaf. lia.
  - assumption.
  - rewrite (pow2_succ (g + 1)) by lia. pose proof (pow2_pos (g + 1)). lia.
Qed.

Lemma right_root_succ b g :
  0 <= g -> mtree b (g + 1) ->
  Ideal.index_height (tree_root (b + 2 ^ (g + 1) - 1) g + 1) = g + 1.
Proof.
  intros Hg Ht. rewrite <- tree_root_right by lia. apply mtree_root_height. assumption.
Qed.

(** Every node of a tree is the root of a tree within it. *)
Lemma descend B N i n :
  0 <= n -> forall b, within B N b n -> b <= i <= tree_root b n ->
  exists b' g, within B N b' g /\ i = tree_root b' g.
Proof.
  intros Hn. pattern n. apply natlike_ind; [| |assumption]; clear n Hn.
  - intros b Hw Hi. exists b, 0. split; [assumption|]. unfold tree_root in *.
    change (2 ^ (0 + 1)) with 2 in *. lia.
  - intros n Hn IH b Hw Hi. rewrite <- Z.add_1_r in *.
    destruct (Z.eq_dec i (tree_root b (n + 1))) as [->|Hne].
    + exists b, (n + 1). split; [assumption|reflexivity].
    + destruct (Z_le_gt_dec i (tree_root b n)) as [Hl|Hr].
      * apply (IH b); [apply within_left; assumption|lia].
      * apply (IH (b + 2 ^ (n + 1) - 1)); [apply within_right; assumption|].
        rewrite tree_root_right in * by lia. unfold tree_root in *. lia.
Qed.

(** Every node is the root of a tree of the range that is a subtree of
    another one: a left subtree when the next node is a leaf, a right
    subtree when the next node is the parent. *)
Lemma locate j :
  0 <= j ->
  exists b g, 0 <= g /\ j = tree_root b g
    /\ (mtree b (g + 1) \/ (0 <= b - (2 ^ (g + 1) - 1) /\ mtree (b - (2 ^ (g + 1) - 1)) (g + 1))).
Proof.
  intros Hj.
  assert (HN : exists N, 0 <= N /\ j < tree_root 0 N - 1).
  { exists (Z.log2 (j + 1) + 1). pose proof (Z.log2_nonneg (j + 1)).
    split; [lia|]. unfold tree_root. pose proof (log2_bounds (j + 1)).
    rewrite (pow2_succ (Z.log2 (j + 1) + 1)) by lia. lia. }
  destruct HN as (N & HN & Hlt).
  destruct (descend 0 N j N HN 0 (within_refl 0 N)) as (b & g & Hw & Hi); [lia|].
  exists b, g.
  assert (Hne : g <> N \/ b <> 0).
  { destruct (Z.eq_dec g N) as [->|]; [right|left; assumption].
    intros ->. lia. }
  pose proof (within_bounds _ _ _ _ HN Hw) as Hb.
  split; [lia|]. split; [assumption|].
  inversion Hw as [|b0 g0 Hg Hw0|b0 g0 Hg Hw0]; subst.
  - lia.
  - left. exists N. split; assumption.
  - right. replace (b0 + 2 ^ (g + 1) - 1 - (2 ^ (g + 1) - 1)) with b0 by lia.
    pose proof (within_bounds _ _ _ _ HN Hw0). split; [lia|]. exists N. split; assumption.
Qed.

Lemma mtree_of_node j :
  0 <= j -> exists b, mtree b (Ideal.index_height j) /\ j = tree_root b (Ideal.index_height j).
Proof.
  intros Hj. destruct (locate j Hj) as (b & g & Hg & Hi & Hp).
  assert (Ht : mtree b g).
  { destruct Hp as [Hp|[Hb Hp]].
    - apply mtree_left; assumption.
    - replace b with (b - (2 ^ (g + 1) - 1) + 2 ^ (g + 1) - 1) by lia.
      apply mtree_right; assumption. }
  pose proof (mtree_root_height _ _ Ht) as Hh. rewrite <- Hi in Hh. rewrite Hh.
  exists b. split; assumption.
Qed.

(** The height of the next node is one more, or it is a leaf. *)
Lemma index_height_succ j :
  0 <= j ->
  Ideal.index_height (j + 1) = Ideal.index_height j + 1 \/ Ideal.index_height (j + 1) = 0.
Proof.
  intros Hj. destruct (locate j Hj) as (b & g & Hg & Hi & Hp).
  destruct Hp as [Hp|[Hb Hp]].
  - right. rewrite Hi. apply left_root_succ; assumption.
  - left. pose proof (right_root_succ _ _ Hg Hp) as Hs.
    replace (b - (2 ^ (g + 1) - 1) + 2 ^ (g + 1) - 1) with b in Hs by lia.
    rewrite <- Hi in Hs. rewrite Hs. f_equal.
    assert (Ht : mtree b g).
    { replace b with (b - (2 ^ (g + 1) - 1) + 2 ^ (g + 1) - 1) by lia.
      apply mtree_right; assumption. }
    pose proof (mtree_root_height _ _ Ht) as Hh. rewrite <- Hi in Hh. lia.
Qed.

Lemma index_height_nonneg j : 0 <= j -> 0 <= Ideal.index_height j.
Proof.
  intros Hj. destruct (mtree_of_node j Hj) as (b & Ht & _).
  apply mtree_bounds in Ht. lia.
Qed.

(** A node of height [g] has at least the [2^(g+1) - 2] nodes of its own tree
    before it. *)
Lemma index_height_room j :
  0 <= j -> 2 ^ (Ideal.index_height j + 1) - 2 <= j.
Proof.
  intros Hj. destruct (mtree_of_node j Hj) as (b & Ht & Hi).
  apply mtree_bounds in Ht. unfold tree_root in Hi. lia.
Qed.

(** ** Complete ranges and the peak that covers a node *)

Lemma complete_mmr_loop_ge fuel : forall i h0 h1 j,
  complete_mmr_loop fuel i h0 h1 = Ok j -> i <= j /\ (h0 < h1 -> i < j).
Proof.
  induction fuel as [|fuel IH]; intros i h0 h1 j Hj; [discriminate|].
  cbn [complete_mmr_loop] in Hj.
  destruct (h0 <? h1) eqn:E.
  - destruct (index_height (S fuel) (i + 1 + 1)) as [h|e|]; cbn [rbind] in Hj;
      try discriminate.
    apply IH in Hj. lia.
  - apply Z.ltb_ge in E. injection Hj as <-. lia.
Qed.

(** [c] is complete, [complete_mmr c = c], when the node after it is a leaf. *)
Lemma complete_mmr_fixed fuel c :
  0 <= c -> c + 2 < 2 ^ 31 - 1 -> (32 <= fuel)%nat ->
  complete_mmr fuel c = Ok c -> Ideal.index_height (c + 1) = 0.
Proof.
  intros Hc Hb Hf H. unfold complete_mmr in H.
  rewrite !index_height_exact in H by lia. cbn [rbind] in H.
  apply complete_mmr_loop_ge in H.
  destruct (index_height_succ c Hc) as [Hs|Hs]; [lia|assumption].
Qed.

Lemma complete_mmr_of_leaf fuel c :
  0 <= c -> c + 2 < 2 ^ 31 - 1 -> (32 <= fuel)%nat ->
  Ideal.index_height (c + 1) = 0 -> complete_mmr fuel c = Ok c.
Proof.
  intros Hc Hb Hf H. unfold complete_mmr.
  rewrite !index_height_exact by lia. cbn [rbind]. rewrite H.
  destruct fuel as [|fuel]; [lia|]. cbn [complete_mmr_loop].
  pose proof (index_height_nonneg c Hc).
  destruct (Ideal.index_height c <? 0) eqn:E; [apply Z.ltb_lt in E; lia|reflexivity].
Qed.

Lemma accumulator_root_loop_spec fuel : forall k i s r,
  0 <= k <= 29 -> mtree r (k + 1) -> r <= i < s -> s - r <= 2 ^ (k + 2) - 3 ->
  Ideal.index_height s = 0 -> (Z.to_nat k < fuel)%nat ->
  exists b n,
    accumulator_root_loop fuel i s (2 ^ (k + 1) - 1) r = Ok (tree_root b n)
    /\ 0 <= n <= k /\ mtree b (n + 1) /\ b <= i <= tree_root b n
    /\ tree_root b n < s <= tree_root b n + 2 ^ (n + 1) - 1.
Proof.
  induction fuel as [|fuel IH]; intros k i s r Hk Ht Hi Hs Hc Hf; [lia|].
  cbn [accumulator_root_loop].
  pose proof (pow2_pos k) as Hp. pose proof (pow2_succ k) as Hp1.
  pose proof (pow2_succ (k + 1)) as Hp2.
  replace (k + 1 + 1) with (k + 2) in Hp2 by lia.
  pose proof (pow2_le_mono k 29).
  assert (Hsar : JS.sar (2 ^ (k + 1) - 1) 1 = 2 ^ k - 1).
  { rewrite sar_by_1 by lia. rewrite pow2_half by lia. f_equal. f_equal. lia. }
  destruct (0 <? 2 ^ (k + 1) - 1) eqn:E0; [|apply Z.ltb_ge in E0; lia].
  destruct (s <? r + (2 ^ (k + 1) - 1)) eqn:E1.
  - apply Z.ltb_lt in E1. rewrite Hsar.
    assert (Hk1 : 1 <= k).
    { destruct (Z.eq_dec k 0) as [->|]; [|lia]. change (2 ^ (0 + 1)) with 2 in *. lia. }
    assert (Htk : mtree r k) by (apply mtree_left; [lia|assumption]).
    assert (Hne : s <> tree_root r k).
    { intros ->. rewrite (mtree_root_height _ _ Htk) in Hc. lia. }
    unfold tree_root in Hne.
    destruct (IH (k - 1) i s r) as (b & n & Hr & Hn & Hb); try lia.
    + replace (k - 1 + 1) with k by lia. assumption.
    + replace (k - 1 + 2) with (k + 1) by lia. lia.
    + exists b, n. replace (k - 1 + 1) with k in Hr by lia.
      split; [assumption|]. split; [lia|]. assumption.
  - apply Z.ltb_ge in E1. destruct (i <? r + (2 ^ (k + 1) - 1)) eqn:E2.
    + apply Z.ltb_lt in E2. exists r, k. unfold tree_root.
      split; [f_equal; lia|]. split; [lia|]. split; [assumption|]. lia.
    + apply Z.ltb_ge in E2. rewrite Hsar.
      assert (Hk1 : 1 <= k).
      { destruct (Z.eq_dec k 0) as [->|]; [|lia]. change (2 ^ (0 + 2)) with 4 in *.
        change (2 ^ (0 + 1)) with 2 in *. lia. }
      assert (Htk : mtree (r + 2 ^ (k + 1) - 1) k) by (apply mtree_right; [lia|assumption]).
      assert (Hne : s <> tree_root (r + 2 ^ (k + 1) - 1) k).
      { intros ->. rewrite (mtree_root_height _ _ Htk) in Hc. lia. }
      unfold tree_root in Hne.
      destruct (IH (k - 1) i s (r + (2 ^ (k + 1) - 1))) as (b & n & Hr & Hn & Hb); try lia.
      * replace (k - 1 + 1) with k by lia.
        replace (r + (2 ^ (k + 1) - 1)) with (r + 2 ^ (k + 1) - 1) by lia. assumption.
      * replace (k - 1 + 2) with (k + 1) by lia. lia.
      * exists b, n. replace (k - 1 + 1) with k in Hr by lia.
        split; [assumption|]. split; [lia|]. assumption.
Qed.

(** [accumulator_root i c] is the root of the tree of the range that holds
    [i] and whose parent lies beyond [c]. *)
Lemma accumulator_root_spec fuel i c :
  0 <= i <= c -> c + 1 < 2 ^ 30 -> Ideal.index_height (c + 1) = 0 -> (32 <= fuel)%nat ->
  exists b n,
    accumulator_root fuel i c = Ok (tree_root b n)
    /\ 0 <= n <= 29 /\ mtree b (n + 1) /\ b <= i <= tree_root b n
    /\ tree_root b n <= c < tree_root b n + 2 ^ (n + 1) - 1.
Proof.
  intros Hi Hc Hl Hf. unfold accumulator_root.
  assert (Hs : 1 <= c + 1) by lia.
  pose proof (log2_bounds (c + 1) Hs) as Hb. pose proof (Z.log2_nonneg (c + 1)) as Hk.
  assert (Hk29 : Z.log2 (c + 1) <= 29).
  { pose proof (log2_lt_of_lt_pow2 (c + 1) 30). lia. }
  rewrite bit_length_spec by lia. rewrite shl_1 by lia.
  pose proof (pow2_succ (Z.log2 (c + 1) + 1)) as Hp2.
  pose proof (pow2_succ (Z.log2 (c + 1))) as Hp1.
  pose proof (pow2_pos (Z.log2 (c + 1)) Hk) as Hp.
  replace (Z.log2 (c + 1) + 1 + 1) with (Z.log2 (c + 1) + 2) in Hp2 by lia.
  destruct (accumulator_root_loop_spec fuel (Z.log2 (c + 1)) i (c + 1) 0)
    as (b & n & Hr & Hn & Ht & Hbi & Hbs); try lia.
  - apply mtree_base. lia.
  - exists b, n. split; [assumption|]. split; [lia|]. split; [assumption|]. lia.
Qed.

(** ** The log that [add_leaf_hash] builds *)

(** The value of node [i] of an array backed log. *)
Definition node (db : list bytes) (i : Z) : option bytes :=
  if i <? 0 then None else nth_error db (Z.to_nat i).

(** Every interior node holds the hash of its two children, the left one
    [2^g] places before it and the right one just before it. *)
Definition well_formed (hasher : Hasher) (db : list bytes) : Prop :=
  forall p, 0 <= p < Z.of_nat (length db) -> p + 1 < 2 ^ 30 ->
    0 < Ideal.index_height p ->
    exists l r,
      node db (p - 2 ^ Ideal.index_height p) = Some l
      /\ node db (p - 1) = Some r
      /\ node db p = Some (hash_pos_pair64 hasher (p + 1) l r).

(** The log is complete when the next node to add is a leaf. *)
Definition log_inv (hasher : Hasher) (db : list bytes) : Prop :=
  well_formed hasher db
  /\ (Z.of_nat (length db) + 1 < 2 ^ 30 -> Ideal.index_height (Z.of_nat (length db)) = 0).

Lemma get_node db i :
  LeafAdder.get i db =
  (match node db i with Some v => Ok v | None => Throw TypeError end, db).
Proof.
  unfold LeafAdder.get, node. destruct (i <? 0); [reflexivity|].
  destruct (nth_error db (Z.to_nat i)); reflexivity.
Qed.

Lemma node_lt db i v : node db i = Some v -> 0 <= i < Z.of_nat (length db).
Proof.
  unfold node. destruct (i <? 0) eqn:E; [discriminate|]. apply Z.ltb_ge in E.
  intros H. assert (Hn : nth_error db (Z.to_nat i) <> None) by congruence.
  apply nth_error_Some in Hn. lia.
Qed.

Lemma node_some db i : 0 <= i < Z.of_nat (length db) -> exists v, node db i = Some v.
Proof.
  intros H. unfold node. destruct (i <? 0) eqn:E; [apply Z.ltb_lt in E; lia|].
  destruct (nth_error db (Z.to_nat i)) as [v|] eqn:En; [exists v; reflexivity|].
  apply nth_error_None in En. lia.
Qed.

Lemma node_app db x i v : node db i = Some v -> node (db ++ x) i = Some v.
Proof.
  intros H. pose proof (node_lt _ _ _ H) as Hl. unfold node in *.
  destruct (i <? 0); [discriminate|]. rewrite nth_error_app1 by lia. exact H.
Qed.

Lemma node_last db v : node (db ++ [v]) (Z.of_nat (length db)) = Some v.
Proof.
  unfold node. destruct (_ <? 0) eqn:E; [apply Z.ltb_lt in E; lia|].
  rewrite Nat2Z.id. rewrite nth_error_app2 by lia. rewrite Nat.sub_diag. reflexivity.
Qed.

(** With whatever fuel [index_height] answers, it answers the height. *)
Lemma index_height_loop_mono fuel : forall pos h k,
  index_height_loop fuel pos = Ok h -> index_height_loop (fuel + k) pos = Ok h.
Proof.
  induction fuel as [|fuel IH]; intros pos h k H; [discriminate|].
  cbn [index_height_loop Nat.add] in *.
  destruct (negb (all_ones pos)); [apply IH|]; exact H.
Qed.

Lemma index_height_sound fuel i h :
  0 <= i -> i + 1 < 2 ^ 31 - 1 -> index_height fuel i = Ok h ->
  h = Ideal.index_height i.
Proof.
  intros Hi Hb H. unfold index_height in H.
  apply (index_height_loop_mono _ _ _ 32) in H.
  pose proof (index_height_exact (fuel + 32) i Hi Hb) as He.
  unfold index_height in He. rewrite H in He.
  assert (Ok h = Ok (Ideal.index_height i)) as [= ->] by (apply He; lia). reflexivity.
Qed.

Lemma index_height_le_29 i : 0 <= i -> i + 1 < 2 ^ 30 -> Ideal.index_height i <= 29.
Proof.
  intros Hi Hb. pose proof (index_height_room i Hi) as Hr.
  pose proof (index_height_nonneg i Hi) as Hn.
  destruct (Z_le_gt_dec (Ideal.index_height i) 29) as [|Hgt]; [assumption|].
  pose proof (pow2_le_mono 31 (Ideal.index_height i + 1)). lia.
Qed.

Lemma add_leaf_hash_loop_inv fuel hasher : forall i g db,
  well_formed hasher db -> i = Z.of_nat (length db) -> 1 <= i ->
  (i + 1 < 2 ^ 30 -> Ideal.index_height (i - 1) = g) ->
  well_formed hasher (snd (add_leaf_hash_loop fuel hasher i g db))
  /\ (forall v, fst (add_leaf_hash_loop fuel hasher i g db) = Ok v ->
      log_inv hasher (snd (add_leaf_hash_loop fuel hasher i g db))).
Proof.
  induction fuel as [|fuel IH]; intros i g db Hwf Hi Hi1 Hg.
  { split; [exact Hwf|discriminate]. }
  cbn [add_leaf_hash_loop]. unfold mbind, mlift, mret.
  destruct (index_height (S fuel) i) as [h| |] eqn:Eh;
    try (split; [exact Hwf|discriminate]).
  assert (Hh : i + 1 < 2 ^ 30 -> h = Ideal.index_height i).
  { intros Hb. apply (index_height_sound (S fuel)); [lia|lia|exact Eh]. }
  assert (Hsucc : i + 1 < 2 ^ 30 -> h = g + 1 \/ h = 0).
  { intros Hb. specialize (Hh Hb). specialize (Hg Hb).
    destruct (index_height_succ (i - 1)) as [Hs|Hs]; [lia|..];
      replace (i - 1 + 1) with i in Hs by lia; lia. }
  assert (Hg0 : i + 1 < 2 ^ 30 -> 0 <= g).
  { intros Hb. rewrite <- (Hg Hb). apply index_height_nonneg. lia. }
  destruct (g <? h) eqn:E.
  - apply Z.ltb_lt in E. cbn [adder_get adder_append LeafAdder.adder].
    rewrite !get_node.
    destruct (node db (i - JS.shl 2 g)) as [vl|] eqn:El;
      [|split; [exact Hwf|discriminate]].
    destruct (node db (i - 1)) as [vr|] eqn:Er; [|split; [exact Hwf|discriminate]].
    unfold LeafAdder.append.
    apply IH.
    + intros p Hp Hb Hpos. rewrite length_app in Hp. cbn [length] in Hp.
      destruct (Z.eq_dec p i) as [->|Hne].
      * specialize (Hh Hb). specialize (Hg0 Hb).
        destruct (Hsucc Hb) as [Hs|Hs]; [|lia].
        pose proof (index_height_le_29 i ltac:(lia) Hb) as H29.
        rewrite shl_2 in El by lia. rewrite <- Hh, Hs.
        exists vl, vr. split; [apply node_app; exact El|].
        split; [apply node_app; exact Er|]. subst i. apply node_last.
      * destruct (Hwf p ltac:(lia) Hb Hpos) as (l & r & H1 & H2 & H3).
        exists l, r. split; [apply node_app; exact H1|].
        split; [apply node_app; exact H2|apply node_app; exact H3].
    + rewrite length_app. cbn [length]. lia.
    + rewrite length_app. cbn [length]. lia.
    + rewrite length_app. cbn [length]. intros Hb.
      replace (Z.of_nat (length db + 1) - 1) with i by lia.
      rewrite <- Hh by lia. destruct (Hsucc ltac:(lia)); lia.
  - apply Z.ltb_ge in E. cbn [fst snd]. split; [exact Hwf|]. intros v _.
    split; [exact Hwf|]. rewrite <- Hi. intros Hb. rewrite <- (Hh Hb).
    specialize (Hg0 Hb). destruct (Hsucc Hb); lia.
Qed.

Lemma add_leaf_hash_inv fuel hasher f db :
  log_inv hasher db ->
  well_formed hasher (snd (add_leaf_hash fuel hasher f db))
  /\ (forall v, fst (add_leaf_hash fuel hasher f db) = Ok v ->
      log_inv hasher (snd (add_leaf_hash fuel hasher f db))).
Proof.
  intros [Hwf Hc]. unfold add_leaf_hash, mbind.
  cbn [adder_append LeafAdder.adder]. unfold LeafAdder.append.
  apply add_leaf_hash_loop_inv.
  - intros p Hp Hb Hpos. rewrite length_app in Hp. cbn [length] in Hp.
    destruct (Z.eq_dec p (Z.of_nat (length db))) as [->|Hne].
    + rewrite Hc in Hpos by lia. lia.
    + destruct (Hwf p ltac:(lia) Hb Hpos) as (l & r & H1 & H2 & H3).
      exists l, r. split; [apply node_app; exact H1|].
      split; [apply node_app; exact H2|apply node_app; exact H3].
  - reflexivity.
  - rewrite length_app. cbn [length]. lia.
  - rewrite length_app. cbn [length]. intros Hb.
    replace (Z.of_nat (length db + 1) - 1) with (Z.of_nat (length db)) by lia.
    apply Hc. lia.
Qed.

Lemma log_inv_nil hasher : log_inv hasher [].
Proof.
  split; [intros p Hp; cbn [length] in Hp; lia|]. intros _. reflexivity.
Qed.

(** Every log built by [add_leaves] from a complete, well formed log is
    complete and well formed. *)
Lemma add_leaves_inv fuel hasher leaves : forall db0 db,
  log_inv hasher db0 -> add_leaves fuel hasher leaves db0 = (Ok tt, db) ->
  log_inv hasher db.
Proof.
  induction leaves as [|f rest IH]; intros db0 db Hinv H.
  - cbn in H. injection H as <-. exact Hinv.
  - cbn [add_leaves] in H. unfold mbind in H.
    destruct (add_leaf_hash_inv fuel hasher f db0 Hinv) as [_ Hok].
    destruct (add_leaf_hash fuel hasher f db0) as [[i| |] db1]; try discriminate.
    apply (IH db1); [|exact H]. apply (Hok i). reflexivity.
Qed.

(** ** Walking from a node to its peak *)

Lemma path_step_left fuel b g :
  0 <= g <= 29 -> mtree b (g + 1) -> tree_root b g + 2 < 2 ^ 31 - 1 -> (32 <= fuel)%nat ->
  path_step fuel (tree_root b g) g
  = Ok (tree_root b (g + 1) - 1, tree_root b (g + 1)).
Proof.
  intros Hg Ht Hb Hf. destruct (mtree_bounds _ _ Ht) as [_ Hb0].
  unfold path_step. rewrite index_height_exact; [|unfold tree_root in *; lia..].
  rewrite left_root_succ by (try assumption; lia). cbn [rbind].
  destruct (g <? 0) eqn:E; [apply Z.ltb_lt in E; lia|].
  rewrite shl_2 by lia. rewrite tree_root_left by lia. do 2 f_equal; lia.
Qed.

Lemma path_step_right fuel b g :
  0 <= g <= 29 -> mtree b (g + 1) -> tree_root b (g + 1) + 1 < 2 ^ 31 - 1 ->
  (32 <= fuel)%nat ->
  path_step fuel (tree_root (b + 2 ^ (g + 1) - 1) g) g
  = Ok (tree_root b g, tree_root b (g + 1)).
Proof.
  intros Hg Ht Hb Hf. destruct (mtree_bounds _ _ Ht) as [_ Hb0].
  pose proof (tree_root_right b g ltac:(lia)) as Hr.
  pose proof (pow2_pos (g + 1) ltac:(lia)) as Hp.
  unfold path_step. rewrite index_height_exact; [|unfold tree_root in *; lia..].
  rewrite right_root_succ by (try assumption; lia). cbn [rbind].
  destruct (g <? g + 1) eqn:E; [|apply Z.ltb_ge in E; lia].
  rewrite shl_2 by lia. rewrite Hr. unfold tree_root. do 2 f_equal; lia.
Qed.

Lemma included_root_step_left fuel hasher b g root sibling :
  0 <= g <= 29 -> mtree b (g + 1) -> tree_root b g + 2 < 2 ^ 31 - 1 -> (32 <= fuel)%nat ->
  included_root_step fuel hasher (tree_root b g, g, root) sibling
  = Ok (tree_root b (g + 1), g + 1,
        hash_pos_pair64 hasher (tree_root b (g + 1) + 1) root sibling).
Proof.
  intros Hg Ht Hb Hf. destruct (mtree_bounds _ _ Ht) as [_ Hb0].
  unfold included_root_step. rewrite index_height_exact; [|unfold tree_root in *; lia..].
  rewrite left_root_succ by (try assumption; lia). cbn [rbind].
  destruct (g <? 0) eqn:E; [apply Z.ltb_lt in E; lia|].
  rewrite shl_2 by lia. rewrite tree_root_left by lia. reflexivity.
Qed.

Lemma included_root_step_right fuel hasher b g root sibling :
  0 <= g <= 29 -> mtree b (g + 1) -> tree_root b (g + 1) + 1 < 2 ^ 31 - 1 ->
  (32 <= fuel)%nat ->
  included_root_step fuel hasher (tree_root (b + 2 ^ (g + 1) - 1) g, g, root) sibling
  = Ok (tree_root b (g + 1), g + 1,
        hash_pos_pair64 hasher (tree_root b (g + 1) + 1) sibling root).
Proof.
  intros Hg Ht Hb Hf. destruct (mtree_bounds _ _ Ht) as [_ Hb0].
  pose proof (tree_root_right b g ltac:(lia)) as Hr.
  pose proof (pow2_pos (g + 1) ltac:(lia)) as Hp.
  unfold included_root_step. rewrite index_height_exact; [|unfold tree_root in *; lia..].
  rewrite right_root_succ by (try assumption; lia). cbn [rbind].
  destruct (g <? g + 1) eqn:E; [|apply Z.ltb_ge in E; lia].
  rewrite Hr. reflexivity.
Qed.

Section Walk.
Variable hasher : Hasher.
Variable db : list bytes.
Variables c B N : Z.
Hypothesis db_wf : well_formed hasher db.
Hypothesis c_range : c + 1 < 2 ^ 30.
Hypothesis c_stored : c < Z.of_nat (length db).
Hypothesis N_range : 0 <= N <= 29.
Hypothesis peak_tree : mtree B (N + 1).
Hypothesis peak_in : tree_root B N <= c < tree_root B N + 2 ^ (N + 1) - 1.

(** The children of a stored interior node, as [well_formed] gives them. *)
Lemma children_of b g :
  0 <= g -> mtree b (g + 1) -> tree_root b (g + 1) <= c ->
  exists l r,
    node db (tree_root b g) = Some l
    /\ node db (tree_root b (g + 1) - 1) = Some r
    /\ node db (tree_root b (g + 1)) = Some (hash_pos_pair64 hasher (tree_root b (g + 1) + 1) l r).
Proof.
  intros Hg Ht Hc. destruct (mtree_bounds _ _ Ht) as [_ Hb0].
  pose proof (mtree_root_height _ _ Ht) as Hh.
  assert (Hr0 : 0 <= tree_root b (g + 1)).
  { unfold tree_root. pose proof (pow2_pos (g + 1 + 1)). pose proof (pow2_le_mono 1 (g + 1 + 1)).
    change (2 ^ 1) with 2 in *. lia. }
  destruct (db_wf (tree_root b (g + 1))) as (l & r & Hl & Hr & Hp); [lia..|].
  rewrite Hh in Hl. rewrite tree_root_left in Hl at 1 by lia.
  replace (tree_root b g + 2 ^ (g + 1) - 2 ^ (g + 1)) with (tree_root b g) in Hl by lia.
  exists l, r. split; [exact Hl|]. split; [exact Hr|exact Hp].
Qed.

Lemma walk fuel b g :
  within B N b g -> (32 <= fuel)%nat ->
  forall fuel' acc, (32 + Z.to_nat (N - g) < fuel')%nat ->
  exists sibs vals,
    inclusion_proof_path_loop fuel' (tree_root b g) c g acc = Ok (acc ++ sibs)
    /\ Forall2 (fun j v => node db j = Some v) sibs vals
    /\ forall v, node db (tree_root b g) = Some v ->
       exists peak, node db (tree_root B N) = Some peak
         /\ included_root_loop fuel hasher (tree_root b g, g, v) vals = Ok peak.
Proof.
  intros Hw Hf.
  assert (HtN : mtree B N) by (apply mtree_left; [lia|exact peak_tree]).
  destruct (mtree_bounds _ _ peak_tree) as [_ HB0].
  induction Hw as [|b g Hg Hw IH|b g Hg Hw IH]; intros fuel' acc Hf'.
  - exists [], []. destruct fuel' as [|fuel']; [lia|].
    cbn [inclusion_proof_path_loop].
    rewrite path_step_left; [|lia|assumption|lia|lia]. cbn [rbind].
    rewrite tree_root_left by lia.
    destruct (c <? _) eqn:E; [|apply Z.ltb_ge in E; lia].
    rewrite app_nil_r. split; [reflexivity|]. split; [constructor|].
    intros v Hv. exists v. split; [exact Hv|reflexivity].
  - pose proof (within_bounds B N _ _ (proj1 N_range) Hw) as (Hgb & Hbb & Hrb).
    assert (Ht : mtree b (g + 1)) by (eapply mtree_within; eassumption).
    destruct (mtree_bounds _ _ Ht) as [_ Hb0].
    destruct (children_of b g Hg Ht ltac:(lia)) as (l & r & Hl & Hr & Hp).
    pose proof (tree_root_left b g Hg) as Hrl. pose proof (pow2_pos (g + 1) ltac:(lia)).
    destruct fuel' as [|fuel']; [lia|].
    destruct (IH fuel' (acc ++ [tree_root b (g + 1) - 1]) ltac:(lia))
      as (sibs & vals & Hpath & Hvals & Hroot).
    exists ((tree_root b (g + 1) - 1) :: sibs), (r :: vals).
    cbn [inclusion_proof_path_loop].
    rewrite path_step_left; [|lia|assumption|lia|lia]. cbn [rbind].
    destruct (c <? _) eqn:E; [apply Z.ltb_lt in E; lia|].
    rewrite Hpath, <- app_assoc. split; [reflexivity|].
    split; [constructor; assumption|].
    intros v Hv. assert (v = l) as -> by congruence.
    cbn [included_root_loop].
    rewrite included_root_step_left; [|lia|assumption|lia|lia]. cbn [rbind].
    apply Hroot. exact Hp.
  - pose proof (within_bounds B N _ _ (proj1 N_range) Hw) as (Hgb & Hbb & Hrb).
    assert (Ht : mtree b (g + 1)) by (eapply mtree_within; eassumption).
    destruct (mtree_bounds _ _ Ht) as [_ Hb0].
    destruct (children_of b g Hg Ht ltac:(lia)) as (l & r & Hl & Hr & Hp).
    pose proof (tree_root_right b g Hg) as Hrr.
    pose proof (tree_root_left b g Hg) as Hrl. pose proof (pow2_pos (g + 1) ltac:(lia)).
    destruct fuel' as [|fuel']; [lia|].
    destruct (IH fuel' (acc ++ [tree_root b g]) ltac:(lia))
      as (sibs & vals & Hpath & Hvals & Hroot).
    exists (tree_root b g :: sibs), (l :: vals).
    cbn [inclusion_proof_path_loop].
    rewrite path_step_right; [|lia|assumption|lia|lia]. cbn [rbind].
    destruct (c <? _) eqn:E; [apply Z.ltb_lt in E; lia|].
    rewrite Hpath, <- app_assoc. split; [reflexivity|].
    split; [constructor; assumption|].
    intros v Hv. assert (v = r) as ->.
    { rewrite Hrr in Hr. replace (tree_root (b + 2 ^ (g + 1) - 1) g + 1 - 1)
        with (tree_root (b + 2 ^ (g + 1) - 1) g) in Hr by lia. congruence. }
    cbn [included_root_loop].
    rewrite included_root_step_right; [|lia|assumption|lia|lia]. cbn [rbind].
    apply Hroot. exact Hp.
Qed.

End Walk.

(** ** C1: an inclusion proof replays to the covering peak *)

(** C1.  In a log built by [add_leaf_hash], for every node [i] of a complete
    range [MMR(c)] (so in particular for every complete [i <= c]), the values of
    the nodes of [inclusion_proof_path (i, c)], replayed by [included_root]
    from the value of node [i], give the value of the node
    [accumulator_root (i, c)], the peak of [MMR(c)] that covers [i].  The range
    stays below 2^30 nodes, where the 32 bit shifts of the index algebra are
    exact. *)
Theorem included_root_of_inclusion_proof_path fuel hasher leaves db i c :
  (64 <= fuel)%nat ->
  add_leaves fuel hasher leaves [] = (Ok tt, db) ->
  0 <= i <= c -> c < Z.of_nat (length db) -> c + 1 < 2 ^ 30 ->
  complete_mmr fuel c = Ok c ->
  exists path proof r value peak,
    inclusion_proof_path fuel i c = Ok path
    /\ Forall2 (fun j v => node db j = Some v) path proof
    /\ node db i = Some value
    /\ accumulator_root fuel i c = Ok r
    /\ i <= r <= c
    /\ node db r = Some peak
    /\ included_root fuel hasher i value proof = Ok peak.
Proof.
  intros Hf Hdb Hi Hlen Hc Hcomplete.
  pose proof (add_leaves_inv _ _ _ _ _ (log_inv_nil hasher) Hdb) as [Hwf _].
  pose proof (complete_mmr_fixed fuel c ltac:(lia) ltac:(lia) ltac:(lia) Hcomplete) as Hleaf.
  destruct (accumulator_root_spec fuel i c Hi Hc Hleaf ltac:(lia))
    as (B & N & Hr & HN & Ht & HBi & HBc).
  assert (HtN : mtree B N) by (apply mtree_left; [lia|exact Ht]).
  destruct (descend B N i N ltac:(lia) B (within_refl B N) HBi) as (b & g & Hw & ->).
  assert (Htg : mtree b g) by (eapply mtree_within; eassumption).
  pose proof (mtree_root_height _ _ Htg) as Hh.
  destruct (node_some db (tree_root b g) ltac:(lia)) as (value & Hvalue).
  pose proof (within_bounds B N b g ltac:(lia) Hw) as (Hgb & Hbb & Hrb).
  destruct (walk hasher db c B N Hwf Hc Hlen HN Ht HBc fuel b g Hw ltac:(lia) fuel []
              ltac:(lia)) as (sibs & vals & Hpath & Hvals & Hroot).
  destruct (Hroot value Hvalue) as (peak & Hpeak & Hincl).
  exists sibs, vals, (tree_root B N), value, peak.
  unfold inclusion_proof_path, included_root.
  rewrite index_height_exact by lia. rewrite Hh. cbn [rbind].
  repeat split; try assumption; lia.
Qed.

(** Node 2, the parent of the first two leaves, in [MMR(14)], a log of eight
    leaves: the path is [[5; 13]] and the peak is node 14. *)
Lemma included_root_of_inclusion_proof_path_witness :
  exists path proof r value peak,
    inclusion_proof_path 64 2 14 = Ok path
    /\ Forall2 (fun j v =>
         node (snd (add_leaves 64 prefix_hash (map num_field [0; 1; 2; 3; 4; 5; 6; 7]) [])) j
         = Some v) path proof
    /\ node (snd (add_leaves 64 prefix_hash (map num_field [0; 1; 2; 3; 4; 5; 6; 7]) [])) 2
       = Some value
    /\ accumulator_root 64 2 14 = Ok r
    /\ 2 <= r <= 14
    /\ node (snd (add_leaves 64 prefix_hash (map num_field [0; 1; 2; 3; 4; 5; 6; 7]) [])) r
       = Some peak
    /\ included_root 64 prefix_hash 2 value proof = Ok peak.
Proof.
  apply (included_root_of_inclusion_proof_path 64 prefix_hash
           (map num_field [0; 1; 2; 3; 4; 5; 6; 7])).
  - lia.
  - vm_compute. reflexivity.
  - lia.
  - vm_compute. reflexivity.
  - lia.
  - vm_compute. reflexivity.
Defined.

(** ** The peaks of a complete range *)

(** The tree [(B, N)] is a peak of [MMR(c)]: it is a left subtree whose
    root is in the range and whose sibling is not. *)
Definition is_peak (c B N : Z) : Prop :=
  0 <= N <= 29 /\ mtree B (N + 1)
  /\ tree_root B N <= c < tree_root B N + 2 ^ (N + 1) - 1.

Lemma is_peak_mtree c B N : is_peak c B N -> mtree B N.
Proof. intros (HN & Ht & _). apply mtree_left; [lia|exact Ht]. Qed.

Lemma tree_root_inj b b' g : tree_root b g = tree_root b' g -> b = b'.
Proof. unfold tree_root. lia. Qed.

Lemma peak_unique_le c B N B' N' i :
  is_peak c B N -> is_peak c B' N' ->
  B <= i <= tree_root B N -> B' <= i <= tree_root B' N' ->
  tree_root B N <= tree_root B' N' -> B = B' /\ N = N'.
Proof.
  intros Hp Hp' Hi Hi' Hle.
  pose proof (is_peak_mtree _ _ _ Hp) as Ht. pose proof (is_peak_mtree _ _ _ Hp') as Ht'.
  destruct Hp as (HN & HtS & Hc). destruct Hp' as (HN' & HtS' & Hc').
  destruct (descend B' N' (tree_root B N) N' ltac:(lia) B' (within_refl B' N') ltac:(lia))
    as (b & g & Hw & Hr).
  assert (Htg : mtree b g) by (apply (mtree_within B' N'); assumption).
  pose proof (mtree_root_height _ _ Htg) as Hg. rewrite <- Hr in Hg.
  rewrite (mtree_root_height _ _ Ht) in Hg. subst g.
  apply tree_root_inj in Hr. subst b.
  inversion Hw as [HB HNe|b0 g0 Hg0 Hw0 HB HNe|b0 g0 Hg0 Hw0 HB HNe].
  - split; congruence.
  - subst g0 b0. pose proof (within_bounds B' N' _ _ ltac:(lia) Hw0) as (_ & _ & Hb).
    rewrite tree_root_left in Hb by lia. lia.
  - subst g0 B. assert (Ht0 : mtree b0 (N + 1)) by (apply (mtree_within B' N'); assumption).
    pose proof (right_root_succ b0 N ltac:(lia) Ht0) as H1.
    pose proof (left_root_succ _ N ltac:(lia) HtS) as H2. lia.
Qed.

(** The peak that covers a node is unique. *)
Lemma peak_unique c B N B' N' i :
  is_peak c B N -> is_peak c B' N' ->
  B <= i <= tree_root B N -> B' <= i <= tree_root B' N' ->
  B = B' /\ N = N'.
Proof.
  intros Hp Hp' Hi Hi'.
  destruct (Z_le_gt_dec (tree_root B N) (tree_root B' N')) as [Hle|Hgt].
  - eapply peak_unique_le; eassumption.
  - destruct (peak_unique_le c B' N' B N i Hp' Hp Hi' Hi ltac:(lia)) as [-> ->].
    split; reflexivity.
Qed.

(** The value of node [i], empty when the log has no such node. *)
Definition node_value (db : list bytes) (i : Z) : bytes :=
  match node db i with Some v => v | None => [] end.

Lemma node_value_eq db i v : node db i = Some v -> v = node_value db i.
Proof. unfold node_value. intros ->. reflexivity. Qed.

Lemma node_values_eq db l vs :
  Forall2 (fun j v => node db j = Some v) l vs -> vs = map (node_value db) l.
Proof.
  induction 1 as [|j v l vs Hj _ IH]; [reflexivity|].
  cbn [map]. rewrite <- IH. f_equal. apply node_value_eq. exact Hj.
Qed.

Lemma node_values_stored db l :
  Forall (fun j => 0 <= j < Z.of_nat (length db)) l ->
  Forall2 (fun j v => node db j = Some v) l (map (node_value db) l).
Proof.
  induction 1 as [|j l Hj _ IH]; [constructor|].
  cbn [map]. constructor; [|exact IH].
  destruct (node_some db j Hj) as (v & Hv). unfold node_value. rewrite Hv. reflexivity.
Qed.

(** The replay of the inclusion path of [i] in [MMR(c)] ends at the value of
    the peak that covers [i]. *)
Lemma inclusion_proof_replay fuel hasher db i c :
  (64 <= fuel)%nat -> well_formed hasher db ->
  0 <= i <= c -> c < Z.of_nat (length db) -> c + 1 < 2 ^ 30 ->
  Ideal.index_height (c + 1) = 0 ->
  exists path B N,
    inclusion_proof_path fuel i c = Ok path
    /\ Forall (fun j => 0 <= j < Z.of_nat (length db)) path
    /\ is_peak c B N /\ B <= i <= tree_root B N
    /\ accumulator_root fuel i c = Ok (tree_root B N)
    /\ included_root fuel hasher i (node_value db i) (map (node_value db) path)
       = Ok (node_value db (tree_root B N)).
Proof.
  intros Hf Hwf Hi Hlen Hc Hleaf.
  destruct (accumulator_root_spec fuel i c Hi Hc Hleaf ltac:(lia))
    as (B & N & Hr & HN & Ht & HBi & HBc).
  assert (HtN : mtree B N) by (apply mtree_left; [lia|exact Ht]).
  destruct (descend B N i N ltac:(lia) B (within_refl B N) HBi) as (b & g & Hw & ->).
  assert (Htg : mtree b g) by (apply (mtree_within B N); assumption).
  pose proof (mtree_root_height _ _ Htg) as Hh.
  destruct (node_some db (tree_root b g) ltac:(lia)) as (value & Hvalue).
  pose proof (within_bounds B N b g ltac:(lia) Hw) as (Hgb & Hbb & Hrb).
  destruct (walk hasher db c B N Hwf Hc Hlen HN Ht HBc fuel b g Hw ltac:(lia) fuel []
              ltac:(lia)) as (sibs & vals & Hpath & Hvals & Hroot).
  destruct (Hroot value Hvalue) as (peak & Hpeak & Hincl).
  exists sibs, B, N.
  unfold inclusion_proof_path, included_root.
  rewrite index_height_exact by lia. rewrite Hh. cbn [rbind].
  split; [exact Hpath|]. split.
  { clear -Hvals. induction Hvals as [|j v l vs Hj _ IH]; constructor; [|exact IH].
    eapply node_lt; exact Hj. }
  split; [repeat split; try assumption; lia|]. split; [lia|]. split; [exact Hr|].
  rewrite <- (node_values_eq _ _ _ Hvals), <- (node_value_eq _ _ _ Hvalue),
    <- (node_value_eq _ _ _ Hpeak). exact Hincl.
Qed.

(** [peak_list c B qs]: [qs] are the roots of the peaks of [MMR(c)] that
    tile [B .. c], from left to right. *)
Inductive peak_list (c : Z) : Z -> list Z -> Prop :=
| peak_list_nil : peak_list c (c + 1) []
| peak_list_cons B N qs :
    is_peak c B N -> peak_list c (tree_root B N + 1) qs ->
    peak_list c B (tree_root B N :: qs).

Lemma mtree_down b g g' : mtree b g -> 0 <= g' <= g -> mtree b g'.
Proof.
  intros Ht Hg. assert (H : forall n : nat, mtree b (g' + Z.of_nat n) -> mtree b g').
  { induction n as [|n IH]; intros Hn.
    - replace (g' + Z.of_nat 0) with g' in Hn by lia. exact Hn.
    - apply IH. apply mtree_left; [lia|].
      replace (g' + Z.of_nat n + 1) with (g' + Z.of_nat (S n)) by lia. exact Hn. }
  apply (H (Z.to_nat (g - g'))). replace (g' + Z.of_nat (Z.to_nat (g - g'))) with g by lia.
  exact Ht.
Qed.

Lemma tree_root_lower b g : 0 <= g -> b <= tree_root b g.
Proof.
  intros Hg. unfold tree_root. pose proof (pow2_le_mono 1 (g + 1)).
  change (2 ^ 1) with 2 in *. lia.
Qed.

Lemma peak_list_bounds c B qs :
  peak_list c B qs -> B <= c + 1 /\ Forall (fun q => B <= q <= c) qs.
Proof.
  induction 1 as [|B N qs Hp Hl [IHb IHf]]; [split; [lia|constructor]|].
  destruct Hp as (HN & Ht & Hc). pose proof (tree_root_lower B N ltac:(lia)).
  split; [lia|]. constructor; [lia|].
  eapply Forall_impl; [exact IHf|]. cbn. intros q Hq. lia.
Qed.

Lemma ideal_peaks_loop_spec n : forall base s c,
  c = base + s - 1 -> 0 <= s -> c + 1 < 2 ^ 30 -> Ideal.index_height (c + 1) = 0 ->
  (0 < s -> mtree base (Z.log2 (s + 1))) -> (Z.to_nat (Z.log2 (s + 1)) < n)%nat ->
  peak_list c base (Ideal.peaks_loop n base s).
Proof.
  induction n as [|n IH]; intros base s c Hc Hs Hr Hleaf Ht Hn; [lia|].
  cbn [Ideal.peaks_loop]. destruct (s =? 0) eqn:E.
  - apply Z.eqb_eq in E. subst s. replace base with (c + 1) by lia. constructor.
  - apply Z.eqb_neq in E. specialize (Ht ltac:(lia)).
    set (k := Z.log2 (s + 1)) in *.
    assert (Hk : 1 <= k).
    { unfold k. pose proof (Z.log2_le_mono 2 (s + 1) ltac:(lia)) as Hm.
      change (Z.log2 2) with 1 in Hm. exact Hm. }
    pose proof (log2_bounds (s + 1) ltac:(lia)) as Hb. fold k in Hb.
    pose proof (pow2_succ k ltac:(lia)) as Hp1. pose proof (pow2_pos k ltac:(lia)) as Hp.
    destruct (mtree_bounds _ _ Ht) as [_ Hb0].
    assert (Hroot : base + (2 ^ k - 1) - 1 = tree_root base (k - 1)).
    { unfold tree_root. replace (k - 1 + 1) with k by lia. lia. }
    assert (Hne : s <> 2 ^ (k + 1) - 2).
    { intros Hs2.
      pose proof (right_root_succ base (k - 1) ltac:(lia)) as Hrr.
      replace (k - 1 + 1) with k in Hrr by lia. specialize (Hrr Ht).
      replace (tree_root (base + 2 ^ k - 1) (k - 1) + 1) with (c + 1) in Hrr; [lia|].
      unfold tree_root. replace (k - 1 + 1) with k by lia. lia. }
    rewrite Hroot.
    assert (Hk30 : k <= 30).
    { pose proof (log2_lt_of_lt_pow2 (s + 1) 31 ltac:(lia) ltac:(lia)) as Hlt.
      fold k in Hlt. lia. }
    apply peak_list_cons.
    + unfold is_peak. replace (k - 1 + 1) with k by lia. rewrite <- Hroot.
      split; [lia|]. split; [exact Ht|]. lia.
    + rewrite <- Hroot.
      replace (base + (2 ^ k - 1) - 1 + 1) with (base + (2 ^ k - 1)) by lia.
      assert (Hs' : s - (2 ^ k - 1) + 1 <= 2 ^ k - 1) by lia.
      apply IH; try lia.
      * intros Hpos.
        assert (Hk' : Z.log2 (s - (2 ^ k - 1) + 1) < k).
        { apply log2_lt_of_lt_pow2; lia. }
        apply (mtree_down _ (k - 1)); [|pose proof (Z.log2_nonneg (s - (2 ^ k - 1) + 1)); lia].
        replace (base + (2 ^ k - 1)) with (base + 2 ^ (k - 1 + 1) - 1)
          by (replace (k - 1 + 1) with k by lia; lia).
        apply mtree_right; [lia|]. replace (k - 1 + 1) with k by lia. exact Ht.
      * destruct (Z.eq_dec (s - (2 ^ k - 1)) 0) as [->|Hnz].
        { change (Z.log2 (0 + 1)) with 0. lia. }
        assert (Hk' : Z.log2 (s - (2 ^ k - 1) + 1) < k).
        { apply log2_lt_of_lt_pow2; lia. }
        pose proof (Z.log2_nonneg (s - (2 ^ k - 1) + 1)). fold k in Hn. lia.
Qed.

(** [peaks c] lists the roots of the peaks of a complete range. *)
Lemma ideal_peaks_spec c :
  0 <= c -> c + 1 < 2 ^ 30 -> Ideal.index_height (c + 1) = 0 ->
  peak_list c 0 (Ideal.peaks c).
Proof.
  intros Hc Hr Hleaf. unfold Ideal.peaks. apply ideal_peaks_loop_spec; try lia.
  - intros _. apply mtree_base. apply Z.log2_nonneg.
  - replace (c + 1 + 1) with (c + 2) by lia. lia.
Qed.

(** ** Big-endian numbers *)

Lemma Z_of_byte_of_Z z : Z_of_byte (byte_of_Z z) = z mod 256.
Proof.
  unfold Z_of_byte, byte_of_Z. pose proof (Z.mod_pos_bound z 256 ltac:(lia)) as Hb.
  pose proof (Byte.to_of_N_option_map (Z.to_N (z mod 256))) as Ho.
  destruct (Byte.of_N (Z.to_N (z mod 256))) as [b|]; cbn [option_map] in Ho.
  - destruct (_ <=? 255)%N; [|discriminate]. injection Ho as ->.
    apply Z2N.id. lia.
  - destruct (_ <=? 255)%N eqn:E; [discriminate|]. apply N.leb_gt in E.
    apply N2Z.inj_lt in E. rewrite Z2N.id in E by lia. change (Z.of_N 255) with 255 in E.
    lia.
Qed.

Lemma be_value_app a b acc : be_value (a ++ b) acc = be_value b (be_value a acc).
Proof. revert acc. induction a as [|x a IH]; intros acc; [reflexivity|]. cbn. apply IH. Qed.

Lemma be_value_be_bytes k : forall n acc,
  be_value (be_bytes k n) acc = acc * 256 ^ Z.of_nat k + n mod 256 ^ Z.of_nat k.
Proof.
  induction k as [|k IH]; intros n acc.
  - change (be_bytes 0 n) with (@nil byte). change (Z.of_nat 0) with 0.
    rewrite Z.pow_0_r, Z.mod_1_r. cbn [be_value]. lia.
  - change (be_bytes (S k) n) with (be_bytes k (n / 256) ++ [byte_of_Z n]).
    rewrite be_value_app, IH. cbn [be_value].
    rewrite Z_of_byte_of_Z. rewrite Nat2Z.inj_succ, Z.pow_succ_r by lia.
    pose proof (Z.pow_pos_nonneg 256 (Z.of_nat k) ltac:(lia) ltac:(lia)).
    rewrite (Z.rem_mul_r n 256 (256 ^ Z.of_nat k)) by lia. lia.
Qed.

Lemma be_bytes_inj n m :
  0 <= n < 2 ^ 64 -> 0 <= m < 2 ^ 64 -> be_bytes 8 n = be_bytes 8 m -> n = m.
Proof.
  intros Hn Hm E. apply (f_equal (fun b => be_value b 0)) in E.
  rewrite !be_value_be_bytes in E. change (256 ^ Z.of_nat 8) with (2 ^ 64) in E.
  rewrite !Z.mod_small in E by lia. lia.
Qed.

(** ** Consistency proofs *)

Lemma bytes_equal_refl a : bytes_equal a a = true.
Proof.
  induction a as [|x a IH]; [reflexivity|]. cbn [bytes_equal].
  rewrite (byte_dec_lb (eq_refl x)). exact IH.
Qed.

Lemma bytes_equal_eq a : forall b, bytes_equal a b = true -> a = b.
Proof.
  induction a as [|x a IH]; intros [|y b] H; cbn [bytes_equal] in H;
    try discriminate; [reflexivity|].
  apply andb_true_iff in H as [Hx Hab]. apply Byte.byte_dec_bl in Hx.
  rewrite Hx, (IH b Hab). reflexivity.
Qed.

Lemma dedup_push_nil x : dedup_push [] x = [x].
Proof. reflexivity. Qed.

Lemma dedup_push_snoc roots y x :
  dedup_push (roots ++ [y]) x
  = if bytes_equal y x then roots ++ [y] else (roots ++ [y]) ++ [x].
Proof. unfold dedup_push. rewrite rev_unit. reflexivity. Qed.

Lemma snoc_case {A} (l : list A) : l = [] \/ exists l' x, l = l' ++ [x].
Proof.
  induction l as [|x l _] using rev_ind; [left; reflexivity|right].
  exists l, x. reflexivity.
Qed.

Lemma index_height_loop_no_throw fuel : forall pos e, index_height_loop fuel pos <> Throw e.
Proof.
  induction fuel as [|fuel IH]; intros pos e; [discriminate|].
  cbn [index_height_loop]. destruct (negb (all_ones pos)); [apply IH|discriminate].
Qed.

Lemma included_root_loop_no_throw fuel hasher : forall proof st e,
  included_root_loop fuel hasher st proof <> Throw e.
Proof.
  induction proof as [|sibling proof IH]; intros [[i g] root] e; [discriminate|].
  cbn [included_root_loop]. unfold included_root_step, index_height.
  pose proof (index_height_loop_no_throw fuel (i + 1 + 1)) as Hh.
  destruct (index_height_loop fuel (i + 1 + 1)) as [h|e'|]; cbn [rbind];
    [|exfalso; exact (Hh e' eq_refl)|discriminate].
  destruct (g <? h); cbn [rbind]; apply IH.
Qed.

Lemma included_root_no_throw fuel hasher i value proof e :
  included_root fuel hasher i value proof <> Throw e.
Proof.
  unfold included_root, index_height.
  pose proof (index_height_loop_no_throw fuel (i + 1)) as Hh.
  destruct (index_height_loop fuel (i + 1)) as [h|e'|]; cbn [rbind];
    [apply included_root_loop_no_throw|exfalso; exact (Hh e' eq_refl)|discriminate].
Qed.

Lemma consistent_roots_loop_no_throw fuel hasher : forall frompeaks acc proofs roots e,
  consistent_roots_loop fuel hasher frompeaks acc proofs roots <> Throw e.
Proof.
  induction frompeaks as [|p ps IH]; intros acc proofs roots e; [discriminate|].
  cbn [consistent_roots_loop]. destruct acc as [|v acc]; [discriminate|].
  destruct proofs as [|pr proofs]; [discriminate|].
  pose proof (included_root_no_throw fuel hasher p v pr) as Hr.
  destruct (included_root fuel hasher p v pr) as [root|e'|]; cbn [rbind];
    [apply IH|exfalso; exact (Hr e' eq_refl)|discriminate].
Qed.

(** The path that [inclusion_proof_path] returns. *)
Definition path_of (fuel : nat) (c p : Z) : list Z :=
  match inclusion_proof_path fuel p c with Ok l => l | _ => [] end.

Section Consistency.
Variable fuel : nat.
Variable hasher : Hasher.
Variable db : list bytes.
Variables cf ct : Z.
Hypothesis fuel_enough : (64 <= fuel)%nat.
Hypothesis db_wf : well_formed hasher db.
Hypothesis cf_le : cf <= ct.
Hypothesis ct_stored : ct < Z.of_nat (length db).
Hypothesis ct_range : ct + 1 < 2 ^ 30.
Hypothesis ct_complete : Ideal.index_height (ct + 1) = 0.

Let nv := node_value db.
Let pv := fun p => map (node_value db) (path_of fuel ct p).

(** Two neighbours in the accumulator of [MMR(ct)] carry different values
    when the second of them is an interior node. *)
Hypothesis interior_differ : forall k p q,
  Ideal.peaks ct !! k = Some p -> Ideal.peaks ct !! S k = Some q ->
  0 < Ideal.index_height q -> bytes_equal (nv p) (nv q) = false.

Lemma replay_in_peak p B N :
  is_peak ct B N -> B <= p <= tree_root B N -> 0 <= p ->
  inclusion_proof_path fuel p ct = Ok (path_of fuel ct p)
  /\ Forall (fun j => 0 <= j < Z.of_nat (length db)) (path_of fuel ct p)
  /\ included_root fuel hasher p (nv p) (pv p) = Ok (nv (tree_root B N)).
Proof.
  intros Hp Hin Hp0. pose proof Hp as (_ & _ & Hc).
  destruct (inclusion_proof_replay fuel hasher db p ct fuel_enough db_wf ltac:(lia)
              ct_stored ct_range ct_complete)
    as (path & B' & N' & Hpath & Hst & Hp' & Hin' & _ & Hroot).
  destruct (peak_unique ct B' N' B N p Hp' Hp Hin' Hin) as [-> ->].
  unfold pv, path_of. rewrite Hpath. split; [reflexivity|]. split; assumption.
Qed.

(** Once the range of [MMR(cf)] runs out inside one peak of [MMR(ct)], all
    the peaks of [MMR(cf)] that are left replay to that peak. *)
Lemma loop_absorbed ps B2 :
  peak_list cf B2 ps -> forall B N roots,
  is_peak ct B N -> 0 <= B <= B2 -> cf <= tree_root B N ->
  consistent_roots_loop fuel hasher ps (map nv ps) (map pv ps)
    (roots ++ [nv (tree_root B N)])
  = Ok (roots ++ [nv (tree_root B N)]).
Proof.
  induction 1 as [|B2 N2 ps Hp2 Hl IH]; intros B N roots Hp HB Hcf; [reflexivity|].
  pose proof Hp2 as (HN2 & _ & Hc2). pose proof (tree_root_lower B2 N2 ltac:(lia)) as Hlow.
  cbn [map consistent_roots_loop].
  destruct (replay_in_peak (tree_root B2 N2) B N Hp ltac:(lia) ltac:(lia)) as (_ & _ & Hr).
  rewrite Hr. cbn [rbind]. rewrite dedup_push_snoc, bytes_equal_refl.
  apply IH; [exact Hp|lia|exact Hcf].
Qed.

(** A peak of height 0 is the last node of its range. *)
Lemma leaf_peak_last c B : is_peak c B 0 -> c = B.
Proof.
  intros (_ & _ & Hc). unfold tree_root in Hc.
  change (2 ^ (0 + 1)) with 2 in Hc. lia.
Qed.

Lemma peak_list_end c ps : peak_list c (c + 1) ps -> ps = [].
Proof.
  inversion 1 as [|B N qs Hp Hl HB Hqs]; [reflexivity|exfalso].
  pose proof Hp as (HN & _ & Hc). pose proof (tree_root_lower (c + 1) N ltac:(lia)). lia.
Qed.

(** The loop of [consistent_roots] walks the peaks of [MMR(cf)] and the
    peaks of [MMR(ct)] together.  The roots it has pushed are the values of
    the peaks of [MMR(ct)] it has passed; only a last peak that is a leaf
    can be dropped for carrying the value of the peak before it. *)
Lemma loop_sync ps B :
  peak_list cf B ps -> 0 <= B -> forall done qs,
  peak_list ct B qs -> Ideal.peaks ct = done ++ qs ->
  exists rs,
    rs `prefix_of` (done ++ qs)
    /\ (ps <> [] \/ done <> [] -> rs <> [])
    /\ consistent_roots_loop fuel hasher ps (map nv ps) (map pv ps) (map nv done)
       = Ok (map nv rs).
Proof.
  induction 1 as [|B N ps Hp Hl IH]; intros HB done qs Hq Htop.
  { exists done. split; [apply prefix_app_r; reflexivity|].
    split; [intros [H|H]; [congruence|exact H]|reflexivity]. }
  pose proof Hp as (HN & Ht & Hc). pose proof (tree_root_lower B N ltac:(lia)) as Hlow.
  inversion Hq as [HBq|B' N' qs' Hp' Hl' HBq Hqs]; [lia|]. subst B' qs.
  pose proof Hp' as (HN' & Ht' & Hc').
  assert (HNle : N <= N').
  { destruct (Z_le_gt_dec N N') as [|Hgt]; [assumption|exfalso].
    pose proof (pow2_le_mono (N' + 1 + 1) (N + 1) ltac:(lia)).
    rewrite (pow2_succ (N' + 1)) in * by lia. unfold tree_root in *. lia. }
  assert (Hrle : tree_root B N <= tree_root B N').
  { unfold tree_root. pose proof (pow2_le_mono (N + 1) (N' + 1) ltac:(lia)). lia. }
  destruct (replay_in_peak (tree_root B N) B N' Hp' ltac:(lia) ltac:(lia)) as (_ & _ & Hr).
  cbn [map consistent_roots_loop]. rewrite Hr. cbn [rbind].
  (* the root is pushed *)
  assert (Hpushed : dedup_push (map nv done) (nv (tree_root B N'))
                    = map nv (done ++ [tree_root B N']) ->
                    exists rs,
                      rs `prefix_of` (done ++ tree_root B N' :: qs')
                      /\ (tree_root B N :: ps <> [] \/ done <> [] -> rs <> [])
                      /\ consistent_roots_loop fuel hasher ps (map nv ps) (map pv ps)
                           (dedup_push (map nv done) (nv (tree_root B N')))
                         = Ok (map nv rs)).
  { intros Hpush. rewrite Hpush. destruct (Z.eq_dec N N') as [<-|Hne].
    - destruct (IH ltac:(lia) (done ++ [tree_root B N]) qs' Hl')
        as (rs & Hpre & Hne & Hres).
      { rewrite Htop, <- app_assoc. reflexivity. }
      exists rs. split; [rewrite <- app_assoc in Hpre; exact Hpre|].
      split; [|exact Hres]. intros _. apply Hne. right.
      intros E. apply app_eq_nil in E as [_ E]. discriminate.
    - exists (done ++ [tree_root B N']).
      split; [exists qs'; rewrite <- app_assoc; reflexivity|].
      split; [intros _ E; apply app_eq_nil in E as [_ E]; discriminate|].
      rewrite map_app. cbn [map].
      apply (loop_absorbed ps (tree_root B N + 1) Hl B N'); [exact Hp'|lia|].
      pose proof (pow2_le_mono (N + 1 + 1) (N' + 1) ltac:(lia)).
      rewrite (pow2_succ (N + 1)) in * by lia. unfold tree_root in *. lia. }
  destruct (snoc_case done) as [->|(done' & d & ->)].
  { apply Hpushed. reflexivity. }
  destruct (bytes_equal (nv d) (nv (tree_root B N'))) eqn:Eq.
  - (* the root carries the value of the peak before it: it is a leaf, and
       the last node of both ranges *)
    assert (HN0 : N' = 0).
    { destruct (Z.eq_dec N' 0) as [|Hpos]; [assumption|exfalso].
      rewrite (interior_differ (length done') d (tree_root B N')) in Eq;
        [discriminate|..].
      - rewrite Htop, <- app_assoc. rewrite lookup_app_r by lia.
        rewrite Nat.sub_diag. reflexivity.
      - rewrite Htop, <- app_assoc. rewrite lookup_app_r by lia.
        replace (S (length done') - length done')%nat with 1%nat by lia. reflexivity.
      - rewrite (mtree_root_height _ _ (is_peak_mtree _ _ _ Hp')). lia. }
    subst N'. assert (N = 0) by lia. subst N.
    pose proof (leaf_peak_last _ _ Hp') as Ect.
    assert (Ecf : cf = B) by (unfold tree_root in Hc; change (2 ^ (0 + 1)) with 2 in Hc; lia).
    assert (Eps : ps = []).
    { apply (peak_list_end cf). replace (cf + 1) with (tree_root B 0 + 1); [exact Hl|].
      unfold tree_root. change (2 ^ (0 + 1)) with 2. lia. }
    subst ps. exists (done' ++ [d]).
    split; [apply prefix_app_r; reflexivity|].
    split; [intros _ E; apply app_eq_nil in E as [_ E]; discriminate|].
    rewrite !map_app. cbn [map]. rewrite dedup_push_snoc, Eq. reflexivity.
  - apply Hpushed. rewrite !map_app. cbn [map]. rewrite dedup_push_snoc, Eq.
    rewrite <- app_assoc. reflexivity.
Qed.

Lemma consistency_proof_paths_loop_spec ps :
  Forall (fun p => 0 <= p <= cf) ps ->
  consistency_proof_paths_loop fuel ps ct = Ok (map (path_of fuel ct) ps)
  /\ Forall (Forall (fun j => 0 <= j < Z.of_nat (length db))) (map (path_of fuel ct) ps).
Proof.
  induction 1 as [|p ps Hp _ [IH1 IH2]]; [split; [reflexivity|constructor]|].
  cbn [consistency_proof_paths_loop map].
  destruct (inclusion_proof_replay fuel hasher db p ct fuel_enough db_wf ltac:(lia)
              ct_stored ct_range ct_complete)
    as (path & B' & N' & Hpath & Hst & _).
  unfold path_of at 1 3. rewrite Hpath. cbn [rbind]. rewrite IH1. cbn [rbind].
  split; [reflexivity|]. constructor; assumption.
Qed.

End Consistency.

Lemma peak_list_descending c B qs :
  peak_list c B qs -> forall k p q,
  qs !! k = Some p -> qs !! S k = Some q ->
  Ideal.index_height q < Ideal.index_height p.
Proof.
  induction 1 as [|B N qs Hp Hl IH]; intros k p q Hk Hk1; [discriminate|].
  destruct k as [|k]; [|exact (IH k p q Hk Hk1)].
  cbn in Hk, Hk1. injection Hk as <-.
  inversion Hl as [HB|B2 N2 qs2 Hp2 Hl2 HB Hqs]; subst; [discriminate|].
  cbn in Hk1. injection Hk1 as <-.
  rewrite (mtree_root_height _ _ (is_peak_mtree _ _ _ Hp)).
  rewrite (mtree_root_height _ _ (is_peak_mtree _ _ _ Hp2)).
  destruct Hp as (HN & _ & Hc). destruct Hp2 as (HN2 & _ & Hc2).
  destruct (Z_lt_ge_dec N2 N) as [|Hge]; [assumption|exfalso].
  pose proof (pow2_le_mono (N + 1) (N2 + 1) ltac:(lia)). unfold tree_root in *. lia.
Qed.

Lemma stored_values db l :
  Forall (fun j => 0 <= j < Z.of_nat (length db)) l ->
  Forall2 (fun j v => node db j = Some v) l (map (node_value db) l).
Proof. apply node_values_stored. Qed.

Lemma stored_paths db paths :
  Forall (Forall (fun j => 0 <= j < Z.of_nat (length db))) paths ->
  Forall2 (Forall2 (fun j v => node db j = Some v)) paths
    (map (map (node_value db)) paths).
Proof.
  induction 1 as [|path paths Hp _ IH]; [constructor|].
  cbn [map]. constructor; [apply node_values_stored; exact Hp|exact IH].
Qed.

(** ** C2: consistency proofs *)

(** The hash binds the position of a node: interior nodes at different
    positions never get the same value.  That is what the eight byte
    position in front of the two children is hashed for. *)
Definition binds_position (hasher : Hasher) : Prop :=
  forall pos pos' l r l' r',
    0 <= pos < 2 ^ 64 -> 0 <= pos' < 2 ^ 64 ->
    hash_pos_pair64 hasher pos l r = hash_pos_pair64 hasher pos' l' r' -> pos = pos'.

Definition collision_free (hasher : Hasher) : Prop :=
  forall a b, hasher a = hasher b -> a = b.

(** A hash without collisions binds positions. *)
Lemma collision_free_binds_position hasher :
  collision_free hasher -> binds_position hasher.
Proof.
  intros Hinj pos pos' l r l' r' Hp Hp' E. unfold hash_pos_pair64 in E.
  apply Hinj in E. unfold concat_bytes in E. cbn [concat] in E.
  apply app_inj_1 in E as [E _]; [|rewrite !length_be_bytes; reflexivity].
  exact (be_bytes_inj _ _ Hp Hp' E).
Qed.

(** So does the 32 byte hash of the tests, which keeps the position. *)
Lemma prefix_hash_binds_position : binds_position prefix_hash.
Proof.
  intros pos pos' l r l' r' Hp Hp' E.
  unfold hash_pos_pair64, prefix_hash, concat_bytes in E. cbn [concat] in E.
  apply (f_equal (take 8)) in E. rewrite !take_take in E.
  change (8 `min` 32)%nat with 8%nat in E. rewrite <- !app_assoc in E.
  rewrite !take_app_length' in E by (rewrite length_be_bytes; reflexivity).
  exact (be_bytes_inj _ _ Hp Hp' E).
Qed.

(** A hash under which all interior nodes collide. *)
Definition zero_hash : Hasher := fun _ => zeros 32.

(** Why the hash has to bind positions: [consistent_roots] drops a root
    that equals the previous one by value.  With seven leaves under
    [zero_hash] the peaks 6 and 9 of [MMR(10)] carry the same value, and the
    proof of [MMR(10)] against itself returns two roots where the
    accumulator has three values. *)
Lemma constant_hash_roots_not_prefix :
  exists db,
    add_leaves 64 zero_hash (map num_field [1; 2; 3; 4; 5; 6; 7]) [] = (Ok tt, db)
    /\ complete_mmr 64 10 = Ok 10
    /\ peaks 64 10 = Ok [6; 9; 10]
    /\ consistency_proof_paths 64 10 10 = Ok [[]; []; []]
    /\ map (node db) [6; 9; 10] = [Some (zeros 32); Some (zeros 32); Some (num_field 7)]
    /\ consistent_roots 64 zero_hash 10 [zeros 32; zeros 32; num_field 7] [[]; []; []]
       = Ok [zeros 32; num_field 7]
    /\ ~ [zeros 32; num_field 7] `prefix_of` [zeros 32; zeros 32; num_field 7]
    /\ ~ binds_position zero_hash.
Proof.
  eexists. split; [vm_compute; reflexivity|].
  repeat (split; [vm_compute; reflexivity|]).
  split.
  - intros [k Hk]. vm_compute in Hk. discriminate.
  - intros H. specialize (H 1 2 [] [] [] [] ltac:(lia) ltac:(lia) eq_refl). discriminate.
Qed.

(** C2.  For complete [ifrom <= ito] in a log built by [add_leaf_hash]
    from any leaves, under a hash that binds positions (any collision-free
    hash does), [consistent_roots] applied to the peak values of
    [MMR(ifrom)] and the node values of [consistency_proof_paths (ifrom,
    ito)] returns a non empty prefix of the peak values of [MMR(ito)],
    which [peaks] lists in descending height order; and for any accumulator
    and proofs [consistent_roots] throws exactly when one of the two lengths
    differs from the number of peaks of [MMR(ifrom)]. *)
Theorem consistent_roots_prefix fuel hasher leaves db ifrom ito :
  (64 <= fuel)%nat -> binds_position hasher ->
  add_leaves fuel hasher leaves [] = (Ok tt, db) ->
  0 <= ifrom <= ito -> ito < Z.of_nat (length db) -> ito + 1 < 2 ^ 30 ->
  complete_mmr fuel ifrom = Ok ifrom -> complete_mmr fuel ito = Ok ito ->
  exists frompeaks accumulatorfrom paths proofs topeaks accumulatorto roots,
    peaks fuel ifrom = Ok frompeaks
    /\ Forall2 (fun j v => node db j = Some v) frompeaks accumulatorfrom
    /\ consistency_proof_paths fuel ifrom ito = Ok paths
    /\ Forall2 (Forall2 (fun j v => node db j = Some v)) paths proofs
    /\ peaks fuel ito = Ok topeaks
    /\ Forall2 (fun j v => node db j = Some v) topeaks accumulatorto
    /\ (forall k p q hp hq,
          topeaks !! k = Some p -> topeaks !! S k = Some q ->
          index_height fuel p = Ok hp -> index_height fuel q = Ok hq -> hq < hp)
    /\ consistent_roots fuel hasher ifrom accumulatorfrom proofs = Ok roots
    /\ roots <> []
    /\ roots `prefix_of` accumulatorto
    /\ (forall accumulator proofs' : list _,
          (exists e, consistent_roots fuel hasher ifrom accumulator proofs' = Throw e)
          <-> (length accumulator <> length frompeaks
               \/ length proofs' <> length frompeaks)).
Proof.
  intros Hf Hbind Hdb Hi Hlen Hc Hcf Hct.
  pose proof (add_leaves_inv _ _ _ _ _ (log_inv_nil hasher) Hdb) as [Hwf _].
  pose proof (complete_mmr_fixed fuel ifrom ltac:(lia) ltac:(lia) ltac:(lia) Hcf) as Hlf.
  pose proof (complete_mmr_fixed fuel ito ltac:(lia) ltac:(lia) ltac:(lia) Hct) as Hlt.
  pose proof (peaks_exact fuel ifrom ltac:(lia) ltac:(lia) ltac:(lia)) as Hpf.
  pose proof (peaks_exact fuel ito ltac:(lia) ltac:(lia) ltac:(lia)) as Hpt.
  pose proof (ideal_peaks_spec ifrom ltac:(lia) ltac:(lia) Hlf) as Hlf'.
  pose proof (ideal_peaks_spec ito ltac:(lia) ltac:(lia) Hlt) as Hlt'.
  destruct (peak_list_bounds _ _ _ Hlf') as [_ Hbf].
  destruct (peak_list_bounds _ _ _ Hlt') as [_ Hbt].
  assert (Hstf : Forall (fun j => 0 <= j < Z.of_nat (length db)) (Ideal.peaks ifrom)).
  { eapply Forall_impl; [exact Hbf|]. cbn. intros; lia. }
  assert (Hstt : Forall (fun j => 0 <= j < Z.of_nat (length db)) (Ideal.peaks ito)).
  { eapply Forall_impl; [exact Hbt|]. cbn. intros; lia. }
  assert (Hnb : forall k p q,
            Ideal.peaks ito !! k = Some p -> Ideal.peaks ito !! S k = Some q ->
            0 < Ideal.index_height q ->
            bytes_equal (node_value db p) (node_value db q) = false).
  { intros k p q Hp Hq Hh.
    pose proof (peak_list_descending _ _ _ Hlt' k p q Hp Hq) as Hdesc.
    pose proof (proj1 (Forall_lookup _ _) Hbt _ _ Hp) as Hp'.
    pose proof (proj1 (Forall_lookup _ _) Hbt _ _ Hq) as Hq'. cbn in Hp', Hq'.
    destruct (Hwf p ltac:(lia) ltac:(lia) ltac:(lia)) as (lp & rp & _ & _ & Hvp).
    destruct (Hwf q ltac:(lia) ltac:(lia) ltac:(lia)) as (lq & rq & _ & _ & Hvq).
    destruct (bytes_equal (node_value db p) (node_value db q)) eqn:E; [exfalso|reflexivity].
    apply bytes_equal_eq in E.
    rewrite <- (node_value_eq _ _ _ Hvp), <- (node_value_eq _ _ _ Hvq) in E.
    apply Hbind in E; [|lia..]. assert (p = q) by lia. subst q. lia. }
  destruct (consistency_proof_paths_loop_spec fuel hasher db ifrom ito Hf Hwf ltac:(lia)
              Hlen Hc Hlt (Ideal.peaks ifrom)) as [Hpaths Hstp].
  { eapply Forall_impl; [exact Hbf|]. cbn. intros; lia. }
  destruct (loop_sync fuel hasher db ifrom ito Hf Hwf ltac:(lia) Hlen Hc Hlt Hnb
              (Ideal.peaks ifrom) 0 Hlf' ltac:(lia) [] (Ideal.peaks ito) Hlt' eq_refl)
    as (rs & [rest Hpre] & Hne & Hloop).
  cbn [app] in Hpre.
  exists (Ideal.peaks ifrom), (map (node_value db) (Ideal.peaks ifrom)),
    (map (path_of fuel ito) (Ideal.peaks ifrom)),
    (map (map (node_value db)) (map (path_of fuel ito) (Ideal.peaks ifrom))),
    (Ideal.peaks ito), (map (node_value db) (Ideal.peaks ito)),
    (map (node_value db) rs).
  split; [exact Hpf|]. split; [apply stored_values; exact Hstf|].
  split; [unfold consistency_proof_paths; rewrite Hpf; exact Hpaths|].
  split; [apply stored_paths; exact Hstp|].
  split; [exact Hpt|]. split; [apply stored_values; exact Hstt|].
  split.
  { intros k p q hp hq Hp Hq Hhp Hhq.
    pose proof (proj1 (Forall_lookup _ _) Hbt _ _ Hp) as Hp'.
    pose proof (proj1 (Forall_lookup _ _) Hbt _ _ Hq) as Hq'. cbn in Hp', Hq'.
    rewrite index_height_exact in Hhp, Hhq by lia.
    injection Hhp as <-. injection Hhq as <-.
    exact (peak_list_descending _ _ _ Hlt' k p q Hp Hq). }
  assert (Hnil : Ideal.peaks ifrom <> []).
  { intros E. rewrite E in Hlf'. inversion Hlf'. lia. }
  split.
  { unfold consistent_roots. rewrite Hpf. cbn [rbind].
    rewrite !length_map, Nat.eqb_refl. cbn [negb].
    rewrite map_map. exact Hloop. }
  split.
  { specialize (Hne (or_introl Hnil)). destruct rs; [congruence|discriminate]. }
  split.
  { exists (map (node_value db) rest). rewrite Hpre, map_app. reflexivity. }
  intros accumulator proofs'. unfold consistent_roots. rewrite Hpf. cbn [rbind].
  destruct (Nat.eqb_spec (length (Ideal.peaks ifrom)) (length accumulator)) as [E1|E1];
    cbn [negb].
  - destruct (Nat.eqb_spec (length (Ideal.peaks ifrom)) (length proofs')) as [E2|E2];
      cbn [negb].
    + split; [|lia]. intros [e He]. exfalso.
      exact (consistent_roots_loop_no_throw _ _ _ _ _ _ _ He).
    + split; [intros _; right; lia|]. intros _. eexists. reflexivity.
  - split; [intros _; left; lia|]. intros _. eexists. reflexivity.
Qed.

(** The log of the eight leaves [0 .. 7] under [prefix_hash]. *)
Definition eight_leaf_log : list bytes :=
  snd (add_leaves 64 prefix_hash (map num_field [0; 1; 2; 3; 4; 5; 6; 7]) []).

(** [MMR(3)] against [MMR(10)]: both peaks of [MMR(3)] replay to node 6. *)
Lemma consistent_roots_prefix_witness :
  exists frompeaks accumulatorfrom paths proofs topeaks accumulatorto roots,
    peaks 64 3 = Ok frompeaks
    /\ Forall2 (fun j v => node eight_leaf_log j = Some v) frompeaks accumulatorfrom
    /\ consistency_proof_paths 64 3 10 = Ok paths
    /\ Forall2 (Forall2 (fun j v => node eight_leaf_log j = Some v)) paths proofs
    /\ peaks 64 10 = Ok topeaks
    /\ Forall2 (fun j v => node eight_leaf_log j = Some v) topeaks accumulatorto
    /\ (forall k p q hp hq,
          topeaks !! k = Some p -> topeaks !! S k = Some q ->
          index_height 64 p = Ok hp -> index_height 64 q = Ok hq -> hq < hp)
    /\ consistent_roots 64 prefix_hash 3 accumulatorfrom proofs = Ok roots
    /\ roots <> []
    /\ roots `prefix_of` accumulatorto
    /\ (forall accumulator proofs' : list _,
          (exists e, consistent_roots 64 prefix_hash 3 accumulator proofs' = Throw e)
          <-> (length accumulator <> length frompeaks
               \/ length proofs' <> length frompeaks)).
Proof.
  apply (consistent_roots_prefix 64 prefix_hash
           (map num_field [0; 1; 2; 3; 4; 5; 6; 7]) eight_leaf_log 3 10).
  - lia.
  - exact prefix_hash_binds_position.
  - vm_compute. reflexivity.
  - lia.
  - vm_compute. reflexivity.
  - lia.
  - vm_compute. reflexivity.
  - vm_compute. reflexivity.
Defined.

(** * Tiles and their ancestor peaks *)

(** ** Leaves and peak lists *)

Lemma peak_list_unique c B qs :
  peak_list c B qs -> forall qs', peak_list c B qs' -> qs = qs'.
Proof.
  induction 1 as [|B N qs Hp Hl IH]; intros qs' H'.
  - inversion H' as [|B' N' qs2 Hp' Hl' HB Hqs]; [reflexivity|].
    destruct Hp' as (HN' & _ & Hc'). pose proof (tree_root_lower (c + 1) N' ltac:(lia)). lia.
  - pose proof Hp as (HN & _ & Hc). pose proof (tree_root_lower B N ltac:(lia)) as Hlow.
    inversion H' as [HB|B' N' qs2 Hp' Hl' HB Hqs]; [lia|]. subst B' qs'.
    pose proof Hp' as (HN' & _ & Hc'). pose proof (tree_root_lower B N' ltac:(lia)) as Hlow'.
    destruct (peak_unique c B N B N' B Hp Hp' ltac:(lia) ltac:(lia)) as [_ <-].
    f_equal. apply IH. exact Hl'.
Qed.

(** Every node of the range that a peak list tiles lies under one of its
    peaks. *)
Lemma peak_list_cover c B qs j :
  peak_list c B qs -> B <= j <= c ->
  exists B' N', is_peak c B' N' /\ B' <= j <= tree_root B' N' /\ In (tree_root B' N') qs.
Proof.
  induction 1 as [|B N qs Hp Hl IH]; intros Hj; [lia|].
  destruct (Z_le_gt_dec j (tree_root B N)) as [Hle|Hgt].
  - exists B, N. split; [exact Hp|]. split; [lia|left; reflexivity].
  - destruct (IH ltac:(lia)) as (B' & N' & Hp' & Hj' & Hin).
    exists B', N'. split; [exact Hp'|]. split; [exact Hj'|right; exact Hin].
Qed.

(** A peak of a complete range is one of the peaks that [peaks] lists. *)
Lemma is_peak_listed c B N :
  0 <= c -> c + 1 < 2 ^ 30 -> Ideal.index_height (c + 1) = 0 -> 0 <= B ->
  is_peak c B N -> In (tree_root B N) (Ideal.peaks c).
Proof.
  intros Hc Hr Hleaf HB Hp. pose proof Hp as (HN & _ & Hcp).
  pose proof (tree_root_lower B N ltac:(lia)) as Hlow.
  destruct (peak_list_cover c 0 _ (tree_root B N) (ideal_peaks_spec c Hc Hr Hleaf) ltac:(lia))
    as (B' & N' & Hp' & Hj' & Hin).
  destruct (peak_unique c B N B' N' (tree_root B N) Hp Hp' ltac:(lia) Hj') as [-> ->].
  exact Hin.
Qed.

(** The index of a leaf is a node of height 0, and the other way around. *)
Lemma index_height_mmr_index e : 0 <= e -> Ideal.index_height (Ideal.mmr_index e) = 0.
Proof.
  revert e. apply Z_strong_ind. intros e He IH.
  destruct (Z.eq_dec e 0) as [->|Hne]; [reflexivity|].
  rewrite mmr_index_eq by lia.
  pose proof (Z.log2_nonneg e) as Hk. pose proof (log2_bounds e ltac:(lia)) as Hb.
  set (k := Z.log2 e) in *. pose proof (pow2_pos k Hk) as Hp.
  pose proof (pow2_succ k Hk) as Hp1. pose proof (pow2_succ (k + 1) ltac:(lia)) as Hp2.
  pose proof (mmr_index_bounds (e - 2 ^ k) ltac:(lia)) as [Hm0 Hm1].
  assert (Hm : Ideal.mmr_index (e - 2 ^ k) <= 2 ^ (k + 1) - 2).
  { destruct (Z.eq_dec (e - 2 ^ k) 0) as [E|E]; [rewrite E; cbn; lia|lia]. }
  rewrite (index_height_shift (k + 1)) by lia.
  replace (2 ^ (k + 1) - 1 + Ideal.mmr_index (e - 2 ^ k) - (2 ^ (k + 1) - 1))
    with (Ideal.mmr_index (e - 2 ^ k)) by lia.
  apply IH. lia.
Qed.

Lemma leaf_is_mmr_index j :
  0 <= j -> Ideal.index_height j = 0 -> exists e, 0 <= e /\ j = Ideal.mmr_index e.
Proof.
  intros Hj. pattern j. revert j Hj. apply Z_strong_ind. intros j Hj IH Hh.
  destruct (Z.eq_dec j 0) as [->|Hne]; [exists 0; split; [lia|reflexivity]|].
  pose proof (Z.log2_nonneg (j + 1)) as Hk0.
  pose proof (log2_bounds (j + 1) ltac:(lia)) as Hb.
  set (k := Z.log2 (j + 1)) in *.
  assert (Hk : 1 <= k).
  { destruct (Z.eq_dec k 0) as [E|]; [|lia]. rewrite E in Hb. cbn in Hb. lia. }
  pose proof (pow2_pos (k - 1) ltac:(lia)) as Hp.
  pose proof (pow2_succ (k - 1) ltac:(lia)) as Hp0. replace (k - 1 + 1) with k in Hp0 by lia.
  pose proof (pow2_succ k ltac:(lia)) as Hp1.
  assert (Hnr : j <> 2 ^ (k + 1) - 2).
  { intros E. rewrite E, index_height_ones in Hh by lia. lia. }
  rewrite (index_height_shift k) in Hh by lia.
  destruct (IH (j - (2 ^ k - 1)) ltac:(lia) Hh) as (e' & He' & Hje').
  assert (Hlt : e' < 2 ^ (k - 1)).
  { destruct (Z_lt_ge_dec e' (2 ^ (k - 1))) as [|Hge]; [assumption|exfalso].
    pose proof (mmr_index_le (2 ^ (k - 1)) e' ltac:(lia)) as Hm.
    rewrite (mmr_index_eq (2 ^ (k - 1))) in Hm by lia.
    rewrite Z.log2_pow2 in Hm by lia. replace (k - 1 + 1) with k in Hm by lia.
    replace (2 ^ (k - 1) - 2 ^ (k - 1)) with 0 in Hm by lia.
    rewrite mmr_index_nonpos in Hm by lia. lia. }
  exists (e' + 2 ^ (k - 1)). split; [lia|].
  rewrite (mmr_index_eq (e' + 2 ^ (k - 1))) by lia.
  rewrite (log2_between (k - 1) (e' + 2 ^ (k - 1)))
    by (try replace (k - 1 + 1) with k by lia; lia).
  replace (k - 1 + 1) with k by lia.
  replace (e' + 2 ^ (k - 1) - 2 ^ (k - 1)) with e' by lia. lia.
Qed.

(** Between two consecutive leaves there are only interior nodes. *)
Lemma no_leaf_between e j :
  0 <= e -> Ideal.mmr_index e < j < Ideal.mmr_index (e + 1) ->
  Ideal.index_height j <> 0.
Proof.
  intros He Hj Hh. pose proof (mmr_index_nonneg e) as H0.
  destruct (leaf_is_mmr_index j ltac:(lia) Hh) as (e' & He' & ->).
  destruct (Z_lt_ge_dec e e') as [Hlt|Hge].
  - destruct (Z.eq_dec e' (e + 1)) as [->|]; [lia|].
    pose proof (mmr_index_lt (e + 1) e' ltac:(lia)). lia.
  - pose proof (mmr_index_le e' e ltac:(lia)). lia.
Qed.

(** The peaks of a range of [L] leaves that starts at node [base], read off
    the bits of [L] from bit [n - 1] down: a set bit [k] is a peak of
    height [k]. *)
Fixpoint leaf_peaks (n : nat) (base L : Z) : list Z :=
  match n with
  | O => []
  | S n' =>
      if L <? 2 ^ Z.of_nat n' then leaf_peaks n' base L
      else (base + 2 ^ (Z.of_nat n' + 1) - 2)
           :: leaf_peaks n' (base + 2 ^ (Z.of_nat n' + 1) - 1) (L - 2 ^ Z.of_nat n')
  end.

Lemma leaf_peaks_zero n base : leaf_peaks n base 0 = [].
Proof.
  induction n as [|n IH]; [reflexivity|]. cbn [leaf_peaks].
  pose proof (pow2_pos (Z.of_nat n) ltac:(lia)).
  destruct (0 <? 2 ^ Z.of_nat n) eqn:E; [exact IH|apply Z.ltb_ge in E; lia].
Qed.

Lemma mmr_index_top e k :
  0 <= k -> 2 ^ k <= e < 2 ^ (k + 1) ->
  Ideal.mmr_index e = 2 ^ (k + 1) - 1 + Ideal.mmr_index (e - 2 ^ k)
  /\ 0 <= Ideal.mmr_index (e - 2 ^ k) <= 2 ^ (k + 1) - 2.
Proof.
  intros Hk He. pose proof (pow2_pos k Hk). pose proof (pow2_succ k Hk).
  rewrite (mmr_index_eq e) by lia. rewrite (log2_between k e) by lia.
  split; [reflexivity|]. pose proof (mmr_index_nonneg (e - 2 ^ k)).
  pose proof (mmr_index_bounds (e - 2 ^ k) ltac:(lia)) as [_ Hm].
  destruct (Z.eq_dec (e - 2 ^ k) 0) as [E|E]; [rewrite E; cbn; lia|lia].
Qed.

Lemma leaf_peaks_spec n : forall base L,
  (n <= 30)%nat -> 0 <= L < 2 ^ Z.of_nat n -> mtree base (Z.of_nat n) ->
  peak_list (base + Ideal.mmr_index L - 1) base (leaf_peaks n base L).
Proof.
  induction n as [|n IH]; intros base L Hn HL Ht.
  - cbn in HL. assert (L = 0) as -> by lia. cbn [leaf_peaks].
    replace base with (base + Ideal.mmr_index 0 - 1 + 1) at 2 by (cbn; lia). constructor.
  - rewrite Nat2Z.inj_succ, <- Z.add_1_r in *. cbn [leaf_peaks].
    set (k := Z.of_nat n) in *. assert (Hk : 0 <= k <= 29) by lia.
    destruct (L <? 2 ^ k) eqn:E.
    + apply Z.ltb_lt in E. apply IH; [lia|lia|]. apply mtree_left; [lia|exact Ht].
    + apply Z.ltb_ge in E.
      destruct (mmr_index_top L k ltac:(lia) ltac:(lia)) as [Hm Hmb].
      pose proof (pow2_succ k ltac:(lia)) as Hp1.
      change (base + 2 ^ (k + 1) - 2) with (tree_root base k).
      apply peak_list_cons.
      * unfold is_peak, tree_root. split; [lia|]. split; [exact Ht|]. lia.
      * replace (tree_root base k + 1) with (base + 2 ^ (k + 1) - 1) by (unfold tree_root; lia).
        replace (base + Ideal.mmr_index L - 1)
          with (base + 2 ^ (k + 1) - 1 + Ideal.mmr_index (L - 2 ^ k) - 1) by lia.
        apply IH; [lia|lia|]. apply mtree_right; [lia|exact Ht].
Qed.

(** The peaks of the range before a leaf, by the bits of the leaf number. *)
Lemma peaks_by_leaves L :
  1 <= L -> Ideal.mmr_index L < 2 ^ 30 ->
  Ideal.peaks (Ideal.mmr_index L - 1) = leaf_peaks 30 0 L.
Proof.
  intros HL Hr. pose proof (mmr_index_bounds L ltac:(lia)) as [Hb _].
  apply (peak_list_unique (Ideal.mmr_index L - 1) 0).
  - apply ideal_peaks_spec; [lia|lia|].
    replace (Ideal.mmr_index L - 1 + 1) with (Ideal.mmr_index L) by lia.
    apply index_height_mmr_index. lia.
  - replace (Ideal.mmr_index L - 1) with (0 + Ideal.mmr_index L - 1) by lia.
    apply leaf_peaks_spec; [lia|change (Z.of_nat 30) with 30; lia|].
    apply mtree_base. lia.
Qed.

(** [L] is a multiple of [2^a]. *)
Definition multiple_of (a L : Z) : Prop := exists q, 0 <= q /\ L = q * 2 ^ a.

Lemma multiple_of_zero a L : 0 <= a -> multiple_of a L -> L < 2 ^ a -> L = 0.
Proof.
  intros Ha (q & Hq & ->) Hl. pose proof (pow2_pos a Ha).
  destruct (Z.eq_dec q 0) as [->|]; [lia|nia].
Qed.

Lemma multiple_of_gap a k L :
  0 <= a <= k -> multiple_of a L -> L < 2 ^ k -> L + 2 ^ a <= 2 ^ k.
Proof.
  intros Ha (q & Hq & ->) Hl. pose proof (pow2_pos a ltac:(lia)).
  pose proof (pow2_pos (k - a) ltac:(lia)).
  assert (Hk : 2 ^ k = 2 ^ (k - a) * 2 ^ a).
  { rewrite <- Z.pow_add_r by lia. f_equal. lia. }
  rewrite Hk in *.
  assert (Hq1 : q < 2 ^ (k - a)).
  { destruct (Z_lt_ge_dec q (2 ^ (k - a))) as [|Hge]; [assumption|exfalso].
    pose proof (Z.mul_le_mono_nonneg_r (2 ^ (k - a)) q (2 ^ a) ltac:(lia) ltac:(lia)).
    lia. }
  pose proof (Z.mul_le_mono_nonneg_r (q + 1) (2 ^ (k - a)) (2 ^ a) ltac:(lia) ltac:(lia)).
  lia.
Qed.

Lemma multiple_of_sub a k L :
  0 <= a <= k -> multiple_of a L -> 2 ^ k <= L -> multiple_of a (L - 2 ^ k).
Proof.
  intros Ha (q & Hq & ->) Hl. pose proof (pow2_pos a ltac:(lia)).
  pose proof (pow2_pos (k - a) ltac:(lia)).
  assert (Hk : 2 ^ k = 2 ^ (k - a) * 2 ^ a).
  { rewrite <- Z.pow_add_r by lia. f_equal. lia. }
  exists (q - 2 ^ (k - a)). rewrite Hk in *. split; [|lia].
  destruct (Z_le_gt_dec (2 ^ (k - a)) q) as [|Hgt]; [lia|exfalso].
  pose proof (Z.mul_le_mono_nonneg_r (q + 1) (2 ^ (k - a)) (2 ^ a) ltac:(lia) ltac:(lia)).
  lia.
Qed.

Lemma multiple_of_low a k L :
  0 <= a -> 0 <= k -> multiple_of a L -> 2 ^ k <= L < 2 ^ (k + 1) -> a <= k.
Proof.
  intros Ha Hk (q & Hq & ->) Hl. pose proof (pow2_pos a Ha). pose proof (pow2_pos k Hk).
  destruct (Z_le_gt_dec a k) as [|Hgt]; [assumption|exfalso].
  pose proof (pow2_le_mono (k + 1) a ltac:(lia)).
  destruct (Z.eq_dec q 0) as [->|]; [lia|].
  pose proof (Z.mul_le_mono_nonneg_r 1 q (2 ^ a) ltac:(lia) ltac:(lia)). lia.
Qed.

(** All the peaks before a tile are at least as high as the tile. *)
Lemma leaf_peaks_heights h n : forall base L,
  (n <= 30)%nat -> 0 <= h -> multiple_of h L -> 0 <= L < 2 ^ Z.of_nat n ->
  mtree base (Z.of_nat n) ->
  Forall (fun p => h <= Ideal.index_height p) (leaf_peaks n base L).
Proof.
  induction n as [|n IH]; intros base L Hn Hh Hm HL Ht; [constructor|].
  rewrite Nat2Z.inj_succ, <- Z.add_1_r in *. cbn [leaf_peaks].
  set (k := Z.of_nat n) in *. assert (Hk : 0 <= k <= 29) by lia.
  destruct (L <? 2 ^ k) eqn:E.
  - apply Z.ltb_lt in E. apply IH; try assumption; try lia.
    apply mtree_left; [lia|exact Ht].
  - apply Z.ltb_ge in E.
    pose proof (multiple_of_low h k L Hh ltac:(lia) Hm ltac:(lia)) as Hhk.
    constructor.
    + change (base + 2 ^ (k + 1) - 2) with (tree_root base k).
      rewrite (mtree_root_height base k); [exact Hhk|]. apply mtree_left; [lia|exact Ht].
    + pose proof (pow2_succ k ltac:(lia)). apply IH; try assumption; try lia.
      * apply multiple_of_sub; [lia|exact Hm|lia].
      * apply mtree_right; [lia|exact Ht].
Qed.

(** One more tile of height [h] after a whole number of tiles of height
    [h + 1] adds one peak, the last node. *)
Lemma leaf_peaks_snoc h n : forall base X,
  0 <= h -> multiple_of (h + 1) X -> 0 <= X -> X + 2 ^ h < 2 ^ Z.of_nat n ->
  leaf_peaks n base (X + 2 ^ h)
  = leaf_peaks n base X ++ [base + Ideal.mmr_index (X + 2 ^ h) - 1].
Proof.
  induction n as [|n IH]; intros base X Hh Hm HX Hlt.
  { pose proof (pow2_pos h Hh). cbn in Hlt. lia. }
  rewrite Nat2Z.inj_succ, <- Z.add_1_r in Hlt. cbn [leaf_peaks].
  set (k := Z.of_nat n) in *. assert (Hk : 0 <= k) by lia.
  pose proof (pow2_pos h Hh) as Hph. pose proof (pow2_succ h Hh) as Hph1.
  pose proof (pow2_pos k Hk) as Hpk. pose proof (pow2_succ k Hk) as Hpk1.
  destruct (Z_le_gt_dec k h) as [Hkh|Hkh].
  - pose proof (pow2_le_mono k h ltac:(lia)) as Hle.
    pose proof (pow2_le_mono (k + 1) (h + 1) ltac:(lia)) as Hle1.
    assert (X = 0) as -> by (apply (multiple_of_zero (h + 1)); [lia|exact Hm|lia]).
    assert (h = k) as ->.
    { destruct (Z.eq_dec h k); [assumption|exfalso].
      pose proof (pow2_le_mono (k + 1) h ltac:(lia)). lia. }
    replace (0 + 2 ^ k) with (2 ^ k) by lia.
    destruct (2 ^ k <? 2 ^ k) eqn:E1; [apply Z.ltb_lt in E1; lia|].
    destruct (0 <? 2 ^ k) eqn:E2; [|apply Z.ltb_ge in E2; lia].
    replace (2 ^ k - 2 ^ k) with 0 by lia. rewrite !leaf_peaks_zero. cbn [app].
    destruct (mmr_index_top (2 ^ k) k Hk ltac:(lia)) as [Hmi _].
    replace (2 ^ k - 2 ^ k) with 0 in Hmi by lia.
    rewrite (mmr_index_nonpos 0) in Hmi by lia.
    f_equal. lia.
  - destruct (X <? 2 ^ k) eqn:E.
    + apply Z.ltb_lt in E.
      pose proof (multiple_of_gap (h + 1) k X ltac:(lia) Hm E) as Hgap.
      destruct (X + 2 ^ h <? 2 ^ k) eqn:E1; [|apply Z.ltb_ge in E1; lia].
      apply IH; try assumption. apply Z.ltb_lt in E1. exact E1.
    + apply Z.ltb_ge in E.
      destruct (X + 2 ^ h <? 2 ^ k) eqn:E1; [apply Z.ltb_lt in E1; lia|].
      cbn [app]. f_equal.
      replace (X + 2 ^ h - 2 ^ k) with (X - 2 ^ k + 2 ^ h) by lia.
      rewrite IH; try assumption; try lia.
      * destruct (mmr_index_top (X + 2 ^ h) k Hk ltac:(lia)) as [Hmi _].
        replace (X + 2 ^ h - 2 ^ k) with (X - 2 ^ k + 2 ^ h) in Hmi by lia.
        f_equal. f_equal. lia.
      * apply multiple_of_sub; [lia|exact Hm|lia].
Qed.

(** ** The peak stack from one tile to the next *)

Lemma ideal_ones_step x : 1 <= x -> Ideal.ones x = x mod 2 + Ideal.ones (x / 2).
Proof.
  intros Hx. unfold Ideal.ones at 1. cbn [Ideal.ones_loop].
  destruct (x =? 0) eqn:E; [apply Z.eqb_eq in E; lia|]. f_equal.
  unfold Ideal.ones.
  assert (Hh : 0 <= x / 2) by (apply Z.div_pos; lia).
  pose proof (bit_length_half x Hx) as Hb. rewrite (bit_length_spec x Hx) in Hb.
  pose proof (Z.log2_nonneg x). pose proof (Z.log2_nonneg (x / 2)).
  apply ideal_ones_loop_fuel; [exact Hh|lia|].
  destruct (Z.eq_dec (x / 2) 0) as [E0|E0]; [rewrite E0; cbn; lia|].
  rewrite (bit_length_spec (x / 2)) in * by lia. lia.
Qed.

Lemma ideal_ones_nonneg x : 0 <= x -> 0 <= Ideal.ones x.
Proof.
  intros Hx. pattern x. revert x Hx. apply Z_strong_ind. intros x Hx IH.
  destruct (Z.eq_dec x 0) as [->|Hne]; [cbn; lia|].
  rewrite ideal_ones_step by lia.
  pose proof (Z.mod_pos_bound x 2 ltac:(lia)).
  pose proof (IH (x / 2) ltac:(split; [apply Z.div_pos; lia|apply Z.div_lt; lia])). lia.
Qed.

(** The peaks of the range that ends before tile [tileid], the tiles
    holding [2^h] leaves each. *)
Definition boundary_peaks (h tileid : Z) : list Z := leaf_peaks 30 0 (tileid * 2 ^ h).

Lemma boundary_peaks_even h x :
  0 <= h -> boundary_peaks h (2 * x) = boundary_peaks (h + 1) x.
Proof.
  intros Hh. unfold boundary_peaks. rewrite pow2_succ by lia. f_equal. lia.
Qed.

Lemma boundary_peaks_odd h x :
  0 <= h -> 0 <= x -> (2 * x + 1) * 2 ^ h < 2 ^ 30 ->
  boundary_peaks h (2 * x + 1)
  = boundary_peaks (h + 1) x ++ [Ideal.mmr_index ((2 * x + 1) * 2 ^ h) - 1].
Proof.
  intros Hh Hx Hr. unfold boundary_peaks. pose proof (pow2_pos h Hh).
  replace ((2 * x + 1) * 2 ^ h) with (x * 2 ^ (h + 1) + 2 ^ h)
    by (rewrite pow2_succ by lia; lia).
  rewrite (leaf_peaks_snoc h 30 0).
  - reflexivity.
  - exact Hh.
  - exists x. split; [lia|reflexivity].
  - pose proof (pow2_pos (h + 1) ltac:(lia)). nia.
  - change (Z.of_nat 30) with 30. rewrite pow2_succ by lia. lia.
Qed.

Lemma half_cases x :
  0 <= x -> (x = 2 * (x / 2) /\ x mod 2 = 0) \/ (x = 2 * (x / 2) + 1 /\ x mod 2 = 1).
Proof.
  intros Hx. pose proof (Z.div_mod x 2 ltac:(lia)).
  pose proof (Z.mod_pos_bound x 2 ltac:(lia)). lia.
Qed.

Lemma boundary_peaks_length h tileid :
  0 <= tileid -> 0 <= h -> tileid * 2 ^ h < 2 ^ 30 ->
  Z.of_nat (length (boundary_peaks h tileid)) = Ideal.ones tileid.
Proof.
  intros Hid. revert h. pattern tileid. revert tileid Hid. apply Z_strong_ind.
  intros x Hx IH h Hh Hr. pose proof (pow2_pos h Hh) as Hp.
  destruct (Z.eq_dec x 0) as [->|Hne].
  { unfold boundary_peaks. rewrite Z.mul_0_l, leaf_peaks_zero. reflexivity. }
  rewrite ideal_ones_step by lia.
  assert (Hhalf : 0 <= x / 2 < x) by (split; [apply Z.div_pos; lia|apply Z.div_lt; lia]).
  destruct (half_cases x Hx) as [[Hx2 Hm]|[Hx2 Hm]]; rewrite Hm.
  - rewrite Hx2 at 1. rewrite boundary_peaks_even by lia.
    rewrite IH; [lia|lia|lia|]. rewrite pow2_succ by lia. lia.
  - rewrite Hx2 at 1. rewrite boundary_peaks_odd by (try rewrite <- Hx2; lia || assumption).
    rewrite length_app. cbn [length].
    rewrite Nat2Z.inj_add. rewrite IH; [cbn; lia|lia|lia|]. rewrite pow2_succ by lia. lia.
Qed.

(** The binary counter of peaks: the stack of the next tile keeps the
    first [ones id - trailing_zeros (id + 1)] peaks and adds the last node
    of this tile. *)
Lemma boundary_peaks_succ h tileid :
  0 <= tileid -> 0 <= h -> (tileid + 1) * 2 ^ h < 2 ^ 30 ->
  0 <= Ideal.ones tileid - Ideal.trailing_zeros (tileid + 1)
  /\ boundary_peaks h (tileid + 1)
     = take (Z.to_nat (Ideal.ones tileid - Ideal.trailing_zeros (tileid + 1)))
         (boundary_peaks h tileid)
       ++ [Ideal.mmr_index ((tileid + 1) * 2 ^ h) - 1].
Proof.
  intros Hid. revert h. pattern tileid. revert tileid Hid. apply Z_strong_ind.
  intros x Hx IH h Hh Hr. pose proof (pow2_pos h Hh) as Hp.
  pose proof (ideal_ones_nonneg x Hx) as Hon.
  pose proof (boundary_peaks_length h x Hx Hh ltac:(lia)) as Hlen.
  destruct (half_cases x Hx) as [[Hx2 Hm]|[Hx2 Hm]].
  - rewrite (trailing_zeros_odd (x + 1)) by (try lia; rewrite Hx2;
      rewrite Z.add_comm, Z.mul_comm, Z.mod_add by lia; reflexivity).
    rewrite Z.sub_0_r. split; [exact Hon|].
    rewrite <- Hlen, Nat2Z.id, firstn_all.
    assert (Hbe : boundary_peaks h x = boundary_peaks (h + 1) (x / 2)).
    { rewrite Hx2 at 1. apply boundary_peaks_even. lia. }
    rewrite Hbe.
    replace (x + 1) with (2 * (x / 2) + 1) by lia.
    apply boundary_peaks_odd; [lia|apply Z.div_pos; lia|].
    replace (2 * (x / 2) + 1) with (x + 1) by lia. exact Hr.
  - assert (Hhalf : 0 <= x / 2 < x) by (split; [apply Z.div_pos; lia|apply Z.div_lt; lia]).
    assert (Hs : (x + 1) / 2 = x / 2 + 1).
    { rewrite Hx2 at 1. replace (2 * (x / 2) + 1 + 1) with ((x / 2 + 1) * 2) by lia.
      apply Z.div_mul. lia. }
    rewrite (trailing_zeros_even (x + 1)) by (try lia; rewrite Hx2;
      replace (2 * (x / 2) + 1 + 1) with ((x / 2 + 1) * 2) by lia; apply Z.mod_mul; lia).
    rewrite Hs. rewrite (ideal_ones_step x) by lia. rewrite Hm.
    destruct (IH (x / 2) Hhalf (h + 1) ltac:(lia)) as [Hk Heq].
    { rewrite pow2_succ by lia. lia. }
    split; [lia|].
    replace (1 + Ideal.ones (x / 2) - (1 + Ideal.trailing_zeros (x / 2 + 1)))
      with (Ideal.ones (x / 2) - Ideal.trailing_zeros (x / 2 + 1)) by lia.
    replace (x + 1) with (2 * (x / 2 + 1)) at 1 by lia.
    rewrite boundary_peaks_even by lia. rewrite Heq.
    replace ((x / 2 + 1) * 2 ^ (h + 1)) with ((x + 1) * 2 ^ h)
      by (rewrite pow2_succ by lia; lia).
    assert (Hbo : boundary_peaks h x
                  = boundary_peaks (h + 1) (x / 2) ++ [Ideal.mmr_index (x * 2 ^ h) - 1]).
    { replace (x * 2 ^ h) with ((2 * (x / 2) + 1) * 2 ^ h) by (f_equal; lia).
      rewrite Hx2 at 1. apply boundary_peaks_odd; [lia|lia|].
      replace (2 * (x / 2) + 1) with x by lia. lia. }
    rewrite Hbo. rewrite take_app_le; [reflexivity|].
    pose proof (boundary_peaks_length (h + 1) (x / 2) ltac:(lia) ltac:(lia)) as Hl2.
    rewrite pow2_succ in Hl2 by lia. specialize (Hl2 ltac:(lia)).
    pose proof (trailing_zeros_nonneg (x / 2 + 1) ltac:(lia)). lia.
Qed.

Lemma boundary_peaks_spec h tileid :
  1 <= tileid -> 0 <= h -> Ideal.mmr_index (tileid * 2 ^ h) < 2 ^ 30 ->
  Ideal.peaks (Ideal.mmr_index (tileid * 2 ^ h) - 1) = boundary_peaks h tileid.
Proof.
  intros Hid Hh Hr. apply peaks_by_leaves; [|exact Hr].
  pose proof (pow2_pos h Hh). nia.
Qed.

Lemma boundary_peaks_heights h tileid :
  0 <= tileid -> 0 <= h -> tileid * 2 ^ h < 2 ^ 30 ->
  Forall (fun p => h <= Ideal.index_height p) (boundary_peaks h tileid).
Proof.
  intros Hid Hh Hr. unfold boundary_peaks. pose proof (pow2_pos h Hh).
  apply leaf_peaks_heights; [lia|exact Hh| | |].
  - exists tileid. split; [lia|reflexivity].
  - change (Z.of_nat 30) with 30. nia.
  - apply mtree_base. lia.
Qed.

(** ** The inclusion path of a node of a tile *)

Section TilePath.
Variables first c : Z.
Hypothesis first_range : 0 <= first.
Hypothesis first_leaf : Ideal.index_height first = 0.
Hypothesis first_bound : first < 2 ^ 30.
Hypothesis c_range : 0 <= c /\ c + 1 < 2 ^ 30.

(** What the path of a node at or after [first] may hold: a node of the
    range up to [c] that is at or after [first], or a peak of the range
    before [first]. *)
Definition path_entry (j : Z) : Prop :=
  0 <= j <= c /\ (first <= j \/ In j (Ideal.peaks (first - 1))).

Lemma left_of_first_is_peak b g :
  0 <= g <= 29 -> mtree b (g + 1) ->
  tree_root b g < first <= tree_root (b + 2 ^ (g + 1) - 1) g ->
  In (tree_root b g) (Ideal.peaks (first - 1)).
Proof.
  intros Hg Ht Hs. destruct (mtree_bounds _ _ Ht) as [_ Hb].
  pose proof (tree_root_lower b g ltac:(lia)) as Hlow.
  apply is_peak_listed; [lia|lia| |exact Hb|].
  - replace (first - 1 + 1) with first by lia. exact first_leaf.
  - unfold is_peak. split; [lia|]. split; [exact Ht|]. unfold tree_root in *. lia.
Qed.

Lemma tile_walk b g :
  within 0 29 b g -> first <= tree_root b g ->
  forall fuel acc, (32 + Z.to_nat (29 - g) < fuel)%nat ->
  exists sibs,
    inclusion_proof_path_loop fuel (tree_root b g) c g acc = Ok (acc ++ sibs)
    /\ Forall path_entry sibs.
Proof.
  assert (Ht30 : mtree 0 (29 + 1)) by (apply mtree_base; lia).
  assert (Ht29 : mtree 0 29) by (apply mtree_base; lia).
  induction 1 as [|b g Hg Hw IH|b g Hg Hw IH]; intros Hfirst fuel acc Hf.
  - exists []. destruct fuel as [|fuel]; [lia|]. cbn [inclusion_proof_path_loop].
    rewrite path_step_left; [|lia|exact Ht30|unfold tree_root; cbn; lia|lia].
    cbn [rbind]. unfold tree_root.
    destruct (c <? _) eqn:E; [|apply Z.ltb_ge in E; cbn in E; lia].
    rewrite app_nil_r. split; [reflexivity|constructor].
  - pose proof (within_bounds 0 29 _ _ ltac:(lia) Hw) as (Hgb & Hbb & Hrb).
    assert (Ht : mtree b (g + 1)) by (apply (mtree_within 0 29); assumption).
    pose proof (tree_root_left b g Hg) as Hrl. pose proof (pow2_pos (g + 1) ltac:(lia)).
    assert (Hr29 : tree_root 0 29 = 2 ^ 30 - 2) by reflexivity.
    destruct fuel as [|fuel]; [lia|]. cbn [inclusion_proof_path_loop].
    rewrite path_step_left; [|lia|exact Ht|lia|lia]. cbn [rbind].
    destruct (c <? tree_root b (g + 1) - 1) eqn:E.
    + exists []. rewrite app_nil_r. split; [reflexivity|constructor].
    + apply Z.ltb_ge in E.
      destruct (IH ltac:(lia) fuel (acc ++ [tree_root b (g + 1) - 1]) ltac:(lia))
        as (sibs & Hpath & Hall).
      exists ((tree_root b (g + 1) - 1) :: sibs). rewrite Hpath, <- app_assoc.
      split; [reflexivity|]. constructor; [|exact Hall].
      unfold path_entry. split; [lia|left; lia].
  - pose proof (within_bounds 0 29 _ _ ltac:(lia) Hw) as (Hgb & Hbb & Hrb).
    assert (Ht : mtree b (g + 1)) by (apply (mtree_within 0 29); assumption).
    pose proof (tree_root_right b g Hg) as Hrr. pose proof (pow2_pos (g + 1) ltac:(lia)).
    pose proof (tree_root_lower b g Hg) as Hlow.
    assert (Hr29 : tree_root 0 29 = 2 ^ 30 - 2) by reflexivity.
    destruct fuel as [|fuel]; [lia|]. cbn [inclusion_proof_path_loop].
    rewrite path_step_right; [|lia|exact Ht|lia|lia]. cbn [rbind].
    destruct (c <? tree_root b g) eqn:E.
    + exists []. rewrite app_nil_r. split; [reflexivity|constructor].
    + apply Z.ltb_ge in E.
      destruct (IH ltac:(lia) fuel (acc ++ [tree_root b g]) ltac:(lia))
        as (sibs & Hpath & Hall).
      exists (tree_root b g :: sibs). rewrite Hpath, <- app_assoc.
      split; [reflexivity|]. constructor; [|exact Hall].
      unfold path_entry. split; [lia|].
      destruct (Z_le_gt_dec first (tree_root b g)) as [|Hlt]; [left; assumption|right].
      apply left_of_first_is_peak; [lia|exact Ht|lia].
Qed.

(** The path of a node [i] at or after [first], against the range that ends
    at [c], stays between [first] and [c] except for peaks of the range
    before [first]. *)
Lemma path_entries fuel i :
  (64 <= fuel)%nat -> first <= i -> i + 1 < 2 ^ 30 ->
  exists path,
    inclusion_proof_path fuel i c = Ok path /\ Forall path_entry path.
Proof.
  intros Hf Hi Hr.
  destruct (descend 0 29 i 29 ltac:(lia) 0 (within_refl 0 29)) as (b & g & Hw & ->).
  { unfold tree_root. cbn. lia. }
  assert (Htg : mtree b g).
  { apply (mtree_within 0 29); [apply mtree_base; lia|exact Hw]. }
  pose proof (mtree_root_height _ _ Htg) as Hh.
  pose proof (within_bounds 0 29 b g ltac:(lia) Hw) as (Hgb & Hbb & Hrb).
  destruct (tile_walk b g Hw Hi fuel [] ltac:(lia)) as (sibs & Hpath & Hall).
  exists sibs. unfold inclusion_proof_path.
  rewrite index_height_exact by lia. rewrite Hh. cbn [rbind].
  split; [exact Hpath|exact Hall].
Qed.

End TilePath.

(** ** [add_leaf_hash] leaves the adder at a leaf *)

Section Complete.
Context {S : Type} `{ILeafAdder S}.
Variable index : S -> Z.
Hypothesis get_pure : forall i s, snd (adder_get i s) = s.
Hypothesis append_next : forall v s r s',
  adder_append v s = (Ok r, s') -> r = index s + 1 /\ index s' = index s + 1.

Lemma add_leaf_hash_loop_complete fuel hasher : forall i g s r s',
  add_leaf_hash_loop fuel hasher i g s = (Ok r, s') ->
  i = index s -> 1 <= i -> (i + 1 < 2 ^ 30 -> Ideal.index_height (i - 1) = g) ->
  index s <= index s'
  /\ (index s' + 1 < 2 ^ 30 -> Ideal.index_height (index s') = 0).
Proof.
  induction fuel as [|fuel IH]; intros i g s r s' Hrun Hi Hi1 Hg; [discriminate|].
  cbn [add_leaf_hash_loop] in Hrun. unfold mbind, mlift, mret in Hrun.
  destruct (index_height (Datatypes.S fuel) i) as [h| |] eqn:Eh; try discriminate.
  assert (Hh : i + 1 < 2 ^ 30 -> h = Ideal.index_height i).
  { intros Hb. apply (index_height_sound (Datatypes.S fuel)); [lia|lia|exact Eh]. }
  assert (Hsucc : i + 1 < 2 ^ 30 -> h = g + 1 \/ h = 0).
  { intros Hb. specialize (Hh Hb). specialize (Hg Hb).
    destruct (index_height_succ (i - 1)) as [Hs|Hs]; [lia|..];
      replace (i - 1 + 1) with i in Hs by lia; lia. }
  assert (Hg0 : i + 1 < 2 ^ 30 -> 0 <= g).
  { intros Hb. rewrite <- (Hg Hb). apply index_height_nonneg. lia. }
  destruct (g <? h) eqn:E.
  - apply Z.ltb_lt in E.
    pose proof (get_pure (i - JS.shl 2 g) s) as Hp1.
    destruct (adder_get (i - JS.shl 2 g) s) as [[vl| |] s1]; try discriminate.
    cbn [snd] in Hp1. subst s1.
    pose proof (get_pure (i - 1) s) as Hp2.
    destruct (adder_get (i - 1) s) as [[vr| |] s2]; try discriminate.
    cbn [snd] in Hp2. subst s2.
    destruct (adder_append (hash_pos_pair64 hasher (i + 1) vl vr) s) as [[i'| |] s3] eqn:Ea;
      try discriminate.
    destruct (append_next _ _ _ _ Ea) as [Hi' Hn].
    destruct (IH i' (g + 1) s3 r s' Hrun ltac:(lia) ltac:(lia)) as [Hle Hc].
    + intros Hb. replace (i' - 1) with i by lia. rewrite <- Hh by lia.
      destruct (Hsucc ltac:(lia)); lia.
    + split; [lia|exact Hc].
  - apply Z.ltb_ge in E. injection Hrun as <- <-. split; [lia|].
    intros Hb. rewrite <- Hi. rewrite <- Hh by lia.
    specialize (Hg0 ltac:(lia)). destruct (Hsucc ltac:(lia)); lia.
Qed.

Lemma add_leaf_hash_complete fuel hasher f s r s' :
  add_leaf_hash fuel hasher f s = (Ok r, s') ->
  0 <= index s -> (index s + 1 < 2 ^ 30 -> Ideal.index_height (index s) = 0) ->
  index s < index s'
  /\ (index s' + 1 < 2 ^ 30 -> Ideal.index_height (index s') = 0).
Proof.
  intros Hrun H0 Hc. unfold add_leaf_hash, mbind in Hrun.
  destruct (adder_append f s) as [[i| |] s1] eqn:Ea; try discriminate.
  destruct (append_next _ _ _ _ Ea) as [Hi Hn].
  destruct (add_leaf_hash_loop_complete fuel hasher i 0 s1 r s' Hrun ltac:(lia) ltac:(lia))
    as [Hle Hcomp].
  - intros Hb. replace (i - 1) with (index s) by lia. apply Hc. lia.
  - split; [lia|exact Hcomp].
Qed.

End Complete.

(** ** More facts about buffers *)

Lemma slice_length (b : bytes) off n :
  0 <= off -> 0 <= n -> off + n <= blen b -> blen (slice b off n) = n.
Proof.
  intros Ho Hn Hb. unfold slice, blen in *. rewrite length_take, length_drop. lia.
Qed.

Lemma slice_slice (b : bytes) off n a m :
  0 <= off -> 0 <= a -> 0 <= m -> a + m <= n ->
  slice (slice b off n) a m = slice b (off + a) m.
Proof.
  intros Ho Ha Hm Hn. apply list_eq. intros i. rewrite !slice_lookup.
  case_decide; [|reflexivity].
  rewrite decide_True by lia. f_equal. lia.
Qed.

Lemma slice_all (b : bytes) : slice b 0 (blen b) = b.
Proof. unfold slice, blen. rewrite Nat2Z.id. cbn [Z.to_nat drop]. apply firstn_all. Qed.

Lemma slice_buf_set_in target src offset t' a m :
  buf_set target src offset = Ok t' -> 0 <= a -> 0 <= m -> a + m <= blen src ->
  slice t' (offset + a) m = slice src a m.
Proof.
  intros H Ha Hm Hb. apply list_eq. intros i.
  rewrite !slice_lookup, (buf_set_lookup _ _ _ _ _ H).
  apply buf_set_Ok in H as (H0 & H1 & _). unfold blen in *.
  case_decide; [|reflexivity].
  rewrite decide_True by lia. f_equal. lia.
Qed.

Lemma subarray_prefix (b : bytes) e :
  0 <= e <= blen b -> subarray b 0 e = slice b 0 e.
Proof.
  intros He. unfold subarray, subarray_window. cbn [Z.ltb Z.compare].
  destruct (e <? 0) eqn:E; [apply Z.ltb_lt in E; lia|].
  rewrite (Z.min_l 0) by lia. rewrite (Z.min_l e) by lia.
  rewrite Z.sub_0_r, Z.max_l by lia. reflexivity.
Qed.

Lemma subarray_window_inside len s e :
  0 <= s <= e -> e <= len -> subarray_window len s e = (s, e - s).
Proof.
  intros Hs He. unfold subarray_window.
  destruct (s <? 0) eqn:E1; [apply Z.ltb_lt in E1; lia|].
  destruct (e <? 0) eqn:E2; [apply Z.ltb_lt in E2; lia|].
  rewrite !Z.min_l by lia. rewrite Z.max_l by lia. reflexivity.
Qed.

(** ** The start field *)

(** The header of a tile image: the tile height and the tile id in the last
    16 bytes of the first field. *)
Definition header_ok (c : TileFormat) (bs : bytes) (tileid : Z) : Prop :=
  32 <= blen bs
  /\ slice bs 16 8 = be_bytes 8 (tileHeight c)
  /\ slice bs 24 8 = be_bytes 8 tileid.

Lemma read_start_field_header c bs tileid :
  fieldWidth c = 32 -> 0 <= tileHeight c < 2 ^ 30 -> 0 <= tileid < 2 ^ 30 ->
  header_ok c bs tileid ->
  Tiles.read_start_field c bs = Ok (tileHeight c, tileid).
Proof.
  intros HW Hh Hid (Hl & H16 & H24). unfold Tiles.read_start_field, Numbers.fromBE64.
  cbn [buffer subarray_view whole].
  rewrite HW. change (32 - 16) with 16. change (32 - 8) with 24.
  destruct ((16 <? 0) || (blen bs <? 16 + 8)) eqn:E1.
  { apply orb_true_iff in E1 as [E|E]; apply Z.ltb_lt in E; lia. }
  destruct ((24 <? 0) || (blen bs <? 24 + 8)) eqn:E2.
  { apply orb_true_iff in E2 as [E|E]; apply Z.ltb_lt in E; lia. }
  rewrite H16, H24, !be_value_be_bytes.
  change (256 ^ Z.of_nat 8) with (2 ^ 64).
  rewrite !Z.mod_small by lia. rewrite !Z.mul_0_l, !Z.add_0_l.
  unfold JS.MAX_SAFE_INTEGER.
  destruct (2 ^ 53 - 1 <? tileHeight c) eqn:E3; [apply Z.ltb_lt in E3; lia|].
  cbn [rbind].
  destruct (2 ^ 53 - 1 <? tileid) eqn:E4; [apply Z.ltb_lt in E4; lia|].
  reflexivity.
Qed.

Lemma header_ok_prefix c bs bs' tileid :
  header_ok c bs tileid -> 32 <= blen bs' -> slice bs' 0 32 = slice bs 0 32 ->
  header_ok c bs' tileid.
Proof.
  intros (Hl & H16 & H24) Hl' Hp. unfold header_ok. split; [exact Hl'|].
  rewrite <- H16, <- H24.
  replace (slice bs' 16 8) with (slice (slice bs' 0 32) 16 8) by (apply slice_slice; lia).
  replace (slice bs' 24 8) with (slice (slice bs' 0 32) 24 8) by (apply slice_slice; lia).
  replace (slice bs 16 8) with (slice (slice bs 0 32) 16 8) by (apply slice_slice; lia).
  replace (slice bs 24 8) with (slice (slice bs 0 32) 24 8) by (apply slice_slice; lia).
  rewrite Hp. split; reflexivity.
Qed.

(** ** Loading a stored tile *)

(** Tiles whose nodes all lie below 2^30. *)
Definition small_tile (c : TileFormat) (tileid : Z) : Prop :=
  0 <= tileid /\ (tileid + 1) * 2 ^ tileHeight c < 2 ^ 29.

Lemma small_tile_in_range c tileid : small_tile c tileid -> id_in_range c tileid.
Proof. unfold small_tile, id_in_range. intros [H0 H1]. split; [exact H0|lia]. Qed.

Lemma small_tile_bounds c tileid :
  0 <= tileHeight c -> small_tile c tileid ->
  0 <= tile_first c tileid < tile_first c (tileid + 1)
  /\ tile_first c (tileid + 1) < 2 ^ 30
  /\ tile_first c tileid <= Ideal.mmr_index ((tileid + 1) * 2 ^ tileHeight c - 1)
     < tile_first c (tileid + 1)
  /\ (1 <= tileid -> 1 <= tile_first c tileid).
Proof.
  intros Hh [H0 H1]. pose proof (pow2_pos (tileHeight c) Hh) as Hp.
  unfold tile_first.
  pose proof (mmr_index_nonneg (tileid * 2 ^ tileHeight c)).
  pose proof (mmr_index_lt (tileid * 2 ^ tileHeight c) ((tileid + 1) * 2 ^ tileHeight c)
                ltac:(nia)).
  pose proof (mmr_index_bounds ((tileid + 1) * 2 ^ tileHeight c) ltac:(nia)) as [_ Hb].
  pose proof (mmr_index_le (tileid * 2 ^ tileHeight c)
                ((tileid + 1) * 2 ^ tileHeight c - 1) ltac:(nia)).
  pose proof (mmr_index_lt ((tileid + 1) * 2 ^ tileHeight c - 1)
                ((tileid + 1) * 2 ^ tileHeight c) ltac:(nia)).
  pose proof (mmr_index_bounds (tileid * 2 ^ tileHeight c) ltac:(nia)) as [Hb0 _].
  repeat split; intros; lia || nia.
Qed.

Lemma leaf_peaks_length n : forall base L, (length (leaf_peaks n base L) <= n)%nat.
Proof.
  induction n as [|n IH]; intros base L; [cbn; lia|]. cbn [leaf_peaks].
  destruct (L <? _); [specialize (IH base L); lia|]. cbn [length].
  specialize (IH (base + 2 ^ (Z.of_nat n + 1) - 1) (L - 2 ^ Z.of_nat n)). lia.
Qed.

Lemma boundary_peaks_bounds h tileid p :
  1 <= tileid -> 0 <= h -> Ideal.mmr_index (tileid * 2 ^ h) < 2 ^ 30 ->
  In p (boundary_peaks h tileid) -> 0 <= p < Ideal.mmr_index (tileid * 2 ^ h).
Proof.
  intros Hid Hh Hr Hin. rewrite <- boundary_peaks_spec in Hin by assumption.
  pose proof (pow2_pos h Hh).
  pose proof (mmr_index_bounds (tileid * 2 ^ h) ltac:(nia)) as [Hb _].
  pose proof (ideal_peaks_spec (Ideal.mmr_index (tileid * 2 ^ h) - 1) ltac:(nia) ltac:(lia))
    as Hl.
  replace (Ideal.mmr_index (tileid * 2 ^ h) - 1 + 1)
    with (Ideal.mmr_index (tileid * 2 ^ h)) in Hl by lia.
  specialize (Hl (index_height_mmr_index (tileid * 2 ^ h) ltac:(nia))).
  apply peak_list_bounds in Hl as [_ Hf].
  rewrite List.Forall_forall in Hf. specialize (Hf p Hin). lia.
Qed.

(** The map that [read_ancestor_peaks_map] builds from a list of peaks. *)
Lemma read_ancestor_peaks_loop_spec fuel tile : forall ps i acc,
  (32 <= fuel)%nat -> Forall (fun p => 0 <= p /\ p + 1 < 2 ^ 31 - 1) ps ->
  exists m,
    Tile.read_ancestor_peaks_loop fuel tile ps i acc = Ok m
    /\ (forall p w, m !! p = Some w ->
          acc !! p = Some w
          \/ exists k : nat,
               ps !! k = Some p
               /\ tileHeight (Tile.cfg tile) - 1 <= Ideal.index_height p
               /\ w = Tile.field_window tile (i + Z.of_nat k) (peaksStart (Tile.cfg tile)))
    /\ (forall p, is_Some (acc !! p) -> is_Some (m !! p))
    /\ (forall p, In p ps -> tileHeight (Tile.cfg tile) - 1 <= Ideal.index_height p ->
          is_Some (m !! p)).
Proof.
  induction ps as [|p0 ps IH]; intros i acc Hf Hr.
  - exists acc. split; [reflexivity|]. split; [intros p w Hm; left; exact Hm|].
    split; [intros p Hp; exact Hp|intros p []].
  - inversion Hr as [|? ? Hp0 Hr']; subst. cbn [Tile.read_ancestor_peaks_loop].
    rewrite index_height_exact by lia. cbn [rbind].
    destruct (Ideal.index_height p0 <? tileHeight (Tile.cfg tile) - 1) eqn:E.
    + apply Z.ltb_lt in E.
      destruct (IH (i + 1) acc Hf Hr') as (m & Hm & Hs & Hacc & Hc).
      exists m. split; [exact Hm|]. split; [|split; [exact Hacc|]].
      * intros p w Hpw. destruct (Hs p w Hpw) as [Ha|(k & Hk & Hh & Hw)]; [left; exact Ha|].
        right. exists (S k). split; [exact Hk|]. split; [exact Hh|].
        rewrite Hw. f_equal. lia.
      * intros p [->|Hin] Hh; [lia|]. apply Hc; assumption.
    + apply Z.ltb_ge in E.
      destruct (IH (i + 1)
                  (<[p0 := Tile.field_window tile i (peaksStart (Tile.cfg tile))]> acc) Hf Hr')
        as (m & Hm & Hs & Hacc & Hc).
      exists m. split; [exact Hm|]. split; [|split].
      * intros p w Hpw. destruct (Hs p w Hpw) as [Ha|(k & Hk & Hh & Hw)].
        -- apply lookup_insert_Some in Ha as [[<- <-]|[_ Ha]]; [|left; exact Ha].
           right. exists 0%nat. split; [reflexivity|]. split; [lia|].
           f_equal. lia.
        -- right. exists (S k). split; [exact Hk|]. split; [exact Hh|].
           rewrite Hw. f_equal. lia.
      * intros p Hp. apply Hacc. destruct (decide (p = p0)) as [->|Hne].
        -- rewrite lookup_insert_eq. eexists; reflexivity.
        -- rewrite lookup_insert_ne by congruence. exact Hp.
      * intros p [->|Hin] Hh; [|apply Hc; assumption].
        apply Hacc. rewrite lookup_insert_eq. eexists; reflexivity.
Qed.

(** * Further properties of the code

    The properties below are read off the source functions themselves: what
    the index algebra computes, what [add_leaf_hash] builds, how the byte
    helpers and the tile buffer behave at their bounds, and how the store
    answers. *)

(** ** The index algebra ([src/algorithms.ts]) *)

(** X1.  The leaves are exactly the values of [mmr_index]: [index_height]
    returns 0 at [j] if and only if [j] is [mmr_index (e)] for some leaf
    number [e <= j]. *)
Theorem leaves_are_mmr_index_values fuel j :
  0 <= j < 2 ^ 29 -> (32 <= fuel)%nat ->
  index_height fuel j = Ok 0 <-> exists e, 0 <= e <= j /\ mmr_index fuel e = Ok j.
Proof.
  intros Hj Hf. rewrite index_height_exact by lia. split.
  - intros E. injection E as E.
    destruct (leaf_is_mmr_index j) as (e & He & Hje); [lia|exact E|].
    exists e. pose proof (mmr_index_bounds e He). split; [lia|].
    rewrite mmr_index_exact by lia. congruence.
  - intros (e & He & E). rewrite mmr_index_exact in E by lia. injection E as <-.
    f_equal. apply index_height_mmr_index. lia.
Qed.

Lemma leaves_are_mmr_index_values_witness :
  index_height 64 7 = Ok 0 <-> exists e, 0 <= e <= 7 /\ mmr_index 64 e = Ok 7.
Proof. apply (leaves_are_mmr_index_values 64 7); lia. Defined.

(** X2.  [mmr_index] is strictly increasing and lies between [e] and
    [2 * e]: leaf [e] is stored after its [e] predecessors and after fewer
    than [e] interior nodes. *)
Theorem mmr_index_increasing fuel a b :
  0 <= a < b -> b < 2 ^ 30 -> (32 <= fuel)%nat ->
  exists ia ib,
    mmr_index fuel a = Ok ia /\ mmr_index fuel b = Ok ib
    /\ ia < ib /\ a <= ia <= 2 * a /\ b <= ib < 2 * b.
Proof.
  intros Hab Hb Hf. exists (Ideal.mmr_index a), (Ideal.mmr_index b).
  rewrite !mmr_index_exact by lia.
  pose proof (mmr_index_lt a b Hab).
  pose proof (mmr_index_bounds a ltac:(lia)) as [Ha1 Ha2].
  pose proof (mmr_index_bounds b ltac:(lia)) as [Hb1 Hb2].
  assert (Ideal.mmr_index a <= 2 * a).
  { destruct (Z.eq_dec a 0) as [->|]; [vm_compute; discriminate|lia]. }
  repeat split; try reflexivity; lia.
Qed.

Lemma mmr_index_increasing_witness :
  exists ia ib,
    mmr_index 64 3 = Ok ia /\ mmr_index 64 4 = Ok ib
    /\ ia < ib /\ 3 <= ia <= 2 * 3 /\ 4 <= ib < 2 * 4.
Proof. apply (mmr_index_increasing 64 3 4); lia. Defined.

(** X3.  Parent and sibling arithmetic.  With [g] the height of node [i]:
    either the next node is the parent of [i] (height [g + 1]) and [i] is a
    right child whose left sibling [i - 2^(g+1) + 1] has height [g]; or the
    next node is a leaf and [i] is a left child, its right sibling
    [i + 2^(g+1) - 1] has height [g] and its parent [i + 2^(g+1)] has height
    [g + 1].  These are the two branches of [inclusion_proof_path] and
    [included_root]. *)
Theorem index_height_parent_and_sibling fuel i :
  0 <= i -> i + 2 < 2 ^ 30 -> (32 <= fuel)%nat ->
  exists g h,
    index_height fuel i = Ok g /\ index_height fuel (i + 1) = Ok h /\ 0 <= g <= 29
    /\ 2 ^ (g + 1) - 2 <= i
    /\ ((h = g + 1 /\ 0 <= i - 2 ^ (g + 1) + 1
         /\ index_height fuel (i - 2 ^ (g + 1) + 1) = Ok g)
        \/ (h = 0
            /\ index_height fuel (i + 2 ^ (g + 1) - 1) = Ok g
            /\ index_height fuel (i + 2 ^ (g + 1)) = Ok (g + 1))).
Proof.
  intros Hi Hr Hf. exists (Ideal.index_height i), (Ideal.index_height (i + 1)).
  rewrite !index_height_exact by lia.
  pose proof (index_height_room i Hi) as Hroom.
  pose proof (index_height_nonneg i Hi) as Hnn.
  pose proof (index_height_le_29 i Hi ltac:(lia)) as H29.
  split; [reflexivity|]. split; [reflexivity|]. split; [lia|]. split; [exact Hroom|].
  destruct (locate i Hi) as (b & g & Hg & Hib & Hp).
  assert (Ht : mtree b g).
  { destruct Hp as [Hp|[Hb Hp]].
    - apply mtree_left; assumption.
    - replace b with (b - (2 ^ (g + 1) - 1) + 2 ^ (g + 1) - 1) by lia.
      apply mtree_right; assumption. }
  pose proof (mtree_root_height _ _ Ht) as Hh. rewrite <- Hib in Hh. rewrite Hh in *.
  destruct Hp as [Hp|[Hb Hp]].
  - right. split; [rewrite Hib; apply left_root_succ; assumption|].
    assert (E1 : i + 2 ^ (g + 1) - 1 = tree_root (b + 2 ^ (g + 1) - 1) g)
      by (rewrite Hib; unfold tree_root; lia).
    assert (E2 : i + 2 ^ (g + 1) = tree_root b (g + 1))
      by (rewrite Hib; rewrite tree_root_left by lia; lia).
    rewrite !index_height_exact by lia. rewrite E1, E2.
    rewrite (mtree_root_height _ _ (mtree_right _ _ Hg Hp)).
    rewrite (mtree_root_height _ _ Hp). split; reflexivity.
  - left. pose proof (right_root_succ _ _ Hg Hp) as Hs.
    replace (b - (2 ^ (g + 1) - 1) + 2 ^ (g + 1) - 1) with b in Hs by lia.
    rewrite <- Hib in Hs. split; [exact Hs|].
    assert (E1 : i - 2 ^ (g + 1) + 1 = tree_root (b - (2 ^ (g + 1) - 1)) g)
      by (rewrite Hib; unfold tree_root; lia).
    pose proof (mtree_left _ _ Hg Hp) as Hl.
    pose proof (mtree_bounds _ _ Hl) as [_ Hb0].
    assert (0 <= tree_root (b - (2 ^ (g + 1) - 1)) g)
      by (unfold tree_root; pose proof (pow2_le_mono 1 (g + 1) ltac:(lia));
          change (2 ^ 1) with 2 in *; lia).
    split; [lia|]. rewrite index_height_exact by lia. rewrite E1.
    rewrite (mtree_root_height _ _ Hl). reflexivity.
Qed.

Lemma index_height_parent_and_sibling_witness :
  exists g h,
    index_height 64 5 = Ok g /\ index_height 64 (5 + 1) = Ok h /\ 0 <= g <= 29
    /\ 2 ^ (g + 1) - 2 <= 5
    /\ ((h = g + 1 /\ 0 <= 5 - 2 ^ (g + 1) + 1
         /\ index_height 64 (5 - 2 ^ (g + 1) + 1) = Ok g)
        \/ (h = 0
            /\ index_height 64 (5 + 2 ^ (g + 1) - 1) = Ok g
            /\ index_height 64 (5 + 2 ^ (g + 1)) = Ok (g + 1))).
Proof. apply (index_height_parent_and_sibling 64 5); lia. Defined.

(** ** Complete ranges, peaks and the accumulator *)

Lemma complete_iff fuel c :
  0 <= c -> c + 2 < 2 ^ 31 - 1 -> (32 <= fuel)%nat ->
  complete_mmr fuel c = Ok c <-> Ideal.index_height (c + 1) = 0.
Proof.
  intros. split; [apply complete_mmr_fixed|apply complete_mmr_of_leaf]; assumption.
Qed.

(** The loop of [complete_mmr] climbs from a right child to its parent until
    the next node is a leaf; [n] bounds the turns that are left. *)
Lemma complete_mmr_loop_spec : forall (n : nat) fuel i,
  0 <= i -> i + Z.of_nat n + 1 < 2 ^ 30 -> 30 <= Ideal.index_height i + Z.of_nat n ->
  (32 + n <= fuel)%nat ->
  exists c,
    complete_mmr_loop fuel i (Ideal.index_height i) (Ideal.index_height (i + 1)) = Ok c
    /\ i <= c /\ c - i + 1 <= Z.of_nat n
    /\ Ideal.index_height (c + 1) = 0
    /\ forall j, i <= j < c -> 0 < Ideal.index_height (j + 1).
Proof.
  induction n as [|n IH]; intros fuel i Hi Hr Hm Hf.
  - pose proof (index_height_le_29 i Hi ltac:(lia)). lia.
  - destruct fuel as [|fuel]; [lia|]. cbn [complete_mmr_loop].
    pose proof (index_height_nonneg i Hi) as Hnn.
    destruct (Ideal.index_height i <? Ideal.index_height (i + 1)) eqn:E.
    + apply Z.ltb_lt in E.
      assert (Hs : Ideal.index_height (i + 1) = Ideal.index_height i + 1)
        by (destruct (index_height_succ i Hi); lia).
      rewrite index_height_exact by lia. cbn [rbind].
      destruct (IH fuel (i + 1) ltac:(lia) ltac:(lia) ltac:(lia) ltac:(lia))
        as (c & Hc & Hle & Hn & Hleaf & Hbetween).
      exists c. split; [exact Hc|]. split; [lia|]. split; [lia|]. split; [exact Hleaf|].
      intros j Hj. destruct (Z.eq_dec j i) as [->|]; [lia|apply Hbetween; lia].
    + apply Z.ltb_ge in E. exists i. split; [reflexivity|]. split; [lia|]. split; [lia|].
      split; [destruct (index_height_succ i Hi); lia|intros; lia].
Qed.

(** X4.  [complete_mmr (i)] returns the first index [c >= i] whose successor
    is a leaf.  It is at most 29 nodes ahead, it is a fixed point of
    [complete_mmr], and no index from [i] up to [c - 1] is followed by a
    leaf. *)
Theorem complete_mmr_first_complete fuel i :
  0 <= i -> i + 32 < 2 ^ 30 -> (64 <= fuel)%nat ->
  exists c,
    complete_mmr fuel i = Ok c /\ i <= c <= i + 29
    /\ index_height fuel (c + 1) = Ok 0
    /\ complete_mmr fuel c = Ok c
    /\ forall j, i <= j < c ->
         exists h, index_height fuel (j + 1) = Ok h /\ 0 < h.
Proof.
  intros Hi Hr Hf.
  pose proof (index_height_nonneg i Hi) as Hnn.
  destruct (complete_mmr_loop_spec 30 fuel i Hi ltac:(lia) ltac:(lia) ltac:(lia))
    as (c & Hc & Hle & Hn & Hleaf & Hbetween).
  exists c. unfold complete_mmr at 1.
  rewrite (index_height_exact fuel i), (index_height_exact fuel (i + 1)) by lia.
  cbn [rbind].
  split; [exact Hc|]. split; [lia|].
  split; [rewrite index_height_exact by lia; congruence|].
  split; [apply complete_mmr_of_leaf; try lia; exact Hleaf|].
  intros j Hj. exists (Ideal.index_height (j + 1)).
  rewrite index_height_exact by lia. split; [reflexivity|apply Hbetween; lia].
Qed.

Lemma complete_mmr_first_complete_witness :
  exists c,
    complete_mmr 64 11 = Ok c /\ 11 <= c <= 11 + 29
    /\ index_height 64 (c + 1) = Ok 0
    /\ complete_mmr 64 c = Ok c
    /\ forall j, 11 <= j < c ->
         exists h, index_height 64 (j + 1) = Ok h /\ 0 < h.
Proof. apply (complete_mmr_first_complete 64 11); lia. Defined.

Lemma peak_list_in c B qs p :
  peak_list c B qs -> In p qs ->
  exists B' N', is_peak c B' N' /\ p = tree_root B' N' /\ B <= B'.
Proof.
  induction 1 as [|B N qs Hp Hl IH]; intros Hin; [destruct Hin|].
  destruct Hin as [<-|Hin].
  - exists B, N. split; [exact Hp|]. split; [reflexivity|lia].
  - destruct (IH Hin) as (B' & N' & Hp' & -> & HB).
    exists B', N'. split; [exact Hp'|]. split; [reflexivity|].
    destruct Hp as (HN & _ & _). pose proof (tree_root_lower B N ltac:(lia)). lia.
Qed.

(** X5.  In a complete [MMR(c)], [accumulator_root (i, c)] is one of
    [peaks (c)]: the first peak at or after [i].  It is its own accumulator
    root. *)
Theorem accumulator_root_is_first_peak fuel i c :
  0 <= i <= c -> c + 1 < 2 ^ 30 -> (64 <= fuel)%nat -> complete_mmr fuel c = Ok c ->
  exists r ps,
    accumulator_root fuel i c = Ok r /\ peaks fuel c = Ok ps
    /\ In r ps /\ i <= r <= c
    /\ (forall p, In p ps -> i <= p -> r <= p)
    /\ accumulator_root fuel r c = Ok r.
Proof.
  intros Hi Hc Hf Hcomplete.
  apply complete_iff in Hcomplete; [|lia..].
  destruct (accumulator_root_spec fuel i c Hi Hc Hcomplete ltac:(lia))
    as (B & N & Hr & HN & Ht & HBi & HBc).
  assert (Hp : is_peak c B N) by (repeat split; try assumption; lia).
  pose proof (mtree_bounds _ _ Ht) as [_ HB0].
  exists (tree_root B N), (Ideal.peaks c).
  split; [exact Hr|]. split; [apply peaks_exact; lia|].
  split; [apply is_peak_listed; try assumption; lia|]. split; [lia|]. split.
  - intros p Hin Hip.
    destruct (peak_list_in c 0 _ p (ideal_peaks_spec c ltac:(lia) Hc Hcomplete) Hin)
      as (B' & N' & Hp' & -> & HB').
    destruct (Z_le_gt_dec (tree_root B N) (tree_root B' N')) as [Hle|Hgt]; [exact Hle|].
    exfalso. pose proof Hp' as (HN' & _ & _).
    pose proof (tree_root_lower B' N' ltac:(lia)) as Hlow'.
    destruct (Z_le_gt_dec B B') as [HBB|HBB].
    + destruct (peak_unique c B N B' N' (tree_root B' N') Hp Hp' ltac:(lia) ltac:(lia))
        as [-> ->]. lia.
    + destruct (peak_unique c B N B' N' i Hp Hp' ltac:(lia) ltac:(lia)) as [-> ->]. lia.
  - pose proof (tree_root_lower B N ltac:(lia)) as Hlow.
    destruct (accumulator_root_spec fuel (tree_root B N) c ltac:(lia) Hc Hcomplete
                ltac:(lia)) as (B2 & N2 & Hr2 & HN2 & Ht2 & HBi2 & HBc2).
    assert (Hp2 : is_peak c B2 N2) by (repeat split; try assumption; lia).
    destruct (peak_unique c B N B2 N2 (tree_root B N) Hp Hp2 ltac:(lia) ltac:(lia))
      as [-> ->]. exact Hr2.
Qed.

Lemma accumulator_root_is_first_peak_witness :
  exists r ps,
    accumulator_root 64 8 10 = Ok r /\ peaks 64 10 = Ok ps
    /\ In r ps /\ 8 <= r <= 10
    /\ (forall p, In p ps -> 8 <= p -> r <= p)
    /\ accumulator_root 64 r 10 = Ok r.
Proof.
  apply (accumulator_root_is_first_peak 64 8 10); [lia|lia|lia|vm_compute; reflexivity].
Defined.

Lemma peak_list_sorted c B qs :
  peak_list c B qs ->
  (forall (k : nat) p q, qs !! k = Some p -> qs !! S k = Some q -> p < q)
  /\ (qs <> [] -> last qs = Some c).
Proof.
  induction 1 as [|B N qs Hp Hl [IH1 IH2]]; [split; [intros k p q Hk; destruct k; discriminate|congruence]|].
  split.
  - intros [|k] p q Hk Hk1; cbn in Hk, Hk1.
    + injection Hk as <-. pose proof (peak_list_bounds _ _ _ Hl) as [_ Hall].
      rewrite List.Forall_forall in Hall.
      assert (Hin : In q qs) by (destruct qs; [discriminate|left; cbn in Hk1; congruence]).
      specialize (Hall q Hin). lia.
    + eapply IH1; eassumption.
  - intros _. destruct qs as [|q qs].
    + inversion Hl. cbn. f_equal. lia.
    + rewrite last_cons. rewrite IH2 by discriminate. reflexivity.
Qed.

(** X6.  The peaks of a complete [MMR(c)] are listed from left to right:
    [peaks (c)] is strictly increasing, lies in [0 .. c], has at most 30
    entries here and ends with [c] itself. *)
Theorem peaks_increasing_and_end_at_c fuel c :
  0 <= c -> c + 1 < 2 ^ 30 -> (64 <= fuel)%nat -> complete_mmr fuel c = Ok c ->
  exists ps,
    peaks fuel c = Ok ps
    /\ last ps = Some c
    /\ (forall (k : nat) p q, ps !! k = Some p -> ps !! S k = Some q -> p < q)
    /\ Forall (fun p => 0 <= p <= c) ps.
Proof.
  intros Hc Hr Hf Hcomplete. apply complete_iff in Hcomplete; [|lia..].
  pose proof (ideal_peaks_spec c Hc Hr Hcomplete) as Hl.
  exists (Ideal.peaks c). split; [apply peaks_exact; lia|].
  destruct (peak_list_sorted _ _ _ Hl) as [Hs Hlast].
  split.
  - apply Hlast. intros E. rewrite E in Hl. inversion Hl. lia.
  - split; [exact Hs|]. apply (peak_list_bounds _ _ _ Hl).
Qed.

Lemma peaks_increasing_and_end_at_c_witness :
  exists ps,
    peaks 64 25 = Ok ps
    /\ last ps = Some 25
    /\ (forall (k : nat) p q, ps !! k = Some p -> ps !! S k = Some q -> p < q)
    /\ Forall (fun p => 0 <= p <= 25) ps.
Proof.
  apply (peaks_increasing_and_end_at_c 64 25); [lia|lia|lia|vm_compute; reflexivity].
Defined.

(** X7.  The accumulator of a log of [L] leaves has one peak for every bit
    set in [L]: the length of [peaks (mmr_index (L) - 1)] is [ones (L)]. *)
Theorem peaks_count_is_ones fuel L :
  1 <= L < 2 ^ 29 -> (64 <= fuel)%nat ->
  exists m ps n,
    mmr_index fuel L = Ok m /\ peaks fuel (m - 1) = Ok ps /\ ones fuel L = Ok n
    /\ Z.of_nat (length ps) = n.
Proof.
  intros HL Hf. pose proof (mmr_index_bounds L ltac:(lia)) as [Hb1 Hb2].
  specialize (Hb2 ltac:(lia)).
  exists (Ideal.mmr_index L), (Ideal.peaks (Ideal.mmr_index L - 1)), (Ideal.ones L).
  split; [apply mmr_index_exact; lia|]. split; [apply peaks_exact; lia|].
  split; [apply ones_exact; lia|].
  pose proof (boundary_peaks_length 0 L ltac:(lia) ltac:(lia) ltac:(lia)) as E.
  rewrite <- boundary_peaks_spec in E by (rewrite ?Z.pow_0_r, ?Z.mul_1_r; lia).
  rewrite Z.pow_0_r, Z.mul_1_r in E. exact E.
Qed.

Lemma peaks_count_is_ones_witness :
  exists m ps n,
    mmr_index 64 11 = Ok m /\ peaks 64 (m - 1) = Ok ps /\ ones 64 11 = Ok n
    /\ Z.of_nat (length ps) = n.
Proof. apply (peaks_count_is_ones 64 11); lia. Defined.

(** X8.  The peak stack of the next tile.  With tiles of [2^h] leaves, the
    peaks of the log before tile [id + 1] are the first
    [ones (id) - trailing_zeros64 (id + 1)] peaks of the log before tile
    [id], followed by the last node of tile [id].  This is the arithmetic
    that [Tile.next_peak_stack] relies on. *)
Theorem peaks_before_next_tile fuel h id :
  0 <= h -> 0 <= id -> (id + 1) * 2 ^ h < 2 ^ 29 -> (64 <= fuel)%nat ->
  exists first next ps ps' peakCount popCount,
    mmr_index fuel (id * 2 ^ h) = Ok first
    /\ mmr_index fuel ((id + 1) * 2 ^ h) = Ok next
    /\ peaks fuel (first - 1) = Ok ps /\ peaks fuel (next - 1) = Ok ps'
    /\ ones fuel id = Ok peakCount /\ trailing_zeros64 (id + 1) = Ok popCount
    /\ Z.of_nat (length ps) = peakCount
    /\ 0 <= peakCount - popCount
    /\ ps' = take (Z.to_nat (peakCount - popCount)) ps ++ [next - 1].
Proof.
  intros Hh Hid Hr Hf. pose proof (pow2_pos h Hh) as Hp.
  assert (Hid1 : id + 1 <= (id + 1) * 2 ^ h) by nia.
  assert (Hle : id * 2 ^ h < (id + 1) * 2 ^ h) by lia.
  assert (H0 : 0 <= id * 2 ^ h) by nia.
  pose proof (mmr_index_bounds ((id + 1) * 2 ^ h) ltac:(lia)) as [Hb1 Hb2].
  specialize (Hb2 ltac:(lia)).
  pose proof (mmr_index_lt (id * 2 ^ h) ((id + 1) * 2 ^ h) ltac:(lia)) as Hlt.
  pose proof (mmr_index_nonneg (id * 2 ^ h)) as Hnn.
  destruct (boundary_peaks_succ h id Hid Hh ltac:(lia)) as [Hkeep Hsucc].
  exists (Ideal.mmr_index (id * 2 ^ h)), (Ideal.mmr_index ((id + 1) * 2 ^ h)),
    (boundary_peaks h id), (boundary_peaks h (id + 1)),
    (Ideal.ones id), (Ideal.trailing_zeros (id + 1)).
  split; [apply mmr_index_exact; lia|]. split; [apply mmr_index_exact; lia|].
  split.
  { destruct (Z.eq_dec id 0) as [->|Hne].
    - rewrite Z.mul_0_l. unfold boundary_peaks. rewrite Z.mul_0_l, leaf_peaks_zero.
      destruct fuel as [|fuel]; [lia|]. reflexivity.
    - assert (1 <= id * 2 ^ h) by nia.
      pose proof (mmr_index_bounds (id * 2 ^ h) H0) as [Hc1 _].
      rewrite peaks_exact by lia. f_equal. apply boundary_peaks_spec; lia. }
  split; [rewrite peaks_exact by lia; f_equal; apply boundary_peaks_spec; lia|].
  split; [apply ones_exact; lia|]. split; [apply trailing_zeros64_exact; lia|].
  split; [apply boundary_peaks_length; lia|]. split; [exact Hkeep|exact Hsucc].
Qed.

Lemma peaks_before_next_tile_witness :
  exists first next ps ps' peakCount popCount,
    mmr_index 64 (5 * 2 ^ 1) = Ok first
    /\ mmr_index 64 ((5 + 1) * 2 ^ 1) = Ok next
    /\ peaks 64 (first - 1) = Ok ps /\ peaks 64 (next - 1) = Ok ps'
    /\ ones 64 5 = Ok peakCount /\ trailing_zeros64 (5 + 1) = Ok popCount
    /\ Z.of_nat (length ps) = peakCount
    /\ 0 <= peakCount - popCount
    /\ ps' = take (Z.to_nat (peakCount - popCount)) ps ++ [next - 1].
Proof. apply (peaks_before_next_tile 64 1 5); lia. Defined.

(** ** Inclusion paths *)

(** Climbing from the tree [(b, g)] to the tree [(B, N)] that contains it
    collects the same siblings whatever the range is, as long as the range
    holds all of [(B, N)]. *)
Lemma path_loop_climb B N b g :
  within B N b g -> 0 <= N <= 29 -> mtree B N ->
  exists sibs,
    Z.of_nat (length sibs) = N - g
    /\ Forall (fun j => B <= j < tree_root B N) sibs
    /\ forall c fuel acc, tree_root B N <= c -> c + 1 < 2 ^ 30 ->
         (32 + Z.to_nat (N - g) <= fuel)%nat ->
         inclusion_proof_path_loop fuel (tree_root b g) c g acc
         = inclusion_proof_path_loop (fuel - Z.to_nat (N - g)) (tree_root B N) c N
             (acc ++ sibs).
Proof.
  intros Hw HN HtN.
  induction Hw as [|b g Hg Hw IH|b g Hg Hw IH].
  - exists []. split; [cbn; lia|]. split; [constructor|].
    intros c fuel acc Hc Hr Hf. rewrite Z.sub_diag. cbn [Z.to_nat].
    rewrite Nat.sub_0_r, app_nil_r. reflexivity.
  - destruct IH as (sibs & Hlen & Hall & Hloop).
    pose proof (within_bounds B N _ _ ltac:(lia) Hw) as (Hgb & Hbb & Hrb).
    assert (Ht : mtree b (g + 1)) by (apply (mtree_within B N); assumption).
    pose proof (tree_root_lower b g Hg) as Hlow.
    pose proof (tree_root_left b g Hg) as Hl.
    pose proof (pow2_pos (g + 1) ltac:(lia)) as Hp.
    exists ((tree_root b (g + 1) - 1) :: sibs).
    split; [cbn [length]; lia|]. split; [constructor; [lia|exact Hall]|].
    intros c fuel acc Hc Hr Hf.
    destruct fuel as [|fuel]; [lia|]. cbn [inclusion_proof_path_loop].
    rewrite path_step_left by (try assumption; lia). cbn [rbind].
    destruct (c <? tree_root b (g + 1) - 1) eqn:E; [apply Z.ltb_lt in E; lia|].
    rewrite (Hloop c fuel) by lia.
    replace (S fuel - Z.to_nat (N - g))%nat with (fuel - Z.to_nat (N - (g + 1)))%nat by lia.
    rewrite <- app_assoc. reflexivity.
  - destruct IH as (sibs & Hlen & Hall & Hloop).
    pose proof (within_bounds B N _ _ ltac:(lia) Hw) as (Hgb & Hbb & Hrb).
    assert (Ht : mtree b (g + 1)) by (apply (mtree_within B N); assumption).
    pose proof (tree_root_lower b g Hg) as Hlow.
    pose proof (tree_root_left b g Hg) as Hl.
    pose proof (pow2_pos (g + 1) ltac:(lia)) as Hp.
    exists (tree_root b g :: sibs).
    split; [cbn [length]; lia|]. split; [constructor; [lia|exact Hall]|].
    intros c fuel acc Hc Hr Hf.
    destruct fuel as [|fuel]; [lia|]. cbn [inclusion_proof_path_loop].
    rewrite path_step_right by (try assumption; lia). cbn [rbind].
    destruct (c <? tree_root b g) eqn:E; [apply Z.ltb_lt in E; lia|].
    rewrite (Hloop c fuel) by lia.
    replace (S fuel - Z.to_nat (N - g))%nat with (fuel - Z.to_nat (N - (g + 1)))%nat by lia.
    rewrite <- app_assoc. reflexivity.
Qed.

(** The path ends at a peak: its sibling would lie past the range. *)
Lemma path_loop_peak fuel c B N acc :
  is_peak c B N -> c + 1 < 2 ^ 30 -> (33 <= fuel)%nat ->
  inclusion_proof_path_loop fuel (tree_root B N) c N acc = Ok acc.
Proof.
  intros (HN & Ht & Hc) Hr Hf. destruct fuel as [|fuel]; [lia|].
  cbn [inclusion_proof_path_loop].
  rewrite path_step_left by (try assumption; lia). cbn [rbind].
  rewrite tree_root_left by lia.
  destruct (c <? _) eqn:E; [reflexivity|apply Z.ltb_ge in E; lia].
Qed.

Lemma path_via_peak fuel i c :
  0 <= i <= c -> c + 1 < 2 ^ 30 -> (64 <= fuel)%nat ->
  Ideal.index_height (c + 1) = 0 ->
  exists B N sibs,
    is_peak c B N /\ B <= i <= tree_root B N
    /\ accumulator_root fuel i c = Ok (tree_root B N)
    /\ 0 <= Ideal.index_height i <= N
    /\ (Ideal.index_height i = N -> i = tree_root B N)
    /\ inclusion_proof_path fuel i c = Ok sibs
    /\ Z.of_nat (length sibs) = N - Ideal.index_height i
    /\ Forall (fun j => B <= j < tree_root B N) sibs
    /\ forall c' fuel' acc, tree_root B N <= c' -> c' + 1 < 2 ^ 30 ->
         (32 + Z.to_nat (N - Ideal.index_height i) <= fuel')%nat ->
         inclusion_proof_path_loop fuel' i c' (Ideal.index_height i) acc
         = inclusion_proof_path_loop (fuel' - Z.to_nat (N - Ideal.index_height i))
             (tree_root B N) c' N (acc ++ sibs).
Proof.
  intros Hi Hc Hf Hleaf.
  destruct (accumulator_root_spec fuel i c Hi Hc Hleaf ltac:(lia))
    as (B & N & Hr & HN & Ht & HBi & HBc).
  assert (Hp : is_peak c B N) by (repeat split; try assumption; lia).
  assert (HtN : mtree B N) by (apply mtree_left; [lia|exact Ht]).
  destruct (descend B N i N ltac:(lia) B (within_refl B N) HBi) as (b & g & Hw & Hib).
  assert (Htg : mtree b g) by (apply (mtree_within B N); assumption).
  pose proof (mtree_root_height _ _ Htg) as Hh. rewrite <- Hib in Hh.
  pose proof (within_bounds B N b g ltac:(lia) Hw) as (Hgb & Hbb & Hrb).
  destruct (path_loop_climb B N b g Hw HN HtN) as (sibs & Hlen & Hall & Hloop).
  rewrite <- Hib in Hloop. rewrite Hh.
  exists B, N, sibs. split; [exact Hp|]. split; [exact HBi|]. split; [exact Hr|].
  split; [lia|]. split.
  { intros ->. rewrite Hib. f_equal. unfold tree_root in Hrb. lia. }
  split.
  { unfold inclusion_proof_path. rewrite index_height_exact by lia. rewrite Hh.
    cbn [rbind]. rewrite (Hloop c fuel []) by lia.
    apply path_loop_peak; [exact Hp|lia|lia]. }
  split; [exact Hlen|]. split; [exact Hall|exact Hloop].
Qed.

(** X9.  In a complete [MMR(c)] the inclusion path of [i] has one entry for
    every level between [i] and its accumulator root [r]: its length is the
    height of [r] less the height of [i], every entry is a node before [r],
    and the path is empty exactly when [i] is itself that peak. *)
Theorem inclusion_proof_path_length fuel i c :
  0 <= i <= c -> c + 1 < 2 ^ 30 -> (64 <= fuel)%nat -> complete_mmr fuel c = Ok c ->
  exists path r g n,
    inclusion_proof_path fuel i c = Ok path /\ accumulator_root fuel i c = Ok r
    /\ index_height fuel i = Ok g /\ index_height fuel r = Ok n
    /\ Z.of_nat (length path) = n - g
    /\ Forall (fun j => 0 <= j < r) path
    /\ (path = [] <-> i = r).
Proof.
  intros Hi Hc Hf Hcomplete. apply complete_iff in Hcomplete; [|lia..].
  destruct (path_via_peak fuel i c Hi Hc Hf Hcomplete)
    as (B & N & sibs & Hp & HBi & Hr & Hg & Htop & Hpath & Hlen & Hall & _).
  pose proof (mtree_root_height _ _ (is_peak_mtree _ _ _ Hp)) as HhN.
  pose proof (mtree_bounds _ _ (is_peak_mtree _ _ _ Hp)) as [_ HB0].
  pose proof Hp as (HN & _ & Hcp). pose proof (tree_root_lower B N ltac:(lia)) as Hlow.
  exists sibs, (tree_root B N), (Ideal.index_height i), N.
  split; [exact Hpath|]. split; [exact Hr|].
  split; [apply index_height_exact; lia|].
  split; [rewrite index_height_exact by lia; congruence|]. split; [exact Hlen|].
  split.
  { eapply Forall_impl; [exact Hall|]. cbn. intros j Hj. lia. }
  split.
  - intros ->. apply Htop. cbn [length Z.of_nat] in Hlen. lia.
  - intros E. rewrite E in Hlen. rewrite HhN in Hlen.
    destruct sibs; [reflexivity|cbn [length] in Hlen; lia].
Qed.

Lemma inclusion_proof_path_length_witness :
  exists path r g n,
    inclusion_proof_path 64 8 25 = Ok path /\ accumulator_root 64 8 25 = Ok r
    /\ index_height 64 8 = Ok g /\ index_height 64 r = Ok n
    /\ Z.of_nat (length path) = n - g
    /\ Forall (fun j => 0 <= j < r) path
    /\ (path = [] <-> 8 = r).
Proof.
  apply (inclusion_proof_path_length 64 8 25); [lia|lia|lia|vm_compute; reflexivity].
Defined.

(** X10.  Paths extend.  For complete ranges [c0 <= c1] and a node [i] of
    the smaller one, the path of [i] in [MMR(c1)] is its path in [MMR(c0)]
    followed by the path, in [MMR(c1)], of the peak that covers [i] in
    [MMR(c0)].  This is the property the source comment of
    [inclusion_proof_path] calls the basis of the consistency proofs. *)
Theorem inclusion_proof_path_extends fuel i c0 c1 :
  0 <= i <= c0 -> c0 <= c1 -> c1 + 1 < 2 ^ 30 -> (64 <= fuel)%nat ->
  complete_mmr fuel c0 = Ok c0 -> complete_mmr fuel c1 = Ok c1 ->
  exists r p0 p1,
    accumulator_root fuel i c0 = Ok r
    /\ inclusion_proof_path fuel i c0 = Ok p0
    /\ inclusion_proof_path fuel r c1 = Ok p1
    /\ inclusion_proof_path fuel i c1 = Ok (p0 ++ p1).
Proof.
  intros Hi H01 Hc1 Hf Hcomp0 Hcomp1.
  apply complete_iff in Hcomp0; [|lia..]. apply complete_iff in Hcomp1; [|lia..].
  destruct (path_via_peak fuel i c0 Hi ltac:(lia) Hf Hcomp0)
    as (B & N & sibs0 & Hp & HBi & Hr & Hg & _ & Hpath0 & Hlen0 & _ & Hloop0).
  pose proof (mtree_root_height _ _ (is_peak_mtree _ _ _ Hp)) as HhN.
  pose proof (mtree_bounds _ _ (is_peak_mtree _ _ _ Hp)) as [_ HB0].
  pose proof Hp as (HN & _ & Hc0).
  pose proof (tree_root_lower B N ltac:(lia)) as Hlow.
  destruct (path_via_peak fuel (tree_root B N) c1 ltac:(lia) Hc1 Hf Hcomp1)
    as (B1 & N1 & sibs1 & Hp1 & HBi1 & Hr1 & Hg1 & _ & Hpath1 & Hlen1 & _ & Hloop1).
  rewrite HhN in *. pose proof Hp1 as (HN1 & _ & Hc1p).
  exists (tree_root B N), sibs0, sibs1.
  split; [exact Hr|]. split; [exact Hpath0|]. split; [exact Hpath1|].
  unfold inclusion_proof_path. rewrite index_height_exact by lia. cbn [rbind].
  rewrite (Hloop0 c1 fuel []) by lia.
  rewrite (Hloop1 c1) by lia. cbn [app].
  apply path_loop_peak; [exact Hp1|lia|lia].
Qed.

Lemma inclusion_proof_path_extends_witness :
  exists r p0 p1,
    accumulator_root 64 8 10 = Ok r
    /\ inclusion_proof_path 64 8 10 = Ok p0
    /\ inclusion_proof_path 64 r 25 = Ok p1
    /\ inclusion_proof_path 64 8 25 = Ok (p0 ++ p1).
Proof.
  apply (inclusion_proof_path_extends 64 8 10 25);
    [lia|lia|lia|lia|vm_compute; reflexivity|vm_compute; reflexivity].
Defined.

(** ** What [add_leaf_hash] builds *)

(** The loop of [add_leaf_hash] runs to the next leaf position and never
    fails on the array backed adder: both children are always there. *)
Lemma add_leaf_hash_loop_total hasher : forall (n : nat) fuel i g db,
  i = Z.of_nat (length db) -> 1 <= i -> i + Z.of_nat n + 1 < 2 ^ 30 ->
  Ideal.index_height (i - 1) = g -> 30 <= g + Z.of_nat n ->
  (32 + n <= fuel)%nat ->
  exists ext,
    add_leaf_hash_loop fuel hasher i g db = (Ok (i + Z.of_nat (length ext)), db ++ ext)
    /\ Ideal.index_height (i + Z.of_nat (length ext)) = 0
    /\ (forall j, i <= j < i + Z.of_nat (length ext) -> 0 < Ideal.index_height j).
Proof.
  induction n as [|n IH]; intros fuel i g db Hi Hi1 Hr Hg Hm Hf.
  { pose proof (index_height_le_29 (i - 1) ltac:(lia) ltac:(lia)). lia. }
  destruct fuel as [|fuel]; [lia|].
  cbn [add_leaf_hash_loop]. unfold mbind at 1. unfold mlift.
  rewrite index_height_exact by lia.
  pose proof (index_height_nonneg (i - 1) ltac:(lia)) as Hg0. rewrite Hg in Hg0.
  assert (Hsucc : Ideal.index_height i = g + 1 \/ Ideal.index_height i = 0).
  { destruct (index_height_succ (i - 1)) as [Hs|Hs]; [lia|..];
      replace (i - 1 + 1) with i in Hs by lia; lia. }
  destruct (g <? Ideal.index_height i) eqn:E.
  - apply Z.ltb_lt in E. assert (Hh : Ideal.index_height i = g + 1) by lia.
    pose proof (index_height_le_29 i ltac:(lia) ltac:(lia)) as H29.
    pose proof (index_height_room i ltac:(lia)) as Hroom. rewrite Hh in Hroom.
    rewrite (pow2_succ (g + 1)) in Hroom by lia.
    pose proof (pow2_le_mono 1 (g + 1) ltac:(lia)) as Hp. change (2 ^ 1) with 2 in Hp.
    destruct (node_some db (i - 2 ^ (g + 1)) ltac:(lia)) as (vl & El).
    destruct (node_some db (i - 1) ltac:(lia)) as (vr & Er).
    unfold mbind. cbn [adder_get adder_append LeafAdder.adder].
    rewrite !get_node. rewrite shl_2 by lia. rewrite El, Er.
    unfold LeafAdder.append.
    set (v := hash_pos_pair64 hasher (i + 1) vl vr).
    destruct (IH fuel (Z.of_nat (length (db ++ [v]))) (g + 1) (db ++ [v]))
      as (ext & Hloop & Hleaf & Hint).
    + reflexivity.
    + rewrite length_app. cbn [length]. lia.
    + rewrite length_app. cbn [length]. lia.
    + rewrite length_app. cbn [length].
      replace (Z.of_nat (length db + 1) - 1) with i by lia. exact Hh.
    + lia.
    + lia.
    + assert (Hlen : Z.of_nat (length (db ++ [v])) = i + 1)
        by (rewrite length_app; cbn [length]; lia).
      rewrite Hlen in *.
      exists (v :: ext). cbn [length].
      replace (i + Z.of_nat (S (length ext))) with (i + 1 + Z.of_nat (length ext)) by lia.
      split; [|split; [exact Hleaf|]].
      * replace (db ++ v :: ext) with ((db ++ [v]) ++ ext)
          by (rewrite <- app_assoc; reflexivity).
        exact Hloop.
      * intros j Hj. destruct (Z.eq_dec j i) as [->|]; [lia|apply Hint; lia].
  - apply Z.ltb_ge in E. exists []. cbn [length]. unfold mret.
    rewrite app_nil_r, Z.add_0_r. split; [reflexivity|]. split; [lia|intros; lia].
Qed.

Lemma add_leaf_hash_total fuel hasher f db e :
  0 <= e -> Z.of_nat (length db) = Ideal.mmr_index e -> e + 1 < 2 ^ 28 ->
  (64 <= fuel)%nat ->
  exists ext,
    add_leaf_hash fuel hasher f db = (Ok (Ideal.mmr_index (e + 1)), db ++ f :: ext)
    /\ Z.of_nat (length (db ++ f :: ext)) = Ideal.mmr_index (e + 1).
Proof.
  intros He Hlen Hr Hf.
  pose proof (mmr_index_bounds e He) as [Hb1 _].
  pose proof (mmr_index_bounds (e + 1) ltac:(lia)) as [Hc1 Hc2].
  specialize (Hc2 ltac:(lia)).
  pose proof (mmr_index_lt e (e + 1) ltac:(lia)) as Hlt.
  unfold add_leaf_hash, mbind. cbn [adder_append LeafAdder.adder].
  unfold LeafAdder.append.
  destruct (add_leaf_hash_loop_total hasher 30 fuel (Z.of_nat (length (db ++ [f]))) 0
              (db ++ [f])) as (ext & Hloop & Hleaf & Hint).
  - reflexivity.
  - rewrite length_app. cbn [length]. lia.
  - rewrite length_app. cbn [length]. lia.
  - rewrite length_app. cbn [length].
    replace (Z.of_nat (length db + 1) - 1) with (Ideal.mmr_index e) by lia.
    apply index_height_mmr_index. exact He.
  - lia.
  - lia.
  - assert (Hl1 : Z.of_nat (length (db ++ [f])) = Ideal.mmr_index e + 1)
      by (rewrite length_app; cbn [length]; lia).
    rewrite Hl1 in *.
    assert (Hnext : Ideal.mmr_index e + 1 + Z.of_nat (length ext) = Ideal.mmr_index (e + 1)).
    { destruct (Z.lt_trichotomy (Ideal.mmr_index (e + 1))
                  (Ideal.mmr_index e + 1 + Z.of_nat (length ext))) as [H|[H|H]].
      - specialize (Hint (Ideal.mmr_index (e + 1)) ltac:(lia)).
        rewrite index_height_mmr_index in Hint by lia. lia.
      - lia.
      - pose proof (no_leaf_between e (Ideal.mmr_index e + 1 + Z.of_nat (length ext)) He
                      ltac:(lia)). contradiction. }
    exists ext. rewrite Hloop. rewrite Hnext.
    replace ((db ++ [f]) ++ ext) with (db ++ f :: ext) by (rewrite <- app_assoc; reflexivity).
    split; [reflexivity|]. rewrite length_app. cbn [length]. lia.
Qed.

Lemma add_leaves_from fuel hasher : forall leaves db0 e0,
  0 <= e0 -> Z.of_nat (length db0) = Ideal.mmr_index e0 ->
  e0 + Z.of_nat (length leaves) < 2 ^ 28 -> (64 <= fuel)%nat ->
  exists ext,
    add_leaves fuel hasher leaves db0 = (Ok tt, db0 ++ ext)
    /\ Z.of_nat (length (db0 ++ ext)) = Ideal.mmr_index (e0 + Z.of_nat (length leaves))
    /\ forall (k : nat) f, leaves !! k = Some f ->
         node (db0 ++ ext) (Ideal.mmr_index (e0 + Z.of_nat k)) = Some f.
Proof.
  induction leaves as [|f rest IH]; intros db0 e0 He Hlen Hr Hf.
  - exists []. rewrite app_nil_r. cbn [length Z.of_nat] in *. rewrite Z.add_0_r.
    split; [reflexivity|]. split; [exact Hlen|]. intros k f Hk. destruct k; discriminate.
  - cbn [length] in Hr.
    destruct (add_leaf_hash_total fuel hasher f db0 e0 He Hlen ltac:(lia) Hf)
      as (ext1 & Hadd & Hlen1).
    destruct (IH (db0 ++ f :: ext1) (e0 + 1) ltac:(lia) Hlen1 ltac:(lia) Hf)
      as (ext2 & Hrest & Hlen2 & Hleaves).
    exists (f :: ext1 ++ ext2).
    replace (db0 ++ f :: ext1 ++ ext2) with ((db0 ++ f :: ext1) ++ ext2)
      by (rewrite <- app_assoc; reflexivity).
    cbn [add_leaves]. unfold mbind. rewrite Hadd.
    split; [exact Hrest|]. split.
    { rewrite Hlen2. f_equal. cbn [length]. lia. }
    intros [|k] v Hk; cbn in Hk.
    + injection Hk as <-. rewrite Z.add_0_r. rewrite <- Hlen.
      replace ((db0 ++ f :: ext1) ++ ext2) with ((db0 ++ [f]) ++ ext1 ++ ext2)
        by (rewrite <- !app_assoc; reflexivity).
      apply node_app. apply node_last.
    + replace (e0 + Z.of_nat (S k)) with (e0 + 1 + Z.of_nat k) by lia.
      apply Hleaves. exact Hk.
Qed.

(** X11.  On the array backed store [add_leaf_hash] never fails: adding any
    list of leaves to the empty log succeeds, leaves
    [mmr_index (number of leaves)] nodes, and leaf [k] is stored at
    [mmr_index (k)]. *)
Theorem add_leaves_total fuel hasher leaves :
  Z.of_nat (length leaves) < 2 ^ 28 -> (64 <= fuel)%nat ->
  exists db,
    add_leaves fuel hasher leaves [] = (Ok tt, db)
    /\ mmr_index fuel (Z.of_nat (length leaves)) = Ok (Z.of_nat (length db))
    /\ forall (k : nat) f, leaves !! k = Some f ->
         exists i, mmr_index fuel (Z.of_nat k) = Ok i /\ node db i = Some f.
Proof.
  intros Hr Hf.
  destruct (add_leaves_from fuel hasher leaves [] 0 ltac:(lia) ltac:(reflexivity)
              ltac:(lia) Hf) as (ext & Hadd & Hlen & Hleaves).
  cbn [app] in *. rewrite Z.add_0_l in Hlen.
  exists ext. split; [exact Hadd|]. split.
  - rewrite mmr_index_exact by lia. congruence.
  - intros k f Hk. exists (Ideal.mmr_index (Z.of_nat k)).
    pose proof (lookup_lt_Some _ _ _ Hk).
    split; [apply mmr_index_exact; lia|]. specialize (Hleaves k f Hk).
    rewrite Z.add_0_l in Hleaves. exact Hleaves.
Qed.

Lemma add_leaves_total_witness :
  exists db,
    add_leaves 64 prefix_hash (map num_field [0; 1; 2]) [] = (Ok tt, db)
    /\ mmr_index 64 (Z.of_nat (length (map num_field [0; 1; 2]))) = Ok (Z.of_nat (length db))
    /\ forall (k : nat) f, map num_field [0; 1; 2] !! k = Some f ->
         exists i, mmr_index 64 (Z.of_nat k) = Ok i /\ node db i = Some f.
Proof.
  apply (add_leaves_total 64 prefix_hash (map num_field [0; 1; 2])); [cbn; lia|lia].
Defined.

(** X12.  Every interior node of a log built by [add_leaf_hash] is the
    position committing hash of its two children: the node of height [g > 0]
    at index [p] holds [hash_pos_pair64 (p + 1, left, right)] with the left
    child at [p - 2^g] and the right child at [p - 1]. *)
Theorem interior_nodes_hash_their_children fuel hasher leaves db p g :
  (32 <= fuel)%nat -> add_leaves fuel hasher leaves [] = (Ok tt, db) ->
  0 <= p < Z.of_nat (length db) -> p + 1 < 2 ^ 30 ->
  index_height fuel p = Ok g -> 0 < g ->
  exists l r,
    node db (p - 2 ^ g) = Some l /\ node db (p - 1) = Some r
    /\ node db p = Some (hash_pos_pair64 hasher (p + 1) l r)
    /\ index_height fuel (p - 2 ^ g) = Ok (g - 1)
    /\ index_height fuel (p - 1) = Ok (g - 1).
Proof.
  intros Hf Hadd Hp Hr Hg Hpos.
  rewrite index_height_exact in Hg by lia. injection Hg as <-.
  destruct (add_leaves_inv fuel hasher leaves [] db (log_inv_nil hasher) Hadd) as [Hwf _].
  destruct (Hwf p Hp Hr Hpos) as (l & r & Hl & Hrr & Hn).
  exists l, r. split; [exact Hl|]. split; [exact Hrr|]. split; [exact Hn|].
  destruct (mtree_of_node p ltac:(lia)) as (b & Ht & Hpb).
  set (g := Ideal.index_height p) in *.
  replace g with (g - 1 + 1) in Ht by lia.
  pose proof (mtree_left b (g - 1) ltac:(lia) Ht) as Htl.
  pose proof (mtree_right b (g - 1) ltac:(lia) Ht) as Htr.
  pose proof (mtree_root_height _ _ Htl) as Hhl.
  pose proof (mtree_root_height _ _ Htr) as Hhr.
  pose proof (mtree_bounds _ _ Htl) as [_ Hb0].
  assert (E1 : p - 2 ^ g = tree_root b (g - 1)).
  { rewrite Hpb. unfold tree_root. replace (g - 1 + 1) with g by lia.
    rewrite (pow2_succ g) by lia. lia. }
  assert (E2 : p - 1 = tree_root (b + 2 ^ (g - 1 + 1) - 1) (g - 1)).
  { rewrite Hpb. unfold tree_root. replace (g - 1 + 1) with g by lia.
    rewrite (pow2_succ g) by lia. lia. }
  pose proof (tree_root_lower b (g - 1) ltac:(lia)) as Hlow.
  rewrite !index_height_exact by lia. rewrite E1 at 1. rewrite E2 at 1.
  rewrite Hhl, Hhr. split; reflexivity.
Qed.

Lemma interior_nodes_hash_their_children_witness :
  exists l r,
    node eight_leaf_log (6 - 2 ^ 2) = Some l /\ node eight_leaf_log (6 - 1) = Some r
    /\ node eight_leaf_log 6 = Some (hash_pos_pair64 prefix_hash (6 + 1) l r)
    /\ index_height 64 (6 - 2 ^ 2) = Ok (2 - 1)
    /\ index_height 64 (6 - 1) = Ok (2 - 1).
Proof.
  apply (interior_nodes_hash_their_children 64 prefix_hash
           (map num_field [0; 1; 2; 3; 4; 5; 6; 7]) eight_leaf_log 6 2).
  - lia.
  - vm_compute. reflexivity.
  - split; [lia|vm_compute; reflexivity].
  - lia.
  - vm_compute. reflexivity.
  - lia.
Defined.

(** ** The closed form of [mmr_index] and the size of a tile *)

Lemma ideal_ones_0 : Ideal.ones 0 = 0.
Proof. reflexivity. Qed.

Lemma ideal_mmr_index_0 : Ideal.mmr_index 0 = 0.
Proof. apply mmr_index_nonpos. lia. Qed.

Lemma half_shift e k :
  0 <= k -> 2 ^ (k + 1) <= e ->
  (e - 2 ^ (k + 1)) / 2 = e / 2 - 2 ^ k /\ (e - 2 ^ (k + 1)) mod 2 = e mod 2.
Proof.
  intros Hk He. rewrite (pow2_succ k) by lia.
  pose proof (Z.div_mod e 2 ltac:(lia)) as Hdm.
  pose proof (Z.mod_pos_bound e 2 ltac:(lia)) as Hm.
  split.
  - symmetry. apply (Z.div_unique _ 2 _ (e mod 2)); lia.
  - symmetry. apply (Z.mod_unique _ 2 (e / 2 - 2 ^ k)); lia.
Qed.

(** Removing the top bit removes one from the number of one bits. *)
Lemma ones_top k :
  0 <= k -> forall e, 2 ^ k <= e < 2 ^ (k + 1) -> Ideal.ones e = 1 + Ideal.ones (e - 2 ^ k).
Proof.
  intros Hk. pattern k. apply natlike_ind; [| |exact Hk]; clear k Hk.
  - intros e He. change (2 ^ 0) with 1 in He. change (2 ^ (0 + 1)) with 2 in He.
    assert (e = 1) by lia. subst e. reflexivity.
  - intros k Hk IH e He. rewrite <- Z.add_1_r in *.
    rewrite (pow2_succ (k + 1)) in He by lia.
    pose proof (pow2_pos k Hk) as Hp. pose proof (pow2_succ k Hk) as Hs.
    pose proof (Z.div_mod e 2 ltac:(lia)) as Hdm.
    pose proof (Z.mod_pos_bound e 2 ltac:(lia)) as Hm.
    destruct (half_shift e k Hk ltac:(lia)) as [Hd Hmod].
    rewrite (ideal_ones_step e) by lia.
    rewrite (IH (e / 2)) by lia.
    destruct (Z.eq_dec (e - 2 ^ (k + 1)) 0) as [E0|E0].
    + rewrite E0 in *. rewrite ideal_ones_0.
      assert (Ez : e / 2 - 2 ^ k = 0) by (rewrite <- Hd; reflexivity).
      rewrite Ez, ideal_ones_0. rewrite <- Hmod. reflexivity.
    + rewrite (ideal_ones_step (e - 2 ^ (k + 1))) by lia. rewrite Hd, Hmod. lia.
Qed.

Lemma mmr_index_formula e : 0 <= e -> Ideal.mmr_index e = 2 * e - Ideal.ones e.
Proof.
  intros He. pattern e. revert e He. apply Z_strong_ind. intros e He IH.
  destruct (Z.eq_dec e 0) as [->|Hne].
  - rewrite ideal_mmr_index_0, ideal_ones_0. reflexivity.
  - pose proof (log2_bounds e ltac:(lia)) as Hb. pose proof (Z.log2_nonneg e) as Hl.
    rewrite mmr_index_eq by lia. rewrite IH by lia.
    rewrite (ones_top (Z.log2 e) Hl e Hb). rewrite (pow2_succ (Z.log2 e)) by lia. lia.
Qed.

Lemma ones_double x : 0 <= x -> Ideal.ones (2 * x) = Ideal.ones x.
Proof.
  intros Hx. destruct (Z.eq_dec x 0) as [->|Hne]; [reflexivity|].
  rewrite (ideal_ones_step (2 * x)) by lia.
  replace (2 * x) with (x * 2) by lia. rewrite Z.mod_mul, Z.div_mul by lia. lia.
Qed.

Lemma ones_shift h : 0 <= h -> forall x, 0 <= x -> Ideal.ones (x * 2 ^ h) = Ideal.ones x.
Proof.
  intros Hh. pattern h. apply natlike_ind; [| |exact Hh]; clear h Hh.
  - intros x Hx. rewrite Z.pow_0_r, Z.mul_1_r. reflexivity.
  - intros h Hh IH x Hx. rewrite <- Z.add_1_r. rewrite pow2_succ by lia.
    replace (x * (2 * 2 ^ h)) with (2 * (x * 2 ^ h)) by lia.
    pose proof (pow2_pos h Hh). rewrite ones_double by nia. apply IH. exact Hx.
Qed.

Lemma ones_succ x :
  0 <= x -> x + 1 < 2 ^ 30 ->
  Ideal.ones (x + 1) = Ideal.ones x - Ideal.trailing_zeros (x + 1) + 1.
Proof.
  intros Hx Hr.
  destruct (boundary_peaks_succ 0 x Hx ltac:(lia) ltac:(lia)) as [Hkeep Hsucc].
  pose proof (boundary_peaks_length 0 x Hx ltac:(lia) ltac:(lia)) as Hl0.
  pose proof (boundary_peaks_length 0 (x + 1) ltac:(lia) ltac:(lia) ltac:(lia)) as Hl1.
  pose proof (trailing_zeros_nonneg (x + 1) ltac:(lia)) as Htz.
  rewrite Hsucc in Hl1. rewrite length_app, length_take in Hl1. cbn [length] in Hl1. lia.
Qed.

(** X13.  The closed form of [mmr_index]: leaf [e] is stored at
    [2 * e - ones (e)]. *)
Theorem mmr_index_closed_form fuel e :
  0 <= e < 2 ^ 30 -> (33 <= fuel)%nat ->
  exists m n, mmr_index fuel e = Ok m /\ ones fuel e = Ok n /\ m = 2 * e - n.
Proof.
  intros He Hf. exists (Ideal.mmr_index e), (Ideal.ones e).
  split; [apply mmr_index_exact; lia|]. split; [apply ones_exact; lia|].
  apply mmr_index_formula. lia.
Qed.

Lemma mmr_index_closed_form_witness :
  exists m n, mmr_index 64 11 = Ok m /\ ones 64 11 = Ok n /\ m = 2 * 11 - n.
Proof. apply (mmr_index_closed_form 64 11); lia. Defined.

(** X14.  [add_leaf_hash] only appends.  On a log of [e] leaves built by
    [add_leaf_hash] it keeps every node, stores the leaf first and then
    [trailing_zeros64 (e + 1)] interior nodes, and returns the index of the
    next leaf, [mmr_index (e + 1)], which is the new size of the log. *)
Theorem add_leaf_hash_appends fuel hasher leaves db f :
  Z.of_nat (length leaves) + 1 < 2 ^ 28 -> (64 <= fuel)%nat ->
  add_leaves fuel hasher leaves [] = (Ok tt, db) ->
  exists ext next tz,
    add_leaf_hash fuel hasher f db = (Ok next, db ++ f :: ext)
    /\ mmr_index fuel (Z.of_nat (length leaves) + 1) = Ok next
    /\ next = Z.of_nat (length (db ++ f :: ext))
    /\ trailing_zeros64 (Z.of_nat (length leaves) + 1) = Ok tz
    /\ Z.of_nat (length ext) = tz.
Proof.
  intros Hr Hf Hadd. set (e := Z.of_nat (length leaves)) in *.
  destruct (add_leaves_from fuel hasher leaves [] 0 ltac:(lia) ltac:(reflexivity)
              ltac:(lia) Hf) as (db' & Hadd' & Hlen & _).
  cbn [app] in *. rewrite Z.add_0_l in Hlen. fold e in Hlen.
  rewrite Hadd in Hadd'. injection Hadd' as <-.
  destruct (add_leaf_hash_total fuel hasher f db e ltac:(lia) Hlen ltac:(lia) Hf)
    as (ext & Hstep & Hlen1).
  exists ext, (Ideal.mmr_index (e + 1)), (Ideal.trailing_zeros (e + 1)).
  split; [exact Hstep|]. split; [apply mmr_index_exact; lia|]. split; [lia|].
  split; [apply trailing_zeros64_exact; lia|].
  rewrite length_app in Hlen1. cbn [length] in Hlen1.
  rewrite (mmr_index_formula (e + 1)) in Hlen1 by lia.
  rewrite (mmr_index_formula e) in Hlen by lia.
  rewrite (ones_succ e) in Hlen1 by lia. lia.
Qed.

Lemma add_leaf_hash_appends_witness :
  exists ext next tz,
    add_leaf_hash 64 prefix_hash (num_field 3)
      (snd (add_leaves 64 prefix_hash (map num_field [0; 1; 2]) []))
    = (Ok next, snd (add_leaves 64 prefix_hash (map num_field [0; 1; 2]) [])
                ++ num_field 3 :: ext)
    /\ mmr_index 64 (Z.of_nat (length (map num_field [0; 1; 2])) + 1) = Ok next
    /\ next = Z.of_nat (length (snd (add_leaves 64 prefix_hash (map num_field [0; 1; 2]) [])
                                ++ num_field 3 :: ext))
    /\ trailing_zeros64 (Z.of_nat (length (map num_field [0; 1; 2])) + 1) = Ok tz
    /\ Z.of_nat (length ext) = tz.
Proof.
  apply (add_leaf_hash_appends 64 prefix_hash (map num_field [0; 1; 2])).
  - cbn. lia.
  - lia.
  - vm_compute. reflexivity.
Defined.

(** X15.  The size of a tile.  A tile of height [h] holds the
    [2^(h+1) - 1] nodes of its own tree and one more node for every
    trailing zero of [id + 1]: [Tiles.max_tile_size] is [nodesStart] plus
    [2 * leafCount - 1 + trailing_zeros64 (id + 1)] fields. *)
Theorem max_tile_size_formula fuel params c tileid :
  Tiles.format params = Ok c -> 0 <= tile_height params <= 29 ->
  0 <= tileid -> (tileid + 1) * 2 ^ tile_height params < 2 ^ 30 -> (33 <= fuel)%nat ->
  exists tz,
    trailing_zeros64 (tileid + 1) = Ok tz
    /\ Tiles.max_tile_size fuel c tileid
       = Ok (nodesStart c + (2 * leafCount c - 1 + tz) * fieldWidth c).
Proof.
  intros Hfmt Hh Hid Hr Hf.
  pose proof (format_cfg_ok _ _ Hfmt Hh) as Hok.
  pose proof (format_layout _ _ Hfmt) as (_ & _ & _ & _ & HH & _).
  rewrite <- HH in *.
  pose proof Hok as (HW & HP & HN & HM & HHr & HL).
  pose proof (pow2_pos (tileHeight c) ltac:(lia)) as Hp.
  assert (Hid1 : tileid + 1 <= (tileid + 1) * 2 ^ tileHeight c) by nia.
  exists (Ideal.trailing_zeros (tileid + 1)).
  split; [apply trailing_zeros64_exact; lia|].
  rewrite (max_tile_size_exact fuel c tileid Hok) by (try split; lia).
  unfold tile_first. rewrite !mmr_index_formula by nia.
  rewrite !ones_shift by lia. rewrite (ones_succ tileid) by lia.
  rewrite HN, HL, HW. f_equal. lia.
Qed.

Lemma max_tile_size_formula_witness :
  exists tz,
    trailing_zeros64 (3 + 1) = Ok tz
    /\ Tiles.max_tile_size 64 (test_cfg 1) 3
       = Ok (nodesStart (test_cfg 1) + (2 * leafCount (test_cfg 1) - 1 + tz)
                                        * fieldWidth (test_cfg 1)).
Proof.
  apply (max_tile_size_formula 64 (test_params 1) (test_cfg 1) 3);
    [reflexivity|cbn; lia|lia|cbn; lia|lia].
Defined.


(** ** Bytes and the start field ([src/bytes.ts], [Tiles]) *)

Lemma slice_app_r (a b : bytes) : slice (a ++ b) (blen a) (blen b) = b.
Proof.
  unfold slice, blen. rewrite !Nat2Z.id. rewrite drop_app_length. apply firstn_all.
Qed.

Lemma slice_app_l (a b : bytes) : slice (a ++ b) 0 (blen a) = a.
Proof.
  unfold slice, blen. rewrite Nat2Z.id. cbn [Z.to_nat drop]. apply take_app_length.
Qed.

Lemma slice_app_r_len (a b : bytes) off n :
  blen a = off -> blen b = n -> slice (a ++ b) off n = b.
Proof. intros <- <-. apply slice_app_r. Qed.

Lemma slice_app_l_len (a b : bytes) n : blen a = n -> slice (a ++ b) 0 n = a.
Proof. intros <-. apply slice_app_l. Qed.

Lemma slice_buf_set_len target src offset t' n :
  buf_set target src offset = Ok t' -> blen src = n -> slice t' offset n = src.
Proof. intros H <-. eapply slice_buf_set_eq; exact H. Qed.

Lemma be_value_nonneg bs : forall acc, 0 <= acc -> 0 <= be_value bs acc.
Proof.
  induction bs as [|b bs IH]; intros acc Hacc; [exact Hacc|]. cbn [be_value].
  apply IH. unfold Z_of_byte. lia.
Qed.

(** Reading eight bytes that hold the big-endian form of [n]. *)
Lemma fromBE64_be_bytes (buf : Uint8Array) off n :
  0 <= off -> off + 8 <= blen (buffer buf) ->
  slice (buffer buf) off 8 = be_bytes 8 n -> 0 <= n < 2 ^ 64 ->
  Numbers.fromBE64 buf off
  = if JS.MAX_SAFE_INTEGER <? n then Throw (Error "Number exceeds MAX_SAFE_INTEGER")
    else Ok n.
Proof.
  intros Ho Hl Hs Hn. unfold Numbers.fromBE64.
  destruct (off <? 0) eqn:E1; [apply Z.ltb_lt in E1; lia|].
  destruct (blen (buffer buf) <? off + 8) eqn:E2; [apply Z.ltb_lt in E2; lia|].
  cbn [orb]. rewrite Hs, be_value_be_bytes.
  change (256 ^ Z.of_nat 8) with (2 ^ 64). rewrite Z.mul_0_l, Z.add_0_l.
  rewrite Z.mod_small by lia. reflexivity.
Qed.

(** X16.  [toBE64] and [fromBE64] round trip: for a safe integer [n] and a
    size of at least 8, [toBE64 (n, size)] is [size] bytes long, zero
    everywhere but in its last eight bytes, and [fromBE64] reads [n] back
    from them. *)
Theorem toBE64_fromBE64 n size :
  0 <= n <= JS.MAX_SAFE_INTEGER -> 8 <= size ->
  exists b,
    Numbers.toBE64 n size = Ok b /\ blen b = size
    /\ slice b 0 (size - 8) = zeros (size - 8)
    /\ Numbers.fromBE64 (whole b) (size - 8) = Ok n.
Proof.
  intros Hn Hs. unfold JS.MAX_SAFE_INTEGER in Hn.
  assert (Hz : blen (zeros (size - 8)) = size - 8) by (apply blen_zeros; lia).
  assert (Hb : blen (be_bytes 8 n) = 8) by apply blen_be_bytes.
  exists (zeros (size - 8) ++ be_bytes 8 n).
  assert (Hlen : blen (zeros (size - 8) ++ be_bytes 8 n) = size).
  { unfold blen in *. rewrite length_app. lia. }
  unfold Numbers.toBE64. destruct (size <? 8) eqn:E; [apply Z.ltb_lt in E; lia|].
  split; [reflexivity|]. split; [exact Hlen|]. split.
  - apply slice_app_l_len. exact Hz.
  - rewrite (fromBE64_be_bytes _ _ n); cbn [buffer whole]; try lia.
    + unfold JS.MAX_SAFE_INTEGER.
      destruct (2 ^ 53 - 1 <? n) eqn:E1; [apply Z.ltb_lt in E1; lia|reflexivity].
    + apply slice_app_r_len; assumption.
Qed.

Lemma toBE64_fromBE64_witness :
  exists b,
    Numbers.toBE64 123456789 32 = Ok b /\ blen b = 32
    /\ slice b 0 (32 - 8) = zeros (32 - 8)
    /\ Numbers.fromBE64 (whole b) (32 - 8) = Ok 123456789.
Proof.
  apply (toBE64_fromBE64 123456789 32); [unfold JS.MAX_SAFE_INTEGER; lia|lia].
Defined.

(** X17.  [setBE64] and [fromBE64] address the buffer behind [buf], not
    [buf] itself: [at] counts from the start of [buf.buffer] whatever the
    offset of the view is.  Inside the buffer [setBE64] keeps the view and
    the length of the buffer, puts the eight big-endian bytes of [n] at
    [at .. at + 7] of the buffer and changes no other byte of it; through
    the view these bytes show at [at - byteOffset]; [fromBE64] at the same
    offset reads [n] back when it is a safe integer and throws when it is
    not.  Both throw a [RangeError] when [at] is negative or [at + 8] passes
    the end of the buffer, which may lie beyond the end of [buf]. *)
Theorem setBE64_fromBE64 n at_ (buf : Uint8Array) :
  0 <= n < 2 ^ 64 -> 0 <= byteOffset buf -> 0 <= byteLength buf ->
  (0 <= at_ /\ at_ + 8 <= blen (buffer buf) ->
   exists buf',
     Numbers.setBE64 n at_ buf = Ok buf'
     /\ byteOffset buf' = byteOffset buf /\ byteLength buf' = byteLength buf
     /\ blen (buffer buf') = blen (buffer buf)
     /\ slice (buffer buf') at_ 8 = be_bytes 8 n
     /\ (forall off m, 0 <= off -> off + m <= at_ \/ at_ + 8 <= off ->
           slice (buffer buf') off m = slice (buffer buf) off m)
     /\ (byteOffset buf <= at_ /\ at_ + 8 <= byteOffset buf + byteLength buf ->
         slice (view_bytes buf') (at_ - byteOffset buf) 8 = be_bytes 8 n)
     /\ Numbers.fromBE64 buf' at_
        = if n <=? JS.MAX_SAFE_INTEGER then Ok n
          else Throw (Error "Number exceeds MAX_SAFE_INTEGER"))
  /\ (at_ < 0 \/ blen (buffer buf) < at_ + 8 ->
      Numbers.setBE64 n at_ buf = Throw RangeError
      /\ Numbers.fromBE64 buf at_ = Throw RangeError).
Proof.
  intros Hn Ho Hl0. pose proof (blen_be_bytes 8 n) as Hb. change (Z.of_nat 8) with 8 in Hb.
  split.
  - intros [Ha Hl]. unfold Numbers.setBE64.
    pose proof (buf_set_fits (buffer buf) (be_bytes 8 n) at_ Ha ltac:(lia)) as Eset.
    rewrite Eset. cbn [rbind]. eexists. split; [reflexivity|].
    unfold with_buffer. cbn [buffer byteOffset byteLength].
    pose proof (buf_set_length _ _ _ _ Eset) as Hlen.
    pose proof (slice_buf_set_len _ _ _ _ 8 Eset Hb) as Hnew.
    split; [reflexivity|]. split; [reflexivity|]. split; [exact Hlen|].
    split; [exact Hnew|]. split.
    + intros off m Hoff Hd. apply (slice_buf_set_ne _ _ _ _ off m Eset Hoff). lia.
    + split.
      * intros [Hin1 Hin2]. unfold view_bytes, with_buffer.
        cbn [buffer byteOffset byteLength].
        rewrite slice_slice by lia.
        replace (byteOffset buf + (at_ - byteOffset buf)) with at_ by lia. exact Hnew.
      * rewrite (fromBE64_be_bytes _ _ n); cbn [buffer]; try lia; [|exact Hnew].
        destruct (n <=? JS.MAX_SAFE_INTEGER) eqn:E1.
        -- apply Z.leb_le in E1.
           destruct (JS.MAX_SAFE_INTEGER <? n) eqn:E2; [apply Z.ltb_lt in E2; lia|reflexivity].
        -- apply Z.leb_gt in E1.
           destruct (JS.MAX_SAFE_INTEGER <? n) eqn:E2; [reflexivity|apply Z.ltb_ge in E2; lia].
  - intros Hout. unfold Numbers.setBE64, Numbers.fromBE64, buf_set. rewrite Hb.
    assert (E : (at_ <? 0) || (blen (buffer buf) <? at_ + 8) = true).
    { apply orb_true_iff. destruct Hout; [left; apply Z.ltb_lt|right; apply Z.ltb_lt]; lia. }
    rewrite E. split; reflexivity.
Qed.

(** A view of the last 16 bytes of a buffer of 24: a write at 16 lands in
    the second half of the view. *)
Definition tail_view : Uint8Array := subarray_view (whole (zeros 24)) 8 24.

Lemma setBE64_fromBE64_witness :
  (0 <= 16 /\ 16 + 8 <= blen (buffer tail_view) ->
   exists buf',
     Numbers.setBE64 123456789 16 tail_view = Ok buf'
     /\ byteOffset buf' = byteOffset tail_view /\ byteLength buf' = byteLength tail_view
     /\ blen (buffer buf') = blen (buffer tail_view)
     /\ slice (buffer buf') 16 8 = be_bytes 8 123456789
     /\ (forall off m, 0 <= off -> off + m <= 16 \/ 16 + 8 <= off ->
           slice (buffer buf') off m = slice (buffer tail_view) off m)
     /\ (byteOffset tail_view <= 16 /\ 16 + 8 <= byteOffset tail_view + byteLength tail_view ->
         slice (view_bytes buf') (16 - byteOffset tail_view) 8 = be_bytes 8 123456789)
     /\ Numbers.fromBE64 buf' 16
        = if 123456789 <=? JS.MAX_SAFE_INTEGER then Ok 123456789
          else Throw (Error "Number exceeds MAX_SAFE_INTEGER"))
  /\ (16 < 0 \/ blen (buffer tail_view) < 16 + 8 ->
      Numbers.setBE64 123456789 16 tail_view = Throw RangeError
      /\ Numbers.fromBE64 tail_view 16 = Throw RangeError).
Proof.
  apply (setBE64_fromBE64 123456789 16 tail_view);
    [lia|vm_compute; discriminate|vm_compute; discriminate].
Defined.

(** The start field is read from the first 32 bytes only. *)
Lemma read_start_field_prefix c b b' :
  fieldWidth c = 32 -> 32 <= blen b -> 32 <= blen b' -> slice b' 0 32 = slice b 0 32 ->
  Tiles.read_start_field c b' = Tiles.read_start_field c b.
Proof.
  intros HW Hl Hl' Hs. unfold Tiles.read_start_field, Numbers.fromBE64.
  cbn [buffer subarray_view whole]. rewrite HW.
  assert (H16 : slice b' 16 8 = slice b 16 8).
  { pose proof (slice_slice b' 0 32 16 8 ltac:(lia) ltac:(lia) ltac:(lia) ltac:(lia)) as A.
    pose proof (slice_slice b 0 32 16 8 ltac:(lia) ltac:(lia) ltac:(lia) ltac:(lia)) as B.
    change (0 + 16) with 16 in A, B. rewrite <- A, <- B, Hs. reflexivity. }
  assert (H24 : slice b' 24 8 = slice b 24 8).
  { pose proof (slice_slice b' 0 32 24 8 ltac:(lia) ltac:(lia) ltac:(lia) ltac:(lia)) as A.
    pose proof (slice_slice b 0 32 24 8 ltac:(lia) ltac:(lia) ltac:(lia) ltac:(lia)) as B.
    change (0 + 24) with 24 in A, B. rewrite <- A, <- B, Hs. reflexivity. }
  change (32 - 16) with 16. change (32 - 8) with 24. rewrite H16, H24.
  destruct (blen b' <? 16 + 8) eqn:E1; [apply Z.ltb_lt in E1; lia|].
  destruct (blen b <? 16 + 8) eqn:E2; [apply Z.ltb_lt in E2; lia|].
  destruct (blen b' <? 24 + 8) eqn:E3; [apply Z.ltb_lt in E3; lia|].
  destruct (blen b <? 24 + 8) eqn:E4; [apply Z.ltb_lt in E4; lia|].
  reflexivity.
Qed.

(** Writing the start field and reading it back. *)
Lemma write_start_field_read c data tileid :
  fieldWidth c = 32 -> 0 <= tileHeight c <= JS.MAX_SAFE_INTEGER ->
  0 <= tileid <= JS.MAX_SAFE_INTEGER -> 32 <= blen data ->
  exists data',
    Tiles.write_start_field c data tileid = Ok data' /\ blen data' = blen data
    /\ Tiles.read_start_field c data' = Ok (tileHeight c, tileid)
    /\ forall off n, 32 <= off -> slice data' off n = slice data off n.
Proof.
  intros HW Hh Hid Hl. unfold JS.MAX_SAFE_INTEGER in *.
  assert (Hb : forall n, blen (be_bytes 8 n) = 8) by (intros; apply blen_be_bytes).
  rewrite write_start_field_eq. rewrite HW.
  change (32 - 16) with 16. change (32 - 8) with 24.
  pose proof (buf_set_fits data (be_bytes 8 (tileHeight c)) 16 ltac:(lia)
                ltac:(rewrite Hb; lia)) as E1.
  rewrite E1. cbn [rbind]. pose proof (buf_set_length _ _ _ _ E1) as Hl1.
  set (d1 := take (Z.to_nat 16) data ++ be_bytes 8 (tileHeight c)
             ++ drop (Z.to_nat (16 + blen (be_bytes 8 (tileHeight c)))) data) in *.
  pose proof (buf_set_fits d1 (be_bytes 8 tileid) 24 ltac:(lia)
                ltac:(rewrite Hb; lia)) as E2.
  pose proof (buf_set_length _ _ _ _ E2) as Hl2.
  eexists. split; [exact E2|]. split; [lia|]. split.
  - unfold Tiles.read_start_field. rewrite HW.
    change (32 - 16) with 16. change (32 - 8) with 24.
    rewrite (fromBE64_be_bytes _ 16 (tileHeight c));
      cbn [buffer subarray_view whole]; try lia.
    + rewrite (fromBE64_be_bytes _ 24 tileid);
        cbn [buffer subarray_view whole]; try lia.
      * unfold JS.MAX_SAFE_INTEGER.
        destruct (2 ^ 53 - 1 <? tileHeight c) eqn:F1; [apply Z.ltb_lt in F1; lia|].
        destruct (2 ^ 53 - 1 <? tileid) eqn:F2; [apply Z.ltb_lt in F2; lia|].
        reflexivity.
      * apply (slice_buf_set_len _ _ _ _ 8 E2 (Hb tileid)).
    + rewrite (slice_buf_set_ne _ _ _ _ 16 8 E2) by lia.
      apply (slice_buf_set_len _ _ _ _ 8 E1 (Hb (tileHeight c))).
  - intros off n Ho.
    rewrite (slice_buf_set_ne _ _ _ _ off n E2) by (rewrite ?Hb; lia).
    apply (slice_buf_set_ne _ _ _ _ off n E1); rewrite ?Hb; lia.
Qed.

(** X18.  The start field round trips: after [Tiles.write_start_field]
    wrote the tile height and the tile id into a buffer of at least one
    field, [Tiles.read_start_field] returns both, and the bytes after the
    first field are untouched. *)
Theorem start_field_round_trip c data tileid :
  fieldWidth c = 32 -> 0 <= tileHeight c <= JS.MAX_SAFE_INTEGER ->
  0 <= tileid <= JS.MAX_SAFE_INTEGER -> 32 <= blen data ->
  exists data',
    Tiles.write_start_field c data tileid = Ok data' /\ blen data' = blen data
    /\ Tiles.read_start_field c data' = Ok (tileHeight c, tileid)
    /\ forall off n, 32 <= off -> slice data' off n = slice data off n.
Proof. apply write_start_field_read. Qed.

Lemma start_field_round_trip_witness :
  exists data',
    Tiles.write_start_field (test_cfg 1) (zeros 2176) 5 = Ok data'
    /\ blen data' = blen (zeros 2176)
    /\ Tiles.read_start_field (test_cfg 1) data' = Ok (tileHeight (test_cfg 1), 5)
    /\ forall off n, 32 <= off -> slice data' off n = slice (zeros 2176) off n.
Proof.
  apply (start_field_round_trip (test_cfg 1) (zeros 2176) 5).
  - reflexivity.
  - cbn. unfold JS.MAX_SAFE_INTEGER. lia.
  - unfold JS.MAX_SAFE_INTEGER. lia.
  - rewrite blen_zeros; lia.
Defined.

(** X19.  [bytes_equal] decides equality of byte arrays: it answers [true]
    exactly when both arrays have the same length and the same bytes. *)
Theorem bytes_equal_iff a b : bytes_equal a b = true <-> a = b.
Proof.
  revert b. induction a as [|x a IH]; intros [|y b]; cbn [bytes_equal];
    try (split; [discriminate|discriminate]); [split; reflexivity|].
  rewrite andb_true_iff, IH. split.
  - intros [Hx ->]. apply Byte.byte_dec_bl in Hx. subst. reflexivity.
  - intros [= -> ->]. split; [apply Byte.byte_dec_lb|]; reflexivity.
Qed.


(** ** The fields of a tile ([Tile.append], [Tile.get]) *)

(** A node of the tile is the 32 byte field at its place after
    [nodesStart]. *)
Lemma get_node_field t j :
  fieldWidth (Tile.cfg t) = 32 -> 0 <= nodesStart (Tile.cfg t) ->
  Tile.firstIndex t <= j < Tile.nextIndex t ->
  nodesStart (Tile.cfg t) + (j - Tile.firstIndex t + 1) * 32 <= blen (Tile.data t) ->
  Tile.get t j
  = Ok (slice (Tile.data t) (nodesStart (Tile.cfg t) + (j - Tile.firstIndex t) * 32) 32).
Proof.
  intros HW Hns Hj Hl. unfold Tile.get.
  destruct (j <? Tile.firstIndex t) eqn:E1; [apply Z.ltb_lt in E1; lia|].
  destruct (Tile.nextIndex t <=? j) eqn:E2; [apply Z.leb_le in E2; lia|].
  unfold Tile.read_index. rewrite E1.
  unfold Tile.read_field, Tile.view, Tile.field_window. rewrite HW.
  rewrite subarray_window_inside by lia. cbn [fst snd]. do 2 f_equal. lia.
Qed.

(** [Tile.append] and the reads that follow it. *)
Lemma append_get_spec v t :
  fieldWidth (Tile.cfg t) = 32 -> blen v = 32 -> 0 <= nodesStart (Tile.cfg t) ->
  Tile.firstIndex t <= Tile.nextIndex t ->
  (nodesStart (Tile.cfg t) + (Tile.nextIndex t - Tile.firstIndex t + 1) * 32
   <= blen (Tile.data t) ->
   exists t',
     Tile.append v t = (Ok (Tile.nextIndex t + 1), t')
     /\ Tile.nextIndex t' = Tile.nextIndex t + 1
     /\ Tile.firstIndex t' = Tile.firstIndex t
     /\ Tile.get t' (Tile.nextIndex t) = Ok v
     /\ (forall j, Tile.firstIndex t <= j < Tile.nextIndex t -> Tile.get t' j = Tile.get t j)
     /\ Tile.get t' (Tile.nextIndex t + 1) = Throw MMRIndexRangeError)
  /\ (blen (Tile.data t)
      < nodesStart (Tile.cfg t) + (Tile.nextIndex t - Tile.firstIndex t + 1) * 32 ->
      Tile.append v t = (Throw RangeError, t)).
Proof.
  intros HW Hv Hns Hfn. split.
  - intros Hfit.
    pose proof (buf_set_fits (Tile.data t) v
                  (nodesStart (Tile.cfg t) + (Tile.nextIndex t - Tile.firstIndex t) * 32)
                  ltac:(lia) ltac:(lia)) as Eset.
    pose proof (buf_set_length _ _ _ _ Eset) as Hlen.
    unfold Tile.append, Tile.write_field, mbind. rewrite HW, Eset.
    eexists. split; [reflexivity|].
    set (t' := Tile.with_nextIndex _ _).
    assert (Hc' : Tile.cfg t' = Tile.cfg t) by reflexivity.
    assert (Hf' : Tile.firstIndex t' = Tile.firstIndex t) by reflexivity.
    assert (Hn' : Tile.nextIndex t' = Tile.nextIndex t + 1) by reflexivity.
    assert (Hd' : buf_set (Tile.data t) v
                    (nodesStart (Tile.cfg t)
                     + (Tile.nextIndex t - Tile.firstIndex t) * 32)
                  = Ok (Tile.data t')) by exact Eset.
    assert (Hl' : blen (Tile.data t') = blen (Tile.data t)) by exact Hlen.
    clearbody t'. clear Eset Hlen.
    split; [exact Hn'|]. split; [exact Hf'|]. split.
    + rewrite get_node_field; rewrite ?Hc', ?Hf', ?Hn', ?Hl'; try assumption; try lia.
      f_equal. apply (slice_buf_set_len _ _ _ _ 32 Hd' Hv).
    + split.
      * intros j Hj.
        rewrite !get_node_field; rewrite ?Hc', ?Hf', ?Hn', ?Hl'; try assumption; try lia.
        f_equal. apply (slice_buf_set_ne _ _ _ _ _ _ Hd'); lia.
      * unfold Tile.get. rewrite Hf', Hn'.
        destruct (_ <? _) eqn:E1; [apply Z.ltb_lt in E1; lia|].
        destruct (_ <=? _) eqn:E2; [reflexivity|apply Z.leb_gt in E2; lia].
  - intros Hout. unfold Tile.append, Tile.write_field, mbind, buf_set.
    rewrite HW, Hv.
    destruct (_ <? 0) eqn:E1; [reflexivity|].
    destruct (blen (Tile.data t) <? _) eqn:E2;
      [reflexivity|apply Z.ltb_ge in E2; lia].
Qed.

(** X20.  [Tile.append] followed by [Tile.get].  When the field fits the
    buffer, [append] returns the next index, [get] at the old [nextIndex]
    returns the value just written, the earlier nodes read as before and the
    index after it is out of range.  When the field does not fit, [append]
    throws a [RangeError] and leaves the tile as it was. *)
Theorem tile_append_then_get v t :
  fieldWidth (Tile.cfg t) = 32 -> blen v = 32 -> 0 <= nodesStart (Tile.cfg t) ->
  Tile.firstIndex t <= Tile.nextIndex t ->
  (nodesStart (Tile.cfg t) + (Tile.nextIndex t - Tile.firstIndex t + 1) * 32
   <= blen (Tile.data t) ->
   exists t',
     Tile.append v t = (Ok (Tile.nextIndex t + 1), t')
     /\ Tile.nextIndex t' = Tile.nextIndex t + 1
     /\ Tile.firstIndex t' = Tile.firstIndex t
     /\ Tile.get t' (Tile.nextIndex t) = Ok v
     /\ (forall j, Tile.firstIndex t <= j < Tile.nextIndex t -> Tile.get t' j = Tile.get t j)
     /\ Tile.get t' (Tile.nextIndex t + 1) = Throw MMRIndexRangeError)
  /\ (blen (Tile.data t)
      < nodesStart (Tile.cfg t) + (Tile.nextIndex t - Tile.firstIndex t + 1) * 32 ->
      Tile.append v t = (Throw RangeError, t)).
Proof. apply append_get_spec. Qed.

Lemma tile_append_then_get_witness :
  exists t0,
    fst (Tile.create 64 (test_cfg 1) None) = Ok t0
    /\ ((nodesStart (Tile.cfg t0) + (Tile.nextIndex t0 - Tile.firstIndex t0 + 1) * 32
         <= blen (Tile.data t0) ->
         exists t',
           Tile.append (num_field 7) t0 = (Ok (Tile.nextIndex t0 + 1), t')
           /\ Tile.nextIndex t' = Tile.nextIndex t0 + 1
           /\ Tile.firstIndex t' = Tile.firstIndex t0
           /\ Tile.get t' (Tile.nextIndex t0) = Ok (num_field 7)
           /\ (forall j, Tile.firstIndex t0 <= j < Tile.nextIndex t0 ->
                 Tile.get t' j = Tile.get t0 j)
           /\ Tile.get t' (Tile.nextIndex t0 + 1) = Throw MMRIndexRangeError)
        /\ (blen (Tile.data t0)
            < nodesStart (Tile.cfg t0) + (Tile.nextIndex t0 - Tile.firstIndex t0 + 1) * 32 ->
            Tile.append (num_field 7) t0 = (Throw RangeError, t0))).
Proof.
  eexists. split; [vm_compute; reflexivity|].
  apply tile_append_then_get.
  - reflexivity.
  - reflexivity.
  - vm_compute. discriminate.
  - vm_compute. discriminate.
Defined.

(** ** The storage provider *)

Lemma last_row_spec (d : SQLite.db) :
  match SQLite.last_row d with
  | None => d = ∅
  | Some (k, v) => d !! k = Some v /\ forall k', is_Some (d !! k') -> k' <= k
  end.
Proof.
  unfold SQLite.last_row.
  apply (map_fold_weak_ind
           (fun (r : option (Z * (bytes * Z))) (m : SQLite.db) =>
              match r with
              | None => m = ∅
              | Some (k, v) => m !! k = Some v /\ forall k', is_Some (m !! k') -> k' <= k
              end)).
  - reflexivity.
  - intros i x m r Hi IH. destruct r as [[k v]|].
    + destruct IH as [Hk Hmax]. destruct (k <? i) eqn:E.
      * apply Z.ltb_lt in E. split; [apply lookup_insert_eq|].
        intros k' Hk'. destruct (decide (k' = i)) as [->|Hne]; [lia|].
        rewrite lookup_insert_ne in Hk' by congruence. specialize (Hmax k' Hk'). lia.
      * apply Z.ltb_ge in E. assert (k <> i) by (intros ->; congruence).
        split; [rewrite lookup_insert_ne by congruence; exact Hk|].
        intros k' Hk'. destruct (decide (k' = i)) as [->|Hne]; [lia|].
        rewrite lookup_insert_ne in Hk' by congruence. apply Hmax. exact Hk'.
    + subst m. split; [apply lookup_insert_eq|].
      intros k' Hk'. destruct (decide (k' = i)) as [->|Hne]; [lia|].
      rewrite lookup_insert_ne, lookup_empty in Hk' by congruence.
      destruct Hk' as [? Hk']. discriminate.
Qed.

(** X23.  [read_head] answers with the row of the largest tile id and with
    its update counter, and throws [EmptyError] exactly on the empty table;
    it never changes the table. *)
Theorem read_head_is_largest_id (d : SQLite.db) :
  snd (SQLite.read_head d) = d
  /\ (fst (SQLite.read_head d) = Throw EmptyError <-> d = ∅)
  /\ forall data version,
       fst (SQLite.read_head d) = Ok (data, version) ->
       exists id counter,
         version = Some counter /\ d !! id = Some (data, counter)
         /\ forall id', is_Some (d !! id') -> id' <= id.
Proof.
  unfold SQLite.read_head. pose proof (last_row_spec d) as H.
  destruct (SQLite.last_row d) as [[k [data counter]]|]; cbn [fst snd].
  - destruct H as [Hk Hmax]. split; [reflexivity|]. split.
    + split; [discriminate|]. intros ->. rewrite lookup_empty in Hk. discriminate.
    + intros data' version [= <- <-]. exists k, counter. repeat split; assumption.
  - split; [reflexivity|]. split; [split; [intros _; exact H|reflexivity]|].
    intros data version Hd. discriminate.
Qed.

(** X24.  Optimistic concurrency of the table.  A tile id can be inserted
    once: a second insert throws [ExistsError].  A replace needs the counter
    of the row: the first [replace] with counter 0 succeeds and moves the
    counter to 1, so a second [replace] still holding counter 0 throws
    [ChangedError]; failed calls leave the table as it was and other rows are
    never touched. *)
Theorem insert_once_replace_in_turn id a b z (d : SQLite.db) :
  d !! id = None ->
  exists d1 d2,
    SQLite.insert id a d = (Ok tt, d1)
    /\ SQLite.insert id b d1 = (Throw ExistsError, d1)
    /\ SQLite.read id d1 = (Ok (a, None), d1)
    /\ SQLite.replace id b 0 d1 = (Ok tt, d2)
    /\ SQLite.replace id z 0 d2 = (Throw ChangedError, d2)
    /\ SQLite.read id d2 = (Ok (b, None), d2)
    /\ d2 !! id = Some (b, 1)
    /\ forall id', id' <> id -> d2 !! id' = d !! id'.
Proof.
  intros Hnone. exists (<[id := (a, 0)]> d), (<[id := (b, 0 + 1)]> (<[id := (a, 0)]> d)).
  unfold SQLite.insert, SQLite.read, SQLite.replace.
  rewrite Hnone. rewrite !lookup_insert_eq. cbn [Z.eqb].
  repeat split; try reflexivity.
  intros id' Hne. rewrite !lookup_insert_ne by congruence. reflexivity.
Qed.

Lemma insert_once_replace_in_turn_witness :
  exists d1 d2,
    SQLite.insert 3 (num_field 1) ∅ = (Ok tt, d1)
    /\ SQLite.insert 3 (num_field 2) d1 = (Throw ExistsError, d1)
    /\ SQLite.read 3 d1 = (Ok (num_field 1, None), d1)
    /\ SQLite.replace 3 (num_field 2) 0 d1 = (Ok tt, d2)
    /\ SQLite.replace 3 (num_field 4) 0 d2 = (Throw ChangedError, d2)
    /\ SQLite.read 3 d2 = (Ok (num_field 2, None), d2)
    /\ d2 !! 3 = Some (num_field 2, 1)
    /\ forall id', id' <> 3 -> d2 !! id' = (∅ : SQLite.db) !! id'.
Proof.
  apply (insert_once_replace_in_turn 3 (num_field 1) (num_field 2) (num_field 4) ∅).
  apply lookup_empty.
Defined.


(** ** What every tile carries, and the round trip through the store *)

Lemma read_ancestor_peaks_loop_ext fuel t1 t2 : forall ps i acc,
  Tile.cfg t1 = Tile.cfg t2 -> blen (Tile.data t1) = blen (Tile.data t2) ->
  Tile.read_ancestor_peaks_loop fuel t1 ps i acc
  = Tile.read_ancestor_peaks_loop fuel t2 ps i acc.
Proof.
  induction ps as [|p ps IH]; intros i acc Hc Hl; [reflexivity|].
  cbn [Tile.read_ancestor_peaks_loop]. unfold Tile.field_window. rewrite Hc, Hl.
  destruct (index_height fuel p) as [g| |]; cbn [rbind]; try reflexivity.
  destruct (g <? _); apply IH; assumption.
Qed.

Lemma read_ancestor_peaks_map_ext fuel t1 t2 :
  Tile.cfg t1 = Tile.cfg t2 -> Tile.firstIndex t1 = Tile.firstIndex t2 ->
  blen (Tile.data t1) = blen (Tile.data t2) ->
  Tile.read_ancestor_peaks_map fuel t1 = Tile.read_ancestor_peaks_map fuel t2.
Proof.
  intros Hc Hf Hl. unfold Tile.read_ancestor_peaks_map. rewrite Hf.
  destruct (_ =? 0); [reflexivity|].
  destruct (peaks fuel _) as [ps| |]; cbn [rbind]; try reflexivity.
  apply read_ancestor_peaks_loop_ext; assumption.
Qed.

(** The ancestor peaks of a tile are the map its constructor read. *)
Definition anc_ok (fuel : nat) (t : Tile.t) : Prop :=
  if 0 <? Tile.firstIndex t
  then Tile.read_ancestor_peaks_map fuel (Tile.with_ancestorPeaks t ∅)
       = Ok (Tile.ancestorPeaks t)
  else Tile.ancestorPeaks t = ∅.

Lemma anc_ok_frame fuel t t' : same_frame t t' -> anc_ok fuel t -> anc_ok fuel t'.
Proof.
  intros (F1 & F2 & F3 & F4 & F5 & F6 & F7). unfold anc_ok. rewrite F3, F5.
  destruct (0 <? Tile.firstIndex t); [|exact (fun H => H)].
  intros <-. apply read_ancestor_peaks_map_ext; assumption.
Qed.

Lemma constructor_anc fuel c d tileid lastIndex t :
  Tile.constructor fuel c d tileid lastIndex = Ok t -> anc_ok fuel t.
Proof.
  unfold Tile.constructor. intros H.
  destruct (mmr_index fuel (tileid * JS.shl 1 (tileHeight c))) as [first| |];
    cbn [rbind] in H; try discriminate H.
  destruct (_ <? first); [discriminate H|].
  destruct (mmr_index fuel _) as [lastLeaf| |]; cbn [rbind] in H; try discriminate H.
  destruct (0 <? first) eqn:E0.
  - destruct (Tile.read_ancestor_peaks_map fuel _) as [m| |] eqn:Em; cbn [rbind] in H;
      try discriminate H.
    injection H as <-. unfold anc_ok. cbn [Tile.with_ancestorPeaks Tile.firstIndex].
    rewrite E0. exact Em.
  - injection H as <-. unfold anc_ok. cbn [Tile.firstIndex]. rewrite E0. reflexivity.
Qed.

Definition tile_ok (fuel : nat) (c : TileFormat) (t : Tile.t) : Prop :=
  tile_inv c t
  /\ Tiles.read_start_field c (Tile.data t) = Ok (tileHeight c, Tile.id t)
  /\ anc_ok fuel t
  /\ Tile.lastLeafMMRIndex t
     = Ideal.mmr_index ((Tile.id t + 1) * 2 ^ tileHeight c - 1).

Lemma header_kept c d d' src off :
  fieldWidth c = 32 -> 32 <= blen d -> buf_set d src off = Ok d' -> 32 <= off ->
  Tiles.read_start_field c d' = Tiles.read_start_field c d.
Proof.
  intros HW Hl Hset Ho. pose proof (buf_set_length _ _ _ _ Hset) as Hl'.
  apply read_start_field_prefix; try assumption; try lia.
  apply (slice_buf_set_ne _ _ _ _ 0 32 Hset); lia.
Qed.

Lemma read_start_field_len c b x :
  fieldWidth c = 32 -> Tiles.read_start_field c b = Ok x -> 32 <= blen b.
Proof.
  intros HW. unfold Tiles.read_start_field, Numbers.fromBE64.
  cbn [buffer subarray_view whole]. rewrite HW.
  change (32 - 16) with 16. change (32 - 8) with 24.
  destruct ((16 <? 0) || (blen b <? 16 + 8)); cbn [rbind]; [discriminate|].
  destruct (JS.MAX_SAFE_INTEGER <? _); cbn [rbind]; [discriminate|].
  destruct (blen b <? 24 + 8) eqn:E; [cbn; discriminate|].
  intros _. apply Z.ltb_ge in E. lia.
Qed.

Lemma tile_inv_len c t : cfg_ok c -> tile_inv c t -> 2080 <= blen (Tile.data t).
Proof.
  intros (_ & _ & _ & _ & HH & _) (_ & [Hr0 Hr1] & _ & Hlen & _).
  pose proof (tile_first_mono c (Tile.id t) (Tile.id t + 1) ltac:(lia) ltac:(lia)). lia.
Qed.

Lemma tile_ok_append fuel c t v :
  cfg_ok c -> blen v = 32 -> tile_ok fuel c t -> tile_ok fuel c (snd (Tile.append v t)).
Proof.
  intros Hc Hv (Hinv & Hhdr & Hanc & Hll).
  pose proof (tile_inv_append c t v Hc Hv Hinv) as Hinv'.
  pose proof (tile_inv_len c t Hc Hinv) as Hlen.
  pose proof Hc as (HW & HP & HN & _). pose proof Hinv as (Hcfg & _ & _ & _ & Hn).
  destruct (append_spec v t) as [(_ & Hset & _ & Hfr)|[_ ->]];
    [|split; [exact Hinv|split; [exact Hhdr|split; assumption]]].
  split; [exact Hinv'|]. split; [|split].
  - destruct Hfr as (_ & F2 & _). rewrite F2.
    rewrite (header_kept c (Tile.data t) _ v _ HW ltac:(lia) Hset); [exact Hhdr|].
    rewrite Hcfg, HN, HW. lia.
  - eapply anc_ok_frame; eassumption.
  - destruct Hfr as (_ & F2 & _ & F4 & _). rewrite F4, F2. exact Hll.
Qed.

Lemma tile_ok_create fuel c parent t :
  cfg_ok c -> (33 <= fuel)%nat ->
  id_in_range c (match parent with Some p => Tile.id p + 1 | None => 0 end) ->
  fst (Tile.create fuel c parent) = Ok t -> tile_ok fuel c t.
Proof.
  intros Hc Hf Hr Hk.
  destruct (create_inv fuel c parent t Hc Hf Hr Hk) as (Hinv & _ & Hid).
  split; [exact Hinv|]. revert Hk. unfold Tile.create.
  set (tileid := match parent with Some p => Tile.id p + 1 | None => 0 end) in *.
  rewrite (max_tile_size_exact fuel c tileid Hc Hr Hf). cbn [rbind].
  destruct (alloc _) as [d0| |] eqn:Ea; cbn [rbind fst]; try discriminate.
  apply alloc_length in Ea as [Hsz Hl0].
  pose proof Hc as (HW & HP & HN & HM & HH & HL). pose proof Hr as [Hr0 Hr1].
  pose proof (tile_first_mono c tileid (tileid + 1) ltac:(lia) ltac:(lia)) as Hmono.
  pose proof (pow2_pos (tileHeight c) ltac:(lia)) as Hp.
  assert (Hidb : tileid < 2 ^ 30) by nia.
  destruct (write_start_field_read c d0 tileid HW) as (d & Ew & Hlw & Hread & _);
    [unfold JS.MAX_SAFE_INTEGER; lia..|lia|].
  rewrite Ew. destruct parent as [p|].
  - destruct (Tile.next_peak_stack fuel p) as [[stack| |] p']; cbn [fst];
      try discriminate.
    destruct (buf_set d stack (peaksStart c)) as [d'| |] eqn:Es; cbn [rbind];
      try discriminate.
    intros Hk. pose proof (constructor_spec _ _ _ _ _ _ Hk)
      as (first & lastLeaf & _ & _ & _ & K2 & K3 & _).
    destruct (constructor_exact _ _ _ _ _ _ Hc Hr Hf Hk) as (_ & _ & _ & _ & K5 & _).
    split; [|split; [eapply constructor_anc; exact Hk|rewrite K5, K2; reflexivity]].
    rewrite K2, K3. rewrite (header_kept c d d' stack _ HW ltac:(lia) Es ltac:(lia)).
    exact Hread.
  - cbn [fst]. intros Hk. pose proof (constructor_spec _ _ _ _ _ _ Hk)
      as (first & lastLeaf & _ & _ & _ & K2 & K3 & _).
    destruct (constructor_exact _ _ _ _ _ _ Hc Hr Hf Hk) as (_ & _ & _ & _ & K5 & _).
    split; [|split; [eapply constructor_anc; exact Hk|rewrite K5, K2; reflexivity]].
    rewrite K2, K3. exact Hread.
Qed.

Lemma tile_ok_load fuel c storeData t :
  cfg_ok c -> (33 <= fuel)%nat -> id_in_range c (Tile.id t) ->
  Tile.load fuel c storeData = Ok t -> tile_ok fuel c t.
Proof.
  intros Hc Hf Hr Hk.
  destruct (load_inv fuel c storeData t Hc Hf Hr Hk) as (Hinv & _).
  split; [exact Hinv|]. pose proof Hc as (HW & _).
  revert Hk. unfold Tile.load.
  destruct (Tiles.read_start_field c storeData) as [[h tileid]| |] eqn:Er;
    cbn [rbind]; try discriminate.
  pose proof (read_start_field_len _ _ _ HW Er) as Hls.
  destruct (Tiles.max_tile_size fuel c tileid) as [size| |]; cbn [rbind]; try discriminate.
  destruct (alloc size) as [d0| |]; cbn [rbind]; try discriminate.
  destruct (buf_set d0 storeData 0) as [d1| |] eqn:Es; cbn [rbind]; try discriminate.
  destruct (tileHeight c =? h) eqn:Eh; cbn [negb]; [|discriminate].
  apply Z.eqb_eq in Eh. subst h.
  destruct (mmr_index fuel _) as [first| |]; cbn [rbind]; try discriminate.
  intros Hk. pose proof (constructor_spec _ _ _ _ _ _ Hk)
    as (first' & lastLeaf & _ & _ & _ & K2 & K3 & _).
  rewrite K2 in Hr.
  destruct (constructor_exact _ _ _ _ _ _ Hc Hr Hf Hk) as (_ & _ & _ & _ & K5 & _).
  split; [|split; [eapply constructor_anc; exact Hk|rewrite K5, K2; reflexivity]].
  rewrite K2, K3. rewrite <- Er.
  pose proof (buf_set_length _ _ _ _ Es) as Hl1.
  pose proof (buf_set_Ok _ _ _ _ Es) as (_ & Hfit & _).
  apply read_start_field_prefix; try assumption; try lia.
  pose proof (slice_buf_set_in _ _ _ _ 0 32 Es ltac:(lia) ltac:(lia) ltac:(lia)) as A.
  exact A.
Qed.

Lemma next_peak_stack_header fuel c p :
  fieldWidth c = 32 -> peaksStart (Tile.cfg p) = 32 -> 32 <= blen (Tile.data p) ->
  Tiles.read_start_field c (Tile.data (snd (Tile.next_peak_stack fuel p)))
  = Tiles.read_start_field c (Tile.data p).
Proof.
  intros HW HP Hl. unfold Tile.next_peak_stack.
  destruct (ones fuel (Tile.id p)) as [pc| |]; cbn [rbind snd]; try reflexivity.
  destruct (trailing_zeros64 (Tile.id p + 1)) as [pop| |]; cbn [rbind snd];
    try reflexivity.
  destruct (subarray_window _ _ _) as [off n] eqn:Ew.
  destruct (Tile.read_index p (Tile.last_index p)) as [ln| |]; cbn [rbind snd];
    try reflexivity.
  destruct (_ <? 0) eqn:Eat; cbn [orb snd]; [reflexivity|].
  destruct (n <? _); cbn [snd]; [reflexivity|].
  destruct (buf_set _ _ _) as [d| |] eqn:E; cbn [rbind snd Tile.with_data Tile.data];
    try reflexivity.
  apply Z.ltb_ge in Eat.
  assert (off = 32).
  { unfold subarray_window in Ew. rewrite HP in Ew. cbn [Z.ltb Z.compare] in Ew.
    injection Ew as <- _. lia. }
  subst off. apply (header_kept c _ _ _ _ HW Hl E). lia.
Qed.

Lemma reachable_ok fuel c t :
  cfg_ok c -> (33 <= fuel)%nat -> (forall b, blen (hash_function c b) = 32) ->
  reachable fuel c t -> tile_ok fuel c t.
Proof.
  intros Hc Hf Hh Hr. induction Hr.
  - eapply (tile_ok_create fuel c None); try eassumption.
    apply first_tile_in_range; assumption.
  - eapply (tile_ok_create fuel c (Some p)); eassumption.
  - destruct IHHr as (Hinv & Hhdr & Hanc & Hll).
    pose proof (tile_inv_len c p Hc Hinv) as Hlen.
    pose proof Hc as (HW & HP & _). pose proof Hinv as (Hcfg & _).
    revert H. unfold Tile.create.
    destruct (rbind _ _) as [d| |]; cbn [snd];
      [|intros [= <-]; split; [exact Hinv|split; [exact Hhdr|split; assumption]]..].
    pose proof (next_peak_stack_frame fuel p) as [Hfr Hn].
    pose proof (next_peak_stack_header fuel c p HW ltac:(rewrite Hcfg; exact HP)
                  ltac:(lia)) as Hh'.
    assert (Hok : tile_ok fuel c (snd (Tile.next_peak_stack fuel p))).
    { split; [|split; [|split]].
      - destruct Hinv as (I1 & I2 & I3 & I4 & I5).
        destruct Hfr as (F1 & F2 & F3 & F4 & F5 & F6 & F7).
        unfold tile_inv, id_in_range in *. rewrite F1, F2, F3, F6, Hn.
        repeat split; assumption || lia.
      - rewrite Hh'. destruct Hfr as (_ & F2 & _). rewrite F2. exact Hhdr.
      - eapply anc_ok_frame; eassumption.
      - destruct Hfr as (_ & F2 & _ & F4 & _). rewrite F4, F2. exact Hll. }
    destruct (Tile.next_peak_stack fuel p) as [[stack| |] p1]; cbn [snd] in *;
      intros [= <-]; exact Hok.
  - eapply tile_ok_load; eassumption.
  - apply (append_leaf_preserves (fun v => blen v = 32) (tile_ok fuel c)); try assumption.
    + intros t1 v1 Hv1. apply tile_ok_append; assumption.
    + destruct IHHr as ((-> & _) & _). exact Hh.
  - apply tile_ok_append; assumption.
Qed.

(** X21.  Every tile the code produces carries its start field: whether it
    was created (first or after a parent), loaded, or extended by
    [append_leaf] or [append], [Tiles.read_start_field] on its buffer returns
    the configured tile height and the tile's own id. *)
Theorem reachable_tile_has_start_field fuel c t :
  cfg_ok c -> (33 <= fuel)%nat -> (forall b, blen (hash_function c b) = 32) ->
  reachable fuel c t ->
  Tiles.read_start_field c (Tile.data t) = Ok (tileHeight c, Tile.id t).
Proof.
  intros Hc Hf Hh Hr. destruct (reachable_ok fuel c t Hc Hf Hh Hr) as (_ & H & _).
  exact H.
Qed.

Lemma reachable_tile_has_start_field_witness :
  exists t0,
    fst (Tile.create 64 (test_cfg 1) None) = Ok t0
    /\ let t := snd (Tile.append_leaf 64 (num_field 0) t0) in
       Tiles.read_start_field (test_cfg 1) (Tile.data t)
       = Ok (tileHeight (test_cfg 1), Tile.id t).
Proof.
  eexists. split; [vm_compute; reflexivity|].
  apply (reachable_tile_has_start_field 64 (test_cfg 1)).
  - apply test_cfg_ok. lia.
  - lia.
  - apply prefix_hash_length.
  - apply reach_append_leaf; [|reflexivity].
    apply reach_create_first. vm_compute. reflexivity.
Defined.

Lemma boundary_peaks_short h tileid : (length (boundary_peaks h tileid) <= 30)%nat.
Proof. unfold boundary_peaks. apply leaf_peaks_length. Qed.

Lemma field_window_peak tile k :
  fieldWidth (Tile.cfg tile) = 32 -> peaksStart (Tile.cfg tile) = 32 ->
  0 <= k -> 64 + 32 * k <= blen (Tile.data tile) ->
  Tile.field_window tile k (peaksStart (Tile.cfg tile)) = (32 + 32 * k, 32).
Proof.
  intros HW HP Hk Hl. unfold Tile.field_window. rewrite HW, HP.
  rewrite subarray_window_inside by lia. f_equal; lia.
Qed.

(** A stored image whose start field names the tile and that holds [n]
    nodes loads as that tile. *)
Lemma load_row fuel c bs tileid n :
  cfg_ok c -> (64 <= fuel)%nat -> small_tile c tileid ->
  Tiles.read_start_field c bs = Ok (tileHeight c, tileid) ->
  blen bs = 2080 + 32 * n -> 1 <= n <= tile_first c (tileid + 1) - tile_first c tileid ->
  exists T,
    Tile.load fuel c bs = Ok T
    /\ Tile.cfg T = c /\ Tile.id T = tileid
    /\ Tile.firstIndex T = tile_first c tileid
    /\ Tile.lastLeafMMRIndex T = Ideal.mmr_index ((tileid + 1) * 2 ^ tileHeight c - 1)
    /\ Tile.nextIndex T = tile_first c tileid + n
    /\ blen (Tile.data T) = 2080 + 32 * (tile_first c (tileid + 1) - tile_first c tileid)
    /\ (forall off m, 0 <= off -> 0 <= m -> off + m <= blen bs ->
          slice (Tile.data T) off m = slice bs off m)
    /\ (forall p w, Tile.ancestorPeaks T !! p = Some w ->
          exists k : nat,
            boundary_peaks (tileHeight c) tileid !! k = Some p
            /\ tileHeight c - 1 <= Ideal.index_height p
            /\ w = (32 + 32 * Z.of_nat k, 32))
    /\ (forall p, 1 <= tileid -> In p (boundary_peaks (tileHeight c) tileid) ->
          is_Some (Tile.ancestorPeaks T !! p)).
Proof.
  intros Hc Hf Hs Hh Hlen Hn. pose proof Hc as (HW & HP & HN & HM & HH & HL).
  pose proof (small_tile_in_range _ _ Hs) as Hir.
  destruct (small_tile_bounds c tileid ltac:(lia) Hs) as (Hb1 & Hb2 & Hb3 & Hb4).
  pose proof Hs as [Hid0 Hid1]. pose proof (pow2_pos (tileHeight c) ltac:(lia)) as Hp.
  pose proof (pow2_le_mono (tileHeight c) 29 ltac:(lia)) as Hp29.
  assert (Hidb : tileid < 2 ^ 29) by nia.
  unfold Tile.load.
  rewrite Hh. cbn [rbind].
  rewrite (max_tile_size_exact fuel c tileid Hc Hir) by lia. cbn [rbind].
  set (size := 2080 + (tile_first c (tileid + 1) - tile_first c tileid) * 32).
  unfold alloc. destruct (size <? 0) eqn:Es; [apply Z.ltb_lt in Es; unfold size in Es; lia|].
  cbn [rbind].
  pose proof (buf_set_fits (zeros size) bs 0 ltac:(lia)) as Eset.
  rewrite blen_zeros in Eset by (unfold size; lia).
  specialize (Eset ltac:(unfold size; lia)). rewrite Eset. cbn [rbind].
  set (d := take (Z.to_nat 0) (zeros size) ++ bs ++ drop (Z.to_nat (0 + blen bs)) (zeros size))
    in *.
  pose proof (buf_set_length _ _ _ _ Eset) as Hdl. rewrite blen_zeros in Hdl by (unfold size; lia).
  rewrite Z.eqb_refl. cbn [negb].
  rewrite shl_1 by lia. rewrite mmr_index_exact by (try lia; nia). cbn [rbind].
  fold (tile_first c tileid). rewrite HN, HW.
  replace ((blen bs - 2080) / 32) with n
    by (rewrite Hlen; replace (2080 + 32 * n - 2080) with (n * 32) by lia;
        symmetry; apply Z.div_mul; lia).
  unfold Tile.constructor. rewrite shl_1 by lia.
  rewrite !mmr_index_exact by (try lia; nia). cbn [rbind]. fold (tile_first c tileid).
  destruct (tile_first c tileid + n - 1 <? tile_first c tileid) eqn:E1;
    [apply Z.ltb_lt in E1; lia|].
  assert (Hslice : forall off m, 0 <= off -> 0 <= m -> off + m <= blen bs ->
            slice d off m = slice bs off m).
  { intros off m Ho Hm Hb. replace off with (0 + off) at 1 by lia.
    rewrite (slice_buf_set_in _ _ _ _ off m Eset) by lia. reflexivity. }
  destruct (0 <? tile_first c tileid) eqn:E2.
  - apply Z.ltb_lt in E2.
    assert (Hid1' : 1 <= tileid).
    { destruct (Z.eq_dec tileid 0) as [->|]; [|lia]. unfold tile_first in E2.
      rewrite Z.mul_0_l in E2. cbn in E2. lia. }
    unfold Tile.read_ancestor_peaks_map. cbn [Tile.firstIndex Tile.cfg].
    destruct (tile_first c tileid =? 0) eqn:E3; [apply Z.eqb_eq in E3; lia|].
    rewrite peaks_exact by lia. cbn [rbind].
    replace (Ideal.peaks (tile_first c tileid - 1))
      with (boundary_peaks (tileHeight c) tileid)
      by (symmetry; apply boundary_peaks_spec; unfold tile_first in *; lia).
    set (tile0 := {| Tile.cfg := c; Tile.id := tileid; Tile.firstIndex := tile_first c tileid;
                     Tile.lastLeafMMRIndex :=
                       Ideal.mmr_index ((tileid + 1) * 2 ^ tileHeight c - 1);
                     Tile.nextIndex := tile_first c tileid + n - 1 + 1;
                     Tile.ancestorPeaks := ∅; Tile.data := d |}).
    assert (Hbp : forall p, In p (boundary_peaks (tileHeight c) tileid) ->
              0 <= p < tile_first c tileid).
    { intros p Hin. apply (boundary_peaks_bounds (tileHeight c) tileid); try lia; try assumption.
      unfold tile_first in *. lia. }
    destruct (read_ancestor_peaks_loop_spec fuel tile0 (boundary_peaks (tileHeight c) tileid)
                0 ∅ ltac:(lia)) as (m & Hm & Hsound & _ & Hcomp).
    { rewrite List.Forall_forall. intros p Hin. specialize (Hbp p Hin). lia. }
    rewrite Hm. cbn [rbind]. eexists. split; [reflexivity|].
    unfold tile0 at 1 2 3 4 5 6 7 8.
    cbn [Tile.with_ancestorPeaks Tile.cfg Tile.id Tile.firstIndex Tile.lastLeafMMRIndex
           Tile.nextIndex Tile.data Tile.ancestorPeaks].
    split; [reflexivity|]. split; [reflexivity|]. split; [reflexivity|].
    split; [reflexivity|]. split; [lia|]. split; [unfold size in Hdl; lia|].
    split; [exact Hslice|]. split.
    + intros p w Hpw. destruct (Hsound p w Hpw) as [He|(k & Hk & Hhk & Hw)].
      { rewrite lookup_empty in He. discriminate. }
      exists k. split; [exact Hk|]. split; [exact Hhk|].
      rewrite Hw. rewrite Z.add_0_l.
      apply lookup_lt_Some in Hk.
      pose proof (boundary_peaks_short (tileHeight c) tileid) as Hll.
      apply field_window_peak; cbn [tile0 Tile.cfg Tile.data]; try assumption; lia.
    + intros p _ Hin. apply Hcomp; [exact Hin|].
      pose proof (boundary_peaks_heights (tileHeight c) tileid ltac:(lia) ltac:(lia)
                    ltac:(nia)) as Hhs.
      rewrite List.Forall_forall in Hhs. specialize (Hhs p Hin).
      cbn [tile0 Tile.cfg]. lia.
  - apply Z.ltb_ge in E2. eexists. split; [reflexivity|].
    cbn [Tile.cfg Tile.id Tile.firstIndex Tile.lastLeafMMRIndex
           Tile.nextIndex Tile.data Tile.ancestorPeaks].
    split; [reflexivity|]. split; [reflexivity|]. split; [reflexivity|].
    split; [reflexivity|]. split; [lia|]. split; [unfold size in Hdl; lia|].
    split; [exact Hslice|]. split.
    + intros p w Hpw. rewrite lookup_empty in Hpw. discriminate.
    + intros p Hid1' _. specialize (Hb4 Hid1'). lia.
Qed.

(** Committing a tile that satisfies the tile invariant and reading it back. *)
Lemma commit_get_row fuel c t (d : SQLite.db) :
  cfg_ok c -> (64 <= fuel)%nat -> tile_ok fuel c t ->
  (Tile.id t + 1) * 2 ^ tileHeight c < 2 ^ 29 ->
  Tile.firstIndex t < Tile.nextIndex t -> d !! Tile.id t = None ->
  exists d' t',
    TileStore.commit c t None d = (Ok tt, d')
    /\ TileStore.get fuel c (Tile.id t) d' = (Ok (t', None), d')
    /\ Tile.id t' = Tile.id t /\ Tile.firstIndex t' = Tile.firstIndex t
    /\ Tile.nextIndex t' = Tile.nextIndex t
    /\ Tile.lastLeafMMRIndex t' = Tile.lastLeafMMRIndex t
    /\ forall j, Tile.get t' j = Tile.get t j.
Proof.
  intros Hc Hf (Hinv & Hhdr & Hanc & Hll) Hsmall Hne Hnone.
  pose proof Hc as (HW & HP & HN & HM & HH & HL).
  pose proof Hinv as (Hcfg & Hir & Hfirst & Hlen & Hnext).
  assert (Hs : small_tile c (Tile.id t)) by (split; [apply Hir|exact Hsmall]).
  set (n := Tile.nextIndex t - Tile.firstIndex t).
  assert (Hn : 1 <= n <= tile_first c (Tile.id t + 1) - tile_first c (Tile.id t))
    by (unfold n; lia).
  set (L := 2080 + n * 32).
  assert (HL0 : 0 <= L <= blen (Tile.data t)) by (unfold L; lia).
  set (bs := slice (Tile.data t) 0 L).
  assert (Hbl : blen bs = 2080 + 32 * n)
    by (unfold bs; rewrite slice_length by lia; unfold L; lia).
  assert (Hbs : forall off m, 0 <= off -> 0 <= m -> off + m <= blen bs ->
            slice bs off m = slice (Tile.data t) off m).
  { intros off m Ho Hm Hb. unfold bs.
    rewrite slice_slice by lia. rewrite Z.add_0_l. reflexivity. }
  assert (Hhdr' : Tiles.read_start_field c bs = Ok (tileHeight c, Tile.id t)).
  { rewrite <- Hhdr. apply read_start_field_prefix; try assumption; try lia.
    apply Hbs; lia. }
  destruct (load_row fuel c bs (Tile.id t) n Hc Hf Hs Hhdr' Hbl Hn)
    as (T & Hload & K1 & K2 & K3 & K4 & K5 & K6 & Kslice & Ksound & _).
  exists (<[Tile.id t := (bs, 0)]> d), T.
  split.
  { unfold TileStore.commit, Tile.node_count.
    destruct (Tile.nextIndex t =? Tile.firstIndex t) eqn:E1; [apply Z.eqb_eq in E1; lia|].
    fold n. destruct (n =? 0) eqn:E2; [apply Z.eqb_eq in E2; lia|].
    rewrite HN, HW. fold L. rewrite subarray_prefix by lia. fold bs.
    unfold TileStorageProvider.create_tile, SQLite.insert. rewrite Hnone. reflexivity. }
  split.
  { unfold TileStore.get, mbind, TileStorageProvider.read_tile, SQLite.read.
    rewrite lookup_insert_eq. unfold mlift. rewrite Hload. reflexivity. }
  split; [exact K2|]. split; [congruence|]. split; [unfold n in K5; lia|].
  split.
  { rewrite K4, Hll. reflexivity. }
  assert (HancT : anc_ok fuel T).
  { revert Hload. unfold Tile.load.
    destruct (Tiles.read_start_field c bs) as [[h tileid]| |]; cbn [rbind];
      try discriminate.
    destruct (Tiles.max_tile_size fuel c tileid) as [size| |]; cbn [rbind];
      try discriminate.
    destruct (alloc size) as [d0| |]; cbn [rbind]; try discriminate.
    destruct (buf_set d0 bs 0) as [d1| |]; cbn [rbind]; try discriminate.
    destruct (negb _); [discriminate|].
    destruct (mmr_index fuel _) as [first| |]; cbn [rbind]; try discriminate.
    apply constructor_anc. }
  assert (Hmaps : Tile.ancestorPeaks T = Tile.ancestorPeaks t).
  { unfold anc_ok in Hanc, HancT. rewrite K3, <- Hfirst in HancT.
    destruct (0 <? Tile.firstIndex t); [|congruence].
    rewrite (read_ancestor_peaks_map_ext fuel _ (Tile.with_ancestorPeaks t ∅)) in HancT.
    - congruence.
    - cbn. congruence.
    - cbn. congruence.
    - cbn. lia. }
  intros j. destruct (Z_lt_ge_dec j (Tile.firstIndex t)) as [Hlt|Hge].
  - unfold Tile.get. rewrite K3, <- Hfirst, Hmaps.
    destruct (j <? Tile.firstIndex t) eqn:E; [|apply Z.ltb_ge in E; lia].
    destruct (Tile.ancestorPeaks t !! j) as [w|] eqn:Ew; [|reflexivity].
    rewrite <- Hmaps in Ew. destruct (Ksound j w Ew) as (k & Hk & _ & ->).
    apply lookup_lt_Some in Hk.
    pose proof (boundary_peaks_short (tileHeight c) (Tile.id t)) as Hshort.
    unfold Tile.view. cbn [fst snd]. f_equal.
    rewrite Kslice by lia. apply Hbs; lia.
  - destruct (Z_lt_ge_dec j (Tile.nextIndex t)) as [Hin|Hout].
    + rewrite !get_node_field; rewrite ?K1, ?K3, ?K5, ?K6, ?Hcfg, ?HW, ?HN, <- ?Hfirst;
        try lia.
      f_equal. rewrite Kslice by (unfold n in *; lia). apply Hbs; unfold n in *; lia.
    + unfold Tile.get. rewrite K3, K5, <- Hfirst.
      destruct (j <? Tile.firstIndex t) eqn:E; [apply Z.ltb_lt in E; lia|].
      destruct (Tile.firstIndex t + n <=? j) eqn:E1;
        [|apply Z.leb_gt in E1; unfold n in *; lia].
      destruct (Tile.nextIndex t <=? j) eqn:E2; [reflexivity|apply Z.leb_gt in E2; lia].
Qed.

(** X22.  A committed tile comes back.  For a tile the code produced, with
    at least one node, that is not yet in the table: [TileStore.commit]
    inserts it, [TileStore.get] of its id then loads a tile with the same
    id, first index, next index and last leaf index, and that tile answers
    every [get] as the committed tile did: node values, ancestor peaks and
    range errors alike.  The version [TileStore.get] returns is undefined. *)
Theorem commit_then_get fuel c t (d : SQLite.db) :
  cfg_ok c -> (64 <= fuel)%nat -> (forall b, blen (hash_function c b) = 32) ->
  reachable fuel c t -> (Tile.id t + 1) * 2 ^ tileHeight c < 2 ^ 29 ->
  Tile.firstIndex t < Tile.nextIndex t -> d !! Tile.id t = None ->
  exists d' t',
    TileStore.commit c t None d = (Ok tt, d')
    /\ TileStore.get fuel c (Tile.id t) d' = (Ok (t', None), d')
    /\ Tile.id t' = Tile.id t /\ Tile.firstIndex t' = Tile.firstIndex t
    /\ Tile.nextIndex t' = Tile.nextIndex t
    /\ Tile.lastLeafMMRIndex t' = Tile.lastLeafMMRIndex t
    /\ forall j, Tile.get t' j = Tile.get t j.
Proof.
  intros Hc Hf Hh Hr Hsmall Hne Hnone.
  apply commit_get_row; try assumption. apply reachable_ok; try assumption. lia.
Qed.

Lemma commit_then_get_witness :
  exists t0,
    fst (Tile.create 64 (test_cfg 1) None) = Ok t0
    /\ let t := snd (Tile.append_leaf 64 (num_field 0) t0) in
       exists d' t',
         TileStore.commit (test_cfg 1) t None ∅ = (Ok tt, d')
         /\ TileStore.get 64 (test_cfg 1) (Tile.id t) d' = (Ok (t', None), d')
         /\ Tile.id t' = Tile.id t /\ Tile.firstIndex t' = Tile.firstIndex t
         /\ Tile.nextIndex t' = Tile.nextIndex t
         /\ Tile.lastLeafMMRIndex t' = Tile.lastLeafMMRIndex t
         /\ forall j, Tile.get t' j = Tile.get t j.
Proof.
  eexists. split; [vm_compute; reflexivity|].
  apply (commit_then_get 64 (test_cfg 1)).
  - apply test_cfg_ok. lia.
  - lia.
  - apply prefix_hash_length.
  - apply reach_append_leaf; [|reflexivity].
    apply reach_create_first. vm_compute. reflexivity.
  - vm_compute. reflexivity.
  - vm_compute. reflexivity.
  - apply lookup_empty.
Defined.


(** ** Leaf counts and the tile of a leaf *)

Lemma leaf_count_loop_complete (k : nat) : forall e pm,
  0 <= e < 2 ^ Z.of_nat k ->
  Ideal.leaf_count_loop k (Ideal.mmr_index e) pm = pm * 2 ^ Z.of_nat k + e.
Proof.
  induction k as [|k IH]; intros e pm He.
  - change (2 ^ Z.of_nat 0) with 1 in *. assert (e = 0) by lia. subst e.
    rewrite ideal_mmr_index_0. cbn [Ideal.leaf_count_loop]. lia.
  - cbn [Ideal.leaf_count_loop].
    replace (Z.of_nat (S k)) with (Z.of_nat k + 1) in * by lia.
    rewrite pow2_succ in * by lia.
    pose proof (pow2_pos (Z.of_nat k) ltac:(lia)) as Hp.
    destruct (Z_lt_ge_dec e (2 ^ Z.of_nat k)) as [Hlt|Hge].
    + assert (Hm : Ideal.mmr_index e < 2 * 2 ^ Z.of_nat k - 1).
      { destruct (Z.eq_dec e 0) as [->|]; [rewrite ideal_mmr_index_0; lia|].
        pose proof (mmr_index_bounds e ltac:(lia)) as [_ H2].
        specialize (H2 ltac:(lia)). lia. }
      destruct (_ <=? _) eqn:E; [apply Z.leb_le in E; lia|].
      rewrite IH by lia. lia.
    + destruct (mmr_index_top e (Z.of_nat k) ltac:(lia)) as [Htop Hrest];
        [rewrite pow2_succ by lia; lia|].
      rewrite pow2_succ in Htop, Hrest by lia.
      destruct (_ <=? _) eqn:E; [|apply Z.leb_gt in E; lia].
      rewrite Htop.
      replace (2 * 2 ^ Z.of_nat k - 1 + Ideal.mmr_index (e - 2 ^ Z.of_nat k)
               - (2 * 2 ^ Z.of_nat k - 1))
        with (Ideal.mmr_index (e - 2 ^ Z.of_nat k)) by lia.
      rewrite IH by lia. lia.
Qed.

Lemma ideal_leaf_count_complete e :
  1 <= e -> Ideal.leaf_count (Ideal.mmr_index e - 1) = e.
Proof.
  intros He. unfold Ideal.leaf_count.
  replace (Ideal.mmr_index e - 1 + 1) with (Ideal.mmr_index e) by lia.
  pose proof (mmr_index_bounds e ltac:(lia)) as [Hle _].
  pose proof (Z.log2_nonneg (Ideal.mmr_index e)) as Hk.
  pose proof (log2_bounds (Ideal.mmr_index e) ltac:(lia)) as Hb.
  rewrite leaf_count_loop_complete.
  - lia.
  - rewrite Z2Nat.id by lia. lia.
Qed.

(** X25.  [leaf_count] inverts [mmr_index] on complete logs: the log that
    ends just before leaf [e] is added, [MMR(mmr_index (e) - 1)], has [e]
    leaves. *)
Theorem leaf_count_of_complete_log fuel e :
  1 <= e < 2 ^ 29 -> (32 <= fuel)%nat ->
  (let* m := mmr_index fuel e in leaf_count fuel (m - 1)) = Ok e.
Proof.
  intros He Hf. rewrite mmr_index_exact by lia. cbn [rbind].
  pose proof (mmr_index_bounds e ltac:(lia)) as [H1 H2]. specialize (H2 ltac:(lia)).
  rewrite leaf_count_exact by lia. f_equal. apply ideal_leaf_count_complete. lia.
Qed.

Lemma leaf_count_of_complete_log_witness :
  (let* m := mmr_index 64 21 in leaf_count 64 (m - 1)) = Ok 21.
Proof. apply (leaf_count_of_complete_log 64 21); lia. Defined.

(** X26.  [Tiles.get_tileid] names the tile of a leaf.  With a tile height
    of at least 1, the node of leaf [e] is sent to tile [e / leafCount], and
    that node does lie between the first index of that tile and the first
    index of the next one. *)
Theorem get_tileid_of_leaf fuel params c e :
  Tiles.format params = Ok c -> 1 <= tile_height params <= 29 ->
  0 <= e < 2 ^ 29 -> (32 <= fuel)%nat ->
  exists i first next,
    mmr_index fuel e = Ok i
    /\ Tiles.get_tileid fuel c i = Ok (e / leafCount c)
    /\ mmr_index fuel (e / leafCount c * leafCount c) = Ok first
    /\ mmr_index fuel ((e / leafCount c + 1) * leafCount c) = Ok next
    /\ first <= i < next.
Proof.
  intros Hfmt Hh He Hf.
  pose proof (format_cfg_ok _ _ Hfmt ltac:(lia)) as Hok.
  pose proof (format_layout _ _ Hfmt) as (_ & _ & _ & _ & HH & _).
  pose proof Hok as (HW & HP & HN & HM & HHr & HL). rewrite HL.
  set (h := tileHeight c) in *. assert (Hh1 : 1 <= h <= 29) by lia.
  pose proof (pow2_pos h ltac:(lia)) as Hp.
  pose proof (pow2_le_mono h 29 ltac:(lia)) as Hp29.
  pose proof (Z.div_mod e (2 ^ h) ltac:(lia)) as Hdm.
  pose proof (Z.mod_pos_bound e (2 ^ h) ltac:(lia)) as Hmb.
  assert (Hq : 0 <= e / 2 ^ h) by (apply Z.div_pos; lia).
  pose proof (mmr_index_bounds e ltac:(lia)) as [H1 H2].
  assert (Hi : Ideal.mmr_index e + 1 < 2 ^ 30).
  { destruct (Z.eq_dec e 0) as [->|]; [rewrite ideal_mmr_index_0; lia|].
    specialize (H2 ltac:(lia)). lia. }
  exists (Ideal.mmr_index e), (Ideal.mmr_index (e / 2 ^ h * 2 ^ h)),
    (Ideal.mmr_index ((e / 2 ^ h + 1) * 2 ^ h)).
  split; [apply mmr_index_exact; lia|]. split.
  - unfold Tiles.get_tileid. rewrite leaf_count_exact by lia. cbn [rbind].
    rewrite HL. fold h. rewrite ideal_leaf_count_mmr_index by lia. f_equal.
    unfold leaves_under_peaks. destruct (Z.even e) eqn:Ee; [|reflexivity].
    (* an even leaf index and an even tile size: e + 1 stays in the tile *)
    assert (Hev : Z.even (e mod 2 ^ h) = true).
    { replace (2 ^ h) with (2 * 2 ^ (h - 1)) in Hdm |- *
        by (rewrite <- pow2_succ by lia; f_equal; lia).
      replace (e mod (2 * 2 ^ (h - 1)))
        with (e - 2 * (2 ^ (h - 1) * (e / (2 * 2 ^ (h - 1))))) by lia.
      rewrite Z.even_sub, Ee, Z.even_mul. reflexivity. }
    assert (Hlt : e mod 2 ^ h + 1 < 2 ^ h).
    { destruct (Z.eq_dec (e mod 2 ^ h + 1) (2 ^ h)) as [E|]; [|lia].
      exfalso. assert (Hodd : Z.even (2 ^ h) = true) by (apply Z.even_pow; lia).
      rewrite <- E in Hodd. rewrite Z.even_add, Hev in Hodd. discriminate. }
    symmetry. apply (Z.div_unique _ _ _ (e mod 2 ^ h + 1)); lia.
  - split; [apply mmr_index_exact; nia|]. split; [apply mmr_index_exact; nia|].
    split.
    + apply mmr_index_le. nia.
    + apply mmr_index_lt. nia.
Qed.

Lemma get_tileid_of_leaf_witness :
  exists i first next,
    mmr_index 64 5 = Ok i
    /\ Tiles.get_tileid 64 (test_cfg 1) i = Ok (5 / leafCount (test_cfg 1))
    /\ mmr_index 64 (5 / leafCount (test_cfg 1) * leafCount (test_cfg 1)) = Ok first
    /\ mmr_index 64 ((5 / leafCount (test_cfg 1) + 1) * leafCount (test_cfg 1)) = Ok next
    /\ first <= i < next.
Proof.
  apply (get_tileid_of_leaf 64 (test_params 1) (test_cfg 1) 5);
    [reflexivity|cbn; lia|lia|lia].
Defined.


(** ** The first tile holds the log that [add_leaf_hash] builds *)

(** [holds F c t db]: the first tile [t] stores the nodes of the array log
    [db], and nothing more. *)
Definition holds (F : nat) (c : TileFormat) (t : Tile.t) (db : list bytes) : Prop :=
  tile_ok F c t /\ Tile.id t = 0 /\ Tile.nextIndex t = Z.of_nat (length db)
  /\ forall j v, node db j = Some v -> Tile.get t j = Ok v.

Lemma tile_first_0 c : tile_first c 0 = 0.
Proof. unfold tile_first. rewrite Z.mul_0_l. apply ideal_mmr_index_0. Qed.

Lemma node_app_inv db x j v :
  node (db ++ x) j = Some v -> j < Z.of_nat (length db) -> node db j = Some v.
Proof.
  intros H Hj. pose proof (node_lt _ _ _ H) as Hl. unfold node in *.
  destruct (j <? 0); [discriminate|]. rewrite nth_error_app1 in H by lia. exact H.
Qed.

Lemma holds_append F c t db v :
  cfg_ok c -> blen v = 32 -> holds F c t db -> Z.of_nat (length db) < tile_first c 1 ->
  exists t',
    Tile.append v t = (Ok (Z.of_nat (length (db ++ [v]))), t')
    /\ holds F c t' (db ++ [v]).
Proof.
  intros Hc Hv (Hok & Hid & Hnext & Hget) Hcap.
  pose proof Hc as (HW & HP & HN & _).
  pose proof Hok as ((Hcfg & _ & Hfirst & Hlen & Hrange) & _).
  rewrite Hid in Hfirst, Hlen. rewrite tile_first_0 in Hfirst, Hlen.
  change (0 + 1) with 1 in Hlen.
  destruct (append_get_spec v t) as [Hfit _];
    [rewrite Hcfg; exact HW|exact Hv|rewrite Hcfg, HN; lia|lia|].
  destruct Hfit as (t' & Happ & Hn' & Hf' & Hnew & Hold & _);
    [rewrite Hcfg, HN; lia|].
  exists t'. rewrite length_app. cbn [length].
  replace (Z.of_nat (length db + 1)) with (Tile.nextIndex t + 1) by lia.
  split; [exact Happ|].
  assert (Ht' : snd (Tile.append v t) = t') by (rewrite Happ; reflexivity).
  split; [rewrite <- Ht'; apply tile_ok_append; assumption|].
  split.
  { pose proof (append_same_frame t t v (same_frame_refl t)) as (_ & F2 & _).
    rewrite Ht' in F2. congruence. }
  split; [rewrite length_app; cbn [length]; lia|].
  intros j w Hj. pose proof (node_lt _ _ _ Hj) as Hl.
  rewrite length_app in Hl. cbn [length] in Hl.
  destruct (Z.eq_dec j (Z.of_nat (length db))) as [->|Hne].
  - rewrite node_last in Hj. injection Hj as <-. rewrite <- Hnext. exact Hnew.
  - apply node_app_inv in Hj; [|lia]. rewrite Hold by lia. apply Hget. exact Hj.
Qed.

Lemma array_loop_mono fuel hasher : forall i g (db : LeafAdder.t) r db',
  add_leaf_hash_loop fuel hasher i g db = (Ok r, db') ->
  (length db <= length db')%nat.
Proof.
  induction fuel as [|fuel IH]; intros i g db r db' H; [discriminate|].
  cbn [add_leaf_hash_loop] in H. unfold mbind, mlift, mret in H.
  destruct (index_height (S fuel) i) as [h| |]; try discriminate.
  destruct (g <? h).
  - cbn [adder_get adder_append LeafAdder.adder] in H. rewrite !get_node in H.
    destruct (node db (i - JS.shl 2 g)) as [vl|]; [|discriminate].
    destruct (node db (i - 1)) as [vr|]; [|discriminate].
    unfold LeafAdder.append in H. apply IH in H.
    rewrite length_app in H. cbn [length] in H. lia.
  - injection H as _ <-. lia.
Qed.

(** The loop of [add_leaf_hash] on the first tile does what it does on the
    array, as long as the nodes fit the tile. *)
Lemma loop_sim F c hasher fuel :
  cfg_ok c -> (forall b, blen (hasher b) = 32) ->
  forall i g t (db : LeafAdder.t) r db',
    holds F c t db ->
    add_leaf_hash_loop fuel hasher i g db = (Ok r, db') ->
    Z.of_nat (length db') <= tile_first c 1 ->
    exists t', add_leaf_hash_loop fuel hasher i g t = (Ok r, t') /\ holds F c t' db'.
Proof.
  intros Hc Hh. induction fuel as [|fuel IH]; intros i g t db r db' Hholds H Hcap;
    [discriminate|].
  pose proof (array_loop_mono _ _ _ _ _ _ _ H) as Hmono.
  cbn [add_leaf_hash_loop] in H |- *. unfold mbind, mlift, mret in H |- *.
  destruct (index_height (S fuel) i) as [h| |]; try discriminate.
  destruct (g <? h).
  - cbn [adder_get adder_append LeafAdder.adder Tile.adder] in H |- *.
    rewrite !get_node in H.
    destruct (node db (i - JS.shl 2 g)) as [vl|] eqn:El; [|discriminate].
    destruct (node db (i - 1)) as [vr|] eqn:Er; [|discriminate].
    unfold LeafAdder.append in H.
    pose proof Hholds as (_ & _ & _ & Hget).
    rewrite (Hget _ _ El), (Hget _ _ Er).
    pose proof (array_loop_mono _ _ _ _ _ _ _ H) as Hmono1.
    rewrite length_app in Hmono1. cbn [length] in Hmono1.
    destruct (holds_append F c t db (hash_pos_pair64 hasher (i + 1) vl vr) Hc (Hh _) Hholds
                ltac:(lia)) as (t1 & Happ & Hholds1).
    rewrite Happ. apply (IH _ _ t1 _ _ _ Hholds1 H Hcap).
  - injection H as <- <-. exists t. split; [reflexivity|exact Hholds].
Qed.

Lemma holds_append_leaf F fuel c t db e f :
  cfg_ok c -> tileHeight c <= 27 -> (forall b, blen (hash_function c b) = 32) ->
  holds F c t db -> Z.of_nat (length db) = Ideal.mmr_index e ->
  0 <= e < 2 ^ tileHeight c -> blen f = 32 -> (64 <= fuel)%nat ->
  exists ext t',
    add_leaf_hash fuel (hash_function c) f db
    = (Ok (Ideal.mmr_index (e + 1)), db ++ f :: ext)
    /\ Z.of_nat (length (db ++ f :: ext)) = Ideal.mmr_index (e + 1)
    /\ Tile.append_leaf fuel f t = (Ok (Ideal.mmr_index (e + 1)), t')
    /\ holds F c t' (db ++ f :: ext).
Proof.
  intros Hc H27 Hh Hholds Hlen He Hf Hfuel.
  pose proof Hc as (HW & HP & HN & HM & HH & HL).
  pose proof (pow2_le_mono (tileHeight c) 27 ltac:(lia)) as Hp27.
  pose proof (pow2_pos (tileHeight c) ltac:(lia)) as Hp.
  destruct (add_leaf_hash_total fuel (hash_function c) f db e ltac:(lia) Hlen ltac:(lia)
              Hfuel) as (ext & Hadd & Hlen1).
  exists ext.
  pose proof Hholds as (Hok & Hid & Hnext & Hget).
  pose proof Hok as ((Hcfg & _) & _ & _ & Hll).
  rewrite Hid in Hll. replace ((0 + 1) * 2 ^ tileHeight c - 1) with (2 ^ tileHeight c - 1)
    in Hll by lia.
  assert (Hcap1 : Ideal.mmr_index (e + 1) <= tile_first c 1).
  { unfold tile_first. apply mmr_index_le. lia. }
  assert (Hcap0 : Ideal.mmr_index e < tile_first c 1).
  { pose proof (mmr_index_lt e (e + 1) ltac:(lia)). lia. }
  pose proof Hadd as Harr. unfold add_leaf_hash, mbind in Harr.
  cbn [adder_append LeafAdder.adder] in Harr. unfold LeafAdder.append in Harr.
  destruct (holds_append F c t db f Hc Hf Hholds ltac:(lia)) as (t1 & Happ & Hholds1).
  destruct (loop_sim F c (hash_function c) fuel Hc Hh _ _ t1 _ _ _ Hholds1 Harr
              ltac:(lia)) as (t' & Hloop & Hholds').
  exists t'. split; [exact Hadd|]. split; [exact Hlen1|]. split; [|exact Hholds'].
  unfold Tile.append_leaf. rewrite Hll, Hnext, Hlen.
  pose proof (mmr_index_le e (2 ^ tileHeight c - 1) ltac:(lia)) as Hle.
  destruct (_ <? _) eqn:E; [apply Z.ltb_lt in E; lia|].
  unfold add_leaf_hash, mbind. cbn [adder_append Tile.adder].
  rewrite Hcfg, Happ. exact Hloop.
Qed.

(** The indices [append_leaf] returns for leaves [e], [e + 1], ... *)
Fixpoint next_indices (e : Z) (n : nat) : list Z :=
  match n with
  | O => []
  | S n' => Ideal.mmr_index (e + 1) :: next_indices (e + 1) n'
  end.

Lemma next_indices_lookup : forall n e (k : nat) i,
  next_indices e n !! k = Some i -> i = Ideal.mmr_index (e + Z.of_nat k + 1).
Proof.
  induction n as [|n IH]; intros e k i H; [discriminate|].
  cbn [next_indices] in H. destruct k as [|k].
  - change (Some (Ideal.mmr_index (e + 1)) = Some i) in H.
    injection H as <-. f_equal. lia.
  - change (next_indices (e + 1) n !! k = Some i) in H.
    apply IH in H. rewrite H. f_equal. lia.
Qed.

Lemma next_indices_length : forall n e, length (next_indices e n) = n.
Proof. induction n as [|n IH]; intros e; [reflexivity|]. cbn. rewrite IH. reflexivity. Qed.

Lemma append_loop_first_tile F fuel c :
  cfg_ok c -> tileHeight c <= 27 -> (forall b, blen (hash_function c b) = 32) ->
  (64 <= fuel)%nat ->
  forall leaves t db e version indices (d : SQLite.db),
    holds F c t db -> Z.of_nat (length db) = Ideal.mmr_index e -> 0 <= e ->
    e + Z.of_nat (length leaves) <= 2 ^ tileHeight c ->
    Forall (fun f => blen f = 32) leaves ->
    exists ext t',
      TileLog.append_loop fuel c leaves t version indices d
      = (Ok (indices ++ next_indices e (length leaves), t', version), d)
      /\ add_leaves fuel (hash_function c) leaves db = (Ok tt, db ++ ext)
      /\ holds F c t' (db ++ ext)
      /\ Z.of_nat (length (db ++ ext)) = Ideal.mmr_index (e + Z.of_nat (length leaves)).
Proof.
  intros Hc H27 Hh Hfuel.
  induction leaves as [|f rest IH]; intros t db e version indices d Hholds Hlen He Hn Hall.
  - exists [], t. cbn [TileLog.append_loop add_leaves next_indices length].
    rewrite !app_nil_r. unfold mret. cbn [Z.of_nat]. rewrite Z.add_0_r.
    split; [reflexivity|]. split; [reflexivity|]. split; [exact Hholds|exact Hlen].
  - cbn [length] in Hn. inversion Hall as [|f0 rest0 Hf Hrest]; subst.
    destruct (holds_append_leaf F fuel c t db e f Hc H27 Hh Hholds Hlen ltac:(lia) Hf
                Hfuel) as (ext1 & t1 & Hadd & Hlen1 & Hleaf & Hholds1).
    destruct (IH t1 (db ++ f :: ext1) (e + 1) version
                (indices ++ [Ideal.mmr_index (e + 1)]) d Hholds1 Hlen1 ltac:(lia)
                ltac:(lia) Hrest) as (ext2 & t' & Hloop & Hrestadd & Hholds' & Hlen').
    exists (f :: ext1 ++ ext2), t'.
    replace (db ++ f :: ext1 ++ ext2) with ((db ++ f :: ext1) ++ ext2)
      by (rewrite <- app_assoc; reflexivity).
    split.
    { cbn [TileLog.append_loop length next_indices]. unfold mbind at 1.
      unfold TileLog.append_one. rewrite Hleaf. unfold mret at 1.
      rewrite Hloop. rewrite <- app_assoc. reflexivity. }
    split.
    { cbn [add_leaves]. unfold mbind. rewrite Hadd. exact Hrestadd. }
    split; [exact Hholds'|]. rewrite Hlen'. f_equal. cbn [length]. lia.
Qed.

Lemma create_first_total fuel c :
  cfg_ok c -> (33 <= fuel)%nat -> exists t0, fst (Tile.create fuel c None) = Ok t0.
Proof.
  intros Hc Hf. pose proof Hc as (HW & HP & HN & HM & HH & HL).
  pose proof (first_tile_in_range c Hc) as Hr.
  unfold Tile.create. rewrite (max_tile_size_exact fuel c 0 Hc Hr Hf). cbn [rbind].
  pose proof (tile_first_mono c 0 (0 + 1) ltac:(lia) ltac:(lia)) as Hmono.
  set (size := 2080 + (tile_first c (0 + 1) - tile_first c 0) * 32) in *.
  unfold alloc. destruct (size <? 0) eqn:E; [apply Z.ltb_lt in E; unfold size in E; lia|].
  cbn [rbind].
  destruct (write_start_field_read c (zeros size) 0 HW) as (d & Ew & _);
    [unfold JS.MAX_SAFE_INTEGER; lia..|rewrite blen_zeros; unfold size; lia|].
  rewrite Ew. cbn [fst]. unfold Tile.constructor.
  rewrite Z.mul_0_l. rewrite mmr_index_exact by lia. cbn [rbind].
  rewrite ideal_mmr_index_0. cbn [Z.ltb Z.compare].
  pose proof (pow2_pos (tileHeight c) ltac:(lia)) as Hp.
  pose proof (pow2_le_mono (tileHeight c) 29 ltac:(lia)) as Hp29.
  rewrite shl_1 by lia. rewrite mmr_index_exact by lia. cbn [rbind].
  eexists. reflexivity.
Qed.

(** X27.  Appending to an empty log.  For a batch of 32 byte leaves that
    fits the first tile, [TileLog.append] on the empty log succeeds, returns
    for the k-th leaf the index of the next leaf, [mmr_index (k + 1)], and
    stores tile 0; the tile that [TileLog.get_tile] then loads holds, node
    for node, the log that [add_leaf_hash] builds from the same leaves on an
    array. *)
Theorem append_to_empty_log fuel params c leaves :
  Tiles.format params = Ok c -> 0 <= tile_height params <= 27 ->
  (forall b, blen (hash_function c b) = 32) ->
  Forall (fun f => blen f = 32) leaves ->
  1 <= Z.of_nat (length leaves) <= leafCount c -> (64 <= fuel)%nat ->
  exists indices log' db t,
    TileLog.append fuel c leaves empty_log = (Ok indices, log')
    /\ length indices = length leaves
    /\ (forall (k : nat) i, indices !! k = Some i ->
          mmr_index fuel (Z.of_nat k + 1) = Ok i)
    /\ add_leaves fuel (hash_function c) leaves [] = (Ok tt, db)
    /\ TileLog.get_tile fuel c 0 log' = (Ok t, log')
    /\ Tile.nextIndex t = Z.of_nat (length db)
    /\ forall j v, node db j = Some v -> Tile.get t j = Ok v.
Proof.
  intros Hfmt Hh Hhash Hall Hn Hfuel.
  pose proof (format_cfg_ok _ _ Hfmt ltac:(lia)) as Hc.
  pose proof (format_layout _ _ Hfmt) as (_ & _ & _ & _ & HH & _).
  pose proof Hc as (HW & HP & HN & HM & HHr & HL). rewrite HL in Hn.
  assert (H27 : tileHeight c <= 27) by lia.
  pose proof (pow2_le_mono (tileHeight c) 27 ltac:(lia)) as Hp27.
  destruct (create_first_total fuel c Hc ltac:(lia)) as (t0 & Hcreate).
  pose proof (tile_ok_create fuel c None t0 Hc ltac:(lia) (first_tile_in_range c Hc)
                Hcreate) as Hok0.
  destruct (create_inv fuel c None t0 Hc ltac:(lia) (first_tile_in_range c Hc) Hcreate)
    as (Hinv0 & Hn0 & Hid0).
  assert (Hholds0 : holds fuel c t0 []).
  { split; [exact Hok0|]. split; [exact Hid0|]. split.
    - destruct Hinv0 as (_ & _ & Hfirst & _). rewrite Hn0, Hfirst, Hid0, tile_first_0.
      reflexivity.
    - intros j v Hj. apply node_lt in Hj. cbn [length] in Hj. lia. }
  destruct (append_loop_first_tile fuel fuel c Hc H27 Hhash Hfuel leaves t0 [] 0 None []
              (∅ : SQLite.db) Hholds0 ltac:(rewrite ideal_mmr_index_0; reflexivity)
              ltac:(lia) ltac:(lia) Hall)
    as (db & t' & Hloop & Hadd & Hholds' & Hlen').
  cbn [app] in *. rewrite Z.add_0_l in Hlen'.
  pose proof Hholds' as (Hok' & Hid' & Hnext' & Hget').
  pose proof Hok' as ((_ & _ & Hfirst' & _) & _).
  rewrite Hid', tile_first_0 in Hfirst'.
  pose proof (mmr_index_bounds (Z.of_nat (length leaves)) ltac:(lia)) as [Hb1 _].
  destruct (commit_get_row fuel c t' ∅ Hc Hfuel Hok') as (d' & T & Hcommit & Hgetrow
                                                          & K2 & K3 & K5 & _ & Kget).
  { rewrite Hid'. pose proof (pow2_pos (tileHeight c) ltac:(lia)).
    change (2 ^ 29) with (4 * 2 ^ 27). lia. }
  { lia. }
  { apply lookup_empty. }
  rewrite Hid' in Hgetrow.
  exists (next_indices 0 (length leaves)), (TileLog.with_store empty_log d'), db, T.
  split.
  { unfold TileLog.append, TileLog.on_store. cbn [TileLog.store empty_log].
    unfold mbind at 1. unfold TileStore.head, TileStorageProvider.read_head, SQLite.read_head.
    unfold SQLite.last_row. rewrite map_fold_empty.
    unfold TileStore.create. rewrite Hcreate. cbn [rbind].
    unfold mbind at 1. rewrite Hloop. unfold mbind at 1. rewrite Hcommit.
    reflexivity. }
  split; [apply next_indices_length|]. split.
  { intros k i Hk. pose proof (lookup_lt_Some _ _ _ Hk) as Hlt.
    rewrite next_indices_length in Hlt.
    apply next_indices_lookup in Hk. subst i. rewrite Z.add_0_l.
    apply mmr_index_exact; lia. }
  split; [exact Hadd|]. split.
  { unfold TileLog.get_tile, TileLog.on_store. cbn [TileLog.store TileLog.with_store].
    unfold mbind. rewrite Hgetrow. reflexivity. }
  split; [lia|].
  intros j v Hj. rewrite Kget. apply Hget'. exact Hj.
Qed.

Lemma append_to_empty_log_witness :
  exists indices log' db t,
    TileLog.append 64 (test_cfg 1) [num_field 0; num_field 1] empty_log = (Ok indices, log')
    /\ length indices = length [num_field 0; num_field 1]
    /\ (forall (k : nat) i, indices !! k = Some i ->
          mmr_index 64 (Z.of_nat k + 1) = Ok i)
    /\ add_leaves 64 (hash_function (test_cfg 1)) [num_field 0; num_field 1] []
       = (Ok tt, db)
    /\ TileLog.get_tile 64 (test_cfg 1) 0 log' = (Ok t, log')
    /\ Tile.nextIndex t = Z.of_nat (length db)
    /\ forall j v, node db j = Some v -> Tile.get t j = Ok v.
Proof.
  apply (append_to_empty_log 64 (test_params 1) (test_cfg 1)).
  - reflexivity.
  - cbn. lia.
  - apply prefix_hash_length.
  - repeat constructor.
  - vm_compute. split; discriminate.
  - lia.
Defined.
